(** * Variable subsystem of scipp: dimensions, strided views, slicing copy,
      concatenation, reductions, rebinning and sparse/dense arithmetic.

    The development follows the sources function by function.  Element
    buffers are lists, flat positions and extents are integers ([Z], as
    [gsl::index] in the sources), and an access outside a buffer, which the
    C++ code leaves undefined, ends the computation with [out_of_range]. *)

From Stdlib Require Import ZArith Floats Lia List String.
From stdpp Require Import base tactics option list list_numbers sorting strings.
Import ListNotations.
Local Open Scope string_scope.
Local Open Scope list_scope.
Local Open Scope Z_scope.

(** ** Exceptions and the result monad *)

Inductive exception : Type :=
| runtime_error (what : string)
| bad_cast
| DimensionError (what : string)
| SliceError
| UnitError (what : string)
| VariancesError (what : string)
| division_by_zero
| out_of_range.

Definition result (A : Type) : Type := (exception + A)%type.

Definition ret {A} (a : A) : result A := inr a.
Definition throw {A} (e : exception) : result A := inl e.
Definition bind {A B} (m : result A) (k : A -> result B) : result B :=
  match m with
  | inl e => inl e
  | inr a => k a
  end.

Notation "x <- m ;; k" := (bind m (fun x => k))
  (at level 20, m at level 99, k at level 200, only parsing).

Definition succeeds {A} (m : result A) : Prop := exists a, m = inr a.
Definition throws {A} (m : result A) : Prop := exists e, m = inl e.

(** ** Dimension labels *)

Module Dim.
Inductive t : Set := Invalid | X | Y | Z | Tof | Detector | Row.

#[global] Instance eq_dec : EqDecision t.
Proof. solve_decision. Defined.
End Dim.

(** ** Dimensions *)

(** Modelled from the spec: class [Dimensions] (dimensions.h, dimensions.cpp)
    is not among the sources.  It is the ordered association of labels to
    extents of section 3.2.  The 2018 sources keep the labels innermost
    first: [label(0)] is the inner dimension in [rebin], and in the test
    [VariableView.subvolume] the first label of [{{X,2},{Y,4}}] has stride 1.
    The list below is in that storage order, so [add], which appends, makes
    the new label the outermost axis.  [outer_first] gives the order in which
    the spec writes dimensions. *)
Module Dimensions.

Abbreviation t := (list (Dim.t * Z)).

Definition labels (d : t) : list Dim.t := d.*1.
Definition shape (d : t) : list Z := d.*2.
Definition count (d : t) : Z := Z.of_nat (length d).
Definition outer_first (d : t) : t := rev d.

Fixpoint volume (d : t) : Z :=
  match d with
  | [] => 1
  | (_, n) :: outer => n * volume outer
  end.

Fixpoint contains (d : t) (label : Dim.t) : bool :=
  match d with
  | [] => false
  | (l, _) :: outer => if decide (l = label) then true else contains outer label
  end.

(** Extent of [label]; a missing label is an error. *)
Fixpoint size (d : t) (label : Dim.t) : result Z :=
  match d with
  | [] => throw (DimensionError "Dimension not found.")
  | (l, n) :: outer => if decide (l = label) then ret n else size outer label
  end.

(** Stride of [label]: the product of the extents of the axes inside it. *)
Fixpoint offset (d : t) (label : Dim.t) : Z :=
  match d with
  | [] => 1
  | (l, n) :: outer => if decide (l = label) then 1 else n * offset outer label
  end.

Definition label (d : t) (i : nat) : Dim.t :=
  match d !! i with
  | Some (l, _) => l
  | None => Dim.Invalid
  end.

Definition add (d : t) (label : Dim.t) (n : Z) : result t :=
  if contains d label then throw (DimensionError "Duplicate dimension.")
  else if n <? 0 then throw (DimensionError "Dimension size cannot be negative.")
  else ret (d ++ [(label, n)]).

Fixpoint resize (d : t) (label : Dim.t) (n : Z) : result t :=
  match d with
  | [] => throw (DimensionError "Dimension not found.")
  | (l, m) :: outer =>
      if decide (l = label) then
        if n <? 0 then throw (DimensionError "Dimension size cannot be negative.")
        else ret ((l, n) :: outer)
      else
        outer' <- resize outer label n ;; ret ((l, m) :: outer')
  end.

Fixpoint erase (d : t) (label : Dim.t) : result t :=
  match d with
  | [] => throw (DimensionError "Dimension not found.")
  | (l, m) :: outer =>
      if decide (l = label) then ret outer
      else outer' <- erase outer label ;; ret ((l, m) :: outer')
  end.

(** Modelled from the spec: [operator==] holds for the same labels with
    the same extents.  The order of the axes is not compared (section 4.3:
    two Variables are equal when
    their dims agree "in any order that is a permutation"; section 4.2:
    "equal modulo ordering"; where the order matters the spec says so, as
    in "[L == R] (including order)" of section 4.4, which the sources test
    with [isContiguousIn]). *)
Definition eqb (a b : t) : bool := bool_decide (a ≡ₚ b).

(** [contains(const Dimensions &)]: every label of [other], with its
    extent, is in [d]; the order is not compared. *)
Definition contains_dims (d other : t) : bool :=
  forallb (fun p : Dim.t * Z => bool_decide (p ∈ d)) other.

(** [d] is a contiguous block of [parent]: the labels of [d] are the
    innermost labels of [parent] in the same order, with the same extents
    except that the outermost of [d] may be shorter. *)
Fixpoint isContiguousIn (d parent : t) : bool :=
  match d, parent with
  | [], _ => true
  | (l, n) :: [], (l', n') :: _ => bool_decide (l = l') && (n <=? n')
  | (l, n) :: outer, (l', n') :: outer' =>
      bool_decide (l = l') && (n =? n') && isContiguousIn outer outer'
  | _ :: _, [] => false
  end.

End Dimensions.

(** ** Strided views *)

(** Modelled from the spec: class [VariableView] (variable_view.h) with its
    multi-index is not among the sources.  Section 4.1: every axis of the
    target dimensions has an extent, a stride (that of the parent for the
    same label, 0 for a label the parent lacks) and a cursor; iteration is
    in lexicographic order of the cursors, the innermost moving fastest.
    A view is the list of the flat positions it visits, in that order. *)
Module VariableView.

(** All cursor positions of a shape, innermost first in each position and
    innermost varying fastest in the enumeration. *)
Fixpoint indices (shape : list Z) : list (list Z) :=
  match shape with
  | [] => [[]]
  | n :: outer =>
      o ← indices outer; (fun i => i :: o) <$> seqZ 0 n
  end.

Fixpoint dot (index strides : list Z) : Z :=
  match index, strides with
  | i :: index', s :: strides' => i * s + dot index' strides'
  | _, _ => 0
  end.

Definition stride (parent : Dimensions.t) (label : Dim.t) : Z :=
  if Dimensions.contains parent label then Dimensions.offset parent label else 0.

Definition strides (target parent : Dimensions.t) : list Z :=
  stride parent <$> Dimensions.labels target.

Abbreviation t := (list Z).

Definition offsets (base : Z) (target parent : Dimensions.t) : t :=
  (fun index => base + dot index (strides target parent))
    <$> indices (Dimensions.shape target).

(** A target axis that is not broadcast must fit in the parent. *)
Definition fits (target parent : Dimensions.t) : bool :=
  forallb (fun p : Dim.t * Z =>
             match Dimensions.size parent p.1 with
             | inr n => p.2 <=? n
             | inl _ => true
             end) target.

Definition makeVariableView (base : Z) (target parent : Dimensions.t) : result t :=
  if fits target parent then ret (offsets base target parent)
  else throw (runtime_error "Cannot broadcast/slice dimension since data has mismatching but smaller dimension extent.").

End VariableView.

(** ** Typed storage: [VariableConceptT<T>], [DataModel<T>], [ViewModel<T>] *)

(** What a [ViewModel] keeps of its [VariableView]: the dimensions of the
    buffer it looks into, the position of its first element, and whether
    the element type is const. *)
Record ViewInfo : Type := mkViewInfo {
  parentDimensions : Dimensions.t;
  m_offset : Z;
  isConst : bool
}.

Section VariableConceptT.
Context {T : Type}.

(** A concept is its dimensions and the buffer it works on: its own
    [m_model] for a [DataModel] ([m_view = None]), the buffer of the
    variable it was sliced from for a [ViewModel]. *)
Record VariableConceptT : Type := mkConcept {
  dimensions : Dimensions.t;
  m_model : list T;
  m_view : option ViewInfo
}.

Definition isView (c : VariableConceptT) : bool :=
  match m_view c with Some _ => true | None => false end.

Definition isConstView (c : VariableConceptT) : bool :=
  match m_view c with Some v => isConst v | None => false end.

Definition isContiguous (c : VariableConceptT) : bool :=
  match m_view c with
  | Some v => Dimensions.isContiguousIn (dimensions c) (parentDimensions v)
  | None => true
  end.

(** [size()]: the length of the vector, or the volume of the view. *)
Definition size (c : VariableConceptT) : Z :=
  match m_view c with
  | Some _ => Dimensions.volume (dimensions c)
  | None => Z.of_nat (length (m_model c))
  end.

(** [m_model.data()] as a position in the buffer. *)
Definition data (c : VariableConceptT) : Z :=
  match m_view c with
  | Some v => m_offset v
  | None => 0
  end.

Definition requireMutable (c : VariableConceptT) : result unit :=
  if isConstView c
  then throw (runtime_error "View is const, cannot get mutable range of data.")
  else ret tt.

Definition requireContiguous (c : VariableConceptT) : result unit :=
  if isContiguous c then ret tt
  else throw (runtime_error "View is not contiguous, cannot get contiguous range of data.").

Definition read (buf : list T) (i : Z) : result T :=
  if 0 <=? i then
    match buf !! Z.to_nat i with
    | Some x => ret x
    | None => throw out_of_range
    end
  else throw out_of_range.

Definition write (buf : list T) (i : Z) (x : T) : result (list T) :=
  if (0 <=? i) && (i <? Z.of_nat (length buf)) then ret (<[Z.to_nat i := x]> buf)
  else throw out_of_range.

(** [makeSpan]: a span is the list of the positions between its two ends. *)
Definition makeSpan (c : VariableConceptT) (dims : Dimensions.t) (dim : Dim.t)
    (begin end_ : Z) : result (list Z) :=
  if negb (Dimensions.contains dims dim)
     && (negb (begin =? 0) || negb (end_ =? 1)) then
    throw (runtime_error "VariableConcept: Slice index out of range.")
  else if negb (Dimensions.contains dims dim) then
    ret (seqZ (data c) (size c))
  else
    n <- Dimensions.size dims dim ;;
    if n =? end_ - begin then ret (seqZ (data c) (size c))
    else
      let beginOffset := begin * Dimensions.offset dims dim in
      let endOffset := end_ * Dimensions.offset dims dim in
      ret (seqZ (data c + beginOffset) (endOffset - beginOffset)).

(** [getSpan() const] and [getSpan(dim, begin, end) const]. *)
Definition getSpan_const (c : VariableConceptT) : result (list Z) :=
  match m_view c with
  | Some _ => _ <- requireContiguous c ;; ret (seqZ (data c) (size c))
  | None => ret (seqZ 0 (size c))
  end.

Definition getSpan_range_const (c : VariableConceptT) (dim : Dim.t)
    (begin end_ : Z) : result (list Z) :=
  match m_view c with
  | Some _ => _ <- requireContiguous c ;; makeSpan c (dimensions c) dim begin end_
  | None => makeSpan c (dimensions c) dim begin end_
  end.

(** The overloads that hand out mutable ranges. *)
Definition getSpan (c : VariableConceptT) : result (list Z) :=
  match m_view c with
  | Some _ => _ <- requireMutable c ;; getSpan_const c
  | None => getSpan_const c
  end.

Definition getSpan_range (c : VariableConceptT) (dim : Dim.t)
    (begin end_ : Z) : result (list Z) :=
  match m_view c with
  | Some _ => _ <- requireMutable c ;; getSpan_range_const c dim begin end_
  | None => getSpan_range_const c dim begin end_
  end.

(** [getView(dims) const]: on a [DataModel],
    [makeVariableView(m_model.data(), 0, dims, dimensions())]; on a
    [ViewModel] the view [{m_model, dims}], which keeps parent and offset. *)
Definition getView_const (c : VariableConceptT) (dims : Dimensions.t)
    : result VariableView.t :=
  match m_view c with
  | Some v => VariableView.makeVariableView (m_offset v) dims (parentDimensions v)
  | None => VariableView.makeVariableView 0 dims (dimensions c)
  end.

(** [getView(dims, dim, begin) const]. *)
Definition getView_at_const (c : VariableConceptT) (dims : Dimensions.t)
    (dim : Dim.t) (begin : Z) : result VariableView.t :=
  match m_view c with
  | Some v =>
      let offset :=
        if negb (begin =? 0) || negb (bool_decide (dim = Dim.Invalid))
        then m_offset v + begin * Dimensions.offset (parentDimensions v) dim
        else m_offset v in
      VariableView.makeVariableView offset dims (parentDimensions v)
  | None =>
      let beginOffset :=
        if Dimensions.contains (dimensions c) dim
        then begin * Dimensions.offset (dimensions c) dim
        else begin * Dimensions.volume (dimensions c) in
      VariableView.makeVariableView beginOffset dims (dimensions c)
  end.

Definition getView (c : VariableConceptT) (dims : Dimensions.t)
    : result VariableView.t :=
  match m_view c with
  | Some _ => _ <- requireMutable c ;; getView_const c dims
  | None => getView_const c dims
  end.

Definition getView_at (c : VariableConceptT) (dims : Dimensions.t)
    (dim : Dim.t) (begin : Z) : result VariableView.t :=
  match m_view c with
  | Some _ => _ <- requireMutable c ;; getView_at_const c dims dim begin
  | None => getView_at_const c dims dim begin
  end.

(** [makeView(dim, begin, end)]: the slice [(dim, begin, end)] as a
    [ViewModel]; [end == -1] drops the dimension. *)
Definition makeView_slice (c : VariableConceptT) (dim : Dim.t) (begin end_ : Z)
    (const : bool) : result VariableConceptT :=
  dims <- (if end_ =? -1 then Dimensions.erase (dimensions c) dim
           else Dimensions.resize (dimensions c) dim (end_ - begin)) ;;
  _ <- getView_at_const c dims dim begin ;;
  let const := const || isConstView c in
  match m_view c with
  | Some v =>
      let offset :=
        if negb (begin =? 0) || negb (bool_decide (dim = Dim.Invalid))
        then m_offset v + begin * Dimensions.offset (parentDimensions v) dim
        else m_offset v in
      ret (mkConcept dims (m_model c)
             (Some (mkViewInfo (parentDimensions v) offset const)))
  | None =>
      let beginOffset :=
        if Dimensions.contains (dimensions c) dim
        then begin * Dimensions.offset (dimensions c) dim
        else begin * Dimensions.volume (dimensions c) in
      ret (mkConcept dims (m_model c)
             (Some (mkViewInfo (dimensions c) beginOffset const)))
  end.

(** [std::copy(source.begin(), source.end(), target.begin())] where
    [source] ranges over the buffer [src] and [target] over [dst]. *)
Fixpoint std_copy (src : list T) (source target : list Z) (dst : list T)
    : result (list T) :=
  match source with
  | [] => ret dst
  | s :: source' =>
      match target with
      | [] => throw out_of_range
      | t :: target' =>
          x <- read src s ;;
          dst' <- write dst t x ;;
          std_copy src source' target' dst'
      end
  end.

(** [std::transform(a.begin(), a.end(), b.begin(), a.begin(), op)]:
    the cells of [a] are updated one after the other, so a cell that the
    view [as_] visits again accumulates. *)
Fixpoint std_transform (op : T -> T -> T) (b : list T) (as_ bs : list Z)
    (a : list T) : result (list T) :=
  match as_ with
  | [] => ret a
  | p :: as' =>
      match bs with
      | [] => throw out_of_range
      | q :: bs' =>
          x <- read a p ;;
          y <- read b q ;;
          a' <- write a p (op x y) ;;
          std_transform op b as' bs' a'
      end
  end.

(** [std::equal(first1, last1, first2, last2)]. *)
Fixpoint std_equal (eqb : T -> T -> bool) (a b : list T) (as_ bs : list Z)
    : result bool :=
  match as_, bs with
  | [], [] => ret true
  | p :: as', q :: bs' =>
      x <- read a p ;;
      y <- read b q ;;
      if eqb x y then std_equal eqb a b as' bs' else ret false
  | _, _ => ret false
  end.

Definition with_model (c : VariableConceptT) (model : list T) : VariableConceptT :=
  mkConcept (dimensions c) model (m_view c).

(** [VariableConceptT::copy]. *)
Definition copy (this other : VariableConceptT) (dim : Dim.t)
    (offset otherBegin otherEnd : Z) : result VariableConceptT :=
  let delta := otherEnd - otherBegin in
  iterDims <- (if Dimensions.contains (dimensions this) dim
               then Dimensions.resize (dimensions this) dim delta
               else ret (dimensions this)) ;;
  otherView <- getView_at_const other iterDims dim otherBegin ;;
  (* Four cases for minimizing use of VariableView *)
  if isContiguous this && Dimensions.isContiguousIn iterDims (dimensions this) then
    target <- getSpan_range this dim offset (offset + delta) ;;
    if isContiguous other && Dimensions.isContiguousIn iterDims (dimensions other) then
      source <- getSpan_range_const other dim otherBegin otherEnd ;;
      model <- std_copy (m_model other) source target (m_model this) ;;
      ret (with_model this model)
    else
      model <- std_copy (m_model other) otherView target (m_model this) ;;
      ret (with_model this model)
  else
    view <- getView_at this iterDims dim offset ;;
    if isContiguous other && Dimensions.isContiguousIn iterDims (dimensions other) then
      source <- getSpan_range_const other dim otherBegin otherEnd ;;
      model <- std_copy (m_model other) source view (m_model this) ;;
      ret (with_model this model)
    else
      model <- std_copy (m_model other) otherView view (m_model this) ;;
      ret (with_model this model).

(** [ArithmeticHelper<Op, T>::apply(a, b)] for an arithmetic [T]. *)
Definition ArithmeticHelper_apply (op : T -> T -> T) (this other : VariableConceptT)
    (a b : list Z) : result VariableConceptT :=
  model <- std_transform op (m_model other) a b (m_model this) ;;
  ret (with_model this model).

(** [VariableConceptT::apply<Op>], after the cast of [other] to the
    element type of [this] has succeeded.  [helper] is the
    [ArithmeticHelper] of the element type. *)
Definition apply
    (helper : VariableConceptT -> VariableConceptT -> list Z -> list Z ->
              result VariableConceptT)
    (this other : VariableConceptT) : result VariableConceptT :=
  if isContiguous this && Dimensions.contains_dims (dimensions this) (dimensions other) then
    if isContiguous other
       && Dimensions.isContiguousIn (dimensions this) (dimensions other) then
      a <- getSpan this ;; b <- getSpan_const other ;; helper this other a b
    else
      a <- getSpan this ;; b <- getView_const other (dimensions this) ;;
      helper this other a b
  else if Dimensions.contains_dims (dimensions this) (dimensions other) then
    if isContiguous other
       && Dimensions.isContiguousIn (dimensions this) (dimensions other) then
      a <- getView this (dimensions this) ;; b <- getSpan_const other ;;
      helper this other a b
    else
      a <- getView this (dimensions this) ;;
      b <- getView_const other (dimensions this) ;;
      helper this other a b
  else
    (* LHS has fewer dimensions than RHS, e.g., for computing sum. Use view. *)
    if isContiguous other
       && Dimensions.isContiguousIn (dimensions this) (dimensions other) then
      a <- getView this (dimensions other) ;; b <- getSpan_const other ;;
      helper this other a b
    else
      a <- getView this (dimensions other) ;;
      b <- getView_const other (dimensions other) ;;
      helper this other a b.

(** [VariableConceptT::operator==], after the cast of [other]. *)
Definition equals_concept (eqb : T -> T -> bool) (this other : VariableConceptT)
    : result bool :=
  if negb (Dimensions.eqb (dimensions this) (dimensions other)) then ret false
  else if isContiguous this then
    if isContiguous other
       && Dimensions.isContiguousIn (dimensions this) (dimensions other) then
      a <- getSpan_const this ;; b <- getSpan_const other ;;
      std_equal eqb (m_model this) (m_model other) a b
    else
      a <- getSpan_const this ;; b <- getView_const other (dimensions this) ;;
      std_equal eqb (m_model this) (m_model other) a b
  else
    if isContiguous other
       && Dimensions.isContiguousIn (dimensions this) (dimensions other) then
      a <- getView_const this (dimensions this) ;; b <- getSpan_const other ;;
      std_equal eqb (m_model this) (m_model other) a b
    else
      a <- getView_const this (dimensions this) ;;
      b <- getView_const other (dimensions this) ;;
      std_equal eqb (m_model this) (m_model other) a b.

End VariableConceptT.

Arguments VariableConceptT : clear implicits.

(** ** Element types *)

(** The arithmetic the templates use on an element type.  [divides]
    ends with [division_by_zero] where the division of the type traps. *)
Class Arithmetic (T : Type) : Type := {
  zero : T;
  plus : T -> T -> T;
  minus : T -> T -> T;
  multiplies : T -> T -> T;
  divides : T -> T -> result T;
  less : T -> T -> bool;
  less_equal : T -> T -> bool;
  equal_to : T -> T -> bool
}.

(** [double] is the binary64 format of IEEE 754, with the operations and
    comparisons of the primitive floating-point numbers: results are
    rounded to nearest, a division by zero gives an infinity or NaN, and
    every comparison with NaN is false. *)
Abbreviation double := PrimFloat.float (only parsing).

#[global] Instance Arithmetic_double : Arithmetic double := {
  zero := 0%float;
  plus := PrimFloat.add;
  minus := PrimFloat.sub;
  multiplies := PrimFloat.mul;
  divides := fun a b => ret (PrimFloat.div a b);
  less := PrimFloat.ltb;
  less_equal := PrimFloat.leb;
  equal_to := PrimFloat.eqb
}.

(** [int64_t] is an integer in [[-2^63, 2^63)].  The sources leave a
    signed overflow undefined; the model wraps around, as the two's
    complement arithmetic of the target does.  [/] truncates, and traps for
    the divisor 0 and for [INT64_MIN / -1]. *)
Definition int64_min : Z := - 2 ^ 63.
Definition int64_max : Z := 2 ^ 63 - 1.

Definition wrap (z : Z) : Z := (z + 2 ^ 63) `mod` 2 ^ 64 - 2 ^ 63.

#[global] Instance Arithmetic_int64 : Arithmetic Z := {
  zero := 0;
  plus := fun a b => wrap (a + b);
  minus := fun a b => wrap (a - b);
  multiplies := fun a b => wrap (a * b);
  divides := fun a b =>
    if (b =? 0) || ((a =? int64_min) && (b =? -1)) then throw division_by_zero
    else ret (a `quot` b);
  less := Z.ltb;
  less_equal := Z.leb;
  equal_to := Z.eqb
}.

(** The conversion of a [gsl::index] to [double]. *)
Definition double_of_index (n : Z) : double := PrimFloat.of_uint63 (Uint63.of_Z n).

Inductive Op : Set := std_plus | std_minus | std_multiplies.

Definition Op_fun {T} `{Arithmetic T} (op : Op) : T -> T -> T :=
  match op with
  | std_plus => plus
  | std_minus => minus
  | std_multiplies => multiplies
  end.

(** ** Rebinning kernels: [RebinHelper<T>] *)

Section RebinHelper.
Context {T : Type} `{Arithmetic T}.

(** The body of the [while] loop of [rebinInner] for one row; [fuel]
    bounds the number of iterations of the model ([None] when it runs
    out, which [rebinInner_row_total] excludes). *)
Fixpoint rebinInner_while (fuel : nat) (xold xnew oldData : list T)
    (oldSize newSize oldOffset newOffset iold inew : Z) (newData : list T)
    : option (result (list T)) :=
  if (iold <? oldSize) && (inew <? newSize) then
    match fuel with
    | O => None
    | S fuel' =>
        let continue := rebinInner_while fuel' xold xnew oldData
                          oldSize newSize oldOffset newOffset in
        match read xold iold, read xold (iold + 1),
              read xnew inew, read xnew (inew + 1) with
        | inr xo_low, inr xo_high, inr xn_low, inr xn_high =>
            if less_equal xn_high xo_low then
              continue iold (inew + 1) newData (* old and new bins do not overlap *)
            else if less_equal xo_high xn_low then
              continue (iold + 1) inew newData (* old and new bins do not overlap *)
            else
              (* delta is the overlap of the bins on the x axis *)
              let delta := if less xo_high xn_high then xo_high else xn_high in
              let delta := minus delta (if less xn_low xo_low then xo_low else xn_low) in
              let owidth := minus xo_high xo_low in
              match read newData (newOffset + inew),
                    read oldData (oldOffset + iold) with
              | inr n, inr o =>
                  match (q <- divides (multiplies o delta) owidth ;;
                         write newData (newOffset + inew) (plus n q)) with
                  | inr newData' =>
                      if less xo_high xn_high then continue (iold + 1) inew newData'
                      else continue iold (inew + 1) newData'
                  | inl e => Some (inl e)
                  end
              | inl e, _ | _, inl e => Some (inl e)
              end
        | inl e, _, _, _ | _, inl e, _, _ | _, _, inl e, _ | _, _, _, inl e =>
            Some (inl e)
        end
    end
  else Some (inr newData).

Definition rebinInner_row (xold xnew oldData : list T)
    (oldSize newSize oldOffset newOffset : Z) (newData : list T)
    : option (result (list T)) :=
  rebinInner_while (Z.to_nat (oldSize + newSize)) xold xnew oldData
    oldSize newSize oldOffset newOffset 0 0 newData.

(** The [for] loop over the rows [c = 0 .. count - 1]; [newBase] is the
    position of the first element of the span [newData] in its buffer. *)
Fixpoint rebinInner_for (rows : list Z) (xold xnew oldData : list T)
    (oldSize newSize newBase : Z) (newData : list T) : option (result (list T)) :=
  match rows with
  | [] => Some (inr newData)
  | c :: rows' =>
      let oldOffset := c * oldSize in
      let newOffset := c * newSize in
      match rebinInner_row xold xnew oldData oldSize newSize
              oldOffset (newBase + newOffset) newData with
      | Some (inr newData') =>
          rebinInner_for rows' xold xnew oldData oldSize newSize newBase newData'
      | r => r
      end
  end.

(** [RebinHelper<T>::rebinInner].  The raw pointers [xold], [xnew] and
    the span [oldData] are the buffers from their first element on. *)
Definition rebinInner (dim : Dim.t) (oldT newT oldCoordT newCoordT : VariableConceptT T)
    : option (result (VariableConceptT T)) :=
  match getSpan_const oldT, getSpan newT,
        Dimensions.size (dimensions oldT) dim,
        Dimensions.size (dimensions newT) dim with
  | inr _, inr _, inr oldSize, inr newSize =>
      if oldSize =? 0 then Some (throw division_by_zero)
      else
        let count := Dimensions.volume (dimensions oldT) `quot` oldSize in
        match getSpan_const oldCoordT, getSpan_const newCoordT with
        | inr _, inr _ =>
            let xold := drop (Z.to_nat (data oldCoordT)) (m_model oldCoordT) in
            let xnew := drop (Z.to_nat (data newCoordT)) (m_model newCoordT) in
            let oldData := drop (Z.to_nat (data oldT)) (m_model oldT) in
            match rebinInner_for (seqZ 0 count) xold xnew oldData
                    oldSize newSize (data newT) (m_model newT) with
            | Some (inr model) => Some (ret (with_model newT model))
            | Some (inl e) => Some (inl e)
            | None => None
            end
        | inl e, _ | _, inl e => Some (inl e)
        end
  | inl e, _, _, _ | _, inl e, _, _ | _, _, inl e, _ | _, _, _, inl e =>
      Some (inl e)
  end.

(** The position a view iterator points to; one past the view the
    address is not determined by the sources. *)
Definition address (view : VariableView.t) (it : nat) : result Z :=
  match view !! it with
  | Some p => ret p
  | None => throw out_of_range
  end.

(** [RebinHelper<T>::rebin]: the iterators over the two data spans and
    over the two coordinate views are positions [oldIt] and [newIt] in
    these lists ([oldCoordIt] moves with [oldIt], [newCoordIt] with
    [newIt]). *)
Fixpoint rebin_while (fuel : nat) (oldCoord newCoord oldData : list T)
    (oldModel newModel : list Z) (oldCoordView newCoordView : VariableView.t)
    (oldOffset newOffset : Z) (oldIt newIt : nat) (newData : list T)
    : option (result (list T)) :=
  if bool_decide (newIt < length newModel)%nat
     && bool_decide (oldIt < length oldModel)%nat then
    match fuel with
    | O => None
    | S fuel' =>
        let continue := rebin_while fuel' oldCoord newCoord oldData oldModel
                          newModel oldCoordView newCoordView oldOffset newOffset in
        match address oldCoordView (S oldIt), address oldCoordView oldIt with
        | inr next, inr here =>
            if next =? here + oldOffset then
              (* Last bin in this 1D subhistogram, go to next. *)
              continue (S oldIt) newIt newData
            else
              match read oldCoord here, read oldCoord (here + oldOffset),
                    address newCoordView (S newIt), address newCoordView newIt with
              | inr xo_low, inr xo_high, inr next', inr here' =>
                  if next' =? here' + newOffset then
                    (* Last bin in this 1D subhistogram, go to next. *)
                    continue oldIt (S newIt) newData
                  else
                    match read newCoord here', read newCoord (here' + newOffset) with
                    | inr xn_low, inr xn_high =>
                        if less_equal xn_high xo_low then
                          continue oldIt (S newIt) newData
                        else if less_equal xo_high xn_low then
                          continue (S oldIt) newIt newData
                        else
                          let delta := if less xo_high xn_high then xo_high else xn_high in
                          let delta :=
                            minus delta (if less xn_low xo_low then xo_low else xn_low) in
                          match address newModel newIt, address oldModel oldIt with
                          | inr n, inr o =>
                              match read newData n, read oldData o with
                              | inr vn, inr vo =>
                                  match (q <- divides (multiplies vo delta)
                                                (minus xo_high xo_low) ;;
                                         write newData n (plus vn q)) with
                                  | inr newData' =>
                                      if less xo_high xn_high
                                      then continue (S oldIt) newIt newData'
                                      else continue oldIt (S newIt) newData'
                                  | inl e => Some (inl e)
                                  end
                              | inl e, _ | _, inl e => Some (inl e)
                              end
                          | inl e, _ | _, inl e => Some (inl e)
                          end
                    | inl e, _ | _, inl e => Some (inl e)
                    end
              | inl e, _, _, _ | _, inl e, _, _ | _, _, inl e, _ | _, _, _, inl e =>
                  Some (inl e)
              end
        | inl e, _ | _, inl e => Some (inl e)
        end
    end
  else Some (inr newData).

Definition RebinHelper_rebin (oldCoord newCoord oldData : list T)
    (oldModel newModel : list Z) (oldCoordView newCoordView : VariableView.t)
    (oldOffset newOffset : Z) (newData : list T) : option (result (list T)) :=
  rebin_while (length oldModel + length newModel) oldCoord newCoord oldData
    oldModel newModel oldCoordView newCoordView oldOffset newOffset 0 0 newData.

(** [VariableConceptT::rebin], after the three casts. *)
Definition rebin_concept (this old : VariableConceptT T) (dim : Dim.t)
    (oldCoord newCoord : VariableConceptT T) : option (result (VariableConceptT T)) :=
  if bool_decide (Dimensions.label (dimensions this) 0 = dim)
     && (Dimensions.count (dimensions oldCoord) =? 1)
     && (Dimensions.count (dimensions newCoord) =? 1) then
    rebinInner dim old this oldCoord newCoord
  else
    match (n <- Dimensions.size (dimensions oldCoord) dim ;;
           oldCoordDims <- Dimensions.resize (dimensions oldCoord) dim (n - 1) ;;
           m <- Dimensions.size (dimensions newCoord) dim ;;
           newCoordDims <- Dimensions.resize (dimensions newCoord) dim (m - 1) ;;
           oldCoordView <- getView_const oldCoord (dimensions this) ;;
           newCoordView <- getView_const newCoord (dimensions this) ;;
           let oldOffset := Dimensions.offset oldCoordDims dim in
           let newOffset := Dimensions.offset newCoordDims dim in
           oldModel <- getSpan_const old ;;
           newModel <- getSpan this ;;
           ret (oldCoordView, newCoordView, oldOffset, newOffset, oldModel, newModel))
    with
    | inr (oldCoordView, newCoordView, oldOffset, newOffset, oldModel, newModel) =>
        match RebinHelper_rebin (m_model oldCoord) (m_model newCoord) (m_model old)
                oldModel newModel oldCoordView newCoordView oldOffset newOffset
                (m_model this) with
        | Some (inr model) => Some (ret (with_model this model))
        | Some (inl e) => Some (inl e)
        | None => None
        end
    | inl e => Some (inl e)
    end.

End RebinHelper.

(** ** Type erasure: [VariableConcept] *)

(** The element types of this model: [double], [int64_t] and
    [std::string].  A [dynamic_cast] to the concept of another element
    type fails. *)
Inductive VariableConcept : Type :=
| Concept_double (c : VariableConceptT double)
| Concept_int64 (c : VariableConceptT Z)
| Concept_string (c : VariableConceptT string).

Module Concept.

Definition dimensions (c : VariableConcept) : Dimensions.t :=
  match c with
  | Concept_double c => dimensions c
  | Concept_int64 c => dimensions c
  | Concept_string c => dimensions c
  end.

Definition isView (c : VariableConcept) : bool :=
  match c with
  | Concept_double c => isView c
  | Concept_int64 c => isView c
  | Concept_string c => isView c
  end.

Definition size (c : VariableConcept) : Z :=
  match c with
  | Concept_double c => size c
  | Concept_int64 c => size c
  | Concept_string c => size c
  end.

(** [DataModel<T>::clone(dims)]: a value-initialized model of the volume
    of [dims]; [ViewModel<T>::clone(dims)] throws. *)
Definition cloneT {T} (value : T) (c : VariableConceptT T) (dims : Dimensions.t)
    : result (VariableConceptT T) :=
  match m_view c with
  | Some _ => throw (runtime_error "Cannot resize view.")
  | None =>
      ret (mkConcept dims (replicate (Z.to_nat (Dimensions.volume dims)) value) None)
  end.

Definition clone (c : VariableConcept) (dims : Dimensions.t) : result VariableConcept :=
  match c with
  | Concept_double c => c' <- cloneT 0%float c dims ;; ret (Concept_double c')
  | Concept_int64 c => c' <- cloneT 0 c dims ;; ret (Concept_int64 c')
  | Concept_string c => c' <- cloneT "" c dims ;; ret (Concept_string c')
  end.

Definition copy (this other : VariableConcept) (dim : Dim.t)
    (offset otherBegin otherEnd : Z) : result VariableConcept :=
  match this, other with
  | Concept_double a, Concept_double b =>
      c <- copy a b dim offset otherBegin otherEnd ;; ret (Concept_double c)
  | Concept_int64 a, Concept_int64 b =>
      c <- copy a b dim offset otherBegin otherEnd ;; ret (Concept_int64 c)
  | Concept_string a, Concept_string b =>
      c <- copy a b dim offset otherBegin otherEnd ;; ret (Concept_string c)
  | _, _ =>
      (* the resize of iterDims comes before the cast *)
      _ <- (if Dimensions.contains (dimensions this) dim
            then Dimensions.resize (dimensions this) dim (otherEnd - otherBegin)
            else ret (dimensions this)) ;;
      throw bad_cast
  end.

(** [ArithmeticHelper<Op, std::string>::apply]. *)
Definition ArithmeticHelper_string (this other : VariableConceptT string)
    (a b : list Z) : result (VariableConceptT string) :=
  throw (runtime_error "Cannot add strings. Use append() instead.").

(** [operator+=], [operator-=] and [operator*=] of [VariableConceptT]:
    [apply<Op>] with its [try] block. *)
Definition apply (op : Op) (this other : VariableConcept) : result VariableConcept :=
  match this, other with
  | Concept_double a, Concept_double b =>
      c <- apply (ArithmeticHelper_apply (Op_fun op)) a b ;; ret (Concept_double c)
  | Concept_int64 a, Concept_int64 b =>
      c <- apply (ArithmeticHelper_apply (Op_fun op)) a b ;; ret (Concept_int64 c)
  | Concept_string a, Concept_string b =>
      c <- apply ArithmeticHelper_string a b ;; ret (Concept_string c)
  | _, _ =>
      throw (runtime_error "Cannot apply arithmetic operation to Variables: Underlying data types do not match.")
  end.

Definition equals (this other : VariableConcept) : result bool :=
  if negb (Dimensions.eqb (dimensions this) (dimensions other)) then ret false
  else
    match this, other with
    | Concept_double a, Concept_double b => equals_concept PrimFloat.eqb a b
    | Concept_int64 a, Concept_int64 b => equals_concept Z.eqb a b
    | Concept_string a, Concept_string b => equals_concept String.eqb a b
    | _, _ => throw bad_cast
    end.

Definition rebin (this old : VariableConcept) (dim : Dim.t)
    (oldCoord newCoord : VariableConcept) : option (result VariableConcept) :=
  match this, old, oldCoord, newCoord with
  | Concept_double a, Concept_double b, Concept_double c, Concept_double d =>
      match rebin_concept a b dim c d with
      | Some (inr r) => Some (ret (Concept_double r))
      | Some (inl e) => Some (inl e)
      | None => None
      end
  | Concept_int64 a, Concept_int64 b, Concept_int64 c, Concept_int64 d =>
      match rebin_concept a b dim c d with
      | Some (inr r) => Some (ret (Concept_int64 r))
      | Some (inl e) => Some (inl e)
      | None => None
      end
  | Concept_string _, Concept_string _, Concept_string _, Concept_string _ =>
      Some (throw (runtime_error "Not and arithmetic type. Cannot rebin."))
  | _, _, _, _ => Some (throw bad_cast)
  end.

End Concept.

(** ** Units and tags *)

(** Modelled from the spec: the unit library is an external collaborator
    that provides equality and multiplication.  A unit is the exponents of
    metre, second and counts. *)
Module Unit.
Record t : Set := mk { metre : Z; second : Z; count : Z }.

#[global] Instance eq_dec : EqDecision t.
Proof. solve_decision. Defined.

Definition dimensionless : t := mk 0 0 0.
Definition m : t := mk 1 0 0.
Definition s : t := mk 0 1 0.
Definition counts : t := mk 0 0 1.
Definition mul (a b : t) : t :=
  mk (metre a + metre b) (second a + second b) (count a + count b).
Definition div (a b : t) : t :=
  mk (metre a - metre b) (second a - second b) (count a - count b).
End Unit.

(** Modelled from the spec: the tags (tags.h) are not among the sources.
    A tag names the role of a Variable and fixes its element type;
    [Data::Events] and [Data::Table] hold nested datasets, for which this
    model has no storage.  [coordDimension] is the table used by [rebin]. *)
Module Tag.
Inductive t : Set :=
| Coord_X | Coord_Y | Coord_Z | Coord_Tof
| Data_Value | Data_Variance | Data_Int | Data_String
| Data_Events | Data_Table.

#[global] Instance eq_dec : EqDecision t.
Proof. solve_decision. Defined.

Definition coordDimension (tag : t) : Dim.t :=
  match tag with
  | Coord_X => Dim.X
  | Coord_Y => Dim.Y
  | Coord_Z => Dim.Z
  | Coord_Tof => Dim.Tof
  | _ => Dim.Invalid
  end.
End Tag.

(** ** Variables *)

Record variable : Type := mkVariable {
  m_tag : Tag.t;
  m_unit : Unit.t;
  m_name : string;
  m_object : VariableConcept
}.

Definition with_object (v : variable) (object : VariableConcept) : variable :=
  mkVariable (m_tag v) (m_unit v) (m_name v) object.

Definition var_dimensions (v : variable) : Dimensions.t :=
  Concept.dimensions (m_object v).

(** [Variable::setDimensions]. *)
Definition setDimensions (v : variable) (dimensions : Dimensions.t) : result variable :=
  if Dimensions.eqb dimensions (Concept.dimensions (m_object v)) then ret v
  else object <- Concept.clone (m_object v) dimensions ;; ret (with_object v object).

(** [Variable::setUnit]. *)
Definition setUnit (v : variable) (unit : Unit.t) : variable :=
  mkVariable (m_tag v) unit (m_name v) (m_object v).

(** [Variable::operator==(const Variable &)].  [same_object] is the outcome
    of the comparison [m_object == other.m_object] of the two
    copy-on-write pointers. *)
Definition Variable_equals (same_object : bool) (a other : variable) : result bool :=
  if negb (bool_decide (m_name a = m_name other)) then ret false
  else if negb (bool_decide (m_unit a = m_unit other)) then ret false
  else if same_object then ret true
  else if negb (bool_decide (m_tag a = m_tag other)) then ret false
  else if negb (Dimensions.eqb (var_dimensions a) (var_dimensions other)) then ret false
  else Concept.equals (m_object a) (m_object other).

(** ** Slice views: [ConstVariableSlice] and [VariableSlice] *)

Module ConceptView.
(** [VariableConcept::makeView(dim, begin, end)]. *)
Definition makeView (c : VariableConcept) (dim : Dim.t) (begin end_ : Z)
    (const : bool) : result VariableConcept :=
  match c with
  | Concept_double c =>
      c' <- makeView_slice c dim begin end_ const ;; ret (Concept_double c')
  | Concept_int64 c =>
      c' <- makeView_slice c dim begin end_ const ;; ret (Concept_int64 c')
  | Concept_string c =>
      c' <- makeView_slice c dim begin end_ const ;; ret (Concept_string c')
  end.

(** The buffer of [parent] after a write through the view [view]. *)
Definition write_back (parent view : VariableConcept) : VariableConcept :=
  match parent, view with
  | Concept_double p, Concept_double v => Concept_double (with_model p (m_model v))
  | Concept_int64 p, Concept_int64 v => Concept_int64 (with_model p (m_model v))
  | Concept_string p, Concept_string v => Concept_string (with_model p (m_model v))
  | _, _ => parent
  end.
End ConceptView.

(** A slice keeps the variable it was taken from ([m_variable], and
    [m_mutableVariable] for a mutable slice) and its [ViewModel]. *)
Record VariableSlice : Type := mkSlice {
  m_variable : variable;
  m_viewModel : VariableConcept
}.

(** [Variable::operator()(dim, begin, end)], const and mutable. *)
Definition Variable_call (const : bool) (v : variable) (dim : Dim.t) (begin end_ : Z)
    : result VariableSlice :=
  view <- ConceptView.makeView (m_object v) dim begin end_ const ;;
  ret (mkSlice v view).

(** ** In-place arithmetic *)

(** What the templates [plus_equals], [minus_equals] and [times_equals]
    use of their right operand ... *)
Class Operand (V : Type) : Type := {
  unit_of : V -> Unit.t;
  tag_of : V -> Tag.t;
  dimensions_of : V -> Dimensions.t;
  data_of : V -> VariableConcept
}.

(** ... and of their left operand. *)
Class MutableOperand (V : Type) `{Operand V} : Type := {
  set_unit : V -> Unit.t -> result V;
  set_data : V -> VariableConcept -> V
}.

#[global] Instance Operand_Variable : Operand variable := {
  unit_of := m_unit;
  tag_of := m_tag;
  dimensions_of := var_dimensions;
  data_of := m_object
}.

#[global] Instance MutableOperand_Variable : MutableOperand variable := {
  set_unit := fun v u => ret (setUnit v u);
  set_data := with_object
}.

#[global] Instance Operand_VariableSlice : Operand VariableSlice := {
  unit_of := fun s => m_unit (m_variable s);
  tag_of := fun s => m_tag (m_variable s);
  dimensions_of := fun s => Concept.dimensions (m_viewModel s);
  data_of := m_viewModel
}.

(** [VariableSlice::setUnit]. *)
Definition VariableSlice_setUnit (s : VariableSlice) (unit : Unit.t) : result VariableSlice :=
  if negb (bool_decide (m_unit (m_variable s) = unit))
     && negb (Dimensions.eqb (Concept.dimensions (m_viewModel s))
                (var_dimensions (m_variable s)))
  then throw (runtime_error
                (String.append
                   "Partial view on data of variable cannot be used to change the unit."
                   (String (Ascii.ascii_of_nat 10) EmptyString)))
  else ret (mkSlice (setUnit (m_variable s) unit) (m_viewModel s)).

#[global] Instance MutableOperand_VariableSlice : MutableOperand VariableSlice := {
  set_unit := VariableSlice_setUnit;
  set_data := fun s view =>
    mkSlice (with_object (m_variable s)
               (ConceptView.write_back (m_object (m_variable s)) view)) view
}.

(** The state of the left operand when the call ends, and the exception
    if it ended by one. *)
Definition in_place (V : Type) : Type := (V * option exception)%type.

Definition valueTypeIs {V} `{Operand V} (v : V) (tag : Tag.t) : bool :=
  bool_decide (tag_of v = tag).

Section InPlace.
Context {V1 V2 : Type} `{MutableOperand V1} `{Operand V2}.

Definition apply_data (op : Op) (variable : V1) (other : V2) : in_place V1 :=
  match Concept.apply op (data_of variable) (data_of other) with
  | inr object => (set_data variable object, None)
  | inl e => (variable, Some e)
  end.

(** [plus_equals].  For [Data::Events] and [Data::Table] with equal
    dimensions the template concatenates the nested datasets; [Dataset] and
    its [concatenate] are not among the sources, no storage of this model
    holds datasets, and the model has no result in this branch ([None]). *)
Definition plus_equals (variable : V1) (other : V2) : option (in_place V1) :=
  if negb (bool_decide (unit_of variable = unit_of other)) then
    Some (variable, Some (runtime_error "Cannot add Variables: Units do not match."))
  else if negb (valueTypeIs variable Tag.Data_Events)
          && negb (valueTypeIs variable Tag.Data_Table) then
    if Dimensions.contains_dims (dimensions_of variable) (dimensions_of other) then
      Some (apply_data std_plus variable other)
    else
      Some (variable,
            Some (runtime_error "Cannot add Variables: Dimensions do not match."))
  else
    if Dimensions.eqb (dimensions_of variable) (dimensions_of other) then None
    else
      Some (variable,
            Some (runtime_error "Cannot add Variables: Dimensions do not match.")).

Definition minus_equals (variable : V1) (other : V2) : in_place V1 :=
  if negb (bool_decide (unit_of variable = unit_of other)) then
    (variable, Some (runtime_error "Cannot subtract Variables: Units do not match."))
  else if Dimensions.contains_dims (dimensions_of variable) (dimensions_of other) then
    if valueTypeIs variable Tag.Data_Events then
      (variable, Some (runtime_error "Subtraction of events lists not implemented."))
    else apply_data std_minus variable other
  else
    (variable, Some (runtime_error "Cannot subtract Variables: Dimensions do not match.")).

Definition times_equals (variable : V1) (other : V2) : in_place V1 :=
  if negb (Dimensions.contains_dims (dimensions_of variable) (dimensions_of other)) then
    (variable, Some (runtime_error "Cannot multiply Variables: Dimensions do not match."))
  else if valueTypeIs variable Tag.Data_Events then
    (variable, Some (runtime_error "Multiplication of events lists not implemented."))
  else
    (* setUnit is catching bad cases of changing units (if `variable` is a slice). *)
    match set_unit variable (Unit.mul (unit_of variable) (unit_of other)) with
    | inl e => (variable, Some e)
    | inr variable' => apply_data std_multiplies variable' other
    end.

End InPlace.

(** ** Operations on Variables (variable.cpp) *)

(** [slice(var, dim, index)]. *)
Definition slice_index (var : variable) (dim : Dim.t) (index : Z) : result variable :=
  let out := var in
  dims <- Dimensions.erase (var_dimensions out) dim ;;
  out <- setDimensions out dims ;;
  object <- Concept.copy (m_object out) (m_object var) dim 0 index (index + 1) ;;
  ret (with_object out object).

(** [slice(var, dim, begin, end)]. *)
Definition slice (var : variable) (dim : Dim.t) (begin end_ : Z) : result variable :=
  let out := var in
  dims <- Dimensions.resize (var_dimensions out) dim (end_ - begin) ;;
  if Dimensions.eqb dims (var_dimensions out) then ret out
  else
    out <- setDimensions out dims ;;
    object <- Concept.copy (m_object out) (m_object var) dim 0 begin end_ ;;
    ret (with_object out object).

(** The loop of [split] over [i = 0 .. indices.size() - 2]. *)
Fixpoint split_for (var : variable) (dim : Dim.t) (indices : list Z)
    : result (list variable) :=
  match indices with
  | begin :: ((end_ :: _) as indices') =>
      v <- slice var dim begin end_ ;;
      vars <- split_for var dim indices' ;;
      ret (v :: vars)
  | _ => ret []
  end.

Definition split (var : variable) (dim : Dim.t) (indices : list Z)
    : result (list variable) :=
  match indices with
  | [] => ret [var]
  | front :: _ =>
      first <- slice var dim 0 front ;;
      middle <- split_for var dim indices ;;
      n <- Dimensions.size (var_dimensions var) dim ;;
      last_ <- slice var dim (List.last indices 0) n ;;
      ret (first :: middle ++ [last_])
  end.

(** The loop of [concatenate] over the labels of [dims1]. *)
Fixpoint concatenate_check (labels1 : list Dim.t) (dims1 dims2 : Dimensions.t)
    (dim : Dim.t) : result unit :=
  match labels1 with
  | [] => ret tt
  | dim1 :: labels1' =>
      if negb (bool_decide (dim1 = dim)) then
        if negb (Dimensions.contains dims2 dim1) then
          throw (runtime_error "Cannot concatenate Variables: Dimensions do not match.")
        else
          n2 <- Dimensions.size dims2 dim1 ;;
          n1 <- Dimensions.size dims1 dim1 ;;
          if negb (n2 =? n1) then
            throw (runtime_error "Cannot concatenate Variables: Dimension extents do not match.")
          else concatenate_check labels1' dims1 dims2 dim
      else concatenate_check labels1' dims1 dims2 dim
  end.

Definition concatenate (a1 a2 : variable) (dim : Dim.t) : result variable :=
  if negb (bool_decide (m_tag a1 = m_tag a2)) then
    throw (runtime_error "Cannot concatenate Variables: Data types do not match.")
  else if negb (bool_decide (m_unit a1 = m_unit a2)) then
    throw (runtime_error "Cannot concatenate Variables: Units do not match.")
  else if negb (bool_decide (m_name a1 = m_name a2)) then
    throw (runtime_error "Cannot concatenate Variables: Names do not match.")
  else
    let dims1 := var_dimensions a1 in
    let dims2 := var_dimensions a2 in
    _ <- concatenate_check (Dimensions.labels dims1) dims1 dims2 dim ;;
    let size1 := Dimensions.count dims1 in
    let size2 := Dimensions.count dims2 in
    let size1 := if Dimensions.contains dims1 dim then size1 - 1 else size1 in
    let size2 := if Dimensions.contains dims2 dim then size2 - 1 else size2 in
    (* This check covers the case of dims2 having extra dimensions not
       present in dims1. *)
    if negb (size1 =? size2) then
      throw (runtime_error "Cannot concatenate Variables: Dimensions do not match.")
    else
      let out := a1 in
      let dims := dims1 in
      extent1 <- (if Dimensions.contains dims1 dim
                  then n <- Dimensions.size dims1 dim ;; ret (1 + (n - 1))
                  else ret 1) ;;
      extent2 <- (if Dimensions.contains dims2 dim
                  then n <- Dimensions.size dims2 dim ;; ret (1 + (n - 1))
                  else ret 1) ;;
      dims <- (if Dimensions.contains dims dim
               then Dimensions.resize dims dim (extent1 + extent2)
               else Dimensions.add dims dim (extent1 + extent2)) ;;
      out <- setDimensions out dims ;;
      object <- Concept.copy (m_object out) (m_object a1) dim 0 0 extent1 ;;
      object <- Concept.copy object (m_object a2) dim extent1 0 extent2 ;;
      ret (with_object out object).

(** [rebin(var, oldCoord, newCoord)]. *)
Definition rebin (var oldCoord newCoord : variable) : option (result variable) :=
  let rebinned := var in
  let dim := Tag.coordDimension (m_tag newCoord) in
  match (n <- Dimensions.size (var_dimensions newCoord) dim ;;
         dims <- Dimensions.resize (var_dimensions rebinned) dim (n - 1) ;;
         setDimensions rebinned dims) with
  | inr rebinned =>
      match Concept.rebin (m_object rebinned) (m_object var) dim
              (m_object oldCoord) (m_object newCoord) with
      | Some (inr object) => Some (ret (with_object rebinned object))
      | Some (inl e) => Some (inl e)
      | None => None
      end
  | inl e => Some (inl e)
  end.

(** The loop of [permute], from position [i] on. *)
Fixpoint permute_for (var : variable) (dim : Dim.t) (i : Z) (indices : list Z)
    (permuted : VariableConcept) : result VariableConcept :=
  match indices with
  | [] => ret permuted
  | index :: indices' =>
      permuted' <- Concept.copy permuted (m_object var) dim i index (index + 1) ;;
      permute_for var dim (i + 1) indices' permuted'
  end.

Definition permute (var : variable) (dim : Dim.t) (indices : list Z) : result variable :=
  let permuted := var in
  object <- permute_for var dim 0 indices (m_object permuted) ;;
  ret (with_object permuted object).

(** [sum(var, dim)]. *)
Definition sum (var : variable) (dim : Dim.t) : result variable :=
  let summed := var in
  dims <- Dimensions.erase (var_dimensions summed) dim ;;
  (* setDimensions zeros the data *)
  summed <- setDimensions summed dims ;;
  object <- Concept.apply std_plus (m_object summed) (m_object var) ;;
  ret (with_object summed object).

(** [Variable::setSlice].  [same_object] is the outcome of the comparison
    [m_object == slice.m_object] of the two copy-on-write pointers. *)
Definition setSlice (same_object : bool) (v slice : variable) (dim : Dim.t)
    (index : Z) : result variable :=
  if negb (bool_decide (m_unit v = m_unit slice)) then
    throw (runtime_error "Cannot set slice: Units do not match.")
  else if same_object then ret v
  else if negb (Dimensions.contains_dims (var_dimensions v) (var_dimensions slice)) then
    throw (runtime_error "Cannot set slice: Dimensions do not match.")
  else
    object <- Concept.copy (m_object v) (m_object slice) dim index 0 1 ;;
    ret (with_object v object).

(** [operator+], [operator-] and [operator*] work in place on a copy of
    their left operand; an exception of the in-place operation leaves the
    function, and the copy is lost. *)
Definition returned {V} (r : in_place V) : result V :=
  match r with
  | (v, None) => ret v
  | (_, Some e) => throw e
  end.

Definition Variable_plus (a b : variable) : option (result variable) :=
  returned <$> plus_equals a b.
Definition Variable_minus (a b : variable) : result variable :=
  returned (minus_equals a b).
Definition Variable_times (a b : variable) : result variable :=
  returned (times_equals a b).

(** A Variable with the tag [Coord::Mask], as [filter] uses it: its
    dimensions and the [char] elements that [get<const Coord::Mask>()]
    hands out. *)
Record MaskVariable : Type := mkMask {
  mask_dimensions : Dimensions.t;
  mask_values : list Z
}.

(** The loop of [filter], from the positions [iIn] and [iOut] on. *)
Fixpoint filter_for (var : variable) (dim : Dim.t) (mask : list Z) (iIn iOut : Z)
    (out : VariableConcept) : result VariableConcept :=
  match mask with
  | [] => ret out
  | m :: mask' =>
      if negb (m =? 0) then
        out' <- Concept.copy out (m_object var) dim iOut iIn (iIn + 1) ;;
        filter_for var dim mask' (iIn + 1) (iOut + 1) out'
      else filter_for var dim mask' (iIn + 1) iOut out
  end.

(** [filter(var, filter)]. *)
Definition Variable_filter (var : variable) (filter : MaskVariable) : result variable :=
  if negb (Dimensions.count (mask_dimensions filter) =? 1) then
    throw (runtime_error "Cannot filter variable: The filter must by 1-dimensional.")
  else
    let dim := Dimensions.label (mask_dimensions filter) 0 in
    let mask := mask_values filter in
    let removed := Z.of_nat (count_occ Z.eq_dec mask 0) in
    if removed =? 0 then ret var
    else
      let out := var in
      n <- Dimensions.size (var_dimensions out) dim ;;
      dims <- Dimensions.resize (var_dimensions out) dim (n - removed) ;;
      out <- setDimensions out dims ;;
      object <- filter_for var dim mask 0 0 (m_object out) ;;
      ret (with_object out object).

(** [mean(var, dim)].  The scale [1.0 / size] is computed in [double]:
    it is rounded, and infinite for the extent 0. *)
Definition mean (var : variable) (dim : Dim.t) : result variable :=
  summed <- sum var dim ;;
  n <- Dimensions.size (var_dimensions var) dim ;;
  let scale := PrimFloat.div 1 (double_of_index n) in
  Variable_times summed
    (mkVariable Tag.Data_Value Unit.dimensionless ""
       (Concept_double (mkConcept [] [scale] None))).

(** [Variable::operator=(const ConstVariableSlice &)]. *)
Definition Variable_assign (this : variable) (slice : VariableSlice) : result variable :=
  let this := mkVariable (m_tag (m_variable slice)) (m_unit (m_variable slice))
                (m_name (m_variable slice)) (m_object this) in
  this <- setDimensions this (Concept.dimensions (m_viewModel slice)) ;;
  object <- Concept.copy (m_object this) (m_viewModel slice) Dim.Invalid 0 0 1 ;;
  ret (with_object this object).

(** [Variable::Variable(const ConstVariableSlice &)]: a copy of the
    Variable the slice was taken from, to which the slice is assigned. *)
Definition Variable_from_slice (slice : VariableSlice) : result variable :=
  Variable_assign (m_variable slice) slice.

(** [VariableSlice::assign].  [DimensionMismatchError] is a dimension
    error whose message names both dimensions. *)
Definition VariableSlice_assign {V2 : Type} `{Operand V2} (s : VariableSlice)
    (other : V2) : result VariableSlice :=
  if negb (bool_decide (tag_of s = tag_of other)) then
    throw (runtime_error "Cannot assign to slice: Type mismatch.")
  (* Name mismatch ok, but do not assign it. *)
  else if negb (bool_decide (unit_of s = unit_of other)) then
    throw (runtime_error "Cannot assign to slice: Unit mismatch.")
  else if negb (Dimensions.eqb (dimensions_of s) (dimensions_of other)) then
    throw (DimensionError "Expected dimensions to be equal.")
  else
    object <- Concept.copy (data_of s) (data_of other) Dim.Invalid 0 0 1 ;;
    ret (set_data s object).

(** The template [equals] behind [ConstVariableSlice::operator==] and
    [Variable::operator==(const ConstVariableSlice &)]: always a deep
    comparison.  The names are those of the Variables behind the operands. *)
Definition equals {V1 V2 : Type} `{Operand V1} `{Operand V2}
    (name_a name_b : string) (a : V1) (b : V2) : result bool :=
  if negb (bool_decide (name_a = name_b)) then ret false
  else if negb (bool_decide (unit_of a = unit_of b)) then ret false
  else if negb (bool_decide (tag_of a = tag_of b)) then ret false
  else if negb (Dimensions.eqb (dimensions_of a) (dimensions_of b)) then ret false
  else Concept.equals (data_of a) (data_of b).

(** ** Slices and construction from a view (core/variable.cpp, except.cpp) *)

Record Slice : Set := mkSliceDesc {
  slice_dim : Dim.t;
  slice_begin : Z;
  slice_end : Z
}.

(** [expect::validSlice]. *)
Definition validSlice (dims : Dimensions.t) (slice : Slice) : result unit :=
  if negb (Dimensions.contains dims (slice_dim slice)) then throw SliceError
  else
    n <- Dimensions.size dims (slice_dim slice) ;;
    if (slice_begin slice <? 0)
       || (Z.min (if 0 <=? slice_end slice then slice_end slice + 1 else n) n
             <=? slice_begin slice)
       || (n <? slice_end slice)
    then throw SliceError
    else ret tt.

(** Modelled from the spec: [makeDefaultFromParent] is not among the
    sources; it is the [resize(dims)] of section 4.2, a new
    default-initialized buffer of [dims.volume()] elements. *)
Definition makeDefaultFromParent (c : VariableConcept) (dims : Dimensions.t)
    : VariableConcept :=
  let n := Z.to_nat (Dimensions.volume dims) in
  match c with
  | Concept_double _ => Concept_double (mkConcept dims (replicate n 0%float) None)
  | Concept_int64 _ => Concept_int64 (mkConcept dims (replicate n 0) None)
  | Concept_string _ => Concept_string (mkConcept dims (replicate n "") None)
  end.

(** [Variable::Variable(const VariableConstProxy &slice)]. *)
Definition Variable_from_proxy (slice : VariableSlice) : result variable :=
  let dims := Concept.dimensions (m_viewModel slice) in
  let this := mkVariable (m_tag (m_variable slice)) (m_unit (m_variable slice))
                (m_name (m_variable slice))
                (makeDefaultFromParent (m_viewModel slice) dims) in
  (* There is a bug in the implementation of MultiIndex used in
     VariableView in case one of the dimensions has extent 0. *)
  if negb (Dimensions.volume (var_dimensions this) =? 0) then
    object <- Concept.copy (m_object this) (m_viewModel slice) Dim.Invalid 0 0 1 ;;
    ret (with_object this object)
  else ret this.

(** [Variable::slice(const Slice)]: the view [{*this, dim, begin, end}]. *)
Definition Variable_slice (const : bool) (v : variable) (slice : Slice)
    : result VariableSlice :=
  Variable_call const v (slice_dim slice) (slice_begin slice) (slice_end slice).

(** ** Sparse/dense fused arithmetic (unnamed/part_000) *)

(** The function objects [Times] and [Divide], on [double] and on units. *)
Inductive SparseOp : Set := Times | Divide.

Definition SparseOp_double (op : SparseOp) (a b : double) : double :=
  match op with
  | Times => PrimFloat.mul a b
  | Divide => PrimFloat.div a b
  end.

Definition SparseOp_unit (op : SparseOp) (a b : Unit.t) : Unit.t :=
  match op with
  | Times => Unit.mul a b
  | Divide => Unit.div a b
  end.

Record ValueAndVariance : Type := mkValueAndVariance {
  value : double;
  variance : double
}.

(** The conversion of a [double] to an index truncates.  It is undefined
    for NaN, for the infinities and outside the range of the index type;
    the kernel converts only what lies between 0 and the number of bins. *)
Definition to_index (x : double) : Z :=
  match Prim2SF x with
  | S754_finite s m e =>
      let magnitude := if 0 <=? e then Z.pos m * 2 ^ e else Z.pos m `div` 2 ^ (- e) in
      if s then - magnitude else magnitude
  | _ => 0
  end.

Section SparseDense.
(** Not among the sources: [scipp::numeric::is_linspace],
    [expect::histogram::sorted_edges], and the arithmetic of
    [ValueAndVariance] that [op] uses on weights with variances. *)
Context (is_linspace : list double -> bool)
        (sorted_edges : list double -> result unit)
        (op_variance : SparseOp -> ValueAndVariance -> ValueAndVariance -> ValueAndVariance).

(** Modelled from the spec: [linear_edge_params] is not among the
    sources.  Section 4.7: [offset = edges[0]],
    [scale = K / (edges[K] - edges[0])] for [K + 1] edges; the middle
    component is the number of bins [K].  All three are [double]. *)
Definition linear_edge_params (edges : list double) : double * double * double :=
  let front := List.hd 0%float edges in
  let back := List.last edges 0%float in
  let nbin := double_of_index (Z.of_nat (length edges) - 1) in
  (front, nbin, PrimFloat.div nbin (PrimFloat.sub back front)).

(** [bin >= 0.0 && bin < nbin]. *)
Definition in_range (bin nbin : double) : bool :=
  PrimFloat.leb 0 bin && PrimFloat.ltb bin nbin.

(** The loop [for (const auto c : coord)] when the weights carry no
    variances. *)
Fixpoint apply_for (op : SparseOp) (offset nbin scale : double)
    (weights coord out_vals : list double) : result (list double) :=
  match coord with
  | [] => ret out_vals
  | c :: coord' =>
      let event_weight := 1%float in
      let bin := PrimFloat.mul (PrimFloat.sub c offset) scale in
      w <- (if in_range bin nbin then read weights (to_index bin) else ret 0%float) ;;
      apply_for op offset nbin scale weights coord'
        (out_vals ++ [SparseOp_double op event_weight w])
  end.

(** The same loop for weights with variances; [Variance] is the variance
    given to the weight 1 of an event. *)
Fixpoint apply_for_variance (Variance : Z) (op : SparseOp) (offset nbin scale : double)
    (weights_value weights_variance coord out_vals out_vars : list double)
    : result (list double * list double) :=
  match coord with
  | [] => ret (out_vals, out_vars)
  | c :: coord' =>
      let event_weight := 1%float in
      let bin := PrimFloat.mul (PrimFloat.sub c offset) scale in
      w <- (if in_range bin nbin then
              val <- read weights_value (to_index bin) ;;
              var <- read weights_variance (to_index bin) ;;
              ret (mkValueAndVariance val var)
            else ret (mkValueAndVariance 0 0)) ;;
      let r := op_variance op
                 (mkValueAndVariance event_weight (double_of_index Variance)) w in
      apply_for_variance Variance op offset nbin scale weights_value weights_variance
        coord' (out_vals ++ [value r]) (out_vars ++ [variance r])
  end.

(** [apply_op_sparse_dense] for weights without variances ... *)
Definition apply_op_sparse_dense (op : SparseOp) (coord edges weights : list double)
    : result (list double) :=
  if is_linspace edges then
    let '(offset, nbin, scale) := linear_edge_params edges in
    apply_for op offset nbin scale weights coord []
  else
    _ <- sorted_edges edges ;;
    throw (runtime_error "Non-constant bin width not supported yet.").

(** ... and for weights with variances. *)
Definition apply_op_sparse_dense_variance (Variance : Z) (op : SparseOp)
    (coord edges weights_value weights_variance : list double)
    : result (list double * list double) :=
  if is_linspace edges then
    let '(offset, nbin, scale) := linear_edge_params edges in
    apply_for_variance Variance op offset nbin scale weights_value weights_variance
      coord [] []
  else
    _ <- sorted_edges edges ;;
    throw (runtime_error "Non-constant bin width not supported yet.").

(** What [sparse_dense_op_impl] uses of its arguments: the unit, whether
    there are variances, and the values; the events and the weights by
    outer position, the edges shared by all of them (section 4.7). *)
Record SparseCoord : Type := mkSparseCoord {
  coord_unit : Unit.t;
  coord_hasVariances : bool;
  coord_rows : list (list double)
}.

Record Edges : Type := mkEdges {
  edges_unit : Unit.t;
  edges_hasVariances : bool;
  edges_values : list double
}.

Record Weights : Type := mkWeights {
  weights_unit : Unit.t;
  weights_rows : list (list double)
}.

Record SparseVariable : Type := mkSparseVariable {
  sparse_unit : Unit.t;
  sparse_rows : list (list double)
}.

(** [expect::equals(const units::Unit &, const units::Unit &)]. *)
Definition expect_equals_unit (a b : Unit.t) : result unit :=
  if negb (bool_decide (a = b)) then throw (UnitError "Expected units to be equal.")
  else ret tt.

(** Modelled from the spec: [transform_flags::expect_no_variance_arg] is
    not among the sources; the transform refuses an argument with
    variances at the position of the flag. *)
Definition expect_no_variance_arg (hasVariances : bool) : result unit :=
  if hasVariances then throw (VariancesError "Variances in argument not supported.")
  else ret tt.

(** The rows of the transform: the kernel on the events of every outer
    position [p] with the row [p] of the weights. *)
Fixpoint sparse_dense_rows (op : SparseOp) (sparseCoord : list (list double))
    (edges : list double) (weights : list (list double))
    : result (list (list double)) :=
  match sparseCoord, weights with
  | [], _ => ret []
  | coord :: sparseCoord', w :: weights' =>
      row <- apply_op_sparse_dense op coord edges w ;;
      rows <- sparse_dense_rows op sparseCoord' edges weights' ;;
      ret (row :: rows)
  | _ :: _, [] => throw out_of_range
  end.

(** Modelled from the spec: the transform engine (transform.h) is not
    among the sources.  Section 4.8: a closure of the set handles the unit
    arithmetic and runs once on the input units, and the kernel is
    applied position by position.  [sparse_dense_op_impl] for weights
    without variances: the two flags, the closure on the units, then the
    kernel. *)
Definition sparse_dense_op_impl (op : SparseOp) (sparseCoord : SparseCoord)
    (edges : Edges) (weights : Weights) : result SparseVariable :=
  _ <- expect_no_variance_arg (coord_hasVariances sparseCoord) ;;
  _ <- expect_no_variance_arg (edges_hasVariances edges) ;;
  _ <- expect_equals_unit (coord_unit sparseCoord) (edges_unit edges) ;;
  (* Sparse data without values has an implicit value of 1 count. *)
  let unit := SparseOp_unit op Unit.counts (weights_unit weights) in
  rows <- sparse_dense_rows op (coord_rows sparseCoord) (edges_values edges)
            (weights_rows weights) ;;
  ret (mkSparseVariable unit rows).

End SparseDense.


(** * Notions used in the statements *)

(** A position in a labelled array: an index for every label. *)
Definition coord : Type := Dim.t -> Z.

Definition update (c : coord) (dim : Dim.t) (i : Z) : coord :=
  fun l => if decide (l = dim) then i else c l.

(** The flat position of [c] in a buffer laid out as [d] (innermost
    first): the sum over the labels of index times stride. *)
Fixpoint flat (d : Dimensions.t) (c : coord) : Z :=
  match d with
  | [] => 0
  | (l, n) :: outer => c l + n * flat outer c
  end.

(** [c] is inside the extents of [d]. *)
Definition in_box (d : Dimensions.t) (c : coord) : Prop :=
  Forall (fun p : Dim.t * Z => 0 <= c p.1 < p.2) d.

(** The invariant of section 3.2: no label twice, no negative extent. *)
Definition wf_dims (d : Dimensions.t) : Prop :=
  NoDup (Dimensions.labels d) /\ Forall (fun p : Dim.t * Z => 0 <= p.2) d.

(** The invariant of section 3.4 for an owning model: the buffer has
    [volume] elements. *)
Definition wf_model {T} (c : VariableConceptT T) : Prop :=
  m_view c = None /\ wf_dims (dimensions c)
  /\ Z.of_nat (length (m_model c)) = Dimensions.volume (dimensions c).

(** The element of [c] at the position [x]. *)
Definition element {T} (c : VariableConceptT T) (x : coord) : option T :=
  m_model c !! Z.to_nat (flat (dimensions c) x).

(** [d] with the extent of [l] set to [n], and [d] without [l]. *)
Definition resized (d : Dimensions.t) (l : Dim.t) (n : Z) : Dimensions.t :=
  (fun p : Dim.t * Z => if decide (p.1 = l) then (p.1, n) else p) <$> d.

Definition erased (d : Dimensions.t) (l : Dim.t) : Dimensions.t :=
  filter (fun p : Dim.t * Z => p.1 <> l) d.

(** [c] on the labels [ls], 0 elsewhere. *)
Definition restrict (ls : list Dim.t) (c : coord) : coord :=
  fun l => if decide (l ∈ ls) then c l else 0.

(** The position whose index for the [k]-th label of [ls] is the [k]-th
    element of [index]. *)
Fixpoint coord_of (ls : list Dim.t) (index : list Z) : coord :=
  match ls, index with
  | l :: ls', i :: index' =>
      fun l' => if decide (l' = l) then i else coord_of ls' index' l'
  | _, _ => fun _ => 0
  end.

Definition Zsum {A} (h : A -> Z) (l : list A) : Z :=
  foldr (fun x acc => h x + acc) 0 l.

(** The element kinds, and an element of any of them. *)
Inductive DType : Set := dtype_double | dtype_int64 | dtype_string.

Inductive Element : Type :=
| Element_double (x : double)
| Element_int64 (x : Z)
| Element_string (x : string).

Definition dtype (c : VariableConcept) : DType :=
  match c with
  | Concept_double _ => dtype_double
  | Concept_int64 _ => dtype_int64
  | Concept_string _ => dtype_string
  end.

Definition wf_concept (c : VariableConcept) : Prop :=
  match c with
  | Concept_double c => wf_model c
  | Concept_int64 c => wf_model c
  | Concept_string c => wf_model c
  end.

(** A dense Variable that owns its data and satisfies the invariants. *)
Definition wf_variable (v : variable) : Prop := wf_concept (m_object v).

Definition concept_element (c : VariableConcept) (x : coord) : option Element :=
  match c with
  | Concept_double c => Element_double <$> element c x
  | Concept_int64 c => Element_int64 <$> element c x
  | Concept_string c => Element_string <$> element c x
  end.

(** The element of the Variable [v] at the position [x]. *)
Definition var_element (v : variable) (x : coord) : option Element :=
  concept_element (m_object v) x.

(** The extent of [v] along [dim], 1 when [v] does not have [dim]. *)
Definition extent (v : variable) (dim : Dim.t) : Z :=
  match Dimensions.size (var_dimensions v) dim with
  | inr n => n
  | inl _ => 1
  end.

(** [concatenate] over a list of pieces, from the left. *)
Definition concatenate_all (pieces : list variable) (dim : Dim.t) : result variable :=
  match pieces with
  | [] => throw (runtime_error "Nothing to concatenate.")
  | first :: rest =>
      foldl (fun acc piece => out <- acc ;; concatenate out piece dim) (ret first) rest
  end.

(** The dimensions of a concatenation along [dim] with [total] entries:
    [dim] keeps its place when present, else it becomes the outermost
    label. *)
Definition concat_dims (dims1 : Dimensions.t) (dim : Dim.t) (total : Z) : Dimensions.t :=
  if Dimensions.contains dims1 dim then resized dims1 dim total
  else dims1 ++ [(dim, total)].

Definition dims_extent (d : Dimensions.t) (dim : Dim.t) : Z :=
  match Dimensions.size d dim with
  | inr n => n
  | inl _ => 1
  end.

(** What [concatenate(a1, a2, dim)] requires of its operands ... *)
Definition concatenable (a1 a2 : variable) (dim : Dim.t) : Prop :=
  m_tag a1 = m_tag a2 /\ dtype (m_object a1) = dtype (m_object a2)
  /\ m_unit a1 = m_unit a2 /\ m_name a1 = m_name a2
  /\ forall l, l <> dim ->
       Dimensions.size (var_dimensions a1) l = Dimensions.size (var_dimensions a2) l.

(** ... and what its result [out] is: the range [[0, n_a)] along [dim] is
    [a1], the range [[n_a, n_a + n_b)] is [a2]. *)
Definition is_concatenation (out a1 a2 : variable) (dim : Dim.t) : Prop :=
  let n_a := extent a1 dim in
  let n_b := extent a2 dim in
  wf_variable out
  /\ m_tag out = m_tag a1 /\ m_unit out = m_unit a1 /\ m_name out = m_name a1
  /\ dtype (m_object out) = dtype (m_object a1)
  /\ var_dimensions out = concat_dims (var_dimensions a1) dim (n_a + n_b)
  /\ forall c, in_box (var_dimensions out) c ->
       var_element out c
       = if decide (c dim < n_a) then var_element a1 c
         else var_element a2 (update c dim (c dim - n_a)).

(** [p] is the range [[lo, hi)] of [v] along [dim]. *)
Definition is_slice (p v : variable) (dim : Dim.t) (lo hi : Z) : Prop :=
  wf_variable p
  /\ m_tag p = m_tag v /\ m_unit p = m_unit v /\ m_name p = m_name v
  /\ dtype (m_object p) = dtype (m_object v)
  /\ var_dimensions p = resized (var_dimensions v) dim (hi - lo)
  /\ forall c, in_box (var_dimensions p) c ->
       var_element p c = var_element v (update c dim (c dim + lo)).

(** [pieces] is the partition of [v] along [dim] at [indices], from [lo]
    up to the extent [n]. *)
Fixpoint is_partition (v : variable) (dim : Dim.t) (lo : Z) (indices : list Z) (n : Z)
    (pieces : list variable) : Prop :=
  match indices, pieces with
  | [], [p] => is_slice p v dim lo n
  | i :: indices', p :: pieces' =>
      is_slice p v dim lo i /\ is_partition v dim i indices' n pieces'
  | _, _ => False
  end.

(** Sorted indices between [lo] and [n]. *)
Fixpoint sorted_between (lo : Z) (indices : list Z) (n : Z) : Prop :=
  match indices with
  | [] => lo <= n
  | i :: indices' => lo <= i /\ sorted_between i indices' n
  end.

(** The conditions that the specification lists for [concatenate]: the
    element kind, the unit, the name and the extents of every axis other
    than [dim]. *)
Definition concatenate_requirements (a1 a2 : variable) (dim : Dim.t) : Prop :=
  dtype (m_object a1) = dtype (m_object a2)
  /\ m_unit a1 = m_unit a2 /\ m_name a1 = m_name a2
  /\ forall l, l <> dim ->
       Dimensions.size (var_dimensions a1) l = Dimensions.size (var_dimensions a2) l.

(** The position with index [i] along [l], 0 elsewhere, and the position
    with the indices [i] along [l1] and [j] along [l2]. *)
Definition at1 (l : Dim.t) (i : Z) : coord := update (fun _ => 0) l i.
Definition at2 (l1 : Dim.t) (i : Z) (l2 : Dim.t) (j : Z) : coord :=
  update (at1 l1 i) l2 j.

(** ** Sample Variables *)

Definition makeVariable_double (tag : Tag.t) (unit : Unit.t) (dims : Dimensions.t)
    (values : list double) : variable :=
  mkVariable tag unit "" (Concept_double (mkConcept dims values None)).

Definition makeVariable_int64 (tag : Tag.t) (unit : Unit.t) (dims : Dimensions.t)
    (values : list Z) : variable :=
  mkVariable tag unit "" (Concept_int64 (mkConcept dims values None)).

Definition sample_a : variable :=
  makeVariable_double Tag.Data_Value Unit.m [(Dim.X, 3)] [1; 2; 3]%float.
Definition sample_b : variable :=
  makeVariable_double Tag.Data_Value Unit.m [(Dim.X, 3)] [4; 5; 6]%float.
Definition sample_ab : variable :=
  makeVariable_double Tag.Data_Value Unit.m [(Dim.X, 3); (Dim.Y, 2)] [1; 2; 3; 4; 5; 6]%float.
Definition sample_row : variable :=
  makeVariable_double Tag.Data_Value Unit.m [(Dim.X, 4)] [1; 2; 3; 4]%float.

(** ** Accumulation *)

(** The sum of the elements of a buffer, accumulated from zero in the
    order of the buffer. *)
Definition total {T} `{Arithmetic T} (buf : list T) : T := foldl plus zero buf.

(** The elements of [b] that [std_transform] combines into the cell [p]
    when it runs over the position pairs [pairs], in this order. *)
Definition contributions {T} (b : list T) (pairs : list (Z * Z)) (p : nat) : list T :=
  omap (fun pq : Z * Z => if decide (Z.to_nat pq.1 = p) then b !! Z.to_nat pq.2 else None)
       pairs.

(** Addition of the element type is associative and commutative: so it
    is for [int64_t] with wrap-around, and so it is not for [double]. *)
Class CommutativePlus (T : Type) `{Arithmetic T} : Prop := {
  plus_assoc : forall x y z : T, plus x (plus y z) = plus (plus x y) z;
  plus_comm : forall x y : T, plus x y = plus y x;
  plus_zero_zero : plus zero zero = (zero : T)
}.

(** Sums of elements: the sum of two elements of the same numeric kind in
    the arithmetic of the kind, the zero of a kind, the sum of [f 0], ...,
    [f (n - 1)] accumulated from zero in this order, and the sum of all
    elements of a Variable in the order of its buffer. *)
Definition Element_add (x y : option Element) : option Element :=
  match x, y with
  | Some (Element_double a), Some (Element_double b) => Some (Element_double (plus a b))
  | Some (Element_int64 a), Some (Element_int64 b) => Some (Element_int64 (plus a b))
  | _, _ => None
  end.

Definition Element_zero (kind : DType) : option Element :=
  match kind with
  | dtype_double => Some (Element_double 0%float)
  | dtype_int64 => Some (Element_int64 0)
  | dtype_string => None
  end.

Definition sum_over (kind : DType) (f : Z -> option Element) (n : Z) : option Element :=
  foldl (fun acc k => Element_add acc (f k)) (Element_zero kind) (seqZ 0 n).

Definition var_total (v : variable) : option Element :=
  match m_object v with
  | Concept_double c => Some (Element_double (total (m_model c)))
  | Concept_int64 c => Some (Element_int64 (total (m_model c)))
  | Concept_string _ => None
  end.

Definition sample_grid : variable :=
  makeVariable_double Tag.Data_Value Unit.counts [(Dim.X, 2); (Dim.Y, 2)] [1; 2; 3; 4]%float.

Definition sample_124 : variable :=
  makeVariable_double Tag.Data_Value Unit.counts [(Dim.X, 3)] [1; 2; 4]%float.

(** Near the largest and the smallest [int64_t]: the sum of a row wraps
    around. *)
Definition sample_int_grid : variable :=
  makeVariable_int64 Tag.Data_Int Unit.counts [(Dim.X, 2); (Dim.Y, 2)]
    [int64_max; 1; int64_min; -1].

(** The values [[1e16, 1], [-1e16, 1]] with the dimensions [{Y:2, X:2}]. *)
Definition sample_cancelling : variable :=
  makeVariable_double Tag.Data_Value Unit.counts [(Dim.X, 2); (Dim.Y, 2)]
    [1e16; 1; -1e16; 1]%float.

(** A row whose first element is a NaN. *)
Definition sample_nan : variable :=
  makeVariable_double Tag.Data_Value Unit.m [(Dim.X, 2)] [nan; 1]%float.

Definition sample_metres : variable :=
  makeVariable_double Tag.Data_Value Unit.m [(Dim.X, 1)] [2]%float.
Definition sample_seconds : variable :=
  makeVariable_int64 Tag.Data_Int Unit.s [(Dim.X, 1)] [3].

(** A Variable without elements, and a scalar. *)
Definition sample_empty : variable :=
  makeVariable_double Tag.Data_Value Unit.m [(Dim.X, 0)] [].
Definition sample_scalar_seconds : variable :=
  makeVariable_double Tag.Data_Value Unit.s [] [3]%float.

(** An operand without cells: an extent is 0 and, when it owns its data,
    its buffer is empty. *)
Definition empty_operand (c : VariableConcept) : Prop :=
  0 ∈ Dimensions.shape (Concept.dimensions c)
  /\ match c with
     | Concept_double c => m_view c = None -> m_model c = []
     | Concept_int64 c => m_view c = None -> m_model c = []
     | Concept_string c => m_view c = None -> m_model c = []
     end.

(** ** Equality *)

(** Equality of two elements as [==] of their type decides it. *)
Definition Element_eqb (x y : Element) : bool :=
  match x, y with
  | Element_double a, Element_double b => PrimFloat.eqb a b
  | Element_int64 a, Element_int64 b => Z.eqb a b
  | Element_string a, Element_string b => String.eqb a b
  | _, _ => false
  end.

Definition elements_agree (a b : variable) (c : coord) : Prop :=
  match var_element a c, var_element b c with
  | Some x, Some y => Element_eqb x y = true
  | _, _ => False
  end.

(** An element that compares equal to itself: every integer and string,
    and every [double] that is not a NaN. *)
Definition self_equal (x : option Element) : Prop :=
  match x with Some e => Element_eqb e e = true | None => True end.

(** Equality as the specification words it: the units agree, the names
    agree, the dimensions agree up to a permutation of the axis order, and
    the elements agree at every position of the left operand. *)
Definition spec_equal (a b : variable) : Prop :=
  m_unit a = m_unit b /\ m_name a = m_name b
  /\ var_dimensions a ≡ₚ var_dimensions b
  /\ forall c, in_box (var_dimensions a) c -> elements_agree a b c.

(** Equality as [Variable::operator==] decides it for two Variables with
    data objects of their own: the tags and the element types agree too. *)
Definition code_equal (a b : variable) : Prop :=
  m_name a = m_name b /\ m_unit a = m_unit b /\ m_tag a = m_tag b
  /\ var_dimensions a ≡ₚ var_dimensions b
  /\ dtype (m_object a) = dtype (m_object b)
  /\ forall c, in_box (var_dimensions a) c -> elements_agree a b c.

Definition sample_value : variable :=
  makeVariable_double Tag.Data_Value Unit.m [(Dim.X, 1)] [5]%float.
Definition sample_variance : variable :=
  makeVariable_double Tag.Data_Variance Unit.m [(Dim.X, 1)] [5]%float.
Definition sample_xy : variable :=
  makeVariable_double Tag.Data_Value Unit.m [(Dim.X, 2); (Dim.Y, 2)] [1; 2; 3; 4]%float.
Definition sample_yx : variable :=
  makeVariable_double Tag.Data_Value Unit.m [(Dim.Y, 2); (Dim.X, 2)] [1; 3; 2; 4]%float.

(** ** Events and histograms *)

(** The largest integer that is not above a [double]; there is none for
    NaN and the infinities. *)
Definition double_floor (x : double) : option Z :=
  match Prim2SF x with
  | S754_zero _ => Some 0
  | S754_finite s m e =>
      let m := if s then Z.neg m else Z.pos m in
      Some (if 0 <=? e then m * 2 ^ e else m `div` 2 ^ (- e))
  | _ => None
  end.

(** The [double] [x] is the integer [K]. *)
Definition double_is_index (x : double) (K : Z) : Prop :=
  match Prim2SF x with
  | S754_zero _ => K = 0
  | S754_finite false m e => e <= 0 /\ Z.pos m = K * 2 ^ (- e)
  | _ => False
  end.

(** The bin of an event as the specification words it, computed in
    [double] as the kernel computes it, and what the event contributes
    to its output row: [K] is the number of bins, [weights] the row of
    weights. *)
Definition spec_bin (offset scale e : double) : option Z :=
  double_floor (PrimFloat.mul (PrimFloat.sub e offset) scale).

Definition spec_contribution (op : SparseOp) (K : Z) (offset scale : double)
    (weights : list double) (e : double) : double :=
  match spec_bin offset scale e with
  | Some bin =>
      if decide (0 <= bin < K)
      then SparseOp_double op 1 (default 0%float (weights !! Z.to_nat bin))
      else SparseOp_double op 1 0
  | None => SparseOp_double op 1 0
  end.

Definition edges_offset (edges : list double) : double := List.hd 0%float edges.
Definition edges_bins (edges : list double) : Z := Z.of_nat (length edges) - 1.
Definition edges_scale (edges : list double) : double :=
  PrimFloat.div (double_of_index (edges_bins edges))
    (PrimFloat.sub (List.last edges 0%float) (List.hd 0%float edges)).

(** Modelled from the spec: edges that are uniformly spaced (section
    4.7), for the examples: there are at least two, they increase, and
    every two neighbours are as far apart as the first two. *)
Definition uniform_edges (edges : list double) : bool :=
  match edges with
  | a :: (b :: _) as rest =>
      PrimFloat.ltb a b
      && forallb (fun p : double * double =>
                    PrimFloat.eqb (PrimFloat.sub p.2 p.1) (PrimFloat.sub b a))
           (zip edges rest)
  | _ => false
  end.

(** Modelled from the spec: the check for sorted edges, for the examples. *)
Definition increasing_edges (edges : list double) : result unit :=
  if forallb (fun p : double * double => PrimFloat.leb p.1 p.2) (zip edges (tail edges))
  then ret tt
  else throw (runtime_error "Bin edges of histogram must be sorted.").

(** Events, edges and weights in metres and counts: one outer position,
    two bins [[0, 1)] and [[1, 2)] with the weights 4 and 8. *)
Definition sample_events : SparseCoord :=
  mkSparseCoord Unit.m false [[0.5; 1.5; 5; -1]%float].
Definition sample_uniform_edges : Edges := mkEdges Unit.m false [0; 1; 2]%float.
Definition sample_other_edges : Edges := mkEdges Unit.m false [0; 1; 3]%float.
Definition sample_weights : Weights := mkWeights Unit.counts [[4; 8]%float].

(** ** Histograms for [rebin] *)

(** One bin [[0, 2]] with the value 10, as a 1-D Variable along [X] and as
    a 2-D Variable with an inner axis [X] of extent 1 and the bins along
    [Y]; the new edges [[0, 1, 2]]. *)
Definition sample_counts : variable :=
  makeVariable_double Tag.Data_Value Unit.counts [(Dim.X, 1)] [10]%float.
Definition sample_old_edges : variable :=
  makeVariable_double Tag.Coord_X Unit.m [(Dim.X, 2)] [0; 2]%float.
Definition sample_new_edges : variable :=
  makeVariable_double Tag.Coord_X Unit.m [(Dim.X, 3)] [0; 1; 2]%float.

Definition sample_counts_outer : variable :=
  makeVariable_double Tag.Data_Value Unit.counts [(Dim.X, 1); (Dim.Y, 1)] [10]%float.
Definition sample_old_edges_outer : variable :=
  makeVariable_double Tag.Coord_Y Unit.m [(Dim.Y, 2)] [0; 2]%float.
Definition sample_new_edges_outer : variable :=
  makeVariable_double Tag.Coord_Y Unit.m [(Dim.Y, 3)] [0; 1; 2]%float.

(** Three bins of width 1 with the values 10, 20 and 30. *)
Definition sample_histogram : variable :=
  makeVariable_double Tag.Data_Value Unit.counts [(Dim.X, 3)] [10; 20; 30]%float.
Definition sample_histogram_edges : variable :=
  makeVariable_double Tag.Coord_X Unit.m [(Dim.X, 4)] [0; 1; 2; 3]%float.

(** Four bins of width 1 with the value 1, and the new edges [[0, 2, 4]]. *)
Definition sample_ones : variable :=
  makeVariable_double Tag.Data_Value Unit.counts [(Dim.X, 4)] [1; 1; 1; 1]%float.
Definition sample_unit_edges : variable :=
  makeVariable_double Tag.Coord_X Unit.m [(Dim.X, 5)] [0; 1; 2; 3; 4]%float.
Definition sample_wide_edges : variable :=
  makeVariable_double Tag.Coord_X Unit.m [(Dim.X, 3)] [0; 2; 4]%float.

(** The values of a Variable of element type [double]. *)
Definition values_double (v : variable) : list double :=
  match m_object v with
  | Concept_double c => m_model c
  | _ => []
  end.

(** ** Storage seen through views *)

(** The dimensions of the buffer that a concept works on: its own for an
    owning model, those of the Variable it was sliced from for a view. *)
Definition layout {T} (c : VariableConceptT T) : Dimensions.t :=
  match m_view c with
  | Some v => parentDimensions v
  | None => dimensions c
  end.

(** The position in its buffer of the element of [c] at the position [x]
    of the dimensions of [c]. *)
Definition cell {T} (c : VariableConceptT T) (x : coord) : Z :=
  data c + flat (layout c) (restrict (Dimensions.labels (dimensions c)) x).

(** ** Element-wise arithmetic *)

(** [op] on two elements of the same numeric kind. *)
Definition Element_op (op : Op) (x y : option Element) : option Element :=
  match x, y with
  | Some (Element_double a), Some (Element_double b) =>
      Some (Element_double (Op_fun op a b))
  | Some (Element_int64 a), Some (Element_int64 b) =>
      Some (Element_int64 (Op_fun op a b))
  | _, _ => None
  end.

(** ** Masks *)

(** The indices, from [i] on, of the entries of a mask that are not 0. *)
Fixpoint kept_from (i : Z) (mask : list Z) : list Z :=
  match mask with
  | [] => []
  | m :: mask' =>
      if decide (m = 0) then kept_from (i + 1) mask'
      else i :: kept_from (i + 1) mask'
  end.

Definition kept (mask : list Z) : list Z := kept_from 0 mask.

(** ** Single indices *)

(** [p] is [v] at the index [i] along [dim], without the dimension [dim]. *)
Definition is_index (p v : variable) (dim : Dim.t) (i : Z) : Prop :=
  wf_variable p
  /\ m_tag p = m_tag v /\ m_unit p = m_unit v /\ m_name p = m_name v
  /\ dtype (m_object p) = dtype (m_object v)
  /\ var_dimensions p = erased (var_dimensions v) dim
  /\ forall c, in_box (var_dimensions p) c ->
       var_element p c = var_element v (update c dim i).

(** [s] has the labels and extents of [v] other than [dim], in any order. *)
Definition fills_index (s v : variable) (dim : Dim.t) : Prop :=
  forall l, Dimensions.size (var_dimensions s) l
            = Dimensions.size (erased (var_dimensions v) dim) l.

(** [r] is [a] with [op] applied at every position to its element and
    the element of [b] at that position; a label that [b] lacks does not
    count for the position in [b]. *)
Definition is_elementwise (op : Op) (r a b : variable) : Prop :=
  wf_variable r
  /\ m_tag r = m_tag a /\ m_name r = m_name a
  /\ var_dimensions r = var_dimensions a
  /\ forall c, in_box (var_dimensions a) c ->
       var_element r c = Element_op op (var_element a c) (var_element b c).

Definition sample_int_row : variable :=
  makeVariable_int64 Tag.Data_Int Unit.m [(Dim.X, 4)] [1; 2; 3; 4].

(** ** Index lists *)

(** The index list of permuting by [first] and then by [second]. *)
Definition compose_indices (first second : list Z) : list Z :=
  (fun t => default 0 (first !! Z.to_nat t)) <$> second.

(** A histogram of two rows for [rebin]: the bins along [X], the rows
    along [Y]. *)
Definition sample_histogram_rows : variable :=
  makeVariable_double Tag.Data_Value Unit.counts [(Dim.X, 3); (Dim.Y, 2)]
    [10; 20; 30; 1; 2; 3]%float.

(** The position [x] of the dimensions with the labels [ls], moved by
    [shift] in the dimensions of the buffer. *)
Definition shifted (shift : coord) (ls : list Dim.t) (x : coord) : coord :=
  fun l => shift l + restrict ls x l.

(** A concept whose cells lie in its buffer: a model that owns its data
    ([shift] is 0 everywhere), or a view whose first element is at the
    position [shift] of the buffer it looks into. *)
Definition wf_cells {T} (c : VariableConceptT T) (shift : coord) : Prop :=
  wf_dims (dimensions c) /\ wf_dims (layout c)
  /\ Z.of_nat (length (m_model c)) = Dimensions.volume (layout c)
  /\ data c = flat (layout c) shift
  /\ (forall l, l ∈ Dimensions.labels (dimensions c) ->
                l ∈ Dimensions.labels (layout c))
  /\ VariableView.fits (dimensions c) (layout c) = true
  /\ forall x, in_box (dimensions c) x ->
       in_box (layout c) (shifted shift (Dimensions.labels (dimensions c)) x).

(** The same for type-erased storage: the element at a place of the
    buffer, the place of the cell at [x], and the element of that cell. *)
Definition concept_buffer (c : VariableConcept) (p : nat) : option Element :=
  match c with
  | Concept_double c => Element_double <$> m_model c !! p
  | Concept_int64 c => Element_int64 <$> m_model c !! p
  | Concept_string c => Element_string <$> m_model c !! p
  end.

Definition concept_cell (c : VariableConcept) (x : coord) : Z :=
  match c with
  | Concept_double c => cell c x
  | Concept_int64 c => cell c x
  | Concept_string c => cell c x
  end.

Definition cell_element (c : VariableConcept) (x : coord) : option Element :=
  concept_buffer c (Z.to_nat (concept_cell c x)).

Definition concept_cells (c : VariableConcept) (shift : coord) : Prop :=
  match c with
  | Concept_double c => wf_cells c shift
  | Concept_int64 c => wf_cells c shift
  | Concept_string c => wf_cells c shift
  end.

Definition concept_isConstView (c : VariableConcept) : bool :=
  match c with
  | Concept_double c => isConstView c
  | Concept_int64 c => isConstView c
  | Concept_string c => isConstView c
  end.

(** [view] is a view on the range [[b, e)] of [parent] along [dim]: it
    works on the buffer of [parent], and its cell at [x] is the cell of
    [parent] at [x] moved by [b] along [dim]. *)
Definition is_range_view (view parent : VariableConcept) (dim : Dim.t) (b e : Z)
    (const : bool) : Prop :=
  Concept.dimensions view = resized (Concept.dimensions parent) dim (e - b)
  /\ dtype view = dtype parent
  /\ Concept.isView view = true
  /\ concept_isConstView view = const
  /\ concept_cells view (update (fun _ => 0) dim b)
  /\ (forall p, concept_buffer view p = concept_buffer parent p)
  /\ forall x, in_box (Concept.dimensions view) x ->
       concept_cell view x
       = flat (Concept.dimensions parent) (update x dim (x dim + b)).

(** [view] is a view on the index [b] of [parent] along [dim]. *)
Definition is_index_view (view parent : VariableConcept) (dim : Dim.t) (b : Z)
    (const : bool) : Prop :=
  Concept.dimensions view = erased (Concept.dimensions parent) dim
  /\ dtype view = dtype parent
  /\ Concept.isView view = true
  /\ concept_isConstView view = const
  /\ concept_cells view (update (fun _ => 0) dim b)
  /\ (forall p, concept_buffer view p = concept_buffer parent p)
  /\ forall x, in_box (Concept.dimensions view) x ->
       concept_cell view x = flat (Concept.dimensions parent) (update x dim b).

(** [v'] is [v] with the range [[b, e)] along [dim] replaced: the
    element at a position in the range is [g] of the position in the
    range, every other element is that of [v]. *)
Definition is_range_update (v' v : variable) (dim : Dim.t) (b e : Z)
    (g : coord -> option Element) : Prop :=
  wf_variable v'
  /\ m_tag v' = m_tag v /\ m_unit v' = m_unit v /\ m_name v' = m_name v
  /\ dtype (m_object v') = dtype (m_object v)
  /\ var_dimensions v' = var_dimensions v
  /\ forall x, in_box (var_dimensions v) x ->
       var_element v' x
       = if decide (b <= x dim < e) then g (update x dim (x dim - b))
         else var_element v x.

(** [v'] is [v] with the elements of the range [[b, e)] along [dim]
    combined by [op] with the elements of [other] at the position in the
    range; every other element is that of [v]. *)
Definition is_range_elementwise (op : Op) (v' v other : variable) (dim : Dim.t)
    (b e : Z) : Prop :=
  wf_variable v'
  /\ m_tag v' = m_tag v /\ m_name v' = m_name v
  /\ dtype (m_object v') = dtype (m_object v)
  /\ var_dimensions v' = var_dimensions v
  /\ forall x, in_box (var_dimensions v) x ->
       var_element v' x
       = if decide (b <= x dim < e)
         then Element_op op (var_element v x)
                (var_element other (update x dim (x dim - b)))
         else var_element v x.

(** The cell of [c] at [x] and the element of [other] at [x] compare
    equal. *)
Definition cells_agree (c other : VariableConcept) (x : coord) : Prop :=
  match cell_element c x, concept_element other x with
  | Some a, Some b => Element_eqb a b = true
  | _, _ => False
  end.
(** * Properties *)

(** ** The view model against the tests of the sources *)

(** The four tests of variable_view_test.cpp: the buffer holds 0, 1, 2, ...,
    so the values seen are the positions. *)
Example VariableView_full_volume :
  VariableView.makeVariableView 0 [(Dim.X, 2); (Dim.Y, 4)] [(Dim.X, 2); (Dim.Y, 4)]
  = inr [0; 1; 2; 3; 4; 5; 6; 7].
Proof. reflexivity. Qed.

Example VariableView_subvolume :
  VariableView.makeVariableView 0 [(Dim.X, 1); (Dim.Y, 3)] [(Dim.X, 2); (Dim.Y, 4)]
  = inr [0; 2; 4].
Proof. reflexivity. Qed.

Example VariableView_edges_first :
  VariableView.makeVariableView 0 [(Dim.X, 2); (Dim.Y, 4)] [(Dim.X, 3); (Dim.Y, 4)]
  = inr [0; 1; 3; 4; 6; 7; 9; 10].
Proof. reflexivity. Qed.

Example VariableView_edges_second :
  VariableView.makeVariableView 0 [(Dim.X, 2); (Dim.Y, 4)] [(Dim.X, 2); (Dim.Y, 5)]
  = inr [0; 1; 2; 3; 4; 5; 6; 7].
Proof. reflexivity. Qed.

(** ** The result monad *)

Lemma bind_inr {A B} (m : result A) (k : A -> result B) (b : B) :
  bind m k = inr b <-> exists a, m = inr a /\ k a = inr b.
Proof.
  destruct m as [e|a]; simpl; split.
  - intros ?; discriminate.
  - intros (a & ? & _); discriminate.
  - intros ?; eauto.
  - intros (a' & [= <-] & ?); done.
Qed.

(** ** Lists *)

Lemma filter_Forall_id {A} (P : A -> Prop) `{forall x, Decision (P x)} (l : list A) :
  Forall P l -> filter P l = l.
Proof.
  induction 1 as [|x l Hx Hl IH]; [done|].
  rewrite filter_cons_True by done. by rewrite IH.
Qed.

Lemma Forall_filter_2 {A} (P Q : A -> Prop) `{forall x, Decision (P x)} (l : list A) :
  Forall Q l -> Forall Q (filter P l).
Proof.
  rewrite !Forall_forall. intros HQ x Hx%list_elem_of_filter. apply HQ, Hx.
Qed.

(** ** Dimensions *)

Section DimensionsFacts.
Implicit Types (d : Dimensions.t) (l : Dim.t) (n : Z) (c : coord).

Lemma contains_elem_of d l :
  Dimensions.contains d l = true <-> l ∈ Dimensions.labels d.
Proof.
  induction d as [|[l' n'] d IH]; simpl.
  - split; [discriminate | intros H; inversion H].
  - destruct (decide (l' = l)) as [->|Hne].
    + split; [intros _; left | done].
    + rewrite IH. split; [by right|].
      intros H; inversion H; subst; [done | assumption].
Qed.

Lemma contains_false d l :
  Dimensions.contains d l = false <-> l ∉ Dimensions.labels d.
Proof.
  rewrite <- contains_elem_of. destruct (Dimensions.contains d l); naive_solver.
Qed.

Lemma size_contains d l n :
  Dimensions.size d l = inr n -> Dimensions.contains d l = true.
Proof.
  induction d as [|[l' n'] d IH]; simpl; [discriminate|].
  destruct (decide (l' = l)); auto.
Qed.

Lemma contains_size d l :
  Dimensions.contains d l = true -> exists n, Dimensions.size d l = inr n.
Proof.
  induction d as [|[l' n'] d IH]; simpl; [discriminate|].
  destruct (decide (l' = l)); eauto.
Qed.

Lemma size_not_contains d l :
  Dimensions.contains d l = false ->
  Dimensions.size d l = inl (DimensionError "Dimension not found.").
Proof.
  induction d as [|[l' n'] d IH]; simpl; [done|].
  destruct (decide (l' = l)); [discriminate | auto].
Qed.

Lemma size_elem_of d l n :
  Dimensions.size d l = inr n -> (l, n) ∈ d.
Proof.
  induction d as [|[l' n'] d IH]; simpl; [discriminate|].
  destruct (decide (l' = l)) as [->|].
  - intros [= ->]. left.
  - intros. right. auto.
Qed.

Lemma elem_of_size d l n :
  NoDup (Dimensions.labels d) -> (l, n) ∈ d -> Dimensions.size d l = inr n.
Proof.
  induction d as [|[l' n'] d IH]; simpl; intros Hnd Hin.
  - inversion Hin.
  - apply NoDup_cons in Hnd as [Hni Hnd].
    destruct (decide (l' = l)) as [->|Hne].
    + apply elem_of_cons in Hin as [[= ->]|Hin]; [done|].
      exfalso. apply Hni. unfold Dimensions.labels.
      apply list_elem_of_fmap. by exists (l, n).
    + apply elem_of_cons in Hin as [[= -> ->]|Hin]; [done | auto].
Qed.

Lemma wf_dims_cons l n d :
  wf_dims ((l, n) :: d) <-> (l ∉ Dimensions.labels d) /\ 0 <= n /\ wf_dims d.
Proof.
  unfold wf_dims; simpl. rewrite NoDup_cons, Forall_cons. simpl. tauto.
Qed.

Lemma wf_dims_nil : wf_dims [].
Proof. split; [apply NoDup_nil_2 | constructor]. Qed.

Lemma volume_nonneg d : wf_dims d -> 0 <= Dimensions.volume d.
Proof.
  induction d as [|[l n] d IH]; simpl; [lia|].
  rewrite wf_dims_cons. intros (_ & ? & ?). apply Z.mul_nonneg_nonneg; auto.
Qed.

Lemma size_nonneg d l n : wf_dims d -> Dimensions.size d l = inr n -> 0 <= n.
Proof.
  intros [_ Hf] Hs%size_elem_of.
  rewrite Forall_forall in Hf. apply (Hf _ Hs).
Qed.

Lemma offset_nonneg d l : wf_dims d -> 0 <= Dimensions.offset d l.
Proof.
  induction d as [|[l' n'] d IH]; simpl; [lia|].
  rewrite wf_dims_cons. intros (_ & ? & ?).
  destruct (decide (l' = l)); [lia|]. apply Z.mul_nonneg_nonneg; auto.
Qed.

(** *** Flat positions *)

Lemma flat_ext d c c' :
  (forall l, l ∈ Dimensions.labels d -> c l = c' l) -> flat d c = flat d c'.
Proof.
  induction d as [|[l n] d IH]; simpl; intros Hext; [done|].
  rewrite (Hext l) by left. rewrite IH; [done|].
  intros l' Hl'. apply Hext. by right.
Qed.

Lemma in_box_ext d c c' :
  (forall l, l ∈ Dimensions.labels d -> c l = c' l) -> in_box d c -> in_box d c'.
Proof.
  unfold in_box. rewrite !Forall_forall. intros Hext Hb [l n] Hin. simpl.
  rewrite <- Hext; [apply (Hb _ Hin)|].
  unfold Dimensions.labels. apply list_elem_of_fmap. by exists (l, n).
Qed.

Lemma in_box_cons l n d c :
  in_box ((l, n) :: d) c <-> 0 <= c l < n /\ in_box d c.
Proof. unfold in_box. by rewrite Forall_cons. Qed.

Lemma in_box_size d c l n :
  in_box d c -> Dimensions.size d l = inr n -> 0 <= c l < n.
Proof.
  intros Hb Hs%size_elem_of. unfold in_box in Hb.
  rewrite Forall_forall in Hb. apply (Hb _ Hs).
Qed.

Lemma flat_bounds d c : in_box d c -> 0 <= flat d c < Dimensions.volume d.
Proof.
  induction d as [|[l n] d IH]; simpl; [lia|].
  rewrite in_box_cons. intros [Hl Hb]. specialize (IH Hb). nia.
Qed.

Lemma flat_inj d c c' :
  in_box d c -> in_box d c' -> flat d c = flat d c' ->
  forall l, l ∈ Dimensions.labels d -> c l = c' l.
Proof.
  induction d as [|[l n] d IH]; simpl; intros Hb Hb' Heq l' Hin.
  - inversion Hin.
  - apply in_box_cons in Hb as [Hl Hb]. apply in_box_cons in Hb' as [Hl' Hb'].
    assert (flat d c = flat d c' /\ c l = c' l) as [H2 H1].
    { apply (Z.div_mod_unique n); [left; lia | left; lia | lia]. }
    apply elem_of_cons in Hin as [->|Hin]; [done | eauto].
Qed.

Lemma flat_surj d k :
  wf_dims d -> 0 <= k < Dimensions.volume d ->
  exists c, in_box d c /\ flat d c = k.
Proof.
  revert k. induction d as [|[l n] d IH]; simpl; intros k Hwf Hk.
  - exists (fun _ => 0). split; [constructor | lia].
  - apply wf_dims_cons in Hwf as (Hni & Hn & Hwf).
    assert (0 < n) by (destruct (decide (n = 0)) as [->|]; lia).
    destruct (IH (k `div` n) Hwf) as (c & Hb & Hc).
    { split; [apply Z.div_pos; lia|].
      apply Z.div_lt_upper_bound; lia. }
    exists (update c l (k `mod` n)). split.
    + apply in_box_cons. split.
      * unfold update. rewrite decide_True by done. apply Z.mod_pos_bound; lia.
      * eapply in_box_ext; [|exact Hb].
        intros l' Hl'. unfold update. rewrite decide_False; [done|].
        intros ->. done.
    + unfold update at 1. rewrite decide_True by done.
      rewrite (flat_ext d _ c).
      * rewrite Hc. rewrite (Z.div_mod k n) at 3 by lia. lia.
      * intros l' Hl'. unfold update. rewrite decide_False; [done|].
        intros ->. done.
Qed.

(** The position moves by the stride when one index changes. *)
Lemma flat_update d c dim i :
  NoDup (Dimensions.labels d) ->
  flat d (update c dim i)
  = flat d c + (if Dimensions.contains d dim
                then (i - c dim) * Dimensions.offset d dim else 0).
Proof.
  induction d as [|[l n] d IH]; simpl; intros Hnd; [lia|].
  apply NoDup_cons in Hnd as [Hni Hnd].
  destruct (decide (l = dim)) as [->|Hne].
  - unfold update at 1. rewrite decide_True by done.
    rewrite (flat_ext d _ c); [lia|].
    intros l' Hl'. unfold update. rewrite decide_False; [done|].
    intros ->. done.
  - unfold update at 1. rewrite decide_False by done.
    rewrite IH by done. destruct (Dimensions.contains d dim); lia.
Qed.

Lemma update_same c dim l : update c dim (c dim) l = c l.
Proof. unfold update. by destruct (decide (l = dim)) as [->|]. Qed.

Lemma update_eq c dim i : update c dim i dim = i.
Proof. unfold update. by rewrite decide_True. Qed.

Lemma update_ne c dim i l : l <> dim -> update c dim i l = c l.
Proof. intros. unfold update. by rewrite decide_False. Qed.

End DimensionsFacts.

(** ** Resizing and erasing a label *)

Section ResizeErase.
Implicit Types (d : Dimensions.t) (l : Dim.t) (n : Z) (c : coord).

Lemma labels_resized d l n :
  Dimensions.labels (resized d l n) = Dimensions.labels d.
Proof.
  unfold resized, Dimensions.labels. rewrite <- list_fmap_compose.
  apply list_fmap_ext. intros i [l' n'] _. simpl. by destruct (decide (l' = l)).
Qed.

Lemma resize_resized d l n d' :
  Dimensions.resize d l n = inr d' ->
  NoDup (Dimensions.labels d) ->
  d' = resized d l n /\ Dimensions.contains d l = true /\ 0 <= n.
Proof.
  revert d'. induction d as [|[l' m] d IH]; simpl; intros d' Hr Hnd; [discriminate|].
  apply NoDup_cons in Hnd as [Hni Hnd].
  destruct (decide (l' = l)) as [->|Hne].
  - destruct (Z.ltb_spec n 0); [discriminate|]. injection Hr as <-.
    split; [|split; [done | lia]]. f_equal.
    unfold resized. symmetry. erewrite list_fmap_ext; [apply list_fmap_id|].
    intros i [l'' m'] Hi. simpl. rewrite decide_False; [done|].
    intros ->. apply Hni. unfold Dimensions.labels.
    apply list_elem_of_fmap. exists (l, m'). split; [done|].
    by eapply list_elem_of_lookup_2.
  - apply bind_inr in Hr as (outer' & Hr & [= <-]).
    destruct (IH _ Hr Hnd) as (-> & ? & ?). done.
Qed.

Lemma resized_resize d l n :
  NoDup (Dimensions.labels d) -> Dimensions.contains d l = true -> 0 <= n ->
  Dimensions.resize d l n = inr (resized d l n).
Proof.
  induction d as [|[l' m] d IH]; simpl; intros Hnd Hc Hn; [discriminate|].
  apply NoDup_cons in Hnd as [Hni Hnd].
  destruct (decide (l' = l)) as [->|Hne].
  - destruct (Z.ltb_spec n 0); [lia|]. unfold ret. do 2 f_equal.
    unfold resized. erewrite list_fmap_ext; [symmetry; apply list_fmap_id|].
    intros i [l'' m'] Hi. simpl. rewrite decide_False; [done|].
    intros ->. apply Hni. unfold Dimensions.labels.
    apply list_elem_of_fmap. exists (l, m'). split; [done|].
    by eapply list_elem_of_lookup_2.
  - rewrite IH by done. done.
Qed.

Lemma size_resized d l n l' :
  Dimensions.size (resized d l n) l'
  = if decide (l' = l) then
      (if Dimensions.contains d l then inr n else Dimensions.size d l')
    else Dimensions.size d l'.
Proof.
  induction d as [|[l0 m] d IH]; simpl.
  - by destruct (decide (l' = l)).
  - rewrite IH. clear IH.
    destruct (decide (l0 = l)) as [->|Hne]; simpl;
      destruct (decide (l' = l)) as [->|Hne']; simpl;
      repeat (rewrite decide_True by done);
      repeat (rewrite decide_False by done); try done.
Qed.

Lemma contains_resized d l n l' :
  Dimensions.contains (resized d l n) l' = Dimensions.contains d l'.
Proof.
  apply eq_true_iff_eq. by rewrite !contains_elem_of, labels_resized.
Qed.

Lemma wf_resized d l n : wf_dims d -> 0 <= n -> wf_dims (resized d l n).
Proof.
  intros [Hnd Hf] Hn. split; [by rewrite labels_resized|].
  unfold resized. rewrite Forall_fmap. eapply Forall_impl; [exact Hf|].
  intros [l' m] ?; simpl in *. by destruct (decide (l' = l)).
Qed.

Lemma resized_id d l n :
  NoDup (Dimensions.labels d) -> Dimensions.size d l = inr n -> resized d l n = d.
Proof.
  intros Hnd Hs. unfold resized.
  erewrite list_fmap_ext; [apply list_fmap_id|].
  intros i [l' m] Hi. simpl. destruct (decide (l' = l)) as [->|]; [|done].
  f_equal. apply list_elem_of_lookup_2 in Hi.
  apply (elem_of_size _ _ _ Hnd) in Hi. congruence.
Qed.

Lemma offset_resized_self d l n :
  Dimensions.offset (resized d l n) l = Dimensions.offset d l.
Proof.
  induction d as [|[l0 m] d IH]; simpl; [done|].
  destruct (decide (l0 = l)) as [->|Hne]; simpl.
  - by rewrite decide_True.
  - rewrite decide_False by done. by rewrite IH.
Qed.

Lemma labels_erased d l :
  Dimensions.labels (erased d l) = filter (fun l' => l' <> l) (Dimensions.labels d).
Proof.
  induction d as [|[l0 m] d IH]; [done|].
  unfold erased, Dimensions.labels in *. rewrite fmap_cons, !filter_cons.
  cbn [fst]. destruct (decide (l0 <> l)); [rewrite fmap_cons|]; by rewrite IH.
Qed.

Lemma erase_erased d l d' :
  Dimensions.erase d l = inr d' ->
  NoDup (Dimensions.labels d) ->
  d' = erased d l /\ Dimensions.contains d l = true.
Proof.
  revert d'. induction d as [|[l' m] d IH]; simpl; intros d' Hr Hnd; [discriminate|].
  apply NoDup_cons in Hnd as [Hni Hnd]. unfold erased. rewrite filter_cons. simpl.
  destruct (decide (l' = l)) as [->|Hne].
  - injection Hr as <-. rewrite decide_False by (intros ?; done).
    split; [|done]. symmetry. apply filter_Forall_id.
    (* no other entry carries the label *)
    apply Forall_forall. intros [l'' m'] Hin. simpl. intros ->.
    apply Hni. unfold Dimensions.labels. apply list_elem_of_fmap. by exists (l, m').
  - apply bind_inr in Hr as (outer' & Hr & [= <-]).
    destruct (IH _ Hr Hnd) as (-> & ?). rewrite decide_True by done. done.
Qed.

Lemma erased_erase d l :
  NoDup (Dimensions.labels d) -> Dimensions.contains d l = true ->
  Dimensions.erase d l = inr (erased d l).
Proof.
  induction d as [|[l' m] d IH]; simpl; intros Hnd Hc; [discriminate|].
  apply NoDup_cons in Hnd as [Hni Hnd]. unfold erased. rewrite filter_cons. simpl.
  destruct (decide (l' = l)) as [->|Hne].
  - rewrite decide_False by (intros ?; done). unfold ret. do 2 f_equal.
    symmetry. apply filter_Forall_id.
    apply Forall_forall. intros [l'' m'] Hin. simpl. intros ->.
    apply Hni. unfold Dimensions.labels. apply list_elem_of_fmap. by exists (l, m').
  - rewrite IH by done. rewrite decide_True by done. done.
Qed.

Lemma wf_erased d l : wf_dims d -> wf_dims (erased d l).
Proof.
  intros [Hnd Hf]. split.
  - rewrite labels_erased. by apply NoDup_filter.
  - unfold erased. by apply Forall_filter_2.
Qed.

Lemma contains_erased d l l' :
  Dimensions.contains (erased d l) l'
  = Dimensions.contains d l' && negb (bool_decide (l' = l)).
Proof.
  apply eq_true_iff_eq.
  rewrite andb_true_iff, negb_true_iff, bool_decide_eq_false.
  rewrite !contains_elem_of, labels_erased, list_elem_of_filter. tauto.
Qed.

Lemma size_erased d l l' :
  l' <> l -> Dimensions.size (erased d l) l' = Dimensions.size d l'.
Proof.
  intros Hne. induction d as [|[l0 m] d IH]; [done|].
  unfold erased in *. rewrite filter_cons. simpl.
  destruct (decide (l0 = l)) as [->|Hl0].
  - rewrite decide_False by (intros ?; done). simpl.
    rewrite decide_False by congruence. apply IH.
  - rewrite decide_True by done. simpl.
    destruct (decide (l0 = l')); [done | apply IH].
Qed.

Lemma wf_add d l n :
  wf_dims d -> Dimensions.contains d l = false -> 0 <= n -> wf_dims (d ++ [(l, n)]).
Proof.
  intros [Hnd Hf] Hc%contains_false Hn. split.
  - unfold Dimensions.labels. rewrite fmap_app. simpl.
    apply NoDup_app. split; [done|]. split; [|apply NoDup_singleton].
    intros x Hx Hx'. apply list_elem_of_singleton in Hx' as ->. done.
  - apply Forall_app. split; [done|]. by repeat constructor.
Qed.

End ResizeErase.

(** ** Equality of dimensions *)

Lemma eqb_perm (a b : Dimensions.t) : Dimensions.eqb a b = true <-> a ≡ₚ b.
Proof. unfold Dimensions.eqb. apply bool_decide_eq_true. Qed.

Lemma eqb_refl (a : Dimensions.t) : Dimensions.eqb a a = true.
Proof. by apply eqb_perm. Qed.

Lemma eqb_eq (a b : Dimensions.t) : a = b -> Dimensions.eqb a b = true.
Proof. intros ->. apply eqb_refl. Qed.

Lemma perm_labels (a b : Dimensions.t) :
  a ≡ₚ b -> Dimensions.labels a ≡ₚ Dimensions.labels b.
Proof. intros H. unfold Dimensions.labels. by rewrite H. Qed.

Lemma perm_wf_dims (a b : Dimensions.t) : a ≡ₚ b -> wf_dims a -> wf_dims b.
Proof.
  intros H [Hnd Hf]. split.
  - by rewrite <- (perm_labels a b H).
  - by rewrite <- H.
Qed.

Lemma perm_size (a b : Dimensions.t) l :
  NoDup (Dimensions.labels a) -> a ≡ₚ b -> Dimensions.size b l = Dimensions.size a l.
Proof.
  intros Hnd H.
  assert (NoDup (Dimensions.labels b)) as Hnd' by (by rewrite <- (perm_labels a b H)).
  destruct (Dimensions.size a l) as [e|n] eqn:Hs.
  - destruct (Dimensions.contains a l) eqn:Hc.
    { apply contains_size in Hc as [n Hn]. congruence. }
    rewrite size_not_contains in Hs by done. rewrite <- Hs.
    apply size_not_contains, contains_false. rewrite <- (perm_labels a b H).
    by apply contains_false.
  - apply elem_of_size; [done|]. rewrite <- H. by apply size_elem_of.
Qed.

Lemma perm_volume (a b : Dimensions.t) :
  a ≡ₚ b -> Dimensions.volume a = Dimensions.volume b.
Proof.
  induction 1 as [|[l n] a b _ IH|[l n] [l' n'] a|a b c _ IH1 _ IH2]; simpl;
    [done | by rewrite IH | lia | congruence].
Qed.

Lemma perm_in_box (a b : Dimensions.t) c : a ≡ₚ b -> in_box a c -> in_box b c.
Proof. unfold in_box. intros H. by rewrite H. Qed.

(** A resized, a shortened or an extended list of dimensions is equal
    to the original only if it is the original. *)
Lemma perm_resized (d : Dimensions.t) l n :
  NoDup (Dimensions.labels d) -> resized d l n ≡ₚ d -> resized d l n = d.
Proof.
  intros Hnd H. destruct (Dimensions.contains d l) eqn:Hc.
  - apply resized_id; [done|].
    rewrite (perm_size (resized d l n) d l) by (by rewrite ?labels_resized).
    by rewrite size_resized, decide_True, Hc.
  - unfold resized. erewrite list_fmap_ext; [apply list_fmap_id|].
    intros i [l' m] Hi. simpl. rewrite decide_False; [done|]. intros ->.
    apply contains_false in Hc. apply Hc. unfold Dimensions.labels.
    apply list_elem_of_fmap. exists (l, m). split; [done|].
    by eapply list_elem_of_lookup_2.
Qed.

Lemma perm_erased (d : Dimensions.t) l :
  Dimensions.contains d l = true -> ~ erased d l ≡ₚ d.
Proof.
  intros Hc H. apply contains_elem_of in Hc.
  rewrite <- (perm_labels _ _ H), labels_erased in Hc. apply list_elem_of_filter in Hc as [Hne _]. done.
Qed.

Lemma perm_add (d : Dimensions.t) l n : ~ d ++ [(l, n)] ≡ₚ d.
Proof. intros H%Permutation_length. rewrite length_app in H. simpl in H. lia. Qed.

Lemma eqb_resized (d : Dimensions.t) l n :
  NoDup (Dimensions.labels d) ->
  Dimensions.eqb (resized d l n) d = bool_decide (resized d l n = d).
Proof.
  intros Hnd. apply eq_true_iff_eq. rewrite eqb_perm, bool_decide_eq_true. split.
  - by apply perm_resized.
  - by intros ->.
Qed.

Lemma eqb_erased d l :
  Dimensions.contains d l = true -> Dimensions.eqb (erased d l) d = false.
Proof.
  intros Hc. apply not_true_iff_false. rewrite eqb_perm. by apply perm_erased.
Qed.

Lemma perm_erased_eq d l :
  Dimensions.contains d l = true -> erased d l ≡ₚ d -> erased d l = d.
Proof. intros Hc H. by destruct (perm_erased d l Hc). Qed.

(** ** Sums over labels, and the positions a view visits *)

Section Sums.
Context {A : Type}.
Implicit Types (h : A -> Z) (l : list A).

Lemma Zsum_perm h l l' : l ≡ₚ l' -> Zsum h l = Zsum h l'.
Proof.
  induction 1 as [|x l l' _ IH|x y l|l l' l'' _ IH1 _ IH2];
    unfold Zsum in *; simpl in *; lia.
Qed.

Lemma Zsum_ext h h' l : (forall x, x ∈ l -> h x = h' x) -> Zsum h l = Zsum h' l.
Proof.
  induction l as [|x l IH]; intros Hext; [done|]. unfold Zsum in *. simpl.
  rewrite (Hext x) by left. rewrite IH; [done|]. intros y Hy. apply Hext. by right.
Qed.

Lemma Zsum_scale k h l : Zsum (fun x => k * h x) l = k * Zsum h l.
Proof. induction l as [|x l IH]; unfold Zsum in *; simpl; lia. Qed.

Lemma Zsum_filter (P : A -> Prop) `{forall x, Decision (P x)} h l :
  Zsum (fun x => if decide (P x) then h x else 0) l = Zsum h (filter P l).
Proof.
  induction l as [|x l IH]; [done|]. rewrite filter_cons.
  unfold Zsum in *. simpl. destruct (decide (P x)); simpl; lia.
Qed.

Lemma Zsum_cons h x l : Zsum h (x :: l) = h x + Zsum h l.
Proof. done. Qed.

Lemma dot_fmap (c w : A -> Z) l :
  VariableView.dot (c <$> l) (w <$> l) = Zsum (fun x => c x * w x) l.
Proof.
  induction l as [|x l IH]; [done|]. rewrite !fmap_cons. unfold Zsum in *.
  cbn [VariableView.dot foldr]. by rewrite IH.
Qed.

Lemma zip_fmap_diag {B C} (f : A -> B) (g : A -> C) l :
  zip (f <$> l) (g <$> l) = (fun x => (f x, g x)) <$> l.
Proof.
  induction l as [|x l IH]; [done|]. rewrite !fmap_cons. cbn [zip_with].
  by rewrite IH.
Qed.

End Sums.

Section Positions.
Implicit Types (d I O D : Dimensions.t) (c : coord) (idx : list Z).

Lemma flat_Zsum d c :
  NoDup (Dimensions.labels d) ->
  flat d c = Zsum (fun l => c l * Dimensions.offset d l) (Dimensions.labels d).
Proof.
  induction d as [|[l n] d IH]; [done|]. intros Hnd.
  change (Dimensions.labels ((l, n) :: d)) with (l :: Dimensions.labels d) in *.
  apply NoDup_cons in Hnd as [Hni Hnd].
  rewrite Zsum_cons. cbn [flat Dimensions.offset].
  rewrite decide_True by done. rewrite IH by done.
  rewrite <- Zsum_scale.
  rewrite Z.mul_1_r. f_equal. apply Zsum_ext.
  intros l' Hl'. rewrite decide_False; [lia|]. intros ->. done.
Qed.

Lemma dot_strides_flat I P c :
  NoDup (Dimensions.labels I) -> NoDup (Dimensions.labels P) ->
  VariableView.dot (c <$> Dimensions.labels I) (VariableView.strides I P)
  = flat P (restrict (Dimensions.labels I) c).
Proof.
  intros HI HP. unfold VariableView.strides. rewrite dot_fmap.
  rewrite flat_Zsum by done.
  rewrite (Zsum_ext _ (fun l => if decide (l ∈ Dimensions.labels P)
                                then c l * Dimensions.offset P l else 0)).
  2:{ intros l _. unfold VariableView.stride.
      destruct (Dimensions.contains P l) eqn:Hc.
      - apply contains_elem_of in Hc. by rewrite decide_True.
      - apply contains_false in Hc. rewrite decide_False by done. lia. }
  rewrite (Zsum_ext (fun l => restrict _ c l * _)
             (fun l => if decide (l ∈ Dimensions.labels I)
                       then c l * Dimensions.offset P l else 0)).
  2:{ intros l _. unfold restrict. by destruct (decide (l ∈ Dimensions.labels I)). }
  rewrite !Zsum_filter. apply Zsum_perm. apply NoDup_Permutation.
  - by apply NoDup_filter.
  - by apply NoDup_filter.
  - intros l. rewrite !list_elem_of_filter. tauto.
Qed.

Lemma elem_of_indices shape idx :
  idx ∈ VariableView.indices shape <-> Forall2 (fun i n => 0 <= i < n) idx shape.
Proof.
  revert idx. induction shape as [|n shape IH]; intros idx; simpl.
  - rewrite list_elem_of_singleton. split; [intros ->; constructor|].
    by intros ->%Forall2_nil_inv_r.
  - rewrite list_elem_of_bind. split.
    + intros (o & Hidx & Ho). apply list_elem_of_fmap in Hidx as (i & -> & Hi).
      apply elem_of_seqZ in Hi. constructor; [lia|]. by apply IH.
    + intros (i & o & Hi & Ho & ->)%Forall2_cons_inv_r.
      exists o. split; [|by apply IH].
      apply list_elem_of_fmap. exists i. split; [done|]. apply elem_of_seqZ. lia.
Qed.

Lemma coord_of_fmap ls idx :
  NoDup ls -> length idx = length ls -> coord_of ls idx <$> ls = idx.
Proof.
  revert idx. induction ls as [|l ls IH]; intros [|i idx] Hnd Hlen;
    simpl in Hlen; try done.
  apply NoDup_cons in Hnd as [Hni Hnd]. rewrite fmap_cons. cbn [coord_of].
  rewrite decide_True by done. f_equal.
  transitivity (coord_of ls idx <$> ls); [|apply IH; [done | lia]].
  apply list_fmap_ext. intros k l' Hl'. rewrite decide_False; [done|].
  intros ->. apply Hni. by eapply list_elem_of_lookup_2.
Qed.

Lemma in_box_indices I c :
  in_box I c ->
  c <$> Dimensions.labels I ∈ VariableView.indices (Dimensions.shape I).
Proof.
  intros Hb. apply elem_of_indices. unfold Dimensions.labels, Dimensions.shape.
  induction Hb as [|[l n] I Hl Hb IH]; simpl; constructor; done.
Qed.

Lemma indices_in_box I idx :
  NoDup (Dimensions.labels I) ->
  idx ∈ VariableView.indices (Dimensions.shape I) ->
  in_box I (coord_of (Dimensions.labels I) idx)
  /\ coord_of (Dimensions.labels I) idx <$> Dimensions.labels I = idx.
Proof.
  intros Hnd Hidx%elem_of_indices.
  assert (length idx = length (Dimensions.labels I)) as Hlen.
  { apply Forall2_length in Hidx. unfold Dimensions.labels, Dimensions.shape in *.
    rewrite length_fmap in Hidx. by rewrite length_fmap. }
  pose proof (coord_of_fmap _ _ Hnd Hlen) as Hc. split; [|done].
  rewrite <- Hc in Hidx. clear Hc Hlen Hnd.
  unfold in_box, Dimensions.labels, Dimensions.shape in *.
  generalize dependent (coord_of I.*1 idx). intros c.
  induction I as [|[l n] I IH]; simpl; intros H; [constructor|].
  apply Forall2_cons in H as [? ?]. constructor; auto.
Qed.

(** The pairs of positions that two views over the same target
    dimensions visit together. *)
Lemma elem_of_zip_offsets I O D bs bt s t :
  NoDup (Dimensions.labels I) -> NoDup (Dimensions.labels O) ->
  NoDup (Dimensions.labels D) ->
  (s, t) ∈ zip (VariableView.offsets bs I O) (VariableView.offsets bt I D)
  <-> exists c, in_box I c
        /\ s = bs + flat O (restrict (Dimensions.labels I) c)
        /\ t = bt + flat D (restrict (Dimensions.labels I) c).
Proof.
  intros HI HO HD. unfold VariableView.offsets. rewrite zip_fmap_diag.
  rewrite list_elem_of_fmap. split.
  - intros (idx & [= -> ->] & Hidx).
    destruct (indices_in_box I idx HI Hidx) as [Hb Hc].
    exists (coord_of (Dimensions.labels I) idx). split; [done|].
    rewrite <- !dot_strides_flat by done. by rewrite !Hc.
  - intros (c & Hb & -> & ->). exists (c <$> Dimensions.labels I).
    split; [|by apply in_box_indices].
    by rewrite !dot_strides_flat.
Qed.

Lemma length_zip_offsets I O D bs bt :
  length (VariableView.offsets bs I O) = length (VariableView.offsets bt I D).
Proof. unfold VariableView.offsets. by rewrite !length_fmap. Qed.

Lemma elem_of_offsets I P b p :
  NoDup (Dimensions.labels I) -> NoDup (Dimensions.labels P) ->
  p ∈ VariableView.offsets b I P
  <-> exists c, in_box I c /\ p = b + flat P (restrict (Dimensions.labels I) c).
Proof.
  intros HI HP. unfold VariableView.offsets. rewrite list_elem_of_fmap. split.
  - intros (idx & -> & Hidx).
    destruct (indices_in_box I idx HI Hidx) as [Hb Hc].
    exists (coord_of (Dimensions.labels I) idx). split; [done|].
    rewrite <- dot_strides_flat by done. by rewrite Hc.
  - intros (c & Hb & ->). exists (c <$> Dimensions.labels I).
    split; [|by apply in_box_indices]. by rewrite dot_strides_flat.
Qed.

End Positions.

(** ** Buffers *)

Section Buffers.
Context {T : Type}.
Implicit Types (buf src dst : list T) (i s t : Z).

Lemma read_inr buf i x :
  read buf i = inr x <-> 0 <= i /\ buf !! Z.to_nat i = Some x.
Proof.
  unfold read. destruct (Z.leb_spec 0 i).
  - destruct (buf !! Z.to_nat i) eqn:E; simpl; split.
    + intros [= ->]. done.
    + intros [_ [= ->]]. done.
    + discriminate.
    + intros [_ ?]. discriminate.
  - split; [discriminate | lia].
Qed.

Lemma read_lookup buf i :
  0 <= i < Z.of_nat (length buf) ->
  exists x, read buf i = inr x /\ buf !! Z.to_nat i = Some x.
Proof.
  intros Hi. destruct (lookup_lt_is_Some_2 buf (Z.to_nat i)) as [x Hx]; [lia|].
  exists x. split; [|done]. apply read_inr. split; [lia | done].
Qed.

Lemma write_inr buf i x buf' :
  write buf i x = inr buf'
  <-> 0 <= i < Z.of_nat (length buf) /\ buf' = <[Z.to_nat i := x]> buf.
Proof.
  unfold write. destruct (Z.leb_spec 0 i); destruct (Z.ltb_spec i (Z.of_nat (length buf)));
    simpl; split; try discriminate; try lia.
  - intros [= <-]. done.
  - intros [_ ->]. done.
Qed.

Lemma elem_of_zip_r_ex {A B} (l : list A) (k : list B) y :
  length l = length k -> y ∈ k -> exists x, (x, y) ∈ zip l k.
Proof.
  revert k. induction l as [|x l IH]; intros [|y' k] Hlen Hy; simpl in *;
    try done; try (by inversion Hy).
  apply elem_of_cons in Hy as [->|Hy].
  - exists x. left.
  - destruct (IH k) as [x' Hx']; [lia | done|]. exists x'. by right.
Qed.

(** [std::copy] through two position lists: every target cell ends up
    with the source element paired with it, the other cells are kept. *)
Lemma std_copy_spec src S Tg dst :
  length S = length Tg ->
  (forall s, s ∈ S -> 0 <= s < Z.of_nat (length src)) ->
  (forall t, t ∈ Tg -> 0 <= t < Z.of_nat (length dst)) ->
  (forall s s' t, (s, t) ∈ zip S Tg -> (s', t) ∈ zip S Tg -> s = s') ->
  exists dst',
    std_copy src S Tg dst = inr dst'
    /\ length dst' = length dst
    /\ (forall s t, (s, t) ∈ zip S Tg -> dst' !! Z.to_nat t = src !! Z.to_nat s)
    /\ (forall p : nat, (forall t, t ∈ Tg -> Z.to_nat t <> p) -> dst' !! p = dst !! p).
Proof.
  revert Tg dst. induction S as [|s0 S IH]; intros [|t0 Tg] dst Hlen Hs Ht Hfun;
    simpl in Hlen; try done.
  - exists dst. split; [done|]. split; [done|]. split; [|done].
    intros s t H. inversion H.
  - destruct (read_lookup src s0) as (x & Hrx & Hx); [apply Hs; left|].
    assert (0 <= t0 < Z.of_nat (length dst)) as Ht0 by (apply Ht; left).
    destruct (IH Tg (<[Z.to_nat t0 := x]> dst)) as (dst' & Hc & Hl & Hset & Hkeep).
    + lia.
    + intros s Hin. apply Hs. by right.
    + intros t Hin. rewrite length_insert. apply Ht. by right.
    + intros s s' t H1 H2. apply (Hfun s s' t); by right.
    + exists dst'. split; [|split; [|split]].
      * cbn [std_copy]. rewrite Hrx. cbn [bind].
        replace (write dst t0 x) with (inr (<[Z.to_nat t0 := x]> dst) : result (list T)).
        2:{ symmetry. apply write_inr. done. }
        cbn [bind]. exact Hc.
      * by rewrite Hl, length_insert.
      * intros s t Hin. cbn [zip_with] in Hin.
        apply elem_of_cons in Hin as [[= -> ->]|Hin]; [|by apply Hset].
        destruct (decide (t0 ∈ Tg)) as [Hin|Hni].
        -- destruct (elem_of_zip_r_ex S Tg t0) as [s' Hs']; [lia | done|].
           rewrite (Hset _ _ Hs'). f_equal. f_equal.
           apply (Hfun s' s0 t0); [by right | left].
        -- rewrite Hkeep.
           ++ rewrite list_lookup_insert_eq by lia. done.
           ++ intros t Hin Heq. apply Hni.
              assert (0 <= t) by (apply Ht; by right).
              assert (t = t0) as -> by lia.
              done.
      * intros p Hp. rewrite Hkeep.
        -- apply list_lookup_insert_ne. apply Hp. left.
        -- intros t Hin. apply Hp. by right.
Qed.

End Buffers.

(** ** Contiguous blocks *)

Section Contiguous.
Implicit Types (d I P D : Dimensions.t) (l : Dim.t) (n : Z) (c : coord).

Lemma fmap_bind {A B C} (f : B -> C) (g : A -> list B) (l : list A) :
  f <$> (l ≫= g) = l ≫= (fun x => f <$> g x).
Proof.
  induction l as [|x l IH]; [done|]. rewrite !bind_cons, fmap_app. by rewrite IH.
Qed.

Lemma dot_scale idx (w : list Z) n :
  VariableView.dot idx (Z.mul n <$> w) = n * VariableView.dot idx w.
Proof.
  revert w. induction idx as [|i idx IH]; intros [|s w]; simpl; try lia.
  rewrite IH. lia.
Qed.

Lemma strides_cons l n n' I P :
  l ∉ Dimensions.labels I ->
  VariableView.strides ((l, n) :: I) ((l, n') :: P)
  = 1 :: (Z.mul n' <$> VariableView.strides I P).
Proof.
  intros Hni. unfold VariableView.strides.
  change (Dimensions.labels ((l, n) :: I)) with (l :: Dimensions.labels I).
  rewrite fmap_cons. f_equal.
  - unfold VariableView.stride. simpl. by rewrite !decide_True.
  - rewrite <- list_fmap_compose. apply list_fmap_ext. intros k l' Hl'.
    assert (l <> l') as Hne.
    { intros ->. apply Hni. by eapply list_elem_of_lookup_2. }
    unfold VariableView.stride. simpl. rewrite !decide_False by done.
    destruct (Dimensions.contains P l'); lia.
Qed.

Lemma offsets_cons b l n n' I P :
  l ∉ Dimensions.labels I ->
  VariableView.offsets b ((l, n) :: I) ((l, n') :: P)
  = VariableView.offsets 0 I P ≫= (fun o => seqZ (b + n' * o) n).
Proof.
  intros Hni. unfold VariableView.offsets. rewrite strides_cons by done.
  change (Dimensions.shape ((l, n) :: I)) with (n :: Dimensions.shape I).
  cbn [VariableView.indices]. rewrite fmap_bind, list_fmap_bind.
  apply list_bind_ext; [|done]. intros o. simpl.
  rewrite <- list_fmap_compose.
  rewrite <- (Z.add_0_r (b + n' * _)), <- fmap_add_seqZ.
  apply list_fmap_ext. intros k i _. simpl. rewrite dot_scale. lia.
Qed.

Lemma bind_seqZ_ranges b n V :
  0 <= n -> 0 <= V ->
  seqZ 0 V ≫= (fun q => seqZ (b + n * q) n) = seqZ b (n * V).
Proof.
  intros Hn HV. rewrite <- (Z2Nat.id V) by done.
  induction (Z.to_nat V) as [|k IH].
  - rewrite Z.mul_0_r. by rewrite !seqZ_nil.
  - rewrite seqZ_S, bind_app, IH, bind_singleton.
    replace (n * Z.of_nat (S k)) with (n * Z.of_nat k + n) by lia.
    rewrite seqZ_app by lia. done.
Qed.

Lemma isContiguousIn_cons l n I l' n' P :
  Dimensions.isContiguousIn ((l, n) :: I) ((l', n') :: P) = true ->
  l = l' /\ (I = [] /\ n <= n' \/ I <> [] /\ n = n' /\ Dimensions.isContiguousIn I P = true).
Proof.
  destruct I as [|p I]; simpl.
  - intros [?%bool_decide_eq_true ?%Z.leb_le]%andb_true_iff. split; [done|]. left. done.
  - destruct p as [l0 n0].
    intros [[?%bool_decide_eq_true ?%Z.eqb_eq]%andb_true_iff ?]%andb_true_iff.
    split; [done|]. right. done.
Qed.

Lemma isContiguousIn_nil_r l n I :
  Dimensions.isContiguousIn ((l, n) :: I) [] = false.
Proof. by destruct I. Qed.

(** A view on a contiguous block visits consecutive positions. *)
Lemma offsets_contiguous I P b :
  wf_dims I -> Dimensions.isContiguousIn I P = true ->
  VariableView.offsets b I P = seqZ b (Dimensions.volume I).
Proof.
  revert P b. induction I as [|[l n] I IH]; intros P b Hwf Hc.
  - unfold VariableView.offsets. simpl. rewrite seqZ_cons by lia.
    rewrite seqZ_nil by lia. f_equal. lia.
  - apply wf_dims_cons in Hwf as (Hni & Hn & Hwf).
    destruct P as [|[l' n'] P]; [by rewrite isContiguousIn_nil_r in Hc|].
    apply isContiguousIn_cons in Hc as [<- [[-> Hle]|(Hne & <- & Hc)]].
    + rewrite offsets_cons by done. unfold VariableView.offsets. simpl.
      rewrite app_nil_r. f_equal; lia.
    + rewrite offsets_cons by done. rewrite (IH P 0) by done.
      rewrite bind_seqZ_ranges; [done | done | by apply volume_nonneg].
Qed.

Lemma isContiguousIn_refl d : Dimensions.isContiguousIn d d = true.
Proof.
  induction d as [|[l n] d IH]; [done|]. destruct d as [|p d]; simpl.
  - rewrite bool_decide_eq_true_2 by done. simpl. by apply Z.leb_le.
  - destruct p as [l0 n0]. rewrite bool_decide_eq_true_2 by done.
    rewrite Z.eqb_refl. simpl. exact IH.
Qed.

Lemma offsets_full d b :
  wf_dims d -> VariableView.offsets b d d = seqZ b (Dimensions.volume d).
Proof. intros. apply offsets_contiguous; [done | apply isContiguousIn_refl]. Qed.

Lemma isContiguousIn_prefix I P :
  Dimensions.isContiguousIn I P = true ->
  Dimensions.labels I `prefix_of` Dimensions.labels P.
Proof.
  revert P. induction I as [|[l n] I IH]; intros P Hc.
  - apply prefix_nil.
  - destruct P as [|[l' n'] P]; [by rewrite isContiguousIn_nil_r in Hc|].
    apply isContiguousIn_cons in Hc as [<- [[-> Hle]|(Hne & <- & Hc)]].
    + apply prefix_cons, prefix_nil.
    + apply prefix_cons. by apply IH.
Qed.

(** When only the extent of [dim] differs, the block is contiguous only
    if [dim] is the outermost label. *)
Lemma volume_resized_contiguous D dim delta n :
  NoDup (Dimensions.labels D) ->
  Dimensions.size D dim = inr n -> n <> delta ->
  Dimensions.isContiguousIn (resized D dim delta) D = true ->
  Dimensions.volume (resized D dim delta) = delta * Dimensions.offset D dim.
Proof.
  induction D as [|[l m] D IH]; intros Hnd Hs Hne Hc; [discriminate|].
  change (Dimensions.labels ((l, m) :: D)) with (l :: Dimensions.labels D) in Hnd.
  apply NoDup_cons in Hnd as [Hni Hnd].
  unfold resized in *. rewrite fmap_cons in *. cbn [fst] in *.
  simpl in Hs. cbn [Dimensions.offset].
  destruct (decide (l = dim)) as [->|Hl].
  - injection Hs as ->.
    apply isContiguousIn_cons in Hc as [_ [[Hnil _]|(_ & ? & _)]]; [|done].
    apply fmap_nil_inv in Hnil as ->. simpl. lia.
  - apply isContiguousIn_cons in Hc as [_ [[Hnil _]|(_ & _ & Hc)]].
    + apply fmap_nil_inv in Hnil as ->. discriminate.
    + cbn [Dimensions.volume]. rewrite IH by done. lia.
Qed.

Lemma fits_resized D dim delta n :
  NoDup (Dimensions.labels D) ->
  Dimensions.size D dim = inr n -> delta <= n ->
  VariableView.fits (resized D dim delta) D = true.
Proof.
  intros Hnd Hs Hle. unfold VariableView.fits. apply forallb_forall.
  intros [l m] Hin%list_elem_of_In. cbn [fst snd].
  unfold resized in Hin. apply list_elem_of_fmap in Hin as ([l0 m0] & Heq & Hin).
  cbn [fst] in Heq. apply (elem_of_size _ _ _ Hnd) in Hin.
  destruct (decide (l0 = dim)) as [->|Hl0]; injection Heq as -> ->.
  - rewrite Hs. by apply Z.leb_le.
  - rewrite Hin. by apply Z.leb_le.
Qed.

End Contiguous.

(** ** The slicing copy [VariableConceptT::copy] between two owning models *)

Lemma dims_ext (A B : Dimensions.t) :
  Dimensions.labels A = Dimensions.labels B ->
  NoDup (Dimensions.labels A) ->
  (forall l, Dimensions.size A l = Dimensions.size B l) -> A = B.
Proof.
  revert B. induction A as [|[l n] A IH]; intros [|[l' n'] B] Hl Hnd Hs;
    try done.
  change (l :: Dimensions.labels A = l' :: Dimensions.labels B) in Hl.
  injection Hl as <- Hl.
  change (Dimensions.labels ((l, n) :: A)) with (l :: Dimensions.labels A) in Hnd.
  apply NoDup_cons in Hnd as [Hni Hnd].
  pose proof (Hs l) as Hsl. simpl in Hsl. rewrite !decide_True in Hsl by done.
  injection Hsl as <-. f_equal. apply IH; [done | done|].
  intros l0. specialize (Hs l0). simpl in Hs.
  destruct (decide (l = l0)) as [<-|]; [|done].
  rewrite !size_not_contains; [done | |]; apply contains_false; congruence.
Qed.

Lemma contiguous_same_dims (D O : Dimensions.t) dim delta :
  NoDup (Dimensions.labels D) -> NoDup (Dimensions.labels O) ->
  Dimensions.contains D dim = true ->
  (forall l, l <> dim -> Dimensions.size O l = Dimensions.size D l) ->
  Dimensions.isContiguousIn (resized D dim delta) O = true ->
  Dimensions.contains O dim = true /\ resized D dim delta = resized O dim delta.
Proof.
  intros HD HO Hc Hagree Hcont.
  apply isContiguousIn_prefix in Hcont as Hpre. rewrite labels_resized in Hpre.
  assert (forall l, l ∈ Dimensions.labels O -> l ∈ Dimensions.labels D) as Hsub.
  { intros l Hl. destruct (decide (l = dim)) as [->|Hne]; [by apply contains_elem_of|].
    apply contains_elem_of, contains_size in Hl as [k Hk].
    rewrite Hagree in Hk by done. apply size_contains in Hk.
    by apply contains_elem_of. }
  assert (Dimensions.labels D = Dimensions.labels O) as Hlab.
  { apply prefix_length_eq; [done|].
    apply submseteq_length. by apply NoDup_submseteq. }
  assert (Dimensions.contains O dim = true) as HcO.
  { apply contains_elem_of. rewrite <- Hlab. by apply contains_elem_of. }
  split; [done|]. apply dims_ext.
  - by rewrite !labels_resized.
  - by rewrite labels_resized.
  - intros l. rewrite !size_resized. rewrite Hc, HcO.
    destruct (decide (l = dim)); [done|]. symmetry. by apply Hagree.
Qed.

Section MakeSpan.
Context {T : Type}.

Lemma makeSpan_view (c : VariableConceptT T) dim begin delta n :
  wf_model c ->
  Dimensions.size (dimensions c) dim = inr n ->
  0 <= begin -> 0 <= delta -> begin + delta <= n ->
  Dimensions.isContiguousIn (resized (dimensions c) dim delta) (dimensions c) = true ->
  makeSpan c (dimensions c) dim begin (begin + delta)
  = inr (VariableView.offsets (begin * Dimensions.offset (dimensions c) dim)
           (resized (dimensions c) dim delta) (dimensions c)).
Proof.
  intros (Hv & Hwf & Hlen) Hs Hb Hd Hn Hc. unfold makeSpan.
  rewrite (size_contains _ _ _ Hs). cbn [negb andb]. rewrite Hs. cbn [bind].
  unfold data, size. rewrite Hv.
  replace (begin + delta - begin) with delta by lia.
  destruct (Z.eqb_spec n delta) as [->|Hne].
  - rewrite resized_id by (done || apply Hwf).
    rewrite offsets_full by done. assert (begin = 0) as -> by lia.
    by rewrite Hlen.
  - rewrite offsets_contiguous by (done || by apply wf_resized).
    rewrite (volume_resized_contiguous _ _ _ n) by (done || apply Hwf).
    unfold ret. do 2 f_equal; lia.
Qed.

End MakeSpan.

Section Copy.
Context {T : Type} (this other : VariableConceptT T).
Context (dim : Dim.t) (offset otherBegin otherEnd n : Z).

Let D := dimensions this.
Let O := dimensions other.
Let delta := otherEnd - otherBegin.
Let iterDims := resized D dim delta.
Let bs := if Dimensions.contains O dim then otherBegin * Dimensions.offset O dim
          else otherBegin * Dimensions.volume O.
Let bt := offset * Dimensions.offset D dim.

Hypothesis Hthis : wf_model this.
Hypothesis Hother : wf_model other.
Hypothesis Hsize : Dimensions.size D dim = inr n.
Hypothesis Hoffset : 0 <= offset.
Hypothesis Hdelta : 0 <= delta.
Hypothesis Hend : offset + delta <= n.
(** Apart from [dim], both have the same labels with the same extents. *)
Hypothesis Hagree : forall l, l <> dim -> Dimensions.size O l = Dimensions.size D l.
(** The range copied lies in [other]; without [dim] there, it is the
    whole of [other], once. *)
Hypothesis Hrange :
  match Dimensions.size O dim with
  | inr m => 0 <= otherBegin /\ otherBegin + delta <= m
  | inl _ => otherBegin = 0 /\ delta = 1
  end.

Lemma copy_NoDup_D : NoDup (Dimensions.labels D).
Proof. apply Hthis. Qed.
Local Lemma copy_NoDup_O : NoDup (Dimensions.labels O).
Proof. apply Hother. Qed.
Lemma copy_contains_D : Dimensions.contains D dim = true.
Proof. by eapply size_contains. Qed.

Local Lemma copy_labels_O l : l ∈ Dimensions.labels O -> l ∈ Dimensions.labels D.
Proof.
  intros Hl. destruct (decide (l = dim)) as [->|Hne].
  - apply contains_elem_of, copy_contains_D.
  - apply contains_elem_of, contains_size in Hl as [k Hk].
    rewrite Hagree in Hk by done. apply size_contains in Hk.
    by apply contains_elem_of.
Qed.

Local Lemma copy_fits_O : VariableView.fits iterDims O = true.
Proof.
  unfold VariableView.fits. apply forallb_forall.
  intros [l m] Hin%list_elem_of_In. cbn [fst snd].
  destruct (Dimensions.size O l) as [e|k] eqn:Hk; [done|]. apply Z.leb_le.
  unfold iterDims, resized in Hin.
  apply list_elem_of_fmap in Hin as ([l0 m0] & Heq & Hin). cbn [fst] in Heq.
  apply (elem_of_size _ _ _ copy_NoDup_D) in Hin.
  destruct (decide (l0 = dim)) as [->|Hl0]; injection Heq as -> ->.
  - pose proof Hrange as Hr. rewrite Hk in Hr. lia.
  - rewrite Hagree in Hk by done. rewrite Hin in Hk. injection Hk as ->. lia.
Qed.

(** Whatever the four cases choose, the ranges copied are the two views
    on the iteration dimensions. *)
Lemma copy_unfold :
  copy this other dim offset otherBegin otherEnd
  = (model <- std_copy (m_model other)
                (VariableView.offsets bs iterDims O)
                (VariableView.offsets bt iterDims D) (m_model this) ;;
     ret (with_model this model)).
Proof.
  pose proof copy_NoDup_D as HD. pose proof copy_NoDup_O as HO.
  pose proof copy_contains_D as HcD.
  destruct Hthis as (Hv & Hwf & Hlen). destruct Hother as (Hv' & Hwf' & Hlen').
  unfold copy. fold D O delta. rewrite HcD.
  rewrite resized_resize by done. cbn [bind]. fold iterDims.
  (* the view on [other] *)
  unfold getView_at_const at 1. rewrite Hv'. fold O. fold bs.
  unfold VariableView.makeVariableView at 1. rewrite copy_fits_O. cbn [bind].
  (* the target *)
  assert ((if isContiguous this && Dimensions.isContiguousIn iterDims D
           then getSpan_range this dim offset (offset + delta)
           else getView_at this iterDims dim offset)
          = inr (VariableView.offsets bt iterDims D)) as Htarget.
  { unfold isContiguous. rewrite Hv. cbn [andb].
    destruct (Dimensions.isContiguousIn iterDims D) eqn:Hc.
    - unfold getSpan_range, getSpan_range_const. rewrite Hv.
      by apply (makeSpan_view this dim offset delta n).
    - unfold getView_at, getView_at_const. rewrite Hv. fold D. rewrite HcD.
      unfold VariableView.makeVariableView.
      assert (VariableView.fits iterDims D = true) as ->; [|done].
      apply (fits_resized D dim delta n); [done | done | lia]. }
  (* the source *)
  assert ((if isContiguous other && Dimensions.isContiguousIn iterDims O
           then getSpan_range_const other dim otherBegin otherEnd
           else inr (VariableView.offsets bs iterDims O))
          = inr (VariableView.offsets bs iterDims O)) as Hsource.
  { unfold isContiguous. rewrite Hv'. cbn [andb].
    destruct (Dimensions.isContiguousIn iterDims O) eqn:Hc; [|done].
    destruct (contiguous_same_dims D O dim delta HD HO HcD Hagree Hc) as [HcO Heq].
    unfold getSpan_range_const. rewrite Hv'.
    destruct (contains_size _ _ HcO) as [m Hm]. fold O in Hm.
    pose proof Hrange as Hr. rewrite Hm in Hr.
    replace otherEnd with (otherBegin + delta) by (unfold delta; lia).
    unfold bs, iterDims. rewrite HcO, Heq.
    apply (makeSpan_view other dim otherBegin delta m); try done; try lia.
    fold O. by rewrite <- Heq. }
  replace otherEnd with (otherBegin + delta) in * by (unfold delta; lia).
  destruct (isContiguous this && Dimensions.isContiguousIn iterDims D).
  - rewrite Htarget. cbn [bind].
    destruct (isContiguous other && Dimensions.isContiguousIn iterDims O).
    + rewrite Hsource. done.
    + done.
  - rewrite Htarget. cbn [bind].
    destruct (isContiguous other && Dimensions.isContiguousIn iterDims O).
    + rewrite Hsource. done.
    + done.
Qed.

(** The positions in [other] and in [this] that belong to a position [c]
    of the iteration. *)
Local Lemma copy_source c :
  in_box iterDims c ->
  in_box O (update c dim (c dim + otherBegin))
  /\ bs + flat O (restrict (Dimensions.labels iterDims) c)
     = flat O (update c dim (c dim + otherBegin)).
Proof.
  intros Hb. pose proof copy_NoDup_O as HO. split.
  - unfold in_box. apply Forall_forall. intros [l m] Hin. cbn [fst snd].
    apply (elem_of_size _ _ _ HO) in Hin.
    destruct (decide (l = dim)) as [->|Hne].
    + rewrite update_eq. pose proof Hrange as Hr. rewrite Hin in Hr.
      assert (0 <= c dim < delta); [|lia].
      eapply in_box_size; [exact Hb|]. unfold iterDims.
      rewrite size_resized, decide_True by done. by rewrite copy_contains_D.
    + rewrite update_ne by done. eapply in_box_size; [exact Hb|].
      unfold iterDims. rewrite size_resized, decide_False by done.
      by rewrite <- Hagree.
  - rewrite flat_update by done. unfold bs.
    rewrite (flat_ext O (restrict _ c) c).
    2:{ intros l Hl%copy_labels_O. unfold restrict, iterDims.
        rewrite labels_resized. by rewrite decide_True. }
    destruct (Dimensions.contains O dim) eqn:HcO; [lia|].
    pose proof Hrange as Hr. rewrite size_not_contains in Hr by done. lia.
Qed.

Lemma copy_target c :
  in_box iterDims c ->
  in_box D (update c dim (c dim + offset))
  /\ bt + flat D (restrict (Dimensions.labels iterDims) c)
     = flat D (update c dim (c dim + offset)).
Proof.
  intros Hb. pose proof copy_NoDup_D as HD. split.
  - unfold in_box. apply Forall_forall. intros [l m] Hin. cbn [fst snd].
    apply (elem_of_size _ _ _ HD) in Hin.
    destruct (decide (l = dim)) as [->|Hne].
    + rewrite update_eq. pose proof Hsize as Hs. fold D in Hs. rewrite Hin in Hs.
      injection Hs as ->.
      assert (0 <= c dim < delta); [|lia].
      eapply in_box_size; [exact Hb|]. unfold iterDims.
      rewrite size_resized, decide_True by done. by rewrite copy_contains_D.
    + rewrite update_ne by done. eapply in_box_size; [exact Hb|].
      unfold iterDims. by rewrite size_resized, decide_False.
  - rewrite flat_update by done. unfold bt. rewrite copy_contains_D.
    rewrite (flat_ext D (restrict _ c) c); [lia|].
    intros l Hl. unfold restrict, iterDims.
    rewrite labels_resized. by rewrite decide_True.
Qed.

(** The copy in terms of positions: the cells of [this] whose index
    along [dim] is in [[offset, offset + delta)] receive the elements of
    [other] at the same position, shifted along [dim]; the other cells
    are kept. *)
Lemma copy_spec :
  exists model,
    copy this other dim offset otherBegin otherEnd = inr (with_model this model)
    /\ length model = length (m_model this)
    /\ forall c, in_box D c ->
         model !! Z.to_nat (flat D c)
         = if decide (offset <= c dim < offset + delta)
           then m_model other
                  !! Z.to_nat (flat O (update c dim (c dim - offset + otherBegin)))
           else m_model this !! Z.to_nat (flat D c).
Proof.
  pose proof copy_NoDup_D as HD. pose proof copy_NoDup_O as HO.
  assert (NoDup (Dimensions.labels iterDims)) as HI.
  { unfold iterDims. by rewrite labels_resized. }
  destruct Hthis as (Hv & Hwf & Hlen). destruct Hother as (Hv' & Hwf' & Hlen').
  rewrite copy_unfold.
  destruct (std_copy_spec (m_model other)
              (VariableView.offsets bs iterDims O)
              (VariableView.offsets bt iterDims D) (m_model this))
    as (model & Hcopy & Hlength & Hset & Hkeep).
  - apply length_zip_offsets.
  - intros s (c & Hb & ->)%elem_of_offsets; [|done..].
    destruct (copy_source c Hb) as [Hbox ->]. rewrite Hlen'. by apply flat_bounds.
  - intros t (c & Hb & ->)%elem_of_offsets; [|done..].
    destruct (copy_target c Hb) as [Hbox ->]. rewrite Hlen. by apply flat_bounds.
  - intros s s' t (c & Hb & -> & Ht)%elem_of_zip_offsets
                  (c' & Hb' & -> & Ht')%elem_of_zip_offsets; try done.
    destruct (copy_source c Hb) as [_ ->]. destruct (copy_source c' Hb') as [_ ->].
    destruct (copy_target c Hb) as [Hbox Heq].
    destruct (copy_target c' Hb') as [Hbox' Heq'].
    rewrite Ht', Heq' in Ht. rewrite Heq in Ht.
    pose proof (flat_inj D _ _ Hbox' Hbox Ht) as Hinj.
    apply flat_ext. intros l Hl%copy_labels_O. specialize (Hinj l Hl).
    unfold update in *. destruct (decide (l = dim)); [lia | done].
  - exists model. split; [by rewrite Hcopy|]. split; [done|].
    intros c Hb. destruct (decide (offset <= c dim < offset + delta)) as [Hin|Hout].
    + set (c' := update c dim (c dim - offset)).
      assert (in_box iterDims c') as Hb'.
      { unfold in_box. apply Forall_forall. intros [l m] Hlm. cbn [fst snd].
        unfold iterDims, resized in Hlm.
        apply list_elem_of_fmap in Hlm as ([l0 m0] & Heq & Hlm). cbn [fst] in Heq.
        pose proof (proj1 (Forall_forall _ _) Hb _ Hlm) as Hl0. cbn [fst snd] in Hl0.
        unfold c'. destruct (decide (l0 = dim)) as [->|Hne]; injection Heq as -> ->.
        - rewrite update_eq. lia.
        - by rewrite update_ne. }
      destruct (copy_source c' Hb') as [_ Hs]. destruct (copy_target c' Hb') as [_ Ht].
      rewrite <- (flat_ext D (update c' dim (c' dim + offset)) c).
      2:{ intros l _. destruct (decide (l = dim)) as [->|Hne].
          - rewrite update_eq. unfold c'. rewrite update_eq. lia.
          - unfold c'. by rewrite !update_ne. }
      rewrite <- (flat_ext O (update c' dim (c' dim + otherBegin))
                   (update c dim (c dim - offset + otherBegin))).
      2:{ intros l _. destruct (decide (l = dim)) as [->|Hne].
          - rewrite !update_eq. unfold c'. rewrite update_eq. lia.
          - unfold c'. by rewrite !update_ne. }
      rewrite <- Hs, <- Ht. apply Hset.
      apply elem_of_zip_offsets; [done..|]. by exists c'.
    + rewrite Hkeep; [done|].
      intros t (c' & Hb' & ->)%elem_of_offsets Heq; [|done..].
      destruct (copy_target c' Hb') as [Hbox Ht]. rewrite Ht in Heq.
      pose proof (flat_bounds D _ Hbox). pose proof (flat_bounds D _ Hb).
      assert (flat D (update c' dim (c' dim + offset)) = flat D c) as Hflat by lia.
      pose proof (flat_inj D _ _ Hbox Hb Hflat dim) as Hdim.
      rewrite update_eq in Hdim.
      assert (0 <= c' dim < delta).
      { eapply in_box_size; [exact Hb'|]. unfold iterDims.
        rewrite size_resized, decide_True by done. by rewrite copy_contains_D. }
      rewrite <- Hdim in Hout; [lia|]. apply contains_elem_of, copy_contains_D.
Qed.

End Copy.

(** ** The frame of a copy *)

Section CopyFrame.
Context {T : Type}.

(** [std::copy] writes to target positions only. *)
Lemma std_copy_frame (src : list T) S Tg dst dst' :
  std_copy src S Tg dst = inr dst' ->
  length dst' = length dst
  /\ forall p : nat, (forall t, t ∈ Tg -> Z.to_nat t <> p) -> dst' !! p = dst !! p.
Proof.
  revert Tg dst. induction S as [|s S IH]; intros Tg dst Hcopy; simpl in Hcopy.
  - injection Hcopy as <-. done.
  - destruct Tg as [|t Tg]; [done|].
    apply bind_inr in Hcopy as (x & _ & Hcopy).
    apply bind_inr in Hcopy as (dst1 & Hw & Hcopy).
    apply write_inr in Hw as [Ht ->].
    destruct (IH _ _ Hcopy) as [Hlen Hframe]. split.
    + by rewrite Hlen, length_insert.
    + intros p Hp. rewrite Hframe by (intros t' Ht'; apply Hp; by right).
      apply list_lookup_insert_ne. apply Hp. left.
Qed.

Context (this other : VariableConceptT T).
Context (dim : Dim.t) (offset otherBegin otherEnd n : Z).

Let D := dimensions this.
Let delta := otherEnd - otherBegin.

Hypothesis Hthis : wf_model this.
Hypothesis Hsize : Dimensions.size D dim = inr n.
Hypothesis Hoffset : 0 <= offset.
Hypothesis Hdelta : 0 <= delta.
Hypothesis Hend : offset + delta <= n.

(** Whatever [other] is, a copy that returns has written only to the
    cells with an index in [[offset, offset + delta)] along [dim]. *)
Lemma copy_frame r :
  copy this other dim offset otherBegin otherEnd = inr r ->
  exists model,
    r = with_model this model
    /\ length model = length (m_model this)
    /\ forall c, in_box D c -> ~ (offset <= c dim < offset + delta) ->
         model !! Z.to_nat (flat D c) = m_model this !! Z.to_nat (flat D c).
Proof.
  pose proof Hthis as (Hview & HD & Hlen). fold D in HD, Hlen.
  pose proof (size_contains _ _ _ Hsize) as Hc.
  set (Tg := VariableView.offsets (offset * Dimensions.offset D dim)
               (resized D dim delta) D).
  assert (forall S model,
    std_copy (m_model other) S Tg (m_model this) = inr model ->
    length model = length (m_model this)
    /\ forall c, in_box D c -> ~ (offset <= c dim < offset + delta) ->
         model !! Z.to_nat (flat D c) = m_model this !! Z.to_nat (flat D c)) as Hframe.
  { intros S model Hcopy. destruct (std_copy_frame _ _ _ _ _ Hcopy) as [Hl Hf].
    split; [done|]. intros c Hbox Hout. apply Hf. intros t Ht Heq.
    apply elem_of_offsets in Ht as (c' & Hc' & ->);
      [|rewrite labels_resized; apply HD | apply HD].
    destruct (copy_target this other dim offset otherBegin otherEnd n Hthis Hsize Hoffset
                Hend c' Hc')
      as [Hbox' Hflat].
    unfold D, delta in Heq. rewrite Hflat in Heq. fold D in Hbox', Heq.
    pose proof (flat_bounds D _ Hbox). pose proof (flat_bounds D _ Hbox').
    assert (flat D (update c' dim (c' dim + offset)) = flat D c) as Heq' by lia.
    pose proof (flat_inj D _ _ Hbox' Hbox Heq' dim
                  (proj1 (contains_elem_of _ _) Hc)) as Hdim.
    rewrite update_eq in Hdim.
    assert (0 <= c' dim < delta); [|lia].
    eapply in_box_size; [exact Hc'|].
    by rewrite size_resized, decide_True, Hc. }
  unfold copy. fold D delta. rewrite Hc.
  rewrite resized_resize by (done || apply HD). cbn [bind].
  destruct (getView_at_const other _ dim otherBegin) as [e|otherView]; [done|].
  cbn [bind]. unfold isContiguous at 1. rewrite Hview. cbn [andb].
  destruct (Dimensions.isContiguousIn (resized D dim delta) D) eqn:Hcontig.
  - unfold getSpan_range. rewrite Hview. unfold getSpan_range_const at 1. rewrite Hview.
    rewrite (makeSpan_view this dim offset delta n) by done. cbn [bind].
    fold D Tg.
    destruct (_ && _).
    + destruct (getSpan_range_const other dim otherBegin otherEnd) as [e|source]; [done|].
      cbn [bind]. destruct (std_copy _ source Tg _) as [e|model] eqn:Hcopy; [done|].
      intros [= <-]. exists model. split; [done|]. by eapply Hframe.
    + destruct (std_copy _ otherView Tg _) as [e|model] eqn:Hcopy; [done|].
      intros [= <-]. exists model. split; [done|]. by eapply Hframe.
  - unfold getView_at, getView_at_const. rewrite Hview. fold D. rewrite Hc.
    unfold VariableView.makeVariableView.
    rewrite (fits_resized D dim delta n) by (done || apply HD || lia).
    fold Tg. cbn [bind ret].
    destruct (_ && _).
    + destruct (getSpan_range_const other dim otherBegin otherEnd) as [e|source]; [done|].
      cbn [bind]. destruct (std_copy _ source Tg _) as [e|model] eqn:Hcopy; [done|].
      intros [= <-]. exists model. split; [done|]. by eapply Hframe.
    + destruct (std_copy _ otherView Tg _) as [e|model] eqn:Hcopy; [done|].
      intros [= <-]. exists model. split; [done|]. by eapply Hframe.
Qed.

End CopyFrame.

(** ** The copy on type-erased storage *)

Lemma wf_with_model {T} (c : VariableConceptT T) (model : list T) :
  wf_model c -> length model = length (m_model c) -> wf_model (with_model c model).
Proof.
  intros (Hv & Hwf & Hlen) Hl. unfold wf_model, with_model. simpl.
  split; [done|]. split; [done|]. by rewrite Hl.
Qed.

(** Two owning models with the same dimensions and the same elements are
    the same. *)
Lemma model_ext {T} (c1 c2 : VariableConceptT T) :
  wf_model c1 -> wf_model c2 -> dimensions c1 = dimensions c2 ->
  (forall x, in_box (dimensions c1) x -> element c1 x = element c2 x) ->
  c1 = c2.
Proof.
  destruct c1 as [d1 m1 v1], c2 as [d2 m2 v2]. unfold wf_model, element. simpl.
  intros (-> & Hwf & Hlen1) (-> & _ & Hlen2) <- Hel. f_equal.
  apply list_eq. intros i.
  destruct (decide (Z.of_nat i < Dimensions.volume d1)) as [Hi|Hi].
  - destruct (flat_surj d1 (Z.of_nat i) Hwf) as (x & Hb & Hx); [lia|].
    specialize (Hel x Hb). rewrite Hx, Nat2Z.id in Hel. done.
  - rewrite !lookup_ge_None_2; [done | lia | lia].
Qed.

Lemma concept_ext (c1 c2 : VariableConcept) :
  wf_concept c1 -> wf_concept c2 -> dtype c1 = dtype c2 ->
  Concept.dimensions c1 = Concept.dimensions c2 ->
  (forall x, in_box (Concept.dimensions c1) x ->
             concept_element c1 x = concept_element c2 x) ->
  c1 = c2.
Proof.
  destruct c1 as [c1|c1|c1], c2 as [c2|c2|c2]; simpl; intros H1 H2 Hk Hd Hel;
    try discriminate; f_equal; apply model_ext; try done;
    intros x Hx; specialize (Hel x Hx);
    destruct (element c1 x), (element c2 x); simpl in Hel; congruence.
Qed.

Section ConceptCopy.
Context (this other : VariableConcept).
Context (dim : Dim.t) (offset otherBegin otherEnd n : Z).

Let D := Concept.dimensions this.
Let O := Concept.dimensions other.
Let delta := otherEnd - otherBegin.

Hypothesis Hthis : wf_concept this.
Hypothesis Hother : wf_concept other.
Hypothesis Hkind : dtype this = dtype other.
Hypothesis Hsize : Dimensions.size D dim = inr n.
Hypothesis Hoffset : 0 <= offset.
Hypothesis Hdelta : 0 <= delta.
Hypothesis Hend : offset + delta <= n.
Hypothesis Hagree : forall l, l <> dim -> Dimensions.size O l = Dimensions.size D l.
Hypothesis Hrange :
  match Dimensions.size O dim with
  | inr m => 0 <= otherBegin /\ otherBegin + delta <= m
  | inl _ => otherBegin = 0 /\ delta = 1
  end.

Lemma Concept_copy_spec :
  exists r,
    Concept.copy this other dim offset otherBegin otherEnd = inr r
    /\ wf_concept r /\ dtype r = dtype this /\ Concept.dimensions r = D
    /\ forall c, in_box D c ->
         concept_element r c
         = if decide (offset <= c dim < offset + delta)
           then concept_element other (update c dim (c dim - offset + otherBegin))
           else concept_element this c.
Proof.
  destruct this as [a|a|a], other as [b|b|b]; simpl in Hkind; try discriminate;
    simpl in *;
    destruct (copy_spec a b dim offset otherBegin otherEnd n
                Hthis Hother Hsize Hoffset Hdelta Hend Hagree Hrange)
      as (model & Hc & Hlen & Hel);
    (eexists; split; [rewrite Hc; reflexivity|]);
    (split; [by apply wf_with_model|]); (split; [done|]); (split; [done|]);
    intros c Hb; simpl; unfold element; simpl; rewrite (Hel c Hb);
    unfold delta; by case_decide.
Qed.

End ConceptCopy.

(** ** [setDimensions] and [concatenate] *)

Lemma wf_variable_dims v : wf_variable v -> wf_dims (var_dimensions v).
Proof.
  unfold wf_variable, var_dimensions. destruct (m_object v) as [c|c|c]; simpl;
    intros (_ & ? & _); done.
Qed.

Lemma clone_spec c dims :
  wf_concept c -> wf_dims dims ->
  exists c', Concept.clone c dims = inr c' /\ wf_concept c'
             /\ dtype c' = dtype c /\ Concept.dimensions c' = dims.
Proof.
  intros Hc Hd.
  assert (forall T (x : T),
    Z.of_nat (length (replicate (Z.to_nat (Dimensions.volume dims)) x))
    = Dimensions.volume dims) as Hlen.
  { intros. rewrite length_replicate. pose proof (volume_nonneg dims Hd). lia. }
  destruct c as [c|c|c]; simpl in *; destruct Hc as (Hv & _ & _);
    unfold Concept.cloneT; rewrite Hv; simpl;
    (eexists; split; [reflexivity|]); simpl; unfold wf_model; simpl; auto.
Qed.

(** [setDimensions] keeps the Variable when the dimensions compare equal,
    and else gives it a value-initialized buffer.  Every caller hands in
    dimensions that are equal to those of the Variable only if they are
    the same list. *)
Lemma setDimensions_spec v dims :
  wf_variable v -> wf_dims dims ->
  (dims ≡ₚ var_dimensions v -> dims = var_dimensions v) ->
  exists v', setDimensions v dims = inr v' /\ wf_variable v'
             /\ var_dimensions v' = dims /\ dtype (m_object v') = dtype (m_object v)
             /\ m_tag v' = m_tag v /\ m_unit v' = m_unit v /\ m_name v' = m_name v
             /\ (dims = var_dimensions v -> v' = v).
Proof.
  intros Hv Hd Hsame. unfold setDimensions.
  destruct (Dimensions.eqb dims (Concept.dimensions (m_object v))) eqn:Heq.
  - apply eqb_perm, Hsame in Heq. exists v. repeat split; try done.
  - assert (dims <> var_dimensions v) as Hne.
    { intros ->. by rewrite eqb_refl in Heq. }
    destruct (clone_spec (m_object v) dims Hv Hd) as (c' & Hc & Hwf & Hk & Hdims).
    rewrite Hc. simpl. eexists. split; [reflexivity|].
    repeat split; done.
Qed.

Lemma size_app_new d dim n l :
  Dimensions.contains d dim = false ->
  Dimensions.size (d ++ [(dim, n)]) l
  = if decide (l = dim) then inr n else Dimensions.size d l.
Proof.
  intros Hc. induction d as [|[l0 m] d IH]; simpl in *.
  - destruct (decide (dim = l)) as [->|]; [by rewrite decide_True|].
    rewrite decide_False; [done | congruence].
  - destruct (decide (l0 = dim)); [discriminate|]. rewrite IH by done.
    destruct (decide (l0 = l)) as [->|]; [by rewrite decide_False | done].
Qed.

Lemma size_concat_dims dims1 dim total l :
  Dimensions.size (concat_dims dims1 dim total) l
  = if decide (l = dim) then inr total else Dimensions.size dims1 l.
Proof.
  unfold concat_dims. destruct (Dimensions.contains dims1 dim) eqn:Hc.
  - rewrite size_resized, Hc. done.
  - by apply size_app_new.
Qed.

Lemma wf_concat_dims dims1 dim total :
  wf_dims dims1 -> 0 <= total -> wf_dims (concat_dims dims1 dim total).
Proof.
  intros Hwf Ht. unfold concat_dims.
  destruct (Dimensions.contains dims1 dim) eqn:Hc.
  - by apply wf_resized.
  - by apply wf_add.
Qed.

Lemma perm_concat_dims dims1 dim total :
  NoDup (Dimensions.labels dims1) ->
  concat_dims dims1 dim total ≡ₚ dims1 -> concat_dims dims1 dim total = dims1.
Proof.
  unfold concat_dims. destruct (Dimensions.contains dims1 dim).
  - apply perm_resized.
  - intros _ H. by apply perm_add in H.
Qed.

Lemma concat_dims_code dims1 dim total :
  NoDup (Dimensions.labels dims1) -> 0 <= total ->
  (if Dimensions.contains dims1 dim then Dimensions.resize dims1 dim total
   else Dimensions.add dims1 dim total) = inr (concat_dims dims1 dim total).
Proof.
  intros Hnd Ht. unfold concat_dims, Dimensions.add.
  destruct (Dimensions.contains dims1 dim) eqn:Hc.
  - by apply resized_resize.
  - destruct (Z.ltb_spec total 0); [lia | done].
Qed.

Lemma dims_extent_code d dim :
  (if Dimensions.contains d dim
   then n <- Dimensions.size d dim ;; ret (1 + (n - 1))
   else ret 1) = inr (dims_extent d dim).
Proof.
  unfold dims_extent. destruct (Dimensions.contains d dim) eqn:Hc.
  - destruct (contains_size _ _ Hc) as [n ->]. simpl. unfold ret. do 2 f_equal. lia.
  - by rewrite size_not_contains.
Qed.

Lemma dims_extent_nonneg d dim : wf_dims d -> 0 <= dims_extent d dim.
Proof.
  intros Hwf. unfold dims_extent.
  destruct (Dimensions.size d dim) eqn:Hs; [lia|]. by eapply size_nonneg.
Qed.

(** *** The checks of [concatenate] *)

Lemma concatenate_check_inr labels1 dims1 dims2 dim :
  (forall l, l ∈ labels1 -> l ∈ Dimensions.labels dims1) ->
  concatenate_check labels1 dims1 dims2 dim = inr tt
  <-> forall l, l ∈ labels1 -> l <> dim ->
        Dimensions.contains dims2 l = true
        /\ Dimensions.size dims2 l = Dimensions.size dims1 l.
Proof.
  induction labels1 as [|l1 labels1 IH]; intros Hsub; simpl.
  - split; [|done]. intros _ l Hl. inversion Hl.
  - assert (forall l, l ∈ labels1 -> l ∈ Dimensions.labels dims1) as Hsub'.
    { intros l Hl. apply Hsub. by right. }
    specialize (IH Hsub').
    destruct (bool_decide_reflect (l1 = dim)) as [->|Hne]; simpl.
    + rewrite IH. split.
      * intros H l Hl Hld. apply elem_of_cons in Hl as [->|Hl]; [done | by apply H].
      * intros H l Hl Hld. apply H; [by right | done].
    + destruct (Dimensions.contains dims2 l1) eqn:Hc2; simpl.
      * destruct (contains_size _ _ Hc2) as [n2 Hn2].
        destruct (contains_size dims1 l1) as [n1 Hn1].
        { apply contains_elem_of, Hsub. left. }
        rewrite Hn2, Hn1. simpl. destruct (Z.eqb_spec n2 n1) as [->|Hn]; simpl.
        -- rewrite IH. split.
           ++ intros H l Hl Hld. apply elem_of_cons in Hl as [->|Hl]; [|by apply H].
              split; [done | congruence].
           ++ intros H l Hl Hld. apply H; [by right | done].
        -- split; [discriminate|]. intros H.
           destruct (H l1) as [_ Heq]; [left | done|]. congruence.
      * split; [discriminate|]. intros H.
        destruct (H l1) as [Heq _]; [left | done|]. congruence.
Qed.

Lemma length_filter_ne (ls : list Dim.t) dim :
  NoDup ls ->
  Z.of_nat (length (filter (fun l => l <> dim) ls))
  = Z.of_nat (length ls) - (if bool_decide (dim ∈ ls) then 1 else 0).
Proof.
  induction ls as [|l ls IH]; intros Hnd; [done|].
  apply NoDup_cons in Hnd as [Hni Hnd]. specialize (IH Hnd).
  rewrite filter_cons. destruct (decide (l = dim)) as [->|Hne].
  - rewrite decide_False by (intros ?; done).
    rewrite bool_decide_eq_true_2 by left.
    rewrite bool_decide_eq_false_2 in IH by done. simpl length. lia.
  - rewrite decide_True by done. simpl length.
    destruct (bool_decide_reflect (dim ∈ ls)) as [Hin|Hnin].
    + rewrite bool_decide_eq_true_2 by (by right). lia.
    + rewrite bool_decide_eq_false_2; [lia|].
      intros [->|?]%elem_of_cons; done.
Qed.

Lemma count_without d dim :
  NoDup (Dimensions.labels d) ->
  (if Dimensions.contains d dim then Dimensions.count d - 1 else Dimensions.count d)
  = Z.of_nat (length (filter (fun l => l <> dim) (Dimensions.labels d))).
Proof.
  intros Hnd. rewrite length_filter_ne by done. unfold Dimensions.count, Dimensions.labels.
  rewrite length_fmap.
  destruct (Dimensions.contains d dim) eqn:Hc.
  - apply contains_elem_of in Hc. by rewrite bool_decide_eq_true_2.
  - apply contains_false in Hc. rewrite bool_decide_eq_false_2 by done. lia.
Qed.

(** The two checks together say that, apart from [dim], both operands
    have the same labels with the same extents. *)
Lemma concatenate_checks dims1 dims2 dim :
  wf_dims dims1 -> wf_dims dims2 ->
  (concatenate_check (Dimensions.labels dims1) dims1 dims2 dim = inr tt
   /\ (if Dimensions.contains dims1 dim then Dimensions.count dims1 - 1
       else Dimensions.count dims1)
      = (if Dimensions.contains dims2 dim then Dimensions.count dims2 - 1
         else Dimensions.count dims2))
  <-> forall l, l <> dim -> Dimensions.size dims1 l = Dimensions.size dims2 l.
Proof.
  intros [Hnd1 _] [Hnd2 _]. rewrite concatenate_check_inr by done.
  rewrite !count_without by done.
  set (F1 := filter (fun l => l <> dim) (Dimensions.labels dims1)).
  set (F2 := filter (fun l => l <> dim) (Dimensions.labels dims2)).
  assert (NoDup F1) as HF1 by (by apply NoDup_filter).
  assert (NoDup F2) as HF2 by (by apply NoDup_filter).
  split.
  - intros [Hcheck Hcount] l Hne.
    assert (F1 ⊆+ F2) as Hsub.
    { apply NoDup_submseteq; [done|]. intros x [Hx Hin]%list_elem_of_filter.
      apply list_elem_of_filter. split; [done|].
      apply contains_elem_of. by apply Hcheck. }
    assert (F1 ≡ₚ F2) as Hperm by (apply submseteq_length_Permutation; [done | lia]).
    destruct (Dimensions.contains dims1 l) eqn:Hc1.
    + symmetry. apply Hcheck; [by apply contains_elem_of | done].
    + rewrite size_not_contains by done.
      rewrite size_not_contains; [done|].
      apply contains_false. intros Hin. apply contains_false in Hc1. apply Hc1.
      assert (l ∈ F1) as [_ ?]%list_elem_of_filter; [|done].
      rewrite Hperm. apply list_elem_of_filter. done.
  - intros Hagree. split.
    + intros l Hl Hne. rewrite <- Hagree by done. split; [|done].
      apply contains_elem_of, contains_size in Hl as [n Hn].
      rewrite Hagree in Hn by done. by eapply size_contains.
    + f_equal. apply Permutation_length. apply NoDup_Permutation; [done..|].
      intros l. unfold F1, F2. rewrite !list_elem_of_filter.
      rewrite <- !contains_elem_of.
      split; intros [Hne Hc]; (split; [done|]);
        destruct (contains_size _ _ Hc) as [k Hk];
        [rewrite Hagree in Hk by done | rewrite <- Hagree in Hk by done];
        by eapply size_contains.
Qed.

(** *** The result of [concatenate] *)

Lemma concept_element_ext c x x' :
  (forall l, l ∈ Dimensions.labels (Concept.dimensions c) -> x l = x' l) ->
  concept_element c x = concept_element c x'.
Proof.
  intros Hext. destruct c as [c|c|c]; simpl in *; unfold element;
    by rewrite (flat_ext _ x x').
Qed.

Lemma concatenate_success a1 a2 dim :
  wf_variable a1 -> wf_variable a2 -> concatenable a1 a2 dim ->
  exists out, concatenate a1 a2 dim = inr out /\ is_concatenation out a1 a2 dim.
Proof.
  intros Hwf1 Hwf2 (Htag & Hkind & Hunit & Hname & Hagree).
  pose proof (wf_variable_dims _ Hwf1) as Hd1.
  pose proof (wf_variable_dims _ Hwf2) as Hd2.
  set (dims1 := var_dimensions a1) in *. set (dims2 := var_dimensions a2) in *.
  set (n_a := dims_extent dims1 dim). set (n_b := dims_extent dims2 dim).
  assert (0 <= n_a) as Hna by (by apply dims_extent_nonneg).
  assert (0 <= n_b) as Hnb by (by apply dims_extent_nonneg).
  set (D := concat_dims dims1 dim (n_a + n_b)).
  assert (wf_dims D) as HD by (apply wf_concat_dims; [done | lia]).
  destruct (proj2 (concatenate_checks dims1 dims2 dim Hd1 Hd2) Hagree) as [Hcheck Hcount].
  destruct (setDimensions_spec a1 D Hwf1 HD (perm_concat_dims _ _ _ (proj1 Hd1)))
    as (out0 & Hset & Hwf0 & Hdims0 & Hk0 & Htag0 & Hunit0 & Hname0 & _).
  (* the copy of a1 *)
  destruct (Concept_copy_spec (m_object out0) (m_object a1) dim 0 0 n_a (n_a + n_b))
    as (obj1 & Hcopy1 & Hwfo1 & Hk1 & Hdo1 & Hel1); try done; try lia.
  { fold (var_dimensions out0). rewrite Hdims0. unfold D.
    by rewrite size_concat_dims, decide_True. }
  { intros l Hne. fold (var_dimensions out0) (var_dimensions a1). rewrite Hdims0.
    unfold D. by rewrite size_concat_dims, decide_False. }
  { fold (var_dimensions a1). fold dims1. unfold n_a, dims_extent.
    destruct (Dimensions.size dims1 dim); lia. }
  fold (var_dimensions out0) in Hdo1, Hel1. rewrite Hdims0 in Hdo1, Hel1.
  (* the copy of a2 *)
  destruct (Concept_copy_spec obj1 (m_object a2) dim n_a 0 n_b (n_a + n_b))
    as (obj2 & Hcopy2 & Hwfo2 & Hk2 & Hdo2 & Hel2); try done; try lia.
  { congruence. }
  { rewrite Hdo1. unfold D. by rewrite size_concat_dims, decide_True. }
  { intros l Hne. fold (var_dimensions a2). rewrite Hdo1. fold dims2.
    unfold D. rewrite size_concat_dims, decide_False by done. symmetry. by apply Hagree. }
  { fold (var_dimensions a2). fold dims2. unfold n_b, dims_extent.
    destruct (Dimensions.size dims2 dim); lia. }
  rewrite Hdo1 in Hdo2, Hel2.
  exists (with_object out0 obj2). split.
  - unfold concatenate.
    rewrite (bool_decide_eq_true_2 _ Htag), (bool_decide_eq_true_2 _ Hunit),
      (bool_decide_eq_true_2 _ Hname). cbn [negb].
    fold dims1 dims2. rewrite Hcheck. cbn [bind]. rewrite Hcount, Z.eqb_refl. cbn [negb].
    rewrite !dims_extent_code. cbn [bind]. fold n_a n_b.
    rewrite concat_dims_code by (apply Hd1 || lia). cbn [bind]. fold D.
    rewrite Hset. cbn [bind]. rewrite Hcopy1. cbn [bind]. rewrite Hcopy2. done.
  - unfold is_concatenation, extent. fold dims1 dims2.
    fold (dims_extent dims1 dim) (dims_extent dims2 dim). fold n_a n_b.
    split; [done|]. split; [done|]. split; [done|]. split; [done|].
    split; [simpl; congruence|]. split; [done|].
    unfold var_dimensions, var_element. simpl. rewrite Hdo2.
    intros c Hb. rewrite (Hel2 c Hb).
    assert (0 <= c dim < n_a + n_b) as Hc.
    { eapply in_box_size; [exact Hb|]. unfold D.
      by rewrite size_concat_dims, decide_True. }
    destruct (decide (n_a <= c dim < n_a + (n_b - 0))) as [Hin|Hout].
    + rewrite decide_False by lia. apply concept_element_ext.
      intros l _. unfold update. destruct (decide (l = dim)); [lia | done].
    + rewrite (Hel1 c Hb). rewrite decide_True by lia. rewrite decide_True by lia.
      apply concept_element_ext. intros l _. unfold update.
      destruct (decide (l = dim)) as [->|]; [lia | done].
Qed.

Lemma Concept_copy_dtype this other dim offset b e r :
  Concept.copy this other dim offset b e = inr r -> dtype this = dtype other.
Proof.
  destruct this, other; simpl; try done;
    destruct (if Dimensions.contains _ dim then _ else _); simpl; discriminate.
Qed.

Lemma Concept_copy_dtype_result this other dim offset b e r :
  Concept.copy this other dim offset b e = inr r -> dtype r = dtype this.
Proof.
  destruct this as [a|a|a], other as [c|c|c]; simpl;
    try (destruct (if Dimensions.contains _ dim then _ else _); simpl; discriminate);
    intros (x & _ & [= <-])%bind_inr; done.
Qed.

Lemma setDimensions_dtype v dims v' :
  setDimensions v dims = inr v' -> dtype (m_object v') = dtype (m_object v).
Proof.
  unfold setDimensions. destruct (Dimensions.eqb _ _); [by intros [= <-]|].
  intros (c & Hc & [= <-])%bind_inr. simpl.
  destruct (m_object v) as [a|a|a]; simpl in Hc;
    apply bind_inr in Hc as (x & _ & [= <-]); done.
Qed.

Lemma concatenate_inv a1 a2 dim out :
  wf_variable a1 -> wf_variable a2 ->
  concatenate a1 a2 dim = inr out -> concatenable a1 a2 dim.
Proof.
  intros Hwf1 Hwf2. unfold concatenate.
  destruct (bool_decide_reflect (m_tag a1 = m_tag a2)) as [Htag|]; [|discriminate].
  destruct (bool_decide_reflect (m_unit a1 = m_unit a2)) as [Hunit|]; [|discriminate].
  destruct (bool_decide_reflect (m_name a1 = m_name a2)) as [Hname|]; [|discriminate].
  cbn [negb].
  intros ([] & Hcheck & H)%bind_inr.
  destruct (Z.eqb_spec
    (if Dimensions.contains (var_dimensions a1) dim
     then Dimensions.count (var_dimensions a1) - 1 else Dimensions.count (var_dimensions a1))
    (if Dimensions.contains (var_dimensions a2) dim
     then Dimensions.count (var_dimensions a2) - 1 else Dimensions.count (var_dimensions a2)))
    as [Hcount|]; [|discriminate].
  cbn [negb] in H.
  apply bind_inr in H as (e1 & _ & H). apply bind_inr in H as (e2 & _ & H).
  apply bind_inr in H as (dims & _ & H). apply bind_inr in H as (out0 & Hset & H).
  apply bind_inr in H as (obj1 & Hc1 & H). apply bind_inr in H as (obj2 & Hc2 & _).
  split; [done|]. split.
  - apply Concept_copy_dtype in Hc2. apply Concept_copy_dtype_result in Hc1.
    apply setDimensions_dtype in Hset. congruence.
  - split; [done|]. split; [done|].
    apply concatenate_checks; [by apply wf_variable_dims..|]. done.
Qed.

(** ** [slice] and [split] *)

Lemma variable_ext (v w : variable) :
  wf_variable v -> wf_variable w ->
  m_tag v = m_tag w -> m_unit v = m_unit w -> m_name v = m_name w ->
  dtype (m_object v) = dtype (m_object w) ->
  var_dimensions v = var_dimensions w ->
  (forall c, in_box (var_dimensions v) c -> var_element v c = var_element w c) ->
  v = w.
Proof.
  destruct v as [t u nm o], w as [t' u' nm' o']. unfold wf_variable, var_dimensions,
    var_element. simpl. intros Hv Hw -> -> -> Hk Hd Hel. f_equal.
  by apply concept_ext.
Qed.

Lemma is_slice_unique p q v dim lo hi :
  is_slice p v dim lo hi -> is_slice q v dim lo hi -> p = q.
Proof.
  intros (Hwp & Htp & Hup & Hnp & Hkp & Hdp & Hep) (Hwq & Htq & Huq & Hnq & Hkq & Hdq & Heq).
  apply variable_ext; try congruence.
  intros c Hc. rewrite Hep by done. rewrite Heq; [done|]. by rewrite Hdq, <- Hdp.
Qed.

Lemma var_element_ext v x x' :
  (forall l, l ∈ Dimensions.labels (var_dimensions v) -> x l = x' l) ->
  var_element v x = var_element v x'.
Proof. apply concept_element_ext. Qed.

Lemma is_slice_whole v dim n :
  wf_variable v -> Dimensions.size (var_dimensions v) dim = inr n ->
  is_slice v v dim 0 n.
Proof.
  intros Hwf Hs. repeat split; try done.
  - rewrite Z.sub_0_r. symmetry. apply resized_id; [|done].
    by apply wf_variable_dims.
  - intros c Hc. apply var_element_ext. intros l _. unfold update.
    destruct (decide (l = dim)) as [->|]; [lia | done].
Qed.

Lemma slice_spec var dim lo hi n :
  wf_variable var -> Dimensions.size (var_dimensions var) dim = inr n ->
  0 <= lo -> lo <= hi -> hi <= n ->
  exists p, slice var dim lo hi = inr p /\ is_slice p var dim lo hi.
Proof.
  intros Hwf Hs Hlo Hle Hhi. pose proof (wf_variable_dims _ Hwf) as Hd.
  set (D := var_dimensions var) in *.
  unfold slice. fold D. rewrite resized_resize; [|apply Hd|by eapply size_contains|lia].
  cbn [bind]. rewrite eqb_resized by apply Hd.
  destruct (bool_decide_reflect (resized D dim (hi - lo) = D)) as [Heq|Hne].
  - exists var. split; [done|].
    assert (hi - lo = n) as Hn.
    { pose proof (size_resized D dim (hi - lo) dim) as H.
      rewrite decide_True, (size_contains _ _ _ Hs), Heq, Hs in H by done. congruence. }
    assert (lo = 0) as -> by lia. assert (hi = n) as -> by lia.
    by apply is_slice_whole.
  - assert (wf_dims (resized D dim (hi - lo))) as HD' by (apply wf_resized; [done | lia]).
    destruct (setDimensions_spec var _ Hwf HD' (perm_resized _ _ _ (proj1 Hd)))
      as (out & Hset & Hwfo & Hdo & Hko & Hto & Huo & Hno & _).
    rewrite Hset. cbn [bind].
    destruct (Concept_copy_spec (m_object out) (m_object var) dim 0 lo hi (hi - lo))
      as (obj & Hcopy & Hwfobj & Hkobj & Hdobj & Hel); try done; try lia.
    { fold (var_dimensions out). rewrite Hdo.
      by rewrite size_resized, decide_True, (size_contains _ _ _ Hs). }
    { intros l Hne'. fold (var_dimensions out) (var_dimensions var). rewrite Hdo. fold D.
      by rewrite size_resized, decide_False. }
    { fold (var_dimensions var). fold D. rewrite Hs. lia. }
    rewrite Hcopy. cbn [bind]. eexists. split; [reflexivity|].
    fold (var_dimensions out) in Hdobj, Hel. rewrite Hdo in Hdobj, Hel.
    unfold is_slice, wf_variable, var_dimensions, var_element. simpl.
    split; [done|]. split; [done|]. split; [done|]. split; [done|].
    split; [congruence|]. split; [done|].
    rewrite Hdobj. intros c Hc. rewrite (Hel c Hc).
    assert (0 <= c dim < hi - lo) as Hcd.
    { eapply in_box_size; [exact Hc|].
      by rewrite size_resized, decide_True, (size_contains _ _ _ Hs). }
    rewrite decide_True by lia. apply concept_element_ext.
    intros l _. unfold update. destruct (decide (l = dim)); [lia | done].
Qed.

Lemma resized_resized d dim n m : resized (resized d dim n) dim m = resized d dim m.
Proof.
  unfold resized. rewrite <- list_fmap_compose. apply list_fmap_ext.
  intros i [l k] _. simpl. destruct (decide (l = dim)) as [->|Hne]; simpl.
  - by rewrite decide_True.
  - by rewrite decide_False.
Qed.

Lemma in_box_resized d dim n c :
  in_box (resized d dim n) c
  <-> forall l m, (l, m) ∈ d -> if decide (l = dim) then 0 <= c l < n else 0 <= c l < m.
Proof.
  unfold in_box, resized. rewrite Forall_fmap, Forall_forall. split.
  - intros H l m Hin. specialize (H _ Hin). simpl in H.
    destruct (decide (l = dim)); done.
  - intros H [l m] Hin. specialize (H _ _ Hin). simpl.
    destruct (decide (l = dim)); done.
Qed.

(** Two neighbouring ranges concatenate to the range that spans both. *)
Lemma concatenate_slices v dim a b c n p q :
  wf_variable v -> Dimensions.size (var_dimensions v) dim = inr n ->
  0 <= a -> a <= b -> b <= c -> c <= n ->
  is_slice p v dim a b -> is_slice q v dim b c ->
  exists r, concatenate p q dim = inr r /\ is_slice r v dim a c.
Proof.
  intros Hwf Hs Ha Hab Hbc Hcn Hp Hq. pose proof (wf_variable_dims _ Hwf) as Hd.
  set (D := var_dimensions v) in *.
  destruct Hp as (Hwp & Htp & Hup & Hnp & Hkp & Hdp & Hep).
  destruct Hq as (Hwq & Htq & Huq & Hnq & Hkq & Hdq & Heq).
  fold D in Hdp, Hdq.
  assert (Dimensions.contains D dim = true) as HcD by (by eapply size_contains).
  assert (extent p dim = b - a) as Hexp.
  { unfold extent. by rewrite Hdp, size_resized, decide_True, HcD. }
  assert (extent q dim = c - b) as Hexq.
  { unfold extent. by rewrite Hdq, size_resized, decide_True, HcD. }
  destruct (concatenate_success p q dim Hwp Hwq) as (r & Hr & Hcat).
  { repeat split; try congruence. intros l Hne.
    by rewrite Hdp, Hdq, !size_resized, !decide_False. }
  exists r. split; [done|].
  destruct Hcat as (Hwr & Htr & Hur & Hnr & Hkr & Hdr & Her).
  rewrite Hexp, Hexq in *.
  assert (var_dimensions r = resized D dim (c - a)) as Hdr'.
  { rewrite Hdr. unfold concat_dims. rewrite Hdp, contains_resized, HcD.
    rewrite resized_resized. f_equal. lia. }
  repeat split; try congruence; [done|].
  intros x Hx. rewrite (Her x Hx). rewrite Hdr' in Hx.
  pose proof (proj1 (in_box_resized _ _ _ _) Hx) as Hbox.
  assert (0 <= x dim < c - a) as Hxd.
  { apply size_elem_of in Hs. specialize (Hbox _ _ Hs). by rewrite decide_True in Hbox. }
  destruct (decide (x dim < b - a)) as [Hlt|Hge].
  - rewrite Hep; [done|]. rewrite Hdp. apply in_box_resized. intros l m Hlm.
    specialize (Hbox _ _ Hlm). destruct (decide (l = dim)) as [->|]; [lia | done].
  - rewrite Heq.
    + apply var_element_ext. intros l _. unfold update.
      destruct (decide (l = dim)) as [->|]; [|done].
      rewrite decide_True by done. lia.
    + rewrite Hdq. apply in_box_resized. intros l m Hlm.
      specialize (Hbox _ _ Hlm). unfold update.
      destruct (decide (l = dim)) as [->|]; [lia | done].
Qed.

Lemma sorted_between_le lo indices n : sorted_between lo indices n -> lo <= n.
Proof.
  revert lo. induction indices as [|i indices IH]; intros lo; simpl; [done|].
  intros [Hlo Hs]. specialize (IH _ Hs). lia.
Qed.

Lemma split_for_spec v dim n :
  wf_variable v -> Dimensions.size (var_dimensions v) dim = inr n ->
  forall indices i, 0 <= i -> sorted_between i indices n ->
  exists ps, split_for v dim (i :: indices) = inr ps
    /\ forall lastp, is_slice lastp v dim (List.last (i :: indices) 0) n ->
         is_partition v dim i indices n (ps ++ [lastp]).
Proof.
  intros Hwf Hs. induction indices as [|j indices IH]; intros i Hi Hsorted.
  - exists []. split; [done|]. intros lastp Hl. exact Hl.
  - destruct Hsorted as [Hij Hsorted]. pose proof (sorted_between_le _ _ _ Hsorted) as Hjn.
    destruct (slice_spec v dim i j n Hwf Hs Hi Hij Hjn) as (p & Hp & Hslice).
    destruct (IH j ltac:(lia) Hsorted) as (ps & Hps & Hpart).
    exists (p :: ps). split.
    + change (split_for v dim (i :: j :: indices))
        with (v0 <- slice v dim i j ;; vars <- split_for v dim (j :: indices) ;;
              ret (v0 :: vars)).
      by rewrite Hp, Hps.
    + intros lastp Hl. split; [done|]. apply Hpart. exact Hl.
Qed.

Lemma split_partition v dim indices n :
  wf_variable v -> Dimensions.size (var_dimensions v) dim = inr n ->
  sorted_between 0 indices n ->
  exists pieces, split v dim indices = inr pieces
    /\ is_partition v dim 0 indices n pieces.
Proof.
  intros Hwf Hs Hsorted. destruct indices as [|i indices].
  - exists [v]. split; [done|]. by apply is_slice_whole.
  - destruct Hsorted as [Hi Hsorted].
    pose proof (sorted_between_le _ _ _ Hsorted) as Hin.
    destruct (slice_spec v dim 0 i n Hwf Hs ltac:(lia) Hi Hin) as (first & Hfirst & Hf).
    destruct (split_for_spec v dim n Hwf Hs indices i Hi Hsorted) as (middle & Hmid & Hpart).
    assert (0 <= List.last (i :: indices) 0 <= n) as Hlast.
    { clear -Hi Hsorted. revert i Hi Hsorted.
      induction indices as [|j indices IH]; intros i Hi Hsorted.
      - simpl in *. lia.
      - destruct Hsorted as [Hij Hsorted].
        change (List.last (i :: j :: indices) 0) with (List.last (j :: indices) 0).
        apply IH; [lia | done]. }
    destruct (slice_spec v dim (List.last (i :: indices) 0) n n Hwf Hs)
      as (last_ & Hl & Hlp); [lia..|].
    exists (first :: middle ++ [last_]). split.
    + unfold split. rewrite Hfirst. cbn [bind]. rewrite Hmid. cbn [bind].
      rewrite Hs. cbn [bind]. by rewrite Hl.
    + split; [done|]. by apply Hpart.
Qed.

Lemma concatenate_partition v dim n :
  wf_variable v -> Dimensions.size (var_dimensions v) dim = inr n ->
  forall indices lo acc pieces, 0 <= lo -> sorted_between lo indices n ->
  is_slice acc v dim 0 lo -> is_partition v dim lo indices n pieces ->
  exists r, foldl (fun acc piece => out <- acc ;; concatenate out piece dim)
              (ret acc) pieces = inr r
    /\ is_slice r v dim 0 n.
Proof.
  intros Hwf Hs. induction indices as [|i indices IH]; intros lo acc pieces Hlo Hsorted Hacc Hpart.
  - destruct pieces as [|p [|]]; try done. simpl in Hsorted, Hpart.
    destruct (concatenate_slices v dim 0 lo n n acc p Hwf Hs) as (r & Hr & Hslice);
      try done; try lia.
    exists r. split; [|done]. simpl. exact Hr.
  - destruct pieces as [|p pieces]; [done|]. destruct Hpart as [Hp Hpart].
    destruct Hsorted as [Hlo' Hsorted]. pose proof (sorted_between_le _ _ _ Hsorted) as Hin.
    destruct (concatenate_slices v dim 0 lo i n acc p Hwf Hs) as (r & Hr & Hslice);
      try done; try lia.
    destruct (IH i r pieces ltac:(lia) Hsorted Hslice Hpart) as (r' & Hr' & Hslice').
    exists r'. split; [|done]. simpl. unfold ret in Hr'. by rewrite Hr.
Qed.

Lemma concatenate_all_partition v dim indices n pieces :
  wf_variable v -> Dimensions.size (var_dimensions v) dim = inr n ->
  sorted_between 0 indices n -> is_partition v dim 0 indices n pieces ->
  concatenate_all pieces dim = inr v.
Proof.
  intros Hwf Hs Hsorted Hpart. destruct indices as [|i indices].
  - destruct pieces as [|p [|]]; try done. simpl in Hpart. simpl.
    unfold ret. f_equal. eapply is_slice_unique; [exact Hpart|]. by apply is_slice_whole.
  - destruct pieces as [|p pieces]; [done|]. destruct Hpart as [Hp Hpart].
    destruct Hsorted as [Hi Hsorted].
    destruct (concatenate_partition v dim n Hwf Hs indices i p pieces Hi Hsorted Hp Hpart)
      as (r & Hr & Hslice).
    unfold concatenate_all. rewrite Hr. f_equal.
    eapply is_slice_unique; [exact Hslice|]. by apply is_slice_whole.
Qed.

(** * [concatenate] and [split] *)

(** Well-formedness of a concrete Variable, by evaluation. *)
Ltac solve_wf :=
  split; [reflexivity|]; split; [|reflexivity]; split;
  [ apply (bool_decide_unpack _); vm_compute; exact I
  | repeat (constructor; [simpl; lia|]); constructor ].

(** C3: [concatenate(a, b, dim)] throws unless [a] and [b] have the same
    element kind, unit and name and the same extents on every axis other
    than [dim]; it succeeds when moreover the tags agree; and whenever it
    returns, the result has the extent [n_a + n_b] along [dim], its range
    [[0, n_a)] holds the elements of [a] and its range [[n_a, n_a + n_b)]
    those of [b], where [n_a] and [n_b] are the extents of [a] and [b]
    along [dim], 1 for an operand without [dim]. *)
Theorem concatenate_spec (a1 a2 : variable) (dim : Dim.t) :
  wf_variable a1 -> wf_variable a2 ->
  (~ concatenate_requirements a1 a2 dim -> throws (concatenate a1 a2 dim))
  /\ (concatenable a1 a2 dim -> succeeds (concatenate a1 a2 dim))
  /\ (forall out, concatenate a1 a2 dim = inr out -> is_concatenation out a1 a2 dim).
Proof.
  intros Hwf1 Hwf2. split; [|split].
  - intros Hnot. destruct (concatenate a1 a2 dim) as [e|out] eqn:Hcat; [by exists e|].
    exfalso. apply Hnot.
    destruct (concatenate_inv _ _ _ _ Hwf1 Hwf2 Hcat) as (_ & Hk & Hu & Hn & Hagree).
    by repeat split.
  - intros Hc. destruct (concatenate_success a1 a2 dim Hwf1 Hwf2 Hc) as (out & Hout & _).
    by exists out.
  - intros out Hcat. pose proof (concatenate_inv _ _ _ _ Hwf1 Hwf2 Hcat) as Hc.
    destruct (concatenate_success a1 a2 dim Hwf1 Hwf2 Hc) as (out' & Hout & Hspec).
    congruence.
Qed.

Lemma concatenate_spec_witness :
  wf_variable sample_a /\ wf_variable sample_b
  /\ is_concatenation sample_ab sample_a sample_b Dim.Y.
Proof.
  assert (wf_variable sample_a) as Ha by solve_wf.
  assert (wf_variable sample_b) as Hb by solve_wf.
  split; [exact Ha|]. split; [exact Hb|].
  apply (concatenate_spec sample_a sample_b Dim.Y Ha Hb). reflexivity.
Defined.

(** C4: for two Variables with the dimensions [{X:3}], whenever
    [concatenate(a, b, Y)] returns, its result has the dimensions
    [{Y:2, X:3}]: either operand has the extent 1 along the axis [Y] that it
    lacks, and [Y] is appended to the list of labels, which makes it the
    outermost axis, while [X] keeps the extent 3; row 0 of the result is
    [a] and row 1 is [b].  It returns when [a] and [b] agree in tag,
    element kind, unit and name. *)
Theorem concatenate_new_axis (a b : variable) :
  wf_variable a -> wf_variable b ->
  var_dimensions a = [(Dim.X, 3)] -> var_dimensions b = [(Dim.X, 3)] ->
  extent a Dim.Y = 1 /\ extent b Dim.Y = 1
  /\ (forall out, concatenate a b Dim.Y = inr out ->
        var_dimensions out = var_dimensions a ++ [(Dim.Y, 2)]
        /\ Dimensions.outer_first (var_dimensions out) = [(Dim.Y, 2); (Dim.X, 3)]
        /\ forall i, 0 <= i < 3 ->
             var_element out (at2 Dim.X i Dim.Y 0) = var_element a (at1 Dim.X i)
             /\ var_element out (at2 Dim.X i Dim.Y 1) = var_element b (at1 Dim.X i))
  /\ (m_tag a = m_tag b -> dtype (m_object a) = dtype (m_object b) ->
      m_unit a = m_unit b -> m_name a = m_name b ->
      succeeds (concatenate a b Dim.Y)).
Proof.
  intros Hwfa Hwfb Hda Hdb.
  assert (extent a Dim.Y = 1) as Hea by (unfold extent; by rewrite Hda).
  assert (extent b Dim.Y = 1) as Heb by (unfold extent; by rewrite Hdb).
  split; [done|]. split; [done|]. split.
  - intros out Hout.
    pose proof (concatenate_inv _ _ _ _ Hwfa Hwfb Hout) as Hc.
    destruct (concatenate_success a b Dim.Y Hwfa Hwfb Hc) as (out' & Hout' & Hspec).
    assert (out' = out) as -> by congruence.
    destruct Hspec as (_ & _ & _ & _ & _ & Hd & Hel).
    rewrite Hea, Heb in Hd. rewrite Hea in Hel. rewrite Hda in Hd. rewrite Hd, Hda.
    split; [done|]. split; [done|].
    intros i Hi.
    assert (forall j, 0 <= j < 2 -> in_box (var_dimensions out) (at2 Dim.X i Dim.Y j))
      as Hbox.
    { intros j Hj. rewrite Hd.
      repeat constructor; simpl; unfold at2, at1, update; simpl; lia. }
    split.
    + rewrite (Hel _ (Hbox 0 ltac:(lia))). rewrite decide_True by done.
      apply var_element_ext. rewrite Hda. intros l Hl.
      apply list_elem_of_singleton in Hl. by subst.
    + rewrite (Hel _ (Hbox 1 ltac:(lia))). rewrite decide_False by done.
      apply var_element_ext. rewrite Hdb. intros l Hl.
      apply list_elem_of_singleton in Hl. by subst.
  - intros Ht Hk Hu Hn.
    destruct (concatenate_success a b Dim.Y Hwfa Hwfb) as (out & Hout & _).
    { repeat split; try done. intros l _. by rewrite Hda, Hdb. }
    by exists out.
Qed.

Lemma concatenate_new_axis_witness :
  wf_variable sample_a /\ wf_variable sample_b
  /\ var_dimensions sample_a = [(Dim.X, 3)] /\ var_dimensions sample_b = [(Dim.X, 3)]
  /\ concatenate sample_a sample_b Dim.Y = inr sample_ab
  /\ Dimensions.outer_first (var_dimensions sample_ab) = [(Dim.Y, 2); (Dim.X, 3)].
Proof.
  assert (wf_variable sample_a) as Ha by solve_wf.
  assert (wf_variable sample_b) as Hb by solve_wf.
  split; [exact Ha|]. split; [exact Hb|]. split; [reflexivity|]. split; [reflexivity|].
  split; [reflexivity|].
  destruct (concatenate_new_axis sample_a sample_b Ha Hb eq_refl eq_refl)
    as (_ & _ & Hdims & _).
  apply (Hdims sample_ab). reflexivity.
Defined.

(** * [permute] *)

Lemma Concept_copy_frame this other dim offset otherBegin otherEnd n r :
  wf_concept this -> Dimensions.size (Concept.dimensions this) dim = inr n ->
  0 <= offset -> 0 <= otherEnd - otherBegin -> offset + (otherEnd - otherBegin) <= n ->
  Concept.copy this other dim offset otherBegin otherEnd = inr r ->
  wf_concept r /\ dtype r = dtype this
  /\ Concept.dimensions r = Concept.dimensions this
  /\ forall c, in_box (Concept.dimensions this) c ->
       ~ (offset <= c dim < offset + (otherEnd - otherBegin)) ->
       concept_element r c = concept_element this c.
Proof.
  intros Hwf Hs Ho Hd He.
  destruct this as [a|a|a], other as [b|b|b]; simpl in *;
    try (intros Hr; apply bind_inr in Hr as (? & _ & Hr); discriminate);
    intros Hr; apply bind_inr in Hr as (c' & Hr & [= <-]);
    destruct (copy_frame a b dim offset otherBegin otherEnd n Hwf Hs Ho Hd He c' Hr)
      as (model & -> & Hlen & Hframe);
    (split; [by apply wf_with_model|]); (split; [done|]); (split; [done|]);
    intros c Hc Hout; simpl; unfold element; simpl; by rewrite Hframe.
Qed.

(** The loop of [permute] from position [i] on writes to the positions
    [i, ..., i + len(indices) - 1] along [dim] only, whatever the indices
    are. *)
Lemma permute_for_frame (var : variable) (dim : Dim.t) (n : Z) :
  forall indices i permuted r,
    wf_concept permuted ->
    Dimensions.size (Concept.dimensions permuted) dim = inr n ->
    0 <= i -> i + Z.of_nat (length indices) <= n ->
    permute_for var dim i indices permuted = inr r ->
    wf_concept r /\ dtype r = dtype permuted
    /\ Concept.dimensions r = Concept.dimensions permuted
    /\ forall c, in_box (Concept.dimensions permuted) c ->
         ~ (i <= c dim < i + Z.of_nat (length indices)) ->
         concept_element r c = concept_element permuted c.
Proof.
  induction indices as [|index indices IH]; intros i permuted r Hwf Hs Hi Hlen Hr.
  - injection Hr as <-. by repeat split.
  - rewrite length_cons in Hlen. simpl in Hr.
    apply bind_inr in Hr as (p' & Hcopy & Hr).
    destruct (Concept_copy_frame permuted (m_object var) dim i index (index + 1) n p'
                Hwf Hs Hi ltac:(lia) ltac:(lia) Hcopy) as (Hwf' & Hk' & Hd' & Hframe').
    destruct (IH (i + 1) p' r Hwf' ltac:(by rewrite Hd') ltac:(lia) ltac:(lia) Hr)
      as (Hwfr & Hkr & Hdr & Hframe).
    split; [done|]. split; [congruence|]. split; [congruence|].
    intros c Hc Hout. rewrite length_cons in Hout.
    rewrite Hframe by (rewrite ?Hd'; done || lia).
    apply Hframe'; [done | lia].
Qed.

(** The loop of [permute] from position [i] on: position [i + k] along
    [dim] receives the slice of [var] at the [k]-th of the remaining
    indices, every other position keeps what [permuted] has. *)
Lemma permute_for_spec (var : variable) (dim : Dim.t) (n : Z) :
  wf_variable var -> Dimensions.size (var_dimensions var) dim = inr n ->
  forall indices i permuted,
    wf_concept permuted -> dtype permuted = dtype (m_object var) ->
    Concept.dimensions permuted = var_dimensions var ->
    0 <= i -> i + Z.of_nat (length indices) <= n ->
    Forall (fun index => 0 <= index < n) indices ->
    exists r, permute_for var dim i indices permuted = inr r
      /\ wf_concept r /\ dtype r = dtype (m_object var)
      /\ Concept.dimensions r = var_dimensions var
      /\ forall c, in_box (var_dimensions var) c ->
           concept_element r c
           = match (if decide (i <= c dim) then indices !! Z.to_nat (c dim - i) else None) with
             | Some index => var_element var (update c dim index)
             | None => concept_element permuted c
             end.
Proof.
  intros Hwf Hs. induction indices as [|index indices IH];
    intros i permuted Hwfp Hk Hd Hi Hlen Hrange.
  - exists permuted. repeat split; try done. intros c _. by case_decide.
  - apply Forall_cons in Hrange as [Hindex Hrange]. rewrite length_cons in Hlen.
    destruct (Concept_copy_spec permuted (m_object var) dim i index (index + 1) n)
      as (p' & Hcopy & Hwfp' & Hkp' & Hdp' & Hel); try done; try lia.
    { by rewrite Hd. }
    { intros l _. by rewrite Hd. }
    { fold (var_dimensions var). rewrite Hs. lia. }
    destruct (IH (i + 1) p') as (r & Hr & Hwfr & Hkr & Hdr & Helr);
      try done; try lia; try congruence.
    exists r. split; [simpl; by rewrite Hcopy|]. repeat split; try done.
    intros c Hc. rewrite (Helr c Hc). rewrite Hd in Hel.
    destruct (decide (i + 1 <= c dim)) as [Hgt|Hle].
    + rewrite decide_True by lia.
      replace (Z.to_nat (c dim - i)) with (S (Z.to_nat (c dim - (i + 1)))) by lia.
      simpl. destruct (indices !! Z.to_nat (c dim - (i + 1))); [done|].
      rewrite (Hel c Hc). by rewrite decide_False by lia.
    + rewrite (Hel c Hc). destruct (decide (i <= c dim)) as [Hge|Hlt].
      * rewrite decide_True by lia. replace (c dim - i) with 0 by lia. simpl.
        apply var_element_ext. intros l _. unfold update.
        destruct (decide (l = dim)); [lia | done].
      * by rewrite decide_False by lia.
Qed.

(** C10: for an index list no longer than the extent [n] of [var] along
    [dim], whenever [permute(var, dim, indices)] returns, the result has
    the tag, unit, name and dimensions of [var], and every position
    [i >= len(indices)] along [dim] holds what [var] has there; and when
    every index is within the extent, [permute] returns, and position
    [i < len(indices)] of the result holds the slice of [var] at
    [indices[i]]. *)
Theorem permute_spec (var : variable) (dim : Dim.t) (indices : list Z) (n : Z) :
  wf_variable var -> Dimensions.size (var_dimensions var) dim = inr n ->
  Z.of_nat (length indices) <= n ->
  (forall out, permute var dim indices = inr out ->
     wf_variable out
     /\ m_tag out = m_tag var /\ m_unit out = m_unit var /\ m_name out = m_name var
     /\ var_dimensions out = var_dimensions var
     /\ forall c, in_box (var_dimensions var) c ->
          Z.of_nat (length indices) <= c dim -> var_element out c = var_element var c)
  /\ (Forall (fun index => 0 <= index < n) indices ->
      exists out, permute var dim indices = inr out
        /\ forall c index, in_box (var_dimensions var) c ->
             indices !! Z.to_nat (c dim) = Some index ->
             var_element out c = var_element var (update c dim index)).
Proof.
  intros Hwf Hs Hlen. split.
  - intros out Hout. unfold permute in Hout.
    apply bind_inr in Hout as (r & Hr & [= <-]).
    destruct (permute_for_frame var dim n indices 0 (m_object var) r Hwf Hs
                ltac:(lia) ltac:(lia) Hr) as (Hwfr & Hkr & Hdr & Hframe).
    repeat split; try done.
    intros c Hc Hge. apply Hframe; [done | lia].
  - intros Hrange.
    destruct (permute_for_spec var dim n Hwf Hs indices 0 (m_object var))
      as (r & Hr & Hwfr & Hkr & Hdr & Hel); try done; try lia.
    exists (with_object var r). split; [unfold permute; by rewrite Hr|].
    intros c index Hc Hindex. unfold var_element at 1. simpl. rewrite (Hel c Hc).
    assert (0 <= c dim) as Hnn by (eapply in_box_size; [exact Hc | exact Hs]).
    by rewrite decide_True, Z.sub_0_r, Hindex by done.
Qed.

Lemma permute_spec_witness :
  wf_variable sample_row
  /\ Dimensions.size (var_dimensions sample_row) Dim.X = inr 4
  /\ Z.of_nat (length [2; 0]) <= 4
  /\ Forall (fun index => 0 <= index < 4) [2; 0]
  /\ exists out, permute sample_row Dim.X [2; 0] = inr out
       /\ var_element out (at1 Dim.X 3) = var_element sample_row (at1 Dim.X 3).
Proof.
  assert (wf_variable sample_row) as Hwf by solve_wf.
  assert (Z.of_nat (length [2; 0]) <= 4) as Hlen by (simpl; lia).
  assert (Forall (fun index => 0 <= index < 4) [2; 0]) as Hrange
    by (repeat (constructor; [lia|]); constructor).
  split; [exact Hwf|]. split; [reflexivity|]. split; [exact Hlen|]. split; [exact Hrange|].
  destruct (permute_spec sample_row Dim.X [2; 0] 4 Hwf eq_refl Hlen) as [Hframe Hpos].
  destruct (Hpos Hrange) as (out & Hout & _).
  exists out. split; [exact Hout|].
  destruct (Hframe out Hout) as (_ & _ & _ & _ & _ & Hel).
  apply (Hel (at1 Dim.X 3)).
  - constructor; [split; by vm_compute | constructor].
  - by vm_compute.
Defined.

(** * Accumulating transforms *)

Lemma wrap_add_l (a b : Z) : wrap (wrap a + b) = wrap (a + b).
Proof.
  unfold wrap. f_equal.
  replace ((a + 2 ^ 63) `mod` 2 ^ 64 - 2 ^ 63 + b + 2 ^ 63)
    with ((a + 2 ^ 63) `mod` 2 ^ 64 + b) by lia.
  rewrite Zplus_mod_idemp_l. f_equal. lia.
Qed.

Lemma wrap_add_r (a b : Z) : wrap (a + wrap b) = wrap (a + b).
Proof. by rewrite Z.add_comm, wrap_add_l, Z.add_comm. Qed.

Lemma wrap_range (a : Z) : int64_min <= wrap a <= int64_max.
Proof.
  unfold wrap, int64_min, int64_max.
  pose proof (Z.mod_pos_bound (a + 2 ^ 63) (2 ^ 64) ltac:(lia)). lia.
Qed.

Lemma wrap_id (a : Z) : int64_min <= a <= int64_max -> wrap a = a.
Proof.
  unfold wrap, int64_min, int64_max. intros Ha. rewrite Z.mod_small; lia.
Qed.

#[global] Instance CommutativePlus_int64 : CommutativePlus Z.
Proof.
  split; simpl.
  - intros x y z. by rewrite wrap_add_l, wrap_add_r, Z.add_assoc.
  - intros x y. by rewrite Z.add_comm.
  - done.
Qed.

Lemma omap_ext_elem_of {A B} (f g : A -> option B) (l : list A) :
  (forall x, x ∈ l -> f x = g x) -> omap f l = omap g l.
Proof.
  induction l as [|x l IH]; intros Hfg; [done|]. cbn [omap list_omap].
  rewrite (Hfg x) by left. rewrite IH; [done|]. intros y Hy. apply Hfg. by right.
Qed.

Section Transform.
Context {T : Type}.
Implicit Types (a b : list T) (bs : list Z).

(** [std_transform] returns when both position lists stay inside their
    buffers, and every cell of [a] then holds the fold of [op] from its
    old value over the elements of [b] paired with it. *)
Lemma std_transform_spec (op : T -> T -> T) b as_ bs a :
  length as_ = length bs ->
  (forall p, p ∈ as_ -> 0 <= p < Z.of_nat (length a)) ->
  (forall q, q ∈ bs -> 0 <= q < Z.of_nat (length b)) ->
  exists a',
    std_transform op b as_ bs a = inr a'
    /\ length a' = length a
    /\ forall (p : nat) x, a !! p = Some x ->
         a' !! p = Some (foldl op x (contributions b (zip as_ bs) p)).
Proof.
  revert bs a. induction as_ as [|p0 as_ IH]; intros [|q0 bs] a Hlen Ha Hb;
    try discriminate.
  - exists a. by repeat split.
  - destruct (read_lookup a p0) as (x0 & Hrx & Hx0); [apply Ha; left|].
    destruct (read_lookup b q0) as (y0 & Hry & Hy0); [apply Hb; left|].
    destruct (IH bs (<[Z.to_nat p0 := op x0 y0]> a)) as (a' & Ht & Hl & Hel).
    { simpl in Hlen. lia. }
    { intros p Hp. rewrite length_insert. apply Ha. by right. }
    { intros q Hq. apply Hb. by right. }
    exists a'. split; [|split].
    + simpl. rewrite Hrx, Hry. cbn [bind].
      assert (write a p0 (op x0 y0) = inr (<[Z.to_nat p0 := op x0 y0]> a)) as ->.
      { apply write_inr. split; [apply Ha; left | done]. }
      exact Ht.
    + by rewrite Hl, length_insert.
    + intros p x Hx. unfold contributions. cbn [zip zip_with omap list_omap fst snd].
      destruct (decide (Z.to_nat p0 = p)) as [<-|Hne].
      * rewrite Hy0. cbn [foldl]. rewrite Hx0 in Hx. injection Hx as <-.
        apply Hel. apply list_lookup_insert_eq. by eapply lookup_lt_Some.
      * apply Hel. by rewrite list_lookup_insert_ne.
Qed.

Context `{CommutativePlus T}.

Lemma foldl_plus_comm (s y : T) (l : list T) :
  foldl plus (plus s y) l = plus (foldl plus s l) y.
Proof.
  revert s. induction l as [|x l IH]; intros s; simpl; [done|].
  rewrite <- IH. f_equal. by rewrite <- !plus_assoc, (plus_comm y).
Qed.

Lemma foldl_insert (s : T) a (p : nat) (x y : T) :
  a !! p = Some x ->
  foldl plus s (<[p := plus x y]> a) = plus (foldl plus s a) y.
Proof.
  revert s p. induction a as [|z a IH]; intros s [|p] Hp; try done; simpl in *.
  - injection Hp as ->. by rewrite plus_assoc, foldl_plus_comm.
  - by apply IH.
Qed.

Lemma total_insert a (p : nat) (x y : T) :
  a !! p = Some x -> total (<[p := plus x y]> a) = plus (total a) y.
Proof. apply foldl_insert. Qed.

Lemma total_replicate (n : nat) : total (replicate n (zero : T)) = zero.
Proof.
  unfold total. induction n as [|n IH]; simpl; [done|]. by rewrite plus_zero_zero.
Qed.

(** Accumulation adds to the total of [a] every element of [b] that the
    second position list visits. *)
Lemma std_transform_total b as_ bs a a' :
  length as_ = length bs ->
  std_transform plus b as_ bs a = inr a' ->
  total a' = foldl plus (total a) (omap (fun q => b !! Z.to_nat q) bs).
Proof.
  revert bs a. induction as_ as [|p0 as_ IH]; intros [|q0 bs] a Hlen Ht;
    try discriminate; simpl in Ht.
  - by injection Ht as <-.
  - destruct (read a p0) as [|x0] eqn:Hrx; [discriminate|].
    destruct (read b q0) as [|y0] eqn:Hry; [discriminate|]. cbn [bind] in Ht.
    destruct (write a p0 (plus x0 y0)) as [|a1] eqn:Hw; [discriminate|]. cbn [bind] in Ht.
    apply read_inr in Hrx as [Hp0 Hx0]. apply read_inr in Hry as [Hq0 Hy0].
    apply write_inr in Hw as [_ ->].
    rewrite (IH bs _ ltac:(simpl in Hlen; lia) Ht).
    rewrite (total_insert _ _ _ _ Hx0). cbn [omap list_omap]. by rewrite Hy0.
Qed.

Lemma omap_lookup_seqZ b :
  omap (fun q => b !! Z.to_nat q) (seqZ 0 (Z.of_nat (length b))) = b.
Proof.
  induction b as [|x b IH] using rev_ind; [done|].
  rewrite length_app, Nat2Z.inj_add. simpl.
  rewrite seqZ_app by lia. rewrite omap_app. f_equal.
  - transitivity (omap (fun q => b !! Z.to_nat q) (seqZ 0 (Z.of_nat (length b))));
      [|exact IH].
    apply omap_ext_elem_of.
    intros q Hq. apply elem_of_seqZ in Hq. by rewrite lookup_app_l by lia.
  - change (seqZ (0 + Z.of_nat (length b)) (Z.of_nat 1))
      with [Z.of_nat 0 + (0 + Z.of_nat (length b))].
    cbn [omap list_omap]. rewrite !Z.add_0_l, Nat2Z.id.
    by rewrite list_lookup_middle.
Qed.

End Transform.

(** * [sum] *)

Lemma elem_of_erased d dim l m :
  (l, m) ∈ erased d dim <-> (l, m) ∈ d /\ l <> dim.
Proof. unfold erased. rewrite list_elem_of_filter. simpl. tauto. Qed.

Lemma in_box_erased d dim c : in_box d c -> in_box (erased d dim) c.
Proof. apply Forall_filter_2. Qed.

Lemma not_elem_of_labels_erased d dim : dim ∉ Dimensions.labels (erased d dim).
Proof. rewrite labels_erased, list_elem_of_filter. tauto. Qed.

Lemma elem_of_labels_erased d dim l :
  l ∈ Dimensions.labels (erased d dim) <-> l ∈ Dimensions.labels d /\ l <> dim.
Proof. rewrite labels_erased, list_elem_of_filter. tauto. Qed.

Lemma fits_erased d dim :
  NoDup (Dimensions.labels d) -> VariableView.fits d (erased d dim) = true.
Proof.
  intros Hnd. unfold VariableView.fits. apply forallb_forall. intros [l m] Hin.
  apply list_elem_of_In in Hin. simpl.
  destruct (decide (l = dim)) as [->|Hne].
  - rewrite size_not_contains; [done|]. apply contains_false, not_elem_of_labels_erased.
  - rewrite size_erased by done. rewrite (elem_of_size _ _ _ Hnd Hin). lia.
Qed.

Lemma fits_refl d : NoDup (Dimensions.labels d) -> VariableView.fits d d = true.
Proof.
  intros Hnd. unfold VariableView.fits. apply forallb_forall. intros [l m] Hin.
  apply list_elem_of_In in Hin. simpl. rewrite (elem_of_size _ _ _ Hnd Hin). lia.
Qed.

Lemma contains_dims_erased d dim :
  Dimensions.contains d dim = true ->
  Dimensions.contains_dims (erased d dim) d = false.
Proof.
  intros Hc. destruct (Dimensions.contains_dims (erased d dim) d) eqn:E; [|done].
  exfalso. unfold Dimensions.contains_dims in E.
  destruct (contains_size _ _ Hc) as [n Hn]. apply size_elem_of in Hn.
  pose proof (proj1 (forallb_forall _ _) E _ (proj1 (list_elem_of_In _ _) Hn)) as Hin.
  simpl in Hin. apply bool_decide_eq_true, elem_of_erased in Hin. tauto.
Qed.

Lemma omap_filter {A B} (P : A -> Prop) `{forall x, Decision (P x)}
    (g : A -> option B) (l : list A) :
  omap (fun x => if decide (P x) then g x else None) l = omap g (filter P l).
Proof.
  induction l as [|x l IH]; [done|]. rewrite filter_cons. cbn [omap list_omap].
  destruct (decide (P x)); cbn [omap list_omap]; by rewrite IH.
Qed.

Lemma omap_fmap {A B C} (g : B -> option C) (h : A -> B) (l : list A) :
  omap g (h <$> l) = omap (fun x => g (h x)) l.
Proof.
  induction l as [|x l IH]; [done|]. rewrite fmap_cons. cbn [omap list_omap].
  by rewrite IH.
Qed.

(** Positions in increasing order. *)
Lemma StronglySorted_seq (j n : nat) : StronglySorted lt (seq j n).
Proof.
  revert j. induction n as [|n IH]; intros j; simpl; constructor; [apply IH|].
  apply Forall_forall. intros i Hi%list_elem_of_In%in_seq. lia.
Qed.

Lemma StronglySorted_seqZ (m n : Z) : StronglySorted Z.lt (seqZ m n).
Proof.
  unfold seqZ. apply (StronglySorted_fmap _ lt); [lia | apply StronglySorted_seq].
Qed.

Lemma StronglySorted_filter {A} (R : relation A) (P : A -> Prop)
    `{forall x, Decision (P x)} (l : list A) :
  StronglySorted R l -> StronglySorted R (filter P l).
Proof.
  induction 1 as [|x l Hl IH Hx]; [constructor|]. rewrite filter_cons.
  destruct (decide (P x)); [|done]. constructor; [done|]. by apply Forall_filter_2.
Qed.

Lemma StronglySorted_zip_r {A} (xs : list A) (ys : list Z) :
  StronglySorted Z.lt ys ->
  StronglySorted (fun a b : A * Z => a.2 < b.2) (zip xs ys).
Proof.
  intros Hys. revert xs. induction Hys as [|y ys Hys IH Hy]; intros [|x xs]; simpl;
    try constructor; [apply IH|].
  apply Forall_forall. intros [x' y'] Hin%elem_of_zip_r. simpl.
  exact (proj1 (Forall_forall _ _) Hy _ Hin).
Qed.

(** The stride of [dim] is positive when the other extents are. *)
Lemma offset_pos d dim c : in_box (erased d dim) c -> 0 < Dimensions.offset d dim.
Proof.
  induction d as [|[l n] d IH]; simpl; [lia|]. unfold erased. rewrite filter_cons.
  simpl. destruct (decide (l = dim)) as [->|Hne].
  - rewrite decide_False by (intros ?; done). lia.
  - rewrite decide_True by done. intros [Hl Hc]%in_box_cons.
    specialize (IH Hc). nia.
Qed.

Section SumPositions.
Context (D : Dimensions.t) (dim : Dim.t) (n : Z).
Hypothesis HD : wf_dims D.
Hypothesis Hsize : Dimensions.size D dim = inr n.

Let E := erased D dim.

Lemma sum_box_update e k : in_box E e -> 0 <= k < n -> in_box D (update e dim k).
Proof.
  intros He Hk. apply Forall_forall. intros [l m] Hin. simpl. unfold update.
  destruct (decide (l = dim)) as [->|Hne].
  - assert (m = n) as ->; [|done].
    pose proof (elem_of_size _ _ _ (proj1 HD) Hin) as Hm. congruence.
  - assert ((l, m) ∈ E) as HinE by (by apply elem_of_erased).
    exact (proj1 (Forall_forall _ _) He _ HinE).
Qed.

Lemma sum_flat_erased c k : flat E (update c dim k) = flat E c.
Proof.
  apply flat_ext. intros l Hl. apply elem_of_labels_erased in Hl as [_ Hne].
  by apply update_ne.
Qed.

(** The pairs of positions that reach the cell [e] of the result are
    those of the elements of the operand along [dim] over [e]. *)
Lemma sum_pairs e :
  in_box E e ->
  filter (fun pq : Z * Z => Z.to_nat pq.1 = Z.to_nat (flat E e))
         (zip (VariableView.offsets 0 D E) (seqZ 0 (Dimensions.volume D)))
  ≡ₚ (fun k => (flat E e, flat D (update e dim k))) <$> seqZ 0 n.
Proof.
  intros He. pose proof (proj1 HD) as HndD. pose proof (proj1 (wf_erased D dim HD)) as HndE.
  fold E in HndE.
  apply NoDup_Permutation.
  - apply NoDup_filter, NoDup_zip_r, NoDup_seqZ.
  - apply NoDup_fmap_2_strong; [|apply NoDup_seqZ].
    intros k k' Hk Hk' [= Heq]. apply elem_of_seqZ in Hk, Hk'.
    pose proof (flat_inj D _ _ (sum_box_update e k He ltac:(lia))
                  (sum_box_update e k' He ltac:(lia)) Heq dim) as Hdim.
    rewrite !update_eq in Hdim. apply Hdim.
    apply contains_elem_of. by eapply size_contains.
  - intros [p q]. rewrite list_elem_of_filter, list_elem_of_fmap. simpl.
    rewrite <- (offsets_full D 0 HD).
    rewrite (elem_of_zip_offsets D E D 0 0 p q HndD HndE HndD). split.
    + intros (Hp & c & Hc & -> & ->). rewrite !Z.add_0_l in *.
      assert (flat E (restrict (Dimensions.labels D) c) = flat E c) as HEc.
      { apply flat_ext. intros l Hl. apply elem_of_labels_erased in Hl as [Hl _].
        unfold restrict. by rewrite decide_True. }
      assert (flat D (restrict (Dimensions.labels D) c) = flat D c) as HDc.
      { apply flat_ext. intros l Hl. unfold restrict. by rewrite decide_True. }
      rewrite HEc in *. rewrite HDc.
      pose proof (in_box_erased D dim c Hc) as HcE. fold E in HcE.
      pose proof (flat_bounds E c HcE) as Hb1. pose proof (flat_bounds E e He) as Hb2.
      assert (flat E c = flat E e) as Hflat by lia.
      pose proof (flat_inj E c e HcE He Hflat) as Hagree.
      exists (c dim). split.
      * f_equal; [done|]. apply flat_ext. intros l Hl. unfold update.
        destruct (decide (l = dim)) as [->|Hne]; [done|].
        apply Hagree. by apply elem_of_labels_erased.
      * apply elem_of_seqZ. pose proof (in_box_size D c dim n Hc Hsize). lia.
    + intros (k & [= -> ->] & Hk). apply elem_of_seqZ in Hk. split; [done|].
      exists (update e dim k). split; [apply sum_box_update; [done | lia]|].
      rewrite !Z.add_0_l. split.
      * rewrite <- (sum_flat_erased e k). apply flat_ext. intros l Hl.
        apply elem_of_labels_erased in Hl as [Hl _]. unfold restrict. by rewrite decide_True.
      * apply flat_ext. intros l Hl. unfold restrict. by rewrite decide_True.
Qed.

(** [std_transform] reaches them in the order of the index along [dim]. *)
Lemma sum_pairs_ordered e :
  in_box E e ->
  filter (fun pq : Z * Z => Z.to_nat pq.1 = Z.to_nat (flat E e))
         (zip (VariableView.offsets 0 D E) (seqZ 0 (Dimensions.volume D)))
  = (fun k => (flat E e, flat D (update e dim k))) <$> seqZ 0 n.
Proof.
  intros He.
  apply (StronglySorted_unique_strong (fun a b : Z * Z => a.2 < b.2)).
  - intros [p q] [p' q'] _ _; simpl. lia.
  - apply StronglySorted_filter, StronglySorted_zip_r, StronglySorted_seqZ.
  - apply (StronglySorted_fmap _ Z.lt); [|apply StronglySorted_seqZ].
    intros k k' Hk. simpl. rewrite !flat_update by apply HD.
    rewrite (size_contains _ _ _ Hsize).
    pose proof (offset_pos D dim e He). nia.
  - by apply sum_pairs.
Qed.

End SumPositions.

Section ApplySum.
Context {T : Type} `{Arithmetic T}.
Context (other : VariableConceptT T) (dim : Dim.t) (n : Z).
Hypothesis Hother : wf_model other.
Hypothesis Hsize : Dimensions.size (dimensions other) dim = inr n.

Let D := dimensions other.
Let E := erased D dim.
Let this : VariableConceptT T :=
  mkConcept E (replicate (Z.to_nat (Dimensions.volume E)) zero) None.

(** All paths of [apply] hand the same two ranges to the helper. *)
Lemma apply_sum_unfold helper :
  apply helper this other
  = helper this other (VariableView.offsets 0 D E) (seqZ 0 (Dimensions.volume D)).
Proof.
  destruct Hother as (Hview & HD & Hlen). fold D in HD, Hlen.
  assert (Dimensions.contains D dim = true) as Hc by (by eapply size_contains).
  assert (Dimensions.contains_dims E D = false) as Hcd
    by apply (contains_dims_erased D dim Hc).
  unfold apply. change (isContiguous this) with true. change (dimensions this) with E.
  change (dimensions other) with D. rewrite !Hcd. cbn [andb].
  assert (getView this D = inr (VariableView.offsets 0 D E)) as ->.
  { unfold getView, getView_const, VariableView.makeVariableView. simpl.
    unfold E. by rewrite fits_erased by apply HD. }
  assert (getSpan_const other = inr (seqZ 0 (Dimensions.volume D))) as ->.
  { unfold getSpan_const, size. rewrite Hview. by rewrite Hlen. }
  assert (getView_const other D = inr (seqZ 0 (Dimensions.volume D))) as ->.
  { unfold getView_const, VariableView.makeVariableView. rewrite Hview. fold D.
    rewrite fits_refl by apply HD. by rewrite offsets_full. }
  cbn [bind]. by destruct (_ && _).
Qed.

Lemma apply_sum_length :
  length (VariableView.offsets 0 D E) = length (seqZ 0 (Dimensions.volume D)).
Proof.
  destruct Hother as (_ & HD & _). fold D in HD.
  rewrite <- (offsets_full D 0 HD). apply length_zip_offsets.
Qed.

(** Every cell of the result holds the elements of the operand along
    [dim] over it, added to zero in the order of the index. *)
Lemma apply_sum :
  exists model,
    std_transform plus (m_model other) (VariableView.offsets 0 D E)
      (seqZ 0 (Dimensions.volume D)) (m_model this) = inr model
    /\ apply (ArithmeticHelper_apply plus) this other = inr (with_model this model)
    /\ Z.of_nat (length model) = Dimensions.volume E
    /\ (forall e, in_box E e ->
          model !! Z.to_nat (flat E e)
          = Some (foldl plus zero
                    (omap (fun k => m_model other !! Z.to_nat (flat D (update e dim k)))
                       (seqZ 0 n)))).
Proof.
  rewrite apply_sum_unfold. pose proof apply_sum_length as Hlength.
  destruct Hother as (Hview & HD & Hlen). fold D in HD, Hlen.
  pose proof (wf_erased D dim HD) as HE. fold E in HE.
  pose proof (volume_nonneg E HE) as HvE.
  destruct (std_transform_spec plus (m_model other) (VariableView.offsets 0 D E)
              (seqZ 0 (Dimensions.volume D)) (m_model this) Hlength)
    as (model & Ht & Hl & Hel).
  { intros p Hp. apply elem_of_offsets in Hp as (c & Hc & ->); [|apply HD|apply HE].
    simpl. rewrite length_replicate, Z2Nat.id by done.
    pose proof (flat_bounds E (restrict (Dimensions.labels D) c)) as Hb.
    rewrite Z.add_0_l. apply Hb. apply in_box_erased.
    eapply in_box_ext; [|exact Hc]. intros l Hl. unfold restrict. by rewrite decide_True. }
  { intros q Hq. apply elem_of_seqZ in Hq. lia. }
  exists model. split; [done|]. split; [|split].
  - unfold ArithmeticHelper_apply. by rewrite Ht.
  - rewrite Hl. simpl. rewrite length_replicate. lia.
  - intros e He. pose proof (flat_bounds E e He) as Hb.
    rewrite (Hel _ zero).
    2:{ simpl. apply lookup_replicate_2. lia. }
    f_equal. unfold contributions.
    rewrite (omap_filter (fun pq : Z * Z => Z.to_nat pq.1 = Z.to_nat (flat E e))
               (fun pq : Z * Z => m_model other !! Z.to_nat pq.2)).
    pose proof (sum_pairs_ordered D dim n HD Hsize e He) as Hpairs.
    fold E in Hpairs. rewrite Hpairs. by rewrite omap_fmap.
Qed.

(** Where the addition is associative and commutative, the elements of
    the result add up to what the elements of the operand add up to. *)
Lemma apply_sum_total `{!CommutativePlus T} model :
  std_transform plus (m_model other) (VariableView.offsets 0 D E)
    (seqZ 0 (Dimensions.volume D)) (m_model this) = inr model ->
  total model = total (m_model other).
Proof.
  intros Ht. destruct Hother as (Hview & HD & Hlen). fold D in HD, Hlen.
  rewrite (std_transform_total _ _ _ _ _ apply_sum_length Ht). simpl.
  rewrite total_replicate. rewrite <- Hlen. by rewrite omap_lookup_seqZ.
Qed.

End ApplySum.

Lemma erased_ne d dim : Dimensions.contains d dim = true -> erased d dim <> d.
Proof.
  intros Hc Heq. apply contains_elem_of in Hc. rewrite <- Heq in Hc.
  by apply not_elem_of_labels_erased in Hc.
Qed.

(** The sum of the elements [f k] as an [Element]. *)
Lemma sum_from_double (f : Z -> option double) (l : list Z) (s : double) :
  (forall k, k ∈ l -> is_Some (f k)) ->
  foldl (fun acc k => Element_add acc (Element_double <$> f k)) (Some (Element_double s)) l
  = Some (Element_double (foldl plus s (omap f l))).
Proof.
  revert s. induction l as [|k l IH]; intros s Hin; [done|].
  destruct (Hin k ltac:(left)) as [x Hx].
  cbn [foldl omap list_omap]. rewrite Hx. cbn [fmap option_fmap option_map Element_add].
  apply IH. intros; apply Hin; by right.
Qed.

Lemma sum_from_int64 (f : Z -> option Z) (l : list Z) (s : Z) :
  (forall k, k ∈ l -> is_Some (f k)) ->
  foldl (fun acc k => Element_add acc (Element_int64 <$> f k)) (Some (Element_int64 s)) l
  = Some (Element_int64 (foldl plus s (omap f l))).
Proof.
  revert s. induction l as [|k l IH]; intros s Hin; [done|].
  destruct (Hin k ltac:(left)) as [x Hx].
  cbn [foldl omap list_omap]. rewrite Hx. cbn [fmap option_fmap option_map Element_add].
  apply IH. intros; apply Hin; by right.
Qed.

Lemma sum_over_double (f : Z -> option double) (n : Z) :
  (forall k, 0 <= k < n -> is_Some (f k)) ->
  sum_over dtype_double (fun k => Element_double <$> f k) n
  = Some (Element_double (foldl plus zero (omap f (seqZ 0 n)))).
Proof.
  intros Hf. apply sum_from_double. intros k Hk%elem_of_seqZ. apply Hf. lia.
Qed.

Lemma sum_over_int64 (f : Z -> option Z) (n : Z) :
  (forall k, 0 <= k < n -> is_Some (f k)) ->
  sum_over dtype_int64 (fun k => Element_int64 <$> f k) n
  = Some (Element_int64 (foldl plus zero (omap f (seqZ 0 n)))).
Proof.
  intros Hf. apply sum_from_int64. intros k Hk%elem_of_seqZ. apply Hf. lia.
Qed.

Lemma element_is_Some {T} (c : VariableConceptT T) x :
  wf_model c -> in_box (dimensions c) x -> is_Some (element c x).
Proof.
  intros (_ & _ & Hlen) Hx. apply lookup_lt_is_Some_2.
  pose proof (flat_bounds _ _ Hx). lia.
Qed.

(** The steps of [sum] for one numeric element type. *)
Ltac sum_numeric c Hwf Hs Hc HD :=
  destruct (apply_sum c _ _ Hwf Hs) as (model & Ht & Happly & Hlen & Hel);
  pose proof Hwf as (Hview & _ & _); simpl in Happly;
  eexists; eexists; split;
  [ unfold setDimensions; simpl;
    rewrite eqb_erased by done;
    unfold Concept.cloneT; rewrite Hview; reflexivity |];
  split;
  [ intros e He; pose proof (flat_bounds _ _ He) as Hb;
    unfold var_element, var_dimensions in *; simpl in *; unfold element; simpl;
    rewrite lookup_replicate_2 by lia; reflexivity |];
  split;
  [ unfold sum, var_dimensions; cbn [m_object Concept.dimensions];
    rewrite (erased_erase _ _ (proj1 HD) Hc); cbn [bind];
    unfold setDimensions; simpl;
    rewrite eqb_erased by done;
    unfold Concept.cloneT; rewrite Hview; cbn [bind ret]; simpl;
    unfold Op_fun; rewrite Happly; reflexivity |];
  split; [ split; [done|]; split; [by apply wf_erased | done] |];
  split; [ simpl; apply erased_erase; [apply HD | done] |];
  split; [done|]; split; [done|]; split; [done|]; split; [done|]; split; [done|];
  split.

(** The totals of the two sums of the Variable with the dimensions
    [{Y:2, X:2}] and the values [[1e16, 1], [-1e16, 1]] of type [double]
    differ: summed over [X] the elements are [1e16] and [-1e16], which add
    up to 0; summed over [Y] they are 0 and 2, which add up to 2; the
    elements of the Variable itself add up to 1 in the order of its
    buffer. *)
Lemma sum_of_doubles_changes_total :
  exists over_x over_y,
    sum sample_cancelling Dim.X = inr over_x
    /\ sum sample_cancelling Dim.Y = inr over_y
    /\ var_total over_x = Some (Element_double 0)
    /\ var_total over_y = Some (Element_double 2)
    /\ var_total sample_cancelling = Some (Element_double 1).
Proof. do 2 eexists. repeat split; vm_compute; reflexivity. Qed.

(** What [sum] returns. *)
Lemma sum_elements (v : variable) (dim : Dim.t) (n : Z) :
  wf_variable v -> dtype (m_object v) <> dtype_string ->
  Dimensions.size (var_dimensions v) dim = inr n ->
  let E := erased (var_dimensions v) dim in
  exists zeros out,
    setDimensions v E = inr zeros
    /\ (forall e, in_box E e -> var_element zeros e = Element_zero (dtype (m_object v)))
    /\ sum v dim = inr out
    /\ wf_variable out
    /\ Dimensions.erase (var_dimensions v) dim = inr (var_dimensions out)
    /\ var_dimensions out = E
    /\ m_unit out = m_unit v /\ m_tag out = m_tag v /\ m_name out = m_name v
    /\ dtype (m_object out) = dtype (m_object v)
    /\ (forall e, in_box E e ->
          var_element out e
          = sum_over (dtype (m_object v)) (fun k => var_element v (update e dim k)) n)
    /\ (dtype (m_object v) = dtype_int64 -> var_total out = var_total v).
Proof.
  intros Hwf Hkind Hs. cbv zeta.
  pose proof (wf_variable_dims v Hwf) as HD.
  assert (Dimensions.contains (var_dimensions v) dim = true) as Hc
    by (by eapply size_contains).
  destruct v as [tag unit name [c|c|c]]; [| |done]; unfold wf_variable in Hwf;
    unfold var_dimensions in *; simpl in *.
  - sum_numeric c Hwf Hs Hc HD; [|done].
    intros e He. unfold var_element. simpl. unfold element. simpl. rewrite (Hel e He).
    symmetry. apply (sum_over_double (fun k => m_model c !! Z.to_nat (flat (dimensions c) (update e dim k)))).
    intros k Hk. apply (element_is_Some c _ Hwf). by eapply sum_box_update.
  - sum_numeric c Hwf Hs Hc HD.
    + intros e He. unfold var_element. simpl. unfold element. simpl. rewrite (Hel e He).
      symmetry. apply (sum_over_int64 (fun k => m_model c !! Z.to_nat (flat (dimensions c) (update e dim k)))).
      intros k Hk. apply (element_is_Some c _ Hwf). by eapply sum_box_update.
    + intros _. unfold var_total. simpl.
      by rewrite (apply_sum_total c dim Hwf model Ht).
Qed.


(** C7: for a numeric Variable [v] with [dim] among its dimensions,
    [sum(v, dim)] first makes a buffer of zeros with the dimensions of [v]
    without [dim], and returns a Variable with those dimensions and the
    tag, unit and name of [v], in which every element is the sum of the
    elements of [v] along [dim] over it, added to zero in the order of
    the index along [dim] in the arithmetic of the element type ([double],
    or [int64] with wrap-around).  For the element type [int64] the sum of
    all elements of the result is that of [v]; for [double] it need not
    be, as the additions are rounded. *)
Theorem sum_spec (v : variable) (dim : Dim.t) (n : Z) :
  wf_variable v -> dtype (m_object v) <> dtype_string ->
  Dimensions.size (var_dimensions v) dim = inr n ->
  let E := erased (var_dimensions v) dim in
  exists zeros out,
    setDimensions v E = inr zeros
    /\ (forall e, in_box E e -> var_element zeros e = Element_zero (dtype (m_object v)))
    /\ sum v dim = inr out
    /\ wf_variable out
    /\ Dimensions.erase (var_dimensions v) dim = inr (var_dimensions out)
    /\ var_dimensions out = E
    /\ m_unit out = m_unit v /\ m_tag out = m_tag v /\ m_name out = m_name v
    /\ (forall e, in_box E e ->
          var_element out e
          = sum_over (dtype (m_object v)) (fun k => var_element v (update e dim k)) n)
    /\ (dtype (m_object v) = dtype_int64 -> var_total out = var_total v).
Proof.
  intros Hwf Hkind Hs. cbv zeta.
  destruct (sum_elements v dim n Hwf Hkind Hs)
    as (zeros & out & Hz & Hzero & Hsum & Hwfo & He & Hd & Hu & Ht & Hn & _ & Hel & Htot).
  exists zeros, out. repeat split; done.
Qed.

Lemma sum_spec_witness :
  wf_variable sample_int_grid
  /\ dtype (m_object sample_int_grid) <> dtype_string
  /\ Dimensions.size (var_dimensions sample_int_grid) Dim.X = inr 2
  /\ exists out, sum sample_int_grid Dim.X = inr out
       /\ var_dimensions out = [(Dim.Y, 2)]
       /\ var_total out = var_total sample_int_grid.
Proof.
  assert (wf_variable sample_int_grid) as Hwf by solve_wf.
  assert (dtype (m_object sample_int_grid) <> dtype_string) as Hkind by discriminate.
  split; [exact Hwf|]. split; [exact Hkind|]. split; [reflexivity|].
  destruct (sum_spec sample_int_grid Dim.X 2 Hwf Hkind eq_refl)
    as (zeros & out & _ & _ & Hsum & _ & _ & Hdims & _ & _ & _ & _ & Htotal).
  exists out. split; [exact Hsum|]. split; [exact Hdims | exact (Htotal eq_refl)].
Defined.

(** * Dimensions that contain others *)

Lemma fits_forall (target parent : Dimensions.t) :
  VariableView.fits target parent = true
  <-> forall l n m, (l, n) ∈ target -> Dimensions.size parent l = inr m -> n <= m.
Proof.
  unfold VariableView.fits. rewrite forallb_forall. split.
  - intros H l n m Hin Hs. specialize (H (l, n)). cbn [fst snd] in H.
    rewrite Hs in H. apply Z.leb_le, H. by apply list_elem_of_In.
  - intros H [l n] Hin%list_elem_of_In. cbn [fst snd].
    destruct (Dimensions.size parent l) as [e|m] eqn:Hs; [done|].
    apply Z.leb_le. by eapply H.
Qed.

Lemma contains_dims_elem_of (D O : Dimensions.t) :
  Dimensions.contains_dims D O = true <-> forall p, p ∈ O -> p ∈ D.
Proof.
  unfold Dimensions.contains_dims. rewrite forallb_forall. split.
  - intros H p Hp. eapply bool_decide_eq_true_1. apply H. by apply list_elem_of_In.
  - intros H p Hp%list_elem_of_In. apply bool_decide_eq_true_2. by apply H.
Qed.

Lemma contains_dims_labels (D O : Dimensions.t) l :
  Dimensions.contains_dims D O = true ->
  l ∈ Dimensions.labels O -> l ∈ Dimensions.labels D.
Proof.
  intros H Hl. unfold Dimensions.labels in *.
  apply list_elem_of_fmap in Hl as ([l' m] & -> & Hin).
  apply list_elem_of_fmap. exists (l', m). split; [done|].
  by apply (proj1 (contains_dims_elem_of D O) H).
Qed.

Lemma contains_dims_size (D O : Dimensions.t) l m :
  NoDup (Dimensions.labels D) ->
  Dimensions.contains_dims D O = true ->
  Dimensions.size O l = inr m -> Dimensions.size D l = inr m.
Proof.
  intros HD H Hs. apply elem_of_size; [done|].
  apply (proj1 (contains_dims_elem_of D O) H). by apply size_elem_of.
Qed.

Lemma contains_dims_in_box (D O : Dimensions.t) c :
  Dimensions.contains_dims D O = true -> in_box D c -> in_box O c.
Proof.
  intros H Hc. apply Forall_forall. intros p Hp.
  apply (proj1 (Forall_forall _ _) Hc). by apply (proj1 (contains_dims_elem_of D O) H).
Qed.

Lemma contains_dims_fits (D O : Dimensions.t) :
  NoDup (Dimensions.labels D) ->
  Dimensions.contains_dims D O = true -> VariableView.fits D O = true.
Proof.
  intros HD H. apply fits_forall. intros l n m Hin Hs.
  apply (contains_dims_size D O l m HD H) in Hs.
  apply (elem_of_size _ _ _ HD) in Hin. rewrite Hin in Hs. injection Hs as ->. lia.
Qed.

(** An operand that is contained in [D] and of which [D] is a contiguous
    block has the dimensions [D]. *)
Lemma contains_contiguous_eq (D O : Dimensions.t) :
  NoDup (Dimensions.labels D) -> NoDup (Dimensions.labels O) ->
  Dimensions.contains_dims D O = true ->
  Dimensions.isContiguousIn D O = true -> D = O.
Proof.
  intros HD HO H Hcont. apply isContiguousIn_prefix in Hcont as Hpre.
  assert (Dimensions.labels D = Dimensions.labels O) as Hlab.
  { apply prefix_length_eq; [done|].
    apply submseteq_length, NoDup_submseteq; [done|].
    intros l. by apply contains_dims_labels. }
  apply dims_ext; [done | done|].
  intros l. destruct (Dimensions.size O l) as [e|m] eqn:Hs.
  - destruct (Dimensions.contains O l) eqn:Hc.
    { apply contains_size in Hc as [m Hm]. congruence. }
    rewrite size_not_contains in Hs by done. injection Hs as <-.
    apply size_not_contains, contains_false. rewrite Hlab. by apply contains_false.
  - by apply (contains_dims_size D O).
Qed.

Lemma perm_contains_dims (D O : Dimensions.t) :
  D ≡ₚ O -> Dimensions.contains_dims D O = true.
Proof. intros H. apply contains_dims_elem_of. intros p Hp. by rewrite H. Qed.

(** Lists of the same dimensions in different orders: one is a contiguous
    block of the other only if the orders are the same. *)
Lemma perm_contiguous_eq (D O : Dimensions.t) :
  NoDup (Dimensions.labels D) -> D ≡ₚ O ->
  Dimensions.isContiguousIn D O = true -> D = O.
Proof.
  intros HD H. apply contains_contiguous_eq; [done | | by apply perm_contains_dims].
  by rewrite <- (perm_labels D O H).
Qed.

Lemma perm_flat_restrict (D O : Dimensions.t) c :
  D ≡ₚ O -> flat O (restrict (Dimensions.labels D) c) = flat O c.
Proof.
  intros H. apply flat_ext. intros l Hl. unfold restrict.
  rewrite decide_True; [done|]. by rewrite (perm_labels D O H).
Qed.

(** * In-place arithmetic and failure *)

Section InPlaceFailure.
Context {V1 V2 : Type} `{MutableOperand V1} `{Operand V2}.

Lemma apply_data_failure op (a a' : V1) (b : V2) e :
  apply_data op a b = (a', Some e) -> a' = a.
Proof. unfold apply_data. destruct (Concept.apply _ _ _); by intros [= <-]. Qed.

(** [+=] and [-=] make all their checks before the only write. *)
Lemma plus_equals_failure (a a' : V1) (b : V2) e :
  plus_equals a b = Some (a', Some e) -> a' = a.
Proof.
  unfold plus_equals. repeat case_match; try (by intros [= <-]).
  intros [= Ha]. by eapply apply_data_failure.
Qed.

Lemma minus_equals_failure (a a' : V1) (b : V2) e :
  minus_equals a b = (a', Some e) -> a' = a.
Proof.
  unfold minus_equals. repeat case_match; try (by intros [= <-]).
  apply apply_data_failure.
Qed.

(** [*=] has set the unit when the operation on the data begins. *)
Lemma times_equals_failure (a a' : V1) (b : V2) e :
  times_equals a b = (a', Some e) ->
  a' = a \/ set_unit a (Unit.mul (unit_of a) (unit_of b)) = inr a'.
Proof.
  unfold times_equals. repeat case_match; try (intros [= <-]; by left).
  intros Ha. apply apply_data_failure in Ha as ->. by right.
Qed.

End InPlaceFailure.

(** For operands of different element types [*=] ends with the exception
    of [apply] and with the product of the units in the left operand. *)
Lemma times_equals_kind_mismatch (a b : variable) :
  Dimensions.contains_dims (var_dimensions a) (var_dimensions b) = true ->
  m_tag a <> Tag.Data_Events ->
  dtype (m_object a) <> dtype (m_object b) ->
  times_equals a b
  = (setUnit a (Unit.mul (m_unit a) (m_unit b)),
     Some (runtime_error "Cannot apply arithmetic operation to Variables: Underlying data types do not match.")).
Proof.
  intros Hc Ht Hk. unfold times_equals, valueTypeIs. simpl. rewrite Hc. simpl.
  rewrite bool_decide_eq_false_2 by done. unfold apply_data. simpl.
  destruct (m_object a), (m_object b); simpl in *; done.
Qed.

(** C2: [a *= b] for [a] of element type [double] with the unit [m] and
    [b] of element type [int64] with the unit [s], both with the dimensions
    [{X:1}]: the call ends with the exception for the element types, and
    the unit of [a] is then [m * s], not [m]; the dimensions and the
    elements of [a] are as before. *)
Theorem times_equals_unit_written_before_failure :
  exists a',
    times_equals sample_metres sample_seconds
    = (a', Some (runtime_error "Cannot apply arithmetic operation to Variables: Underlying data types do not match."))
    /\ m_unit sample_metres = Unit.m
    /\ m_unit a' = Unit.mul Unit.m Unit.s
    /\ m_unit a' <> m_unit sample_metres
    /\ m_object a' = m_object sample_metres.
Proof.
  eexists. split; [reflexivity|]. repeat split. discriminate.
Qed.

(** * Empty slices and zero-volume operands *)

Lemma validSlice_empty dims d b n :
  Dimensions.size dims d = inr n ->
  validSlice dims (mkSliceDesc d b b)
  = if decide (0 <= b < n) then inr tt else inl SliceError.
Proof.
  intros Hs. unfold validSlice. simpl. rewrite (size_contains _ _ _ Hs), Hs. simpl.
  destruct (Z.ltb_spec b 0); simpl.
  - by rewrite decide_False by lia.
  - rewrite (proj2 (Z.leb_le 0 b)) by done.
    destruct (Z.leb_spec (Z.min (b + 1) n) b); simpl.
    + by rewrite decide_False by lia.
    + destruct (Z.ltb_spec n b); simpl.
      * by rewrite decide_False by lia.
      * by rewrite decide_True by lia.
Qed.

Lemma volume_resized_zero D d :
  Dimensions.contains D d = true -> Dimensions.volume (resized D d 0) = 0.
Proof.
  induction D as [|[l m] D IH]; [done|]. simpl.
  destruct (decide (l = d)) as [->|Hne]; simpl.
  - intros _. lia.
  - intros Hc. rewrite (IH Hc). lia.
Qed.

Lemma volume_zero_shape D :
  Dimensions.volume D = 0 -> 0 ∈ Dimensions.shape D.
Proof.
  induction D as [|[l m] D IH]; simpl; [lia|]. intros Hv.
  destruct (decide (m = 0)) as [->|Hm]; [left|].
  right. apply IH. nia.
Qed.

Lemma indices_zero shape : 0 ∈ shape -> VariableView.indices shape = [].
Proof.
  induction shape as [|m shape IH]; intros Hin; [by inversion Hin|].
  cbn [VariableView.indices]. apply elem_of_cons in Hin as [<-|Hin].
  - clear IH. induction (VariableView.indices shape) as [|o os IHo]; [done|].
    change ((o :: os) ≫= (fun o0 : list Z => (fun i : Z => i :: o0) <$> seqZ 0 0))
      with (os ≫= (fun o0 : list Z => (fun i : Z => i :: o0) <$> seqZ 0 0)).
    exact IHo.
  - by rewrite (IH Hin).
Qed.

Lemma offsets_zero base target parent :
  0 ∈ Dimensions.shape target -> VariableView.offsets base target parent = [].
Proof. intros Hz. unfold VariableView.offsets. by rewrite indices_zero. Qed.

Section ApplyEmpty.
Context {T : Type} (op : T -> T -> T).

Lemma with_model_id (c : VariableConceptT T) : with_model c (m_model c) = c.
Proof. by destruct c. Qed.

Lemma helper_empty (this other : VariableConceptT T) bs r :
  ArithmeticHelper_apply op this other [] bs = inr r -> r = this.
Proof.
  unfold ArithmeticHelper_apply. cbn [std_transform bind ret]. intros [= <-].
  apply with_model_id.
Qed.

(** No cell is visited when the left operand has an extent 0. *)
Lemma apply_empty helper (this other : VariableConceptT T) r :
  (forall bs r, helper this other [] bs = inr r -> r = this) ->
  0 ∈ Dimensions.shape (dimensions this) ->
  (m_view this = None -> m_model this = []) ->
  Dimensions.contains_dims (dimensions this) (dimensions other) = true ->
  apply helper this other = inr r -> r = this.
Proof.
  intros helper_empty' Hz Hown Hc. unfold apply. rewrite Hc, !andb_true_r.
  assert (forall a, getSpan this = inr a -> a = []) as Hspan.
  { intros a. unfold getSpan, getSpan_const, size.
    destruct (m_view this) as [info|] eqn:Hv.
    - intros Ha. apply bind_inr in Ha as (_ & _ & Ha).
      apply bind_inr in Ha as (_ & _ & [= <-]).
      assert (Dimensions.volume (dimensions this) = 0) as ->; [|done].
      clear -Hz. induction (dimensions this) as [|[l m] D IH]; [by inversion Hz|].
      simpl in *. apply elem_of_cons in Hz as [<-|Hz]; [lia|]. rewrite (IH Hz). lia.
    - intros [= <-]. by rewrite (Hown eq_refl). }
  assert (forall a, getView this (dimensions this) = inr a -> a = []) as Hview.
  { intros a. unfold getView, getView_const, VariableView.makeVariableView.
    destruct (m_view this) as [info|].
    - intros Ha. apply bind_inr in Ha as (_ & _ & Ha).
      destruct (VariableView.fits _ _); [|done]. injection Ha as <-. by apply offsets_zero.
    - destruct (VariableView.fits _ _); [|done]. intros [= <-]. by apply offsets_zero. }
  destruct (isContiguous this).
  - destruct (getSpan this) as [e|a] eqn:Ha.
    { by destruct (_ && _). }
    rewrite (Hspan a eq_refl). cbn [bind].
    destruct (_ && _).
    + destruct (getSpan_const other); [done|]. apply helper_empty'.
    + destruct (getView_const other _); [done|]. apply helper_empty'.
  - destruct (getView this (dimensions this)) as [e|a] eqn:Ha.
    { by destruct (_ && _). }
    rewrite (Hview a eq_refl). cbn [bind].
    destruct (_ && _).
    + destruct (getSpan_const other); [done|]. apply helper_empty'.
    + destruct (getView_const other _); [done|]. apply helper_empty'.
Qed.

End ApplyEmpty.


Lemma Concept_apply_empty op (this other : VariableConcept) r :
  empty_operand this ->
  Dimensions.contains_dims (Concept.dimensions this) (Concept.dimensions other) = true ->
  Concept.apply op this other = inr r -> r = this.
Proof.
  intros [Hz Hown] Hc.
  destruct this as [a|a|a], other as [b|b|b]; simpl in *; try done;
    intros Hr; apply bind_inr in Hr as (c & Hr & [= <-]); f_equal;
    (eapply apply_empty; [| exact Hz | exact Hown | exact Hc | exact Hr]).
  - intros bs r. apply helper_empty.
  - intros bs r. apply helper_empty.
  - intros bs r. discriminate.
Qed.

Section InPlaceEmpty.
Context {V1 V2 : Type} `{MutableOperand V1} `{Operand V2}.
Context (a : V1) (b : V2).
Hypothesis Hempty : empty_operand (data_of a).
Hypothesis Hdims_a : dimensions_of a = Concept.dimensions (data_of a).
Hypothesis Hdims_b : dimensions_of b = Concept.dimensions (data_of b).
Hypothesis Hset : set_data a (data_of a) = a.

Lemma apply_data_empty op a' e :
  Dimensions.contains_dims (dimensions_of a) (dimensions_of b) = true ->
  apply_data op a b = (a', e) -> a' = a.
Proof.
  intros Hc. unfold apply_data.
  destruct (Concept.apply op (data_of a) (data_of b)) as [err|obj] eqn:Happly.
  - by intros [= <- _].
  - rewrite Hdims_a, Hdims_b in Hc.
    rewrite (Concept_apply_empty _ _ _ _ Hempty Hc Happly), Hset. by intros [= <- _].
Qed.

Lemma plus_equals_empty a' e : plus_equals a b = Some (a', e) -> a' = a.
Proof.
  unfold plus_equals. repeat case_match; try (by intros [= <- _]).
  intros [= Ha]. by eapply apply_data_empty.
Qed.

Lemma minus_equals_empty a' e : minus_equals a b = (a', e) -> a' = a.
Proof.
  unfold minus_equals. repeat case_match; try (by intros [= <- _]).
  by apply apply_data_empty.
Qed.

End InPlaceEmpty.

Section TimesEmpty.
Context {V1 V2 : Type} `{MutableOperand V1} `{Operand V2}.

Lemma times_equals_empty (a : V1) (b : V2) a' e :
  empty_operand (data_of a) ->
  dimensions_of a = Concept.dimensions (data_of a) ->
  dimensions_of b = Concept.dimensions (data_of b) ->
  (forall u a1, set_unit a u = inr a1 ->
     data_of a1 = data_of a /\ dimensions_of a1 = dimensions_of a
     /\ set_data a1 (data_of a1) = a1) ->
  times_equals a b = (a', e) ->
  a' = a \/ set_unit a (Unit.mul (unit_of a) (unit_of b)) = inr a'.
Proof.
  intros Hempty Hda Hdb Hunit. unfold times_equals.
  destruct (negb (Dimensions.contains_dims _ _)) eqn:Hc; [intros [= <- _]; by left|].
  destruct (valueTypeIs a Tag.Data_Events); [intros [= <- _]; by left|].
  destruct (set_unit a _) as [err|a1] eqn:Hset; [intros [= <- _]; by left|].
  destruct (Hunit _ _ Hset) as (Hdata & Hdims & Hsetd).
  intros Happly. right. f_equal. symmetry.
  eapply (apply_data_empty a1 b); try exact Happly; try done.
  - by rewrite Hdata.
  - by rewrite Hdims, Hda, Hdata.
  - rewrite Hdims. by apply negb_false_iff in Hc.
Qed.

End TimesEmpty.

Lemma shape_resized_zero D d :
  Dimensions.contains D d = true -> 0 ∈ Dimensions.shape (resized D d 0).
Proof.
  induction D as [|[l m] D IH]; [done|]. intros Hc.
  unfold resized, Dimensions.shape in *. rewrite !fmap_cons. cbn [fst snd].
  simpl in Hc. destruct (decide (l = d)); [left | right; by apply IH].
Qed.

(** The view [(d, b, b)] of an owning Variable. *)
Lemma Variable_slice_empty const v d b n :
  wf_variable v -> Dimensions.size (var_dimensions v) d = inr n ->
  0 <= b -> b <= n ->
  exists s, Variable_slice const v (mkSliceDesc d b b) = inr s
    /\ m_variable s = v
    /\ Concept.dimensions (m_viewModel s) = resized (var_dimensions v) d 0
    /\ Concept.isView (m_viewModel s) = true
    /\ dtype (m_viewModel s) = dtype (m_object v)
    /\ ConceptView.write_back (m_object v) (m_viewModel s) = m_object v
    /\ empty_operand (m_viewModel s).
Proof.
  intros Hwf Hs Hb Hbn. pose proof (wf_variable_dims v Hwf) as HD.
  pose proof (size_contains _ _ _ Hs) as Hc.
  assert (forall T (c : VariableConceptT T),
    wf_model c -> dimensions c = var_dimensions v ->
    makeView_slice c d b b const
    = inr (mkConcept (resized (var_dimensions v) d 0) (m_model c)
             (Some (mkViewInfo (var_dimensions v)
                      (b * Dimensions.offset (var_dimensions v) d)
                      (const || false))))) as Hview.
  { intros T c (Hv & _ & _) Hd. unfold makeView_slice. rewrite Hd.
    destruct (Z.eqb_spec b (-1)) as [|_]; [lia|]. rewrite Z.sub_diag.
    rewrite resized_resize by (done || apply HD || lia). cbn [bind].
    unfold getView_at_const, isConstView. rewrite Hv, Hd, Hc.
    unfold VariableView.makeVariableView.
    rewrite (fits_resized _ _ 0 n) by (done || apply HD || lia).
    by cbn [bind]. }
  unfold Variable_slice, Variable_call. simpl.
  destruct v as [tag unit name [c|c|c]]; unfold wf_variable, var_dimensions in *;
    simpl in *; rewrite (Hview _ c Hwf eq_refl); cbn [bind ret];
    (eexists; split; [reflexivity|]); simpl;
    (split; [done|]); (split; [done|]); (split; [done|]); (split; [done|]);
    (split; [by destruct c|]);
    (split; [by apply shape_resized_zero | done]).
Qed.

Lemma Variable_from_proxy_empty s :
  Dimensions.volume (Concept.dimensions (m_viewModel s)) = 0 ->
  exists r, Variable_from_proxy s = inr r
    /\ var_dimensions r = Concept.dimensions (m_viewModel s)
    /\ Concept.isView (m_object r) = false
    /\ Concept.size (m_object r) = 0.
Proof.
  intros Hv. unfold Variable_from_proxy.
  assert (var_dimensions
            (mkVariable (m_tag (m_variable s)) (m_unit (m_variable s))
               (m_name (m_variable s))
               (makeDefaultFromParent (m_viewModel s)
                  (Concept.dimensions (m_viewModel s))))
          = Concept.dimensions (m_viewModel s)) as Hd.
  { unfold var_dimensions. simpl. by destruct (m_viewModel s). }
  rewrite Hd, Hv. simpl. eexists. split; [reflexivity|]. split; [done|].
  unfold makeDefaultFromParent. rewrite Hv.
  by destruct (m_viewModel s).
Qed.

(** A partial view whose unit is to change raises; otherwise the unit of
    the Variable is written with the value it has. *)
Lemma VariableSlice_setUnit_partial s u s' :
  Dimensions.eqb (Concept.dimensions (m_viewModel s)) (var_dimensions (m_variable s)) = false ->
  VariableSlice_setUnit s u = inr s' -> s' = s.
Proof.
  intros Hd. unfold VariableSlice_setUnit. rewrite Hd, andb_true_r.
  destruct (bool_decide_reflect (m_unit (m_variable s) = u)) as [<-|]; [|done].
  intros [= <-]. destruct s as [[tag unit name object] view]. reflexivity.
Qed.

Lemma variable_set_data_id (a : variable) : with_object a (m_object a) = a.
Proof. by destruct a. Qed.




(** * Equality of Variables *)

Section Equal.
Context {T : Type} (eqb : T -> T -> bool).

Lemma std_equal_spec (a b : list T) (as_ bs : list Z) :
  length as_ = length bs ->
  (forall p, p ∈ as_ -> 0 <= p < Z.of_nat (length a)) ->
  (forall q, q ∈ bs -> 0 <= q < Z.of_nat (length b)) ->
  exists r, std_equal eqb a b as_ bs = inr r
    /\ (r = true <->
        forall p q, (p, q) ∈ zip as_ bs ->
          exists x y, a !! Z.to_nat p = Some x /\ b !! Z.to_nat q = Some y
                      /\ eqb x y = true).
Proof.
  revert bs. induction as_ as [|p0 as_ IH]; intros [|q0 bs] Hlen Ha Hb; try discriminate.
  - exists true. split; [done|]. split; [|done]. intros _ p q Hin. by inversion Hin.
  - destruct (read_lookup a p0) as (x0 & Hrx & Hx0); [apply Ha; left|].
    destruct (read_lookup b q0) as (y0 & Hry & Hy0); [apply Hb; left|].
    destruct (IH bs) as (r & Hr & Hiff).
    { simpl in Hlen. lia. }
    { intros p Hp. apply Ha. by right. }
    { intros q Hq. apply Hb. by right. }
    simpl. rewrite Hrx, Hry. cbn [bind]. destruct (eqb x0 y0) eqn:Heq.
    + exists r. split; [done|]. rewrite Hiff. split.
      * intros Hall p q Hin. apply elem_of_cons in Hin as [[= -> ->]|Hin]; [|by apply Hall].
        by exists x0, y0.
      * intros Hall p q Hin. apply Hall. by right.
    + exists false. split; [done|]. split; [done|]. intros Hall.
      destruct (Hall p0 q0 ltac:(left)) as (x & y & Hx & Hy & Hxy). congruence.
Qed.

(** [==] of two owning models with the same dimensions in any order
    compares the elements position by position: the right operand is read
    at the positions of the left one. *)
Lemma equals_concept_spec (a b : VariableConceptT T) :
  wf_model a -> wf_model b -> dimensions a ≡ₚ dimensions b ->
  exists r, equals_concept eqb a b = inr r
    /\ (r = true <->
        forall c, in_box (dimensions a) c ->
          exists x y, element a c = Some x /\ element b c = Some y /\ eqb x y = true).
Proof.
  intros (Hva & HD & Hla) (Hvb & HO & Hlb) Hd.
  pose proof (perm_volume _ _ Hd) as Hvol.
  unfold equals_concept. rewrite (proj2 (eqb_perm _ _) Hd). cbn [negb].
  unfold isContiguous. rewrite Hva, Hvb. cbn [andb].
  unfold getSpan_const, size. rewrite Hva, Hvb. cbn [bind]. rewrite Hla, Hlb.
  assert (forall bs,
    bs = VariableView.offsets 0 (dimensions a) (dimensions b) ->
    exists r, std_equal eqb (m_model a) (m_model b)
                (seqZ 0 (Dimensions.volume (dimensions a))) bs = inr r
      /\ (r = true <->
          forall c, in_box (dimensions a) c ->
            exists x y, element a c = Some x /\ element b c = Some y /\ eqb x y = true))
    as Hmain.
  { intros bs ->. rewrite <- (offsets_full (dimensions a) 0 HD).
    destruct (std_equal_spec (m_model a) (m_model b)
                (VariableView.offsets 0 (dimensions a) (dimensions a))
                (VariableView.offsets 0 (dimensions a) (dimensions b)))
      as (r & Hr & Hiff); [apply length_zip_offsets | | |].
    { intros p Hp. apply elem_of_offsets in Hp as (c & Hc & ->); [|apply HD|apply HD].
      rewrite Hla, Z.add_0_l. apply flat_bounds.
      eapply in_box_ext; [|exact Hc]. intros l Hl. unfold restrict. by rewrite decide_True. }
    { intros p Hp. apply elem_of_offsets in Hp as (c & Hc & ->); [|apply HD|apply HO].
      rewrite Hlb, Z.add_0_l, (perm_flat_restrict _ _ c Hd). apply flat_bounds.
      by apply (perm_in_box _ _ c Hd). }
    exists r. split; [done|]. rewrite Hiff. unfold element. split.
    - intros Hall c Hc. apply Hall.
      apply elem_of_zip_offsets; [apply HD | apply HD | apply HO|].
      exists c. split; [done|]. rewrite !Z.add_0_l. split.
      + apply flat_ext. intros l Hl. unfold restrict. by rewrite decide_True.
      + by rewrite perm_flat_restrict.
    - intros Hall p q Hin.
      apply elem_of_zip_offsets in Hin as (c & Hc & -> & ->);
        [|apply HD | apply HD | apply HO].
      rewrite !Z.add_0_l, (perm_flat_restrict _ _ c Hd).
      rewrite (flat_ext (dimensions a) (restrict (Dimensions.labels (dimensions a)) c) c).
      + by apply Hall.
      + intros l Hl. unfold restrict. by rewrite decide_True. }
  destruct (Dimensions.isContiguousIn (dimensions a) (dimensions b)) eqn:Hcont.
  - pose proof (perm_contiguous_eq _ _ (proj1 HD) Hd Hcont) as Heq.
    cbn [bind ret]. apply Hmain. rewrite <- Heq. symmetry. by apply offsets_full.
  - unfold getView_const, VariableView.makeVariableView. rewrite Hvb.
    rewrite contains_dims_fits by (apply HD || by apply perm_contains_dims).
    cbn [bind]. by apply Hmain.
Qed.

End Equal.

Lemma Concept_equals_spec (a b : variable) :
  wf_variable a -> wf_variable b -> var_dimensions a ≡ₚ var_dimensions b ->
  Concept.equals (m_object a) (m_object b) = inr true
  <-> dtype (m_object a) = dtype (m_object b)
      /\ forall c, in_box (var_dimensions a) c -> elements_agree a b c.
Proof.
  unfold wf_variable, var_dimensions, elements_agree, var_element, Concept.equals.
  intros Hwfa Hwfb Hd. rewrite (proj2 (eqb_perm _ _) Hd). cbn [negb].
  destruct (m_object a) as [x|x|x], (m_object b) as [y|y|y]; simpl in *;
    try (split; [discriminate | intros [? _]; discriminate]).
  - destruct (equals_concept_spec PrimFloat.eqb x y Hwfa Hwfb Hd) as (r & -> & Hiff).
    split.
    + intros [= ->]. split; [done|]. intros c Hc.
      destruct (proj1 Hiff eq_refl c Hc) as (u & w & -> & -> & Huw). done.
    + intros [_ Hall]. f_equal. apply Hiff. intros c Hc. specialize (Hall c Hc).
      destruct (element x c), (element y c); simpl in Hall; try done. eauto.
  - destruct (equals_concept_spec Z.eqb x y Hwfa Hwfb Hd) as (r & -> & Hiff).
    split.
    + intros [= ->]. split; [done|]. intros c Hc.
      destruct (proj1 Hiff eq_refl c Hc) as (u & w & -> & -> & Huw). done.
    + intros [_ Hall]. f_equal. apply Hiff. intros c Hc. specialize (Hall c Hc).
      destruct (element x c), (element y c); simpl in Hall; try done. eauto.
  - destruct (equals_concept_spec String.eqb x y Hwfa Hwfb Hd) as (r & -> & Hiff).
    split.
    + intros [= ->]. split; [done|]. intros c Hc.
      destruct (proj1 Hiff eq_refl c Hc) as (u & w & -> & -> & Huw). done.
    + intros [_ Hall]. f_equal. apply Hiff. intros c Hc. specialize (Hall c Hc).
      destruct (element x c), (element y c); simpl in Hall; try done. eauto.
Qed.

(** Two Variables that differ in their tags only ([Data::Value] and
    [Data::Variance], both of element type [double], with the same unit,
    name, dimensions and elements) are equal in the words of the
    specification, and [==] returns false for them. *)
Lemma equals_rejects_other_tag :
  spec_equal sample_value sample_variance
  /\ m_tag sample_value <> m_tag sample_variance
  /\ Variable_equals false sample_value sample_variance = inr false.
Proof.
  split; [|split; [discriminate | reflexivity]].
  split; [reflexivity|]. split; [reflexivity|]. split; [reflexivity|].
  intros c Hc. apply in_box_cons in Hc as [HX _].
  unfold elements_agree, var_element. simpl. unfold element. simpl.
  assert (c Dim.X = 0) as -> by lia. reflexivity.
Qed.

Lemma Variable_equals_code_equal (a b : variable) :
  wf_variable a -> wf_variable b ->
  (Variable_equals false a b = inr true <-> code_equal a b).
Proof.
  intros Hwfa Hwfb. unfold Variable_equals, Dimensions.eqb, code_equal.
  destruct (decide (m_name a = m_name b)) as [Hn|Hn];
    [rewrite bool_decide_eq_true_2 by done
    |rewrite bool_decide_eq_false_2 by done; simpl; split; [done | tauto]].
  destruct (decide (m_unit a = m_unit b)) as [Hu|Hu];
    [rewrite bool_decide_eq_true_2 by done
    |rewrite bool_decide_eq_false_2 by done; simpl; split; [done | tauto]].
  destruct (decide (m_tag a = m_tag b)) as [Ht|Ht];
    [rewrite bool_decide_eq_true_2 by done
    |rewrite bool_decide_eq_false_2 by done; simpl; split; [done | tauto]].
  destruct (decide (var_dimensions a ≡ₚ var_dimensions b)) as [Hd|Hd];
    [rewrite bool_decide_eq_true_2 by done
    |rewrite bool_decide_eq_false_2 by done; simpl; split; [done | tauto]].
  simpl. rewrite (Concept_equals_spec a b Hwfa Hwfb Hd). tauto.
Qed.

(** C5: for two Variables with data objects of their own, [a == b] returns
    true if and only if their names, units and tags agree, their Dimensions
    agree up to a permutation of the order of the axes, their element types
    agree and the elements agree at every position, the elements of [b]
    being read in the order in which [a] holds its own.  Where the tag
    fixes the element type, these are the conditions of the specification
    and the agreement of the tags.  For two Variables that share one data
    object it returns true if and only if their names and units agree. *)
Theorem Variable_equals_spec (a b : variable) :
  wf_variable a -> wf_variable b ->
  (Variable_equals false a b = inr true <-> code_equal a b)
  /\ ((m_tag a = m_tag b -> dtype (m_object a) = dtype (m_object b)) ->
      (Variable_equals false a b = inr true <-> spec_equal a b /\ m_tag a = m_tag b))
  /\ (Variable_equals true a b = inr true
      <-> m_name a = m_name b /\ m_unit a = m_unit b).
Proof.
  intros Hwfa Hwfb.
  pose proof (Variable_equals_code_equal a b Hwfa Hwfb) as Hcode.
  split; [exact Hcode|]. split.
  - intros Hkind. rewrite Hcode. unfold code_equal, spec_equal. tauto.
  - unfold Variable_equals.
    destruct (decide (m_name a = m_name b)) as [Hn|Hn];
      [rewrite bool_decide_eq_true_2 by done
      |rewrite bool_decide_eq_false_2 by done; simpl; split; [done | tauto]].
    destruct (decide (m_unit a = m_unit b)) as [Hu|Hu];
      [rewrite bool_decide_eq_true_2 by done
      |rewrite bool_decide_eq_false_2 by done; simpl; split; [done | tauto]].
    simpl. tauto.
Qed.

Lemma Variable_equals_spec_witness :
  wf_variable sample_xy /\ wf_variable sample_yx
  /\ spec_equal sample_xy sample_yx
  /\ var_dimensions sample_xy <> var_dimensions sample_yx
  /\ Variable_equals false sample_xy sample_yx = inr true.
Proof.
  assert (wf_variable sample_xy) as Hwf by solve_wf.
  assert (wf_variable sample_yx) as Hwf' by solve_wf.
  assert (spec_equal sample_xy sample_yx) as Hspec.
  { split; [reflexivity|]. split; [reflexivity|]. split; [apply perm_swap|].
    intros c Hc. apply in_box_cons in Hc as [HX Hc]. apply in_box_cons in Hc as [HY _].
    unfold elements_agree, var_element. simpl. unfold element. simpl.
    assert (c Dim.X = 0 \/ c Dim.X = 1) as [-> | ->] by lia;
      assert (c Dim.Y = 0 \/ c Dim.Y = 1) as [-> | ->] by lia; reflexivity. }
  split; [exact Hwf|]. split; [exact Hwf'|]. split; [exact Hspec|].
  split; [discriminate|].
  apply (proj1 (proj2 (Variable_equals_spec sample_xy sample_yx Hwf Hwf')) (fun _ => eq_refl)).
  split; [exact Hspec | reflexivity].
Defined.

Lemma var_element_is_Some v c :
  wf_variable v -> in_box (var_dimensions v) c -> is_Some (var_element v c).
Proof.
  unfold wf_variable, var_dimensions, var_element.
  destruct (m_object v) as [x|x|x]; simpl; intros Hwf Hc;
    destruct (element_is_Some x c Hwf Hc) as [y ->]; by eexists.
Qed.

(** A Variable is equal to itself when compared with a copy of its data if
    and only if each of its elements is equal to itself; compared with the
    same data object, always. *)
Lemma Variable_equals_refl v :
  wf_variable v ->
  Variable_equals true v v = inr true
  /\ (Variable_equals false v v = inr true
      <-> forall c, in_box (var_dimensions v) c -> self_equal (var_element v c)).
Proof.
  intros Hwf. split.
  - unfold Variable_equals. by rewrite !bool_decide_eq_true_2 by done.
  - rewrite (Variable_equals_code_equal v v Hwf Hwf). unfold code_equal, elements_agree, self_equal.
    split.
    + intros (_ & _ & _ & _ & _ & Hall) c Hc. specialize (Hall c Hc).
      by destruct (var_element v c).
    + intros Hall. repeat split; try done. intros c Hc. specialize (Hall c Hc).
      destruct (var_element_is_Some v c Hwf Hc) as [x Hx]. rewrite Hx in *. done.
Qed.

(** * The round trip of [split] and [concatenate] *)




(** * The comparisons of [double] on integers *)

Lemma digits2_pos_bounds (m : positive) :
  2 ^ (Z.pos (digits2_pos m) - 1) <= Z.pos m < 2 ^ Z.pos (digits2_pos m).
Proof.
  induction m as [m IH|m IH|]; cbn [digits2_pos]; [| |simpl; lia].
  - rewrite Pos2Z.inj_succ, Z.pow_succ_r by lia.
    replace (Z.succ (Z.pos (digits2_pos m)) - 1) with (Z.succ (Z.pos (digits2_pos m) - 1)) by lia.
    rewrite Z.pow_succ_r by lia. lia.
  - rewrite Pos2Z.inj_succ, Z.pow_succ_r by lia.
    replace (Z.succ (Z.pos (digits2_pos m)) - 1) with (Z.succ (Z.pos (digits2_pos m) - 1)) by lia.
    rewrite Z.pow_succ_r by lia. lia.
Qed.

(** What [valid_binary] says of a finite [double]: the significand has at
    most 53 bits, and exactly 53 above the smallest exponent. *)
Lemma valid_finite (s : bool) (m : positive) (e : Z) :
  SpecFloat.valid_binary prec emax (S754_finite s m e) = true ->
  -1074 <= e /\ Z.pos m < 2 ^ 53 /\ (-1074 < e -> 2 ^ 52 <= Z.pos m).
Proof.
  unfold SpecFloat.valid_binary, bounded, canonical_mantissa, fexp.
  intros [Hc _]%andb_true_iff. apply Z.eqb_eq in Hc.
  change (SpecFloat.emin prec emax) with (-1074) in Hc. change prec with 53 in Hc.
  pose proof (digits2_pos_bounds m) as [Hlow Hhigh].
  assert (Z.pos (digits2_pos m) <= 53) as Hd by lia.
  split; [lia|]. split.
  - eapply Z.lt_le_trans; [exact Hhigh|]. apply Z.pow_le_mono_r; lia.
  - intros He. assert (Z.pos (digits2_pos m) = 53) as Hd' by lia.
    by rewrite Hd' in Hlow.
Qed.

Lemma pow2_split (a b : Z) : 0 <= a -> 0 <= b -> 2 ^ (a + b) = 2 ^ a * 2 ^ b.
Proof. intros. by rewrite Z.pow_add_r. Qed.

(** A positive finite [double] is below the integer [K] held by another
    one exactly when the integer below it is. *)
Lemma finite_ltb_index (m : positive) (e : Z) (m' : positive) (e' K : Z) :
  SpecFloat.valid_binary prec emax (S754_finite false m e) = true ->
  SpecFloat.valid_binary prec emax (S754_finite false m' e') = true ->
  e' <= 0 -> Z.pos m' = K * 2 ^ (- e') ->
  SFltb (S754_finite false m e) (S754_finite false m' e') = true
  <-> (if 0 <=? e then Z.pos m * 2 ^ e else Z.pos m `div` 2 ^ (- e)) < K.
Proof.
  intros (He & Hm & Hnorm)%valid_finite (He' & Hm' & Hnorm')%valid_finite Hle HK.
  assert (0 < 2 ^ (- e')) as Hp' by (apply Z.pow_pos_nonneg; lia).
  assert (0 < K) as HKpos by nia.
  unfold SFltb, SFcompare. change (PosDef.Pos.compare_cont Eq m m') with (m ?= m')%positive.
  destruct (Z.leb_spec 0 e) as [Hnn|Hneg].
  - assert (0 < 2 ^ e) as Hp by (apply Z.pow_pos_nonneg; lia).
    destruct (Z.compare_spec e e') as [->|Hlt|Hgt].
    + assert (e' = 0) as -> by lia. rewrite Z.pow_0_r, Z.mul_1_r.
      assert (K = Z.pos m') as -> by (simpl in HK; lia). destruct (Pos.compare_spec m m') as [->|Hc|Hc]; split; (done || lia).
    + lia.
    + split; [done|]. intros Hlt. exfalso. specialize (Hnorm ltac:(lia)).
      destruct (decide (e' = 0)) as [->|Hne].
      * simpl in HK. assert (2 <= 2 ^ e) by (change 2 with (2 ^ 1) at 1; apply Z.pow_le_mono_r; lia).
        nia.
      * assert (2 <= 2 ^ (- e')) by (change 2 with (2 ^ 1) at 1; apply Z.pow_le_mono_r; lia).
        nia.
  - assert (0 < 2 ^ (- e)) as Hp by (apply Z.pow_pos_nonneg; lia).
    assert (Z.pos m `div` 2 ^ (- e) < K <-> Z.pos m < K * 2 ^ (- e)) as ->.
    { split; [|intros; apply Z.div_lt_upper_bound; lia].
      pose proof (Z.div_mod (Z.pos m) (2 ^ (- e)) ltac:(lia)).
      pose proof (Z.mod_pos_bound (Z.pos m) (2 ^ (- e)) Hp). nia. }
    destruct (Z.compare_spec e e') as [->|Hlt|Hgt].
    + destruct (Pos.compare_spec m m') as [->|Hc|Hc]; split; (done || lia).
    + split; [|done]. intros _. specialize (Hnorm' ltac:(lia)).
      replace (- e) with ((e' - e) + - e') by lia.
      rewrite pow2_split by lia.
      assert (2 <= 2 ^ (e' - e)) by (change 2 with (2 ^ 1) at 1; apply Z.pow_le_mono_r; lia).
      nia.
    + split; [done|]. intros Hlt. exfalso. specialize (Hnorm ltac:(lia)).
      replace (- e') with ((e - e') + - e) in HK by lia.
      rewrite pow2_split in HK by lia.
      assert (2 <= 2 ^ (e - e')) by (change 2 with (2 ^ 1) at 1; apply Z.pow_le_mono_r; lia).
      nia.
Qed.

(** [bin >= 0.0 && bin < nbin] for [nbin] that holds the integer [K]: the
    test holds exactly when the integer below [bin] is in [[0, K)], and
    then the conversion to an index gives that integer. *)
Lemma in_range_spec (b nbin : double) (K : Z) :
  double_is_index nbin K ->
  if in_range b nbin
  then exists bin, double_floor b = Some bin /\ 0 <= bin < K /\ to_index b = bin
  else forall bin, double_floor b = Some bin -> ~ 0 <= bin < K.
Proof.
  unfold double_is_index, in_range, double_floor, to_index. intros HK.
  rewrite leb_spec, ltb_spec. pose proof (Prim2SF_valid b) as Hvb.
  pose proof (Prim2SF_valid nbin) as Hvn.
  change (Prim2SF 0) with (S754_zero false).
  destruct (Prim2SF b) as [s|s| |s m e].
  - destruct (Prim2SF nbin) as [s'|s'| |[] m' e']; try done.
    + subst K. simpl. intros bin [= <-]. lia.
    + destruct HK as [He' HK]. simpl. exists 0. split; [done|]. split; [|done].
      assert (0 < 2 ^ (- e')) by (apply Z.pow_pos_nonneg; lia). nia.
  - destruct s; simpl; [done|].
    destruct (Prim2SF nbin) as [s'|s'| |[] m' e']; try done.
  - done.
  - destruct s.
    + simpl. intros bin [= <-]. destruct (Z.leb_spec 0 e).
      * assert (0 < 2 ^ e) by (apply Z.pow_pos_nonneg; lia). nia.
      * assert (0 < 2 ^ (- e)) by (apply Z.pow_pos_nonneg; lia).
        pose proof (Z.div_lt_upper_bound (Z.neg m) (2 ^ (- e)) 0). lia.
    + destruct (Prim2SF nbin) as [s'|s'| |[] m' e'] eqn:Hn; try done.
      * subst K. simpl. intros bin [= <-]. lia.
      * destruct HK as [He' HK].
        pose proof (finite_ltb_index m e m' e' K Hvb Hvn He' HK) as Hiff.
        change (SFleb (S754_zero false) (S754_finite false m e)) with true. cbn [andb].
        assert (0 <= (if 0 <=? e then Z.pos m * 2 ^ e else Z.pos m `div` 2 ^ (- e))) as Hnn.
        { destruct (Z.leb_spec 0 e).
          - assert (0 < 2 ^ e) by (apply Z.pow_pos_nonneg; lia). nia.
          - apply Z.div_pos; [lia|]. apply Z.pow_pos_nonneg; lia. }
        destruct (SFltb _ _).
        -- eexists. split; [done|]. split; [|done]. split; [done|]. by apply Hiff.
        -- intros bin [= <-] [_ Hlt]. apply Hiff in Hlt. done.
Qed.
(** * The sparse/dense kernel *)

Section SparseDenseSpec.
Context (is_linspace : list double -> bool) (sorted_edges : list double -> result unit).

Lemma apply_for_spec (op : SparseOp) offset nbin scale (K : Z) weights coord out_vals :
  double_is_index nbin K ->
  Z.of_nat (length weights) = K ->
  apply_for op offset nbin scale weights coord out_vals
  = inr (out_vals ++ (spec_contribution op K offset scale weights <$> coord)).
Proof.
  intros HK Hlen. revert out_vals. induction coord as [|c coord IH]; intros out_vals.
  - simpl. by rewrite app_nil_r.
  - cbn [apply_for]. rewrite fmap_cons.
    assert ((if in_range (PrimFloat.mul (PrimFloat.sub c offset) scale) nbin
             then read weights (to_index (PrimFloat.mul (PrimFloat.sub c offset) scale))
             else ret 0%float)
            = inr (match spec_bin offset scale c with
                   | Some bin =>
                       if decide (0 <= bin < K)
                       then default 0%float (weights !! Z.to_nat bin) else 0%float
                   | None => 0%float
                   end)) as ->.
    { unfold spec_bin.
      pose proof (in_range_spec (PrimFloat.mul (PrimFloat.sub c offset) scale) nbin K HK)
        as Hrange.
      destruct (in_range _ _).
      - destruct Hrange as (bin & -> & Hbin & ->). rewrite decide_True by done.
        destruct (read_lookup weights bin) as (w & -> & ->); [lia | done].
      - destruct (double_floor _) as [bin|]; [|done].
        by rewrite decide_False by (by apply Hrange). }
    cbn [bind]. rewrite IH, <- app_assoc. f_equal. f_equal. simpl.
    unfold spec_contribution. destruct (spec_bin offset scale c); [|done].
    by destruct (decide _).
Qed.

Lemma apply_op_sparse_dense_linspace op coord edges weights :
  is_linspace edges = true ->
  double_is_index (double_of_index (edges_bins edges)) (edges_bins edges) ->
  Z.of_nat (length weights) = edges_bins edges ->
  apply_op_sparse_dense is_linspace sorted_edges op coord edges weights
  = inr (spec_contribution op (edges_bins edges) (edges_offset edges) (edges_scale edges)
           weights <$> coord).
Proof.
  intros Hlin HK Hlen. unfold apply_op_sparse_dense, linear_edge_params. rewrite Hlin.
  by rewrite (apply_for_spec _ _ _ _ (edges_bins edges)).
Qed.

Lemma apply_op_sparse_dense_not_linspace op coord edges weights :
  is_linspace edges = false ->
  throws (apply_op_sparse_dense is_linspace sorted_edges op coord edges weights).
Proof.
  intros Hlin. unfold apply_op_sparse_dense. rewrite Hlin.
  destruct (sorted_edges edges) as [e|[]]; eexists; reflexivity.
Qed.

Lemma sparse_dense_rows_linspace op edges rows weights :
  is_linspace edges = true ->
  double_is_index (double_of_index (edges_bins edges)) (edges_bins edges) ->
  length rows = length weights ->
  Forall (fun w => Z.of_nat (length w) = edges_bins edges) weights ->
  exists out,
    sparse_dense_rows is_linspace sorted_edges op rows edges weights = inr out
    /\ length out = length rows
    /\ forall p events w, rows !! p = Some events -> weights !! p = Some w ->
         out !! p = Some (spec_contribution op (edges_bins edges) (edges_offset edges)
                            (edges_scale edges) w <$> events).
Proof.
  intros Hlin HK. revert weights.
  induction rows as [|events rows IH]; intros [|w weights] Hlen Hw; try discriminate.
  - exists []. by repeat split.
  - apply Forall_cons in Hw as [Hw Hws].
    destruct (IH weights ltac:(simpl in Hlen; lia) Hws) as (out & Hout & Hl & Hrows).
    eexists. split; [|split].
    + cbn [sparse_dense_rows].
      rewrite (apply_op_sparse_dense_linspace _ _ _ _ Hlin HK Hw). cbn [bind].
      rewrite Hout. reflexivity.
    + simpl. by rewrite Hl.
    + intros [|p] events' w'; simpl.
      * by intros [= <-] [= <-].
      * apply Hrows.
Qed.

Lemma sparse_dense_rows_not_linspace op edges rows weights :
  is_linspace edges = false -> rows <> [] -> weights <> [] ->
  throws (sparse_dense_rows is_linspace sorted_edges op rows edges weights).
Proof.
  intros Hlin Hc Hw. destruct rows as [|events rows]; [done|].
  destruct weights as [|w weights]; [done|]. cbn [sparse_dense_rows].
  destruct (apply_op_sparse_dense_not_linspace op events edges w Hlin) as [e ->].
  by exists e.
Qed.

End SparseDenseSpec.

(** C8: with uniformly spaced edges, [offset = edges[0]] and
    [scale = K / (edges[K] - edges[0])] for [K] bins, all in [double], the
    output row of the outer position [p] holds, for every event [e] of
    that position in order, [op(1, weights[p, bin])] when
    [bin = floor((e - offset) * scale)], the product and the difference
    taken in [double], is in [[0, K)], and [op(1, 0)] otherwise, also when
    the product is a NaN or infinite; the unit of the result is
    [op(counts, unit of the weights)].  Here the events and the edges carry
    no variances and have the same unit, and [K] is a [double].  With
    edges that are not uniformly spaced the kernel, and with it the
    operation on a non-empty input, ends with an exception; so does the
    operation for events or edges with variances and for events and edges
    of different units. *)
Theorem sparse_dense_spec (is_linspace : list double -> bool)
    (sorted_edges : list double -> result unit) (op : SparseOp)
    (sparseCoord : SparseCoord) (edges : Edges) (weights : Weights) :
  let K := edges_bins (edges_values edges) in
  let offset := edges_offset (edges_values edges) in
  let scale := edges_scale (edges_values edges) in
  (is_linspace (edges_values edges) = true ->
   coord_hasVariances sparseCoord = false -> edges_hasVariances edges = false ->
   coord_unit sparseCoord = edges_unit edges ->
   double_is_index (double_of_index K) K ->
   length (coord_rows sparseCoord) = length (weights_rows weights) ->
   Forall (fun w => Z.of_nat (length w) = K) (weights_rows weights) ->
   exists out,
     sparse_dense_op_impl is_linspace sorted_edges op sparseCoord edges weights = inr out
     /\ sparse_unit out = SparseOp_unit op Unit.counts (weights_unit weights)
     /\ length (sparse_rows out) = length (coord_rows sparseCoord)
     /\ forall p events w,
          coord_rows sparseCoord !! p = Some events -> weights_rows weights !! p = Some w ->
          sparse_rows out !! p = Some (spec_contribution op K offset scale w <$> events))
  /\ (is_linspace (edges_values edges) = false ->
      (forall events w,
         throws (apply_op_sparse_dense is_linspace sorted_edges op events
                   (edges_values edges) w))
      /\ (coord_rows sparseCoord <> [] -> weights_rows weights <> [] ->
          throws (sparse_dense_op_impl is_linspace sorted_edges op sparseCoord edges weights)))
  /\ (coord_hasVariances sparseCoord = true \/ edges_hasVariances edges = true
      \/ coord_unit sparseCoord <> edges_unit edges ->
      throws (sparse_dense_op_impl is_linspace sorted_edges op sparseCoord edges weights)).
Proof.
  cbv zeta. unfold sparse_dense_op_impl, expect_no_variance_arg, expect_equals_unit.
  split; [|split].
  - intros Hlin -> -> Hunit HK Hlen Hw. rewrite bool_decide_eq_true_2 by done.
    cbn [negb bind ret].
    destruct (sparse_dense_rows_linspace is_linspace sorted_edges op _ _ _ Hlin HK Hlen Hw)
      as (rows & -> & Hl & Hrows).
    eexists. split; [reflexivity|]. by repeat split.
  - intros Hlin. split.
    + intros events w. by apply apply_op_sparse_dense_not_linspace.
    + intros Hc Hw. destruct (coord_hasVariances sparseCoord); [by eexists|].
      destruct (edges_hasVariances edges); [by eexists|].
      destruct (bool_decide _); [|by eexists]. cbn [negb bind ret].
      destruct (sparse_dense_rows_not_linspace is_linspace sorted_edges op _ _ _ Hlin Hc Hw)
        as [e ->].
      by eexists.
  - intros Hbad. destruct (coord_hasVariances sparseCoord); [by eexists|].
    destruct (edges_hasVariances edges); [by eexists|].
    destruct Hbad as [?|[?|Hunit]]; [done | done|].
    rewrite bool_decide_eq_false_2 by done. by eexists.
Qed.

Lemma sparse_dense_spec_witness :
  uniform_edges (edges_values sample_uniform_edges) = true
  /\ uniform_edges (edges_values sample_other_edges) = false
  /\ (exists out,
        sparse_dense_op_impl uniform_edges increasing_edges Divide
          sample_events sample_uniform_edges sample_weights = inr out
        /\ sparse_rows out !! 0%nat = Some [0.25; 0.125; infinity; infinity]%float)
  /\ throws (sparse_dense_op_impl uniform_edges increasing_edges Divide
               sample_events sample_other_edges sample_weights).
Proof.
  split; [reflexivity|]. split; [reflexivity|]. split.
  - destruct (sparse_dense_spec uniform_edges increasing_edges Divide
                sample_events sample_uniform_edges sample_weights) as [Hlin _].
    destruct Hlin as (out & Hout & _ & _ & Hrows).
    + reflexivity.
    + reflexivity.
    + reflexivity.
    + reflexivity.
    + vm_compute. split; [discriminate | reflexivity].
    + reflexivity.
    + constructor; [reflexivity | constructor].
    + exists out. split; [exact Hout|].
      rewrite (Hrows 0%nat _ _ eq_refl eq_refl). reflexivity.
  - destruct (sparse_dense_spec uniform_edges increasing_edges Divide
                sample_events sample_other_edges sample_weights) as (_ & Hnot & _).
    apply Hnot; [reflexivity | discriminate | discriminate].
Defined.

(** ** The bin of an event is the rounded one *)

(** X14: the bin of an event is computed in [double].  With the two
    edges [[0, 105]], one bin with the weight 7 and the event
    [104.99999999999999], the largest [double] below 105, which lies in
    the bin: the scale is the [double] [1 / 105], the product
    [(e - 0) * scale] is rounded to [1.0], which is not below the number of
    bins, and the kernel emits [1 * 0 = 0] for the event, not
    [1 * 7 = 7]. *)
Theorem sparse_bin_is_rounded :
  let e := 0x1.a3fffffffffffp+6%float in
  uniform_edges [0; 105]%float = true
  /\ double_floor e = Some 104
  /\ PrimFloat.ltb e 105 = true
  /\ spec_bin (edges_offset [0; 105]%float) (edges_scale [0; 105]%float) e = Some 1
  /\ apply_op_sparse_dense uniform_edges increasing_edges Times [e] [0; 105]%float [7]%float
     = inr [0]%float.
Proof. cbv zeta. repeat split; vm_compute; reflexivity. Qed.

(** X15: the test [bin >= 0.0 && bin < nbin] of the kernel, for [nbin]
    that holds the integer [K]: it holds exactly when [bin] is neither a
    NaN nor infinite and the largest integer that is not above [bin] is in
    [[0, K)], and then the conversion of [bin] to an index gives that
    integer. *)
Theorem in_range_is_floor_in_bins (bin nbin : double) (K : Z) :
  double_is_index nbin K ->
  (in_range bin nbin = true <-> exists i, double_floor bin = Some i /\ 0 <= i < K)
  /\ (in_range bin nbin = true -> double_floor bin = Some (to_index bin)).
Proof.
  intros HK. pose proof (in_range_spec bin nbin K HK) as Hrange.
  destruct (in_range bin nbin).
  - destruct Hrange as (i & Hi & Hin & <-). split; [|done].
    split; [|done]. intros _. by exists (to_index bin).
  - split; [|done]. split; [done|]. intros (i & Hi & Hin). by destruct (Hrange i Hi).
Qed.

Lemma in_range_is_floor_in_bins_witness :
  double_is_index 2%float 2
  /\ in_range 1.5%float 2%float = true
  /\ double_floor 1.5%float = Some (to_index 1.5%float)
  /\ to_index 1.5%float = 1.
Proof.
  assert (double_is_index 2%float 2) as HK by (vm_compute; split; [discriminate | reflexivity]).
  split; [exact HK|]. split; [reflexivity|]. split; [|reflexivity].
  apply (in_range_is_floor_in_bins 1.5%float 2%float 2 HK). reflexivity.
Defined.

(** * Termination of the rebin loops *)

Section RebinTotal.
Context {T : Type} `{Arithmetic T}.

(** Every iteration of the loop of [rebinInner] advances [iold] or
    [inew], so [oldSize + newSize] iterations are enough. *)
Lemma rebinInner_while_total (xold xnew oldData : list T)
    (oldSize newSize oldOffset newOffset : Z) :
  forall (fuel : nat) (iold inew : Z) (newData : list T),
    (oldSize - iold) + (newSize - inew) <= Z.of_nat fuel ->
    is_Some (rebinInner_while fuel xold xnew oldData oldSize newSize
               oldOffset newOffset iold inew newData).
Proof.
  induction fuel as [|fuel IH]; intros iold inew newData Hfuel.
  - cbn [rebinInner_while].
    destruct (Z.ltb_spec iold oldSize), (Z.ltb_spec inew newSize); simpl;
      try (by eexists); lia.
  - cbn [rebinInner_while].
    destruct (Z.ltb_spec iold oldSize), (Z.ltb_spec inew newSize); simpl;
      try (by eexists).
    repeat case_match; try (by eexists); apply IH; lia.
Qed.

Lemma rebinInner_row_total (xold xnew oldData : list T)
    (oldSize newSize oldOffset newOffset : Z) (newData : list T) :
  is_Some (rebinInner_row xold xnew oldData oldSize newSize oldOffset newOffset newData).
Proof.
  unfold rebinInner_row.
  destruct (decide (0 <= oldSize + newSize)).
  - apply rebinInner_while_total. lia.
  - destruct (Z.to_nat (oldSize + newSize)) eqn:E; [|lia].
    cbn [rebinInner_while].
    destruct (Z.ltb_spec 0 oldSize), (Z.ltb_spec 0 newSize); simpl;
      try (by eexists); lia.
Qed.

Lemma rebinInner_for_total (xold xnew oldData : list T) (oldSize newSize newBase : Z) :
  forall rows newData,
    is_Some (rebinInner_for rows xold xnew oldData oldSize newSize newBase newData).
Proof.
  induction rows as [|c rows IH]; intros newData; [by eexists|].
  cbn [rebinInner_for].
  destruct (rebinInner_row_total xold xnew oldData oldSize newSize (c * oldSize)
              (newBase + c * newSize) newData) as [[e|newData'] ->]; [by eexists|].
  apply IH.
Qed.

(** The same for the loop of [RebinHelper::rebin], which advances one of
    the two iterators in every iteration. *)
Lemma rebin_while_total (oldCoord newCoord oldData : list T)
    (oldModel newModel : list Z) (oldCoordView newCoordView : VariableView.t)
    (oldOffset newOffset : Z) :
  forall (fuel oldIt newIt : nat) (newData : list T),
    (length oldModel - oldIt + (length newModel - newIt) <= fuel)%nat ->
    is_Some (rebin_while fuel oldCoord newCoord oldData oldModel newModel
               oldCoordView newCoordView oldOffset newOffset oldIt newIt newData).
Proof.
  induction fuel as [|fuel IH]; intros oldIt newIt newData Hfuel.
  - cbn [rebin_while]. repeat case_bool_decide; simpl; try (by eexists); lia.
  - cbn [rebin_while]. repeat case_bool_decide; simpl; try (by eexists).
    repeat case_match; try (by eexists); apply IH; lia.
Qed.

Lemma RebinHelper_rebin_total (oldCoord newCoord oldData : list T)
    (oldModel newModel : list Z) (oldCoordView newCoordView : VariableView.t)
    (oldOffset newOffset : Z) (newData : list T) :
  is_Some (RebinHelper_rebin oldCoord newCoord oldData oldModel newModel
             oldCoordView newCoordView oldOffset newOffset newData).
Proof. apply rebin_while_total. lia. Qed.

Lemma rebinInner_total dim (oldT newT oldCoordT newCoordT : VariableConceptT T) :
  is_Some (rebinInner dim oldT newT oldCoordT newCoordT).
Proof.
  unfold rebinInner. repeat case_match; try (by eexists).
  match goal with
  | E : rebinInner_for ?r ?a ?b ?c ?d ?e ?f ?g = None |- _ =>
      destruct (rebinInner_for_total a b c d e f r g) as [x Hx]; congruence
  end.
Qed.

Lemma rebin_concept_total (this old : VariableConceptT T) dim
    (oldCoord newCoord : VariableConceptT T) :
  is_Some (rebin_concept this old dim oldCoord newCoord).
Proof.
  unfold rebin_concept. destruct (_ && _); [apply rebinInner_total|].
  repeat case_match; try (by eexists).
  match goal with
  | E : RebinHelper_rebin ?a ?b ?c ?d ?e ?f ?g ?h ?i ?j = None |- _ =>
      destruct (RebinHelper_rebin_total a b c d e f g h i j) as [x Hx]; congruence
  end.
Qed.

End RebinTotal.

(** [rebin] returns or throws for every input. *)
Lemma rebin_total (var oldCoord newCoord : variable) :
  is_Some (rebin var oldCoord newCoord).
Proof.
  unfold rebin. repeat case_match; try (by eexists).
  match goal with
  | E : Concept.rebin ?a ?b ?c ?d ?e = None |- _ =>
      unfold Concept.rebin in E; repeat case_match; try discriminate
  end;
  match goal with
  | E : rebin_concept ?a ?b ?c ?d ?e = None |- _ =>
      destruct (rebin_concept_total a b c d e) as [x Hx]; congruence
  end.
Qed.

(** * [rebin] *)

(** The two examples of the specification take the path [rebinInner]. *)
Example rebin_partial_overlap :
  exists r, rebin sample_counts sample_old_edges sample_new_edges = Some (inr r)
    /\ var_dimensions r = [(Dim.X, 2)]
    /\ values_double r = [5; 5]%float.
Proof.
  eexists. split; [vm_compute; reflexivity|]. split; [reflexivity|].
  reflexivity.
Qed.

Example rebin_merge_bins :
  exists r, rebin sample_ones sample_unit_edges sample_wide_edges = Some (inr r)
    /\ var_dimensions r = [(Dim.X, 2)]
    /\ values_double r = [2; 2]%float.
Proof.
  eexists. split; [vm_compute; reflexivity|]. split; [reflexivity|].
  reflexivity.
Qed.

(** C1: rebinning the histogram with the edges [[0, 1, 2, 3]] and the
    values [[10, 20, 30]] to the same edges returns [[20, 40, 60]], where
    the overlap formula gives [[10, 20, 30]]: the number of bins does not
    change, so [setDimensions] returns without a new buffer of zeros, and
    [rebinInner] adds to the values that are there.  And the histogram
    with the one bin [[0, 2]] and the value 10, stored with an inner axis
    [X] of extent 1 and the bins along [Y], is rebinned to the edges
    [[0, 1, 2]] by the path [RebinHelper::rebin] to [[0, 0]], where the
    formula gives the [[5, 5]] that [rebinInner] returns for it when it is
    stored along [X] alone. *)
Theorem rebin_same_bins_adds_to_old_values :
  (exists r,
     rebin sample_histogram sample_histogram_edges sample_histogram_edges
     = Some (inr r)
     /\ var_dimensions r = [(Dim.X, 3)]
     /\ values_double r = [20; 40; 60]%float)
  /\ (exists r,
        rebin sample_counts_outer sample_old_edges_outer sample_new_edges_outer
        = Some (inr r)
        /\ var_dimensions r = [(Dim.X, 1); (Dim.Y, 2)]
        /\ values_double r = [0; 0]%float)
  /\ (exists r,
        rebin sample_counts sample_old_edges sample_new_edges = Some (inr r)
        /\ values_double r = [5; 5]%float).
Proof.
  split; [|split].
  - eexists. split; [vm_compute; reflexivity|]. split; reflexivity.
  - eexists. split; [vm_compute; reflexivity|]. split; reflexivity.
  - eexists. split; [vm_compute; reflexivity|]. reflexivity.
Qed.

(** * Further properties of the operations *)

(** ** [expect::validSlice] *)

(** X1: [expect::validSlice] accepts the slice [(dim, begin, end)] of
    [dims] exactly when [dim] is a label of [dims] with an extent [n],
    [0 <= begin < n], and [end] is negative (a single index) or
    [begin <= end <= n]; every other slice ends with [SliceError]. *)
Theorem validSlice_accepts (dims : Dimensions.t) (s : Slice) :
  let accepted :=
    exists n, Dimensions.size dims (slice_dim s) = inr n
      /\ 0 <= slice_begin s < n
      /\ (slice_end s < 0 \/ slice_begin s <= slice_end s <= n) in
  (accepted -> validSlice dims s = inr tt)
  /\ (~ accepted -> validSlice dims s = inl SliceError).
Proof.
  intros accepted. unfold accepted, validSlice.
  destruct (Dimensions.contains dims (slice_dim s)) eqn:Hc; cbn [negb].
  - destruct (contains_size _ _ Hc) as [n Hn]. rewrite Hn. cbn [bind].
    split.
    + intros (n' & [= <-] & Hb & He).
      rewrite (proj2 (Z.ltb_ge _ _)) by lia. cbn [orb].
      destruct (Z.leb_spec 0 (slice_end s));
        rewrite (proj2 (Z.leb_gt _ _)) by lia; cbn [orb];
        by rewrite (proj2 (Z.ltb_ge _ _)) by lia.
    + intros Hna.
      destruct ((slice_begin s <? 0)
                || (Z.min (if 0 <=? slice_end s then slice_end s + 1 else n) n
                    <=? slice_begin s)
                || (n <? slice_end s)) eqn:Hb; [done|].
      exfalso. apply Hna. exists n. split; [done|].
      apply orb_false_iff in Hb as [Hb He]. apply orb_false_iff in Hb as [Hb Hm].
      apply Z.ltb_ge in Hb, He. apply Z.leb_gt in Hm.
      destruct (Z.leb_spec 0 (slice_end s)); lia.
  - split.
    + intros (n & Hn & _). apply size_contains in Hn. congruence.
    + done.
Qed.

Lemma validSlice_accepts_witness :
  validSlice [(Dim.X, 4)] (mkSliceDesc Dim.X 1 3) = inr tt
  /\ validSlice [(Dim.X, 4)] (mkSliceDesc Dim.X 4 (-1)) = inl SliceError.
Proof.
  split.
  - apply (proj1 (validSlice_accepts [(Dim.X, 4)] (mkSliceDesc Dim.X 1 3))).
    exists 4. simpl. split; [reflexivity|]. split; [lia|]. right. lia.
  - reflexivity.
Defined.

(** ** The copy onto a concept that lacks the dimension of the copy *)

Section CopyAbsent.
Context {T : Type} (this other : VariableConceptT T) (dim : Dim.t) (b : Z).

Let D := dimensions this.
Let O := dimensions other.
Let Pt := layout this.
Let Po := layout other.
Let bo :=
  match m_view other with
  | Some v =>
      if negb (b =? 0) || negb (bool_decide (dim = Dim.Invalid))
      then m_offset v + b * Dimensions.offset (parentDimensions v) dim
      else m_offset v
  | None =>
      if Dimensions.contains O dim then b * Dimensions.offset O dim
      else b * Dimensions.volume O
  end.

Hypothesis HD : wf_dims D.
Hypothesis Hdim : Dimensions.contains D dim = false.
Hypothesis Hmut : isConstView this = false.
Hypothesis Hlen : m_view this = None -> Z.of_nat (length (m_model this)) = Dimensions.volume D.
Hypothesis Hfit_t : VariableView.fits D Pt = true.
Hypothesis Hfit_o : VariableView.fits D Po = true.
Hypothesis Hspan :
  isContiguous other && Dimensions.isContiguousIn D O = true ->
  getSpan_range_const other dim b (b + 1) = inr (VariableView.offsets bo D Po).

(** Whatever the four cases choose, the ranges copied are the two views
    on the dimensions of [this]. *)
Lemma copy_absent_unfold :
  copy this other dim 0 b (b + 1)
  = (model <- std_copy (m_model other)
                (VariableView.offsets bo D Po)
                (VariableView.offsets (data this) D Pt) (m_model this) ;;
     ret (with_model this model)).
Proof.
  unfold copy. fold D O. rewrite Hdim. cbn [bind ret].
  assert (getView_at_const other D dim b = inr (VariableView.offsets bo D Po)) as ->.
  { unfold getView_at_const, VariableView.makeVariableView.
    subst bo Po. unfold layout, O in *.
    destruct (m_view other) as [v|]; by rewrite Hfit_o. }
  cbn [bind]. rewrite isContiguousIn_refl, andb_true_r. fold Pt.
  replace (b + 1 - b) with 1 by lia. change (0 + 1) with 1.
  assert ((if isContiguous this then getSpan_range this dim 0 1
           else getView_at this D dim 0)
          = inr (VariableView.offsets (data this) D Pt)) as Htarget.
  { unfold getSpan_range, getSpan_range_const, getView_at, getView_at_const,
      requireMutable, requireContiguous, makeSpan.
    fold D. rewrite Hmut, Hdim. cbn [negb andb orb bind ret Z.eqb].
    subst Pt. unfold layout, isContiguous, data, size in *. fold D.
    destruct (m_view this) as [v|] eqn:Hv.
    - destruct (Dimensions.isContiguousIn D (parentDimensions v)) eqn:Hc.
      + cbn [bind]. by rewrite offsets_contiguous.
      + unfold VariableView.makeVariableView. rewrite Hfit_t.
        destruct (bool_decide (dim = Dim.Invalid)); cbn [negb];
          unfold ret; do 2 f_equal; lia.
    - rewrite offsets_full by done. by rewrite Hlen. }
  destruct (isContiguous this); rewrite Htarget; cbn [bind];
    (destruct (isContiguous other && Dimensions.isContiguousIn D O) eqn:Hc;
     [by rewrite Hspan | done]).
Qed.

End CopyAbsent.

(** *** One index of an owning model copied onto a model without [dim] *)

Lemma erased_cons_eq l n d : l ∉ Dimensions.labels d -> erased ((l, n) :: d) l = d.
Proof.
  intros Hl. unfold erased. rewrite filter_cons_False by (simpl; tauto).
  apply filter_Forall_id. apply Forall_forall. intros [l' m] Hin Heq. simpl in Heq.
  subst l'. apply Hl. unfold Dimensions.labels. apply list_elem_of_fmap. by exists (l, m).
Qed.

Lemma erased_cons_ne l n d dim :
  l <> dim -> erased ((l, n) :: d) dim = (l, n) :: erased d dim.
Proof. intros Hl. unfold erased. by rewrite filter_cons_True. Qed.

Lemma volume_erased d dim n :
  NoDup (Dimensions.labels d) -> Dimensions.size d dim = inr n ->
  Dimensions.volume d = n * Dimensions.volume (erased d dim).
Proof.
  induction d as [|[l m] d IH]; intros Hnd Hs; [done|].
  change (Dimensions.labels ((l, m) :: d)) with (l :: Dimensions.labels d) in Hnd.
  apply NoDup_cons in Hnd as [Hni Hnd]. simpl in Hs.
  destruct (decide (l = dim)) as [->|Hne].
  - injection Hs as ->. by rewrite erased_cons_eq.
  - rewrite erased_cons_ne by done. simpl. rewrite IH by done. lia.
Qed.

Lemma fits_erased_parent d dim :
  NoDup (Dimensions.labels d) -> VariableView.fits (erased d dim) d = true.
Proof.
  intros Hnd. apply fits_forall. intros l n m [Hin _]%elem_of_erased Hs.
  apply (elem_of_size _ _ _ Hnd) in Hin. rewrite Hin in Hs. injection Hs as ->. lia.
Qed.

Lemma offset_erased_contiguous d dim :
  NoDup (Dimensions.labels d) -> Dimensions.contains d dim = true ->
  Dimensions.isContiguousIn (erased d dim) d = true ->
  Dimensions.offset d dim = Dimensions.volume (erased d dim).
Proof.
  induction d as [|[l m] d IH]; intros Hnd Hc Hcont; [done|].
  change (Dimensions.labels ((l, m) :: d)) with (l :: Dimensions.labels d) in Hnd.
  apply NoDup_cons in Hnd as [Hni Hnd]. simpl in Hc |- *.
  destruct (decide (l = dim)) as [->|Hne].
  - rewrite erased_cons_eq in Hcont |- * by done.
    destruct d as [|[l' m'] d]; [done|]. exfalso.
    apply isContiguousIn_cons in Hcont as [-> _]. apply Hni. simpl. left.
  - rewrite erased_cons_ne in Hcont |- * by done. simpl.
    apply isContiguousIn_cons in Hcont as [_ [[He _]|(_ & _ & Hcont)]].
    + rewrite He. simpl.
      destruct d as [|[l' m'] d]; [done|].
      change (Dimensions.labels ((l', m') :: d)) with (l' :: Dimensions.labels d) in Hnd.
      apply NoDup_cons in Hnd as [Hni' Hnd].
      destruct (decide (l' = dim)) as [->|Hne'].
      * simpl. rewrite decide_True by done. lia.
      * rewrite erased_cons_ne in He by done. done.
    + by rewrite IH.
Qed.

Section CopyIndex.
Context {T : Type} (this other : VariableConceptT T) (dim : Dim.t) (b n : Z).

Let D := dimensions this.
Let O := dimensions other.

Hypothesis Hthis : wf_model this.
Hypothesis Hother : wf_model other.
Hypothesis Hsize : Dimensions.size O dim = inr n.
Hypothesis Hb : 0 <= b < n.
Hypothesis HD : D = erased O dim.

Lemma copy_index_unfold :
  copy this other dim 0 b (b + 1)
  = (model <- std_copy (m_model other)
                (VariableView.offsets (b * Dimensions.offset O dim) D O)
                (VariableView.offsets 0 D D) (m_model this) ;;
     ret (with_model this model)).
Proof.
  destruct Hthis as (Hv & Hwf & Hlen). destruct Hother as (Hv' & Hwf' & Hlen').
  pose proof (size_contains _ _ _ Hsize) as Hc.
  rewrite copy_absent_unfold.
  - unfold layout, data. rewrite Hv, Hv'. fold D O. by rewrite Hc.
  - done.
  - fold D. rewrite HD, contains_erased, Hc. by rewrite bool_decide_eq_true_2.
  - unfold isConstView. by rewrite Hv.
  - done.
  - unfold layout. rewrite Hv. apply fits_refl, Hwf.
  - unfold layout. rewrite Hv'. fold D O. rewrite HD. apply fits_erased_parent, Hwf'.
  - unfold layout, isContiguous. rewrite Hv'. cbn [andb]. fold D O. intros Hcont.
    rewrite Hc. unfold getSpan_range_const. rewrite Hv'. unfold makeSpan. fold O.
    rewrite Hc. cbn [negb andb]. rewrite Hsize. cbn [bind].
    unfold data, size. rewrite Hv'.
    rewrite offsets_contiguous by done.
    rewrite HD in Hcont |- *.
    rewrite <- (offset_erased_contiguous O dim) by (done || apply Hwf').
    replace (b + 1 - b) with 1 by lia.
    destruct (Z.eqb_spec n 1) as [->|Hne].
    + assert (b = 0) as -> by lia. rewrite Hlen'. fold O.
      rewrite (volume_erased O dim 1) by (done || apply Hwf').
      rewrite <- (offset_erased_contiguous O dim) by (done || apply Hwf').
      unfold ret. do 2 f_equal; lia.
    + unfold ret. do 2 f_equal; lia.
Qed.

Local Lemma copy_index_source c :
  in_box D c ->
  in_box O (update c dim b)
  /\ b * Dimensions.offset O dim + flat O (restrict (Dimensions.labels D) c)
     = flat O (update c dim b).
Proof.
  intros Hc. destruct Hother as (_ & [HndO _] & _). split.
  - unfold in_box. apply Forall_forall. intros [l m] Hin. cbn [fst snd].
    destruct (decide (l = dim)) as [->|Hne].
    + rewrite update_eq. apply (elem_of_size _ _ _ HndO) in Hin.
      fold O in Hin. rewrite Hsize in Hin. injection Hin as <-. done.
    + rewrite update_ne by done.
      apply (proj1 (Forall_forall _ _) Hc (l, m)). rewrite HD. by apply elem_of_erased.
  - rewrite flat_update by done. rewrite (size_contains _ _ _ Hsize).
    rewrite (flat_ext O (restrict (Dimensions.labels D) c) (update c dim 0)).
    + rewrite flat_update by done. rewrite (size_contains _ _ _ Hsize). lia.
    + intros l Hl. unfold restrict, update.
      destruct (decide (l = dim)) as [->|Hne].
      * rewrite decide_False; [done|]. rewrite HD. apply not_elem_of_labels_erased.
      * rewrite decide_True; [done|]. rewrite HD. by apply elem_of_labels_erased.
Qed.

(** Every cell of [this] receives the element of [other] at the same
    position with the index [b] along [dim]. *)
Lemma copy_index_spec :
  exists model,
    copy this other dim 0 b (b + 1) = inr (with_model this model)
    /\ length model = length (m_model this)
    /\ forall c, in_box D c ->
         model !! Z.to_nat (flat D c)
         = m_model other !! Z.to_nat (flat O (update c dim b)).
Proof.
  pose proof Hthis as (Hv & Hwf & Hlen). pose proof Hother as (Hv' & Hwf' & Hlen').
  assert (NoDup (Dimensions.labels D)) as HndD by apply Hwf.
  assert (NoDup (Dimensions.labels O)) as HndO by apply Hwf'.
  assert (forall c, in_box D c -> flat D (restrict (Dimensions.labels D) c) = flat D c)
    as Hrestrict.
  { intros c _. apply flat_ext. intros l Hl. unfold restrict. by rewrite decide_True. }
  rewrite copy_index_unfold.
  destruct (std_copy_spec (m_model other)
              (VariableView.offsets (b * Dimensions.offset O dim) D O)
              (VariableView.offsets 0 D D) (m_model this))
    as (model & Hcopy & Hlength & Hset & Hkeep).
  - apply length_zip_offsets.
  - intros s (c & Hc & ->)%elem_of_offsets; [|done..].
    destruct (copy_index_source c Hc) as [Hbox ->]. rewrite Hlen'. by apply flat_bounds.
  - intros t (c & Hc & ->)%elem_of_offsets; [|done..].
    rewrite Hrestrict by done. rewrite Hlen. pose proof (flat_bounds D c Hc). fold D. lia.
  - intros s s' t (c & Hc & -> & Ht)%elem_of_zip_offsets
                  (c' & Hc' & -> & Ht')%elem_of_zip_offsets; try done.
    rewrite !Hrestrict in * by done.
    assert (flat D c = flat D c') as Hflat by lia.
    pose proof (flat_inj D _ _ Hc Hc' Hflat) as Hinj.
    f_equal. apply flat_ext. intros l _. unfold restrict.
    case_decide; [by apply Hinj | done].
  - exists model. split; [by rewrite Hcopy|]. split; [done|].
    intros c Hc. destruct (copy_index_source c Hc) as [_ <-].
    rewrite <- (Hrestrict c Hc) at 1.
    replace (flat D (restrict (Dimensions.labels D) c))
      with (0 + flat D (restrict (Dimensions.labels D) c)) by lia.
    apply Hset. apply elem_of_zip_offsets; [done..|]. by exists c.
Qed.

End CopyIndex.

Lemma Concept_copy_index (this other : VariableConcept) (dim : Dim.t) (b n : Z) :
  wf_concept this -> wf_concept other -> dtype this = dtype other ->
  Dimensions.size (Concept.dimensions other) dim = inr n -> 0 <= b < n ->
  Concept.dimensions this = erased (Concept.dimensions other) dim ->
  exists r,
    Concept.copy this other dim 0 b (b + 1) = inr r
    /\ wf_concept r /\ dtype r = dtype this
    /\ Concept.dimensions r = Concept.dimensions this
    /\ forall c, in_box (Concept.dimensions this) c ->
         concept_element r c = concept_element other (update c dim b).
Proof.
  destruct this as [a|a|a], other as [o|o|o]; simpl; intros Ha Ho Hk Hs Hb HD;
    try discriminate;
    destruct (copy_index_spec a o dim b n Ha Ho Hs Hb HD) as (model & Hc & Hlen & Hel);
    (eexists; split; [rewrite Hc; reflexivity|]);
    (split; [by apply wf_with_model|]); (split; [done|]); (split; [done|]);
    intros c Hc'; simpl; unfold element; simpl; by rewrite (Hel c Hc').
Qed.

(** ** [slice(var, dim, index)] and [Variable::setSlice] *)

Lemma size_erased_self d dim :
  Dimensions.size (erased d dim) dim = inl (DimensionError "Dimension not found.").
Proof. apply size_not_contains, contains_false, not_elem_of_labels_erased. Qed.

Lemma slice_index_is_index (v : variable) (dim : Dim.t) (i n : Z) :
  wf_variable v -> Dimensions.size (var_dimensions v) dim = inr n -> 0 <= i < n ->
  exists p, slice_index v dim i = inr p /\ is_index p v dim i.
Proof.
  intros Hwf Hs Hi. pose proof (wf_variable_dims _ Hwf) as Hd.
  set (D := var_dimensions v) in *.
  assert (wf_dims (erased D dim)) as HE by by apply wf_erased.
  unfold slice_index. fold D.
  rewrite erased_erase; [|apply Hd | by eapply size_contains]. cbn [bind].
  destruct (setDimensions_spec v _ Hwf HE
              (perm_erased_eq D dim (size_contains _ _ _ Hs)))
    as (out & Hset & Hwfo & Hdo & Hko & Hto & Huo & Hno & _).
  rewrite Hset. cbn [bind].
  destruct (Concept_copy_index (m_object out) (m_object v) dim i n)
    as (obj & Hcopy & Hwfobj & Hkobj & Hdobj & Hel); try done.
  rewrite Hcopy. cbn [bind]. eexists. split; [reflexivity|].
  fold (var_dimensions out) in Hdobj, Hel. rewrite Hdo in Hdobj, Hel.
  unfold is_index, wf_variable, var_dimensions, var_element. simpl.
  split; [done|]. split; [done|]. split; [done|]. split; [done|].
  split; [congruence|]. split; [done|].
  rewrite Hdobj. intros c Hc. by apply Hel.
Qed.

(** X2: for a dimension [dim] of [var] with the extent [n] and an index
    [0 <= i < n], [slice(var, dim, i)] returns a Variable with the tag,
    unit and name of [var] and its dimensions without [dim], whose element
    at every position is the element of [var] at that position with the
    index [i] along [dim]; for a Variable without the dimension [dim] it
    ends with an exception. *)
Theorem slice_index_spec (var : variable) (dim : Dim.t) (i n : Z) :
  wf_variable var ->
  (Dimensions.contains (var_dimensions var) dim = false -> throws (slice_index var dim i))
  /\ (Dimensions.size (var_dimensions var) dim = inr n -> 0 <= i < n ->
      exists p, slice_index var dim i = inr p /\ is_index p var dim i).
Proof.
  intros Hwf. split.
  - intros Hc. unfold slice_index.
    assert (exists e, Dimensions.erase (var_dimensions var) dim = inl e) as [e ->];
      [|by exists e].
    induction (var_dimensions var) as [|[l m] d IH]; simpl in *; [by eexists|].
    destruct (decide (l = dim)); [done|]. destruct (IH Hc) as [e ->]. by exists e.
  - apply slice_index_is_index, Hwf.
Qed.

Lemma slice_index_spec_witness :
  wf_variable sample_ab
  /\ Dimensions.size (var_dimensions sample_ab) Dim.Y = inr 2 /\ 0 <= 1 < 2
  /\ exists p, slice_index sample_ab Dim.Y 1 = inr p /\ is_index p sample_ab Dim.Y 1.
Proof.
  assert (wf_variable sample_ab) as Hwf by solve_wf.
  split; [exact Hwf|]. split; [reflexivity|]. split; [lia|].
  apply (proj2 (slice_index_spec sample_ab Dim.Y 1 2 Hwf)); [reflexivity | lia].
Defined.

Lemma setSlice_copy (v s : variable) (dim : Dim.t) (i n : Z) :
  wf_variable v -> wf_variable s -> dtype (m_object v) = dtype (m_object s) ->
  m_unit v = m_unit s ->
  Dimensions.size (var_dimensions v) dim = inr n -> 0 <= i < n ->
  fills_index s v dim ->
  exists out,
    setSlice false v s dim i = inr out
    /\ wf_variable out
    /\ m_tag out = m_tag v /\ m_unit out = m_unit v /\ m_name out = m_name v
    /\ dtype (m_object out) = dtype (m_object v)
    /\ var_dimensions out = var_dimensions v
    /\ forall c, in_box (var_dimensions v) c ->
         var_element out c
         = if decide (c dim = i) then var_element s c else var_element v c.
Proof.
  intros Hwf Hwfs Hk Hu Hs Hi Hfill.
  pose proof (wf_variable_dims _ Hwf) as Hd. pose proof (wf_variable_dims _ Hwfs) as Hds.
  assert (Dimensions.contains (var_dimensions s) dim = false) as Hnc.
  { destruct (Dimensions.contains (var_dimensions s) dim) eqn:Hc; [|done].
    apply contains_size in Hc as [m Hm]. rewrite Hfill, size_erased_self in Hm. done. }
  unfold setSlice. rewrite bool_decide_eq_true_2 by done. cbn [negb].
  assert (Dimensions.contains_dims (var_dimensions v) (var_dimensions s) = true) as ->.
  { unfold Dimensions.contains_dims. apply forallb_forall.
    intros [l m] Hin%list_elem_of_In. apply bool_decide_eq_true_2.
    apply (elem_of_size _ _ _ (proj1 Hds)) in Hin. rewrite Hfill in Hin.
    apply size_elem_of in Hin. by apply elem_of_erased in Hin as [Hin _]. }
  cbn [negb].
  destruct (Concept_copy_spec (m_object v) (m_object s) dim i 0 1 n)
    as (obj & Hcopy & Hwfobj & Hkobj & Hdobj & Hel); try done; try lia.
  { intros l Hne. fold (var_dimensions s) (var_dimensions v).
    rewrite Hfill. by apply size_erased. }
  { fold (var_dimensions s). rewrite (size_not_contains _ _ Hnc). lia. }
  rewrite Hcopy. cbn [bind]. eexists. split; [reflexivity|].
  unfold wf_variable, var_dimensions, var_element. simpl.
  split; [done|]. split; [done|]. split; [done|]. split; [done|].
  split; [done|]. split; [done|].
  intros c Hc. rewrite (Hel c Hc).
  destruct (decide (c dim = i)) as [->|Hne].
  - rewrite decide_True by lia. apply concept_element_ext.
    intros l Hl. unfold update. destruct (decide (l = dim)) as [->|]; [|done].
    exfalso. apply contains_elem_of in Hl.
    fold (var_dimensions s) in Hl. congruence.
  - by rewrite decide_False by lia.
Qed.

(** X3: [v.setSlice(s, dim, i)] for a Variable [s] of its own, with the
    unit and element type of [v] and with the labels and extents of [v]
    other than [dim], and an index [0 <= i < n] of the extent [n] of [dim]:
    the Variable keeps its tag, unit, name and dimensions, its elements
    with the index [i] along [dim] become those of [s], and all others are
    kept.  With another unit the call ends with an exception. *)
Theorem setSlice_spec (v s : variable) (dim : Dim.t) (i n : Z) :
  wf_variable v -> wf_variable s -> dtype (m_object v) = dtype (m_object s) ->
  Dimensions.size (var_dimensions v) dim = inr n -> 0 <= i < n ->
  fills_index s v dim ->
  (m_unit v <> m_unit s ->
   setSlice false v s dim i
   = inl (runtime_error "Cannot set slice: Units do not match."))
  /\ (m_unit v = m_unit s ->
      exists out,
        setSlice false v s dim i = inr out
        /\ wf_variable out
        /\ m_tag out = m_tag v /\ m_unit out = m_unit v /\ m_name out = m_name v
        /\ var_dimensions out = var_dimensions v
        /\ forall c, in_box (var_dimensions v) c ->
             var_element out c
             = if decide (c dim = i) then var_element s c else var_element v c).
Proof.
  intros Hwf Hwfs Hk Hs Hi Hfill. split.
  - intros Hu. unfold setSlice. by rewrite bool_decide_eq_false_2.
  - intros Hu.
    destruct (setSlice_copy v s dim i n) as (out & H1 & H2 & H3 & H4 & H5 & _ & H6 & H7);
      try done.
    by exists out.
Qed.

Lemma setSlice_spec_witness :
  wf_variable sample_ab /\ wf_variable sample_a
  /\ Dimensions.size (var_dimensions sample_ab) Dim.Y = inr 2 /\ 0 <= 1 < 2
  /\ fills_index sample_a sample_ab Dim.Y
  /\ exists out, setSlice false sample_ab sample_a Dim.Y 1 = inr out
       /\ var_dimensions out = var_dimensions sample_ab.
Proof.
  assert (wf_variable sample_ab) as Hwf by solve_wf.
  assert (wf_variable sample_a) as Hwfs by solve_wf.
  assert (fills_index sample_a sample_ab Dim.Y) as Hfill by (intros l; reflexivity).
  split; [exact Hwf|]. split; [exact Hwfs|]. split; [reflexivity|]. split; [lia|].
  split; [exact Hfill|].
  destruct (proj2 (setSlice_spec sample_ab sample_a Dim.Y 1 2 Hwf Hwfs eq_refl eq_refl
                     (conj (Z.le_0_1) (Z.lt_1_2)) Hfill) eq_refl)
    as (out & Hout & _ & _ & _ & _ & Hd & _).
  exists out. split; [exact Hout | exact Hd].
Defined.

(** X4: a slice written with [setSlice] is read back by
    [slice(., dim, i)]: for [s] with the dimensions of [v] without [dim],
    the Variable read back has the data of [s] (with the tag and name of
    [v]); and writing back the slice that was read gives [v] again. *)
Theorem setSlice_slice_round_trip (v s : variable) (dim : Dim.t) (i n : Z) :
  wf_variable v -> Dimensions.size (var_dimensions v) dim = inr n -> 0 <= i < n ->
  (wf_variable s -> dtype (m_object v) = dtype (m_object s) -> m_unit v = m_unit s ->
   var_dimensions s = erased (var_dimensions v) dim ->
   exists out p,
     setSlice false v s dim i = inr out
     /\ slice_index out dim i = inr p
     /\ p = mkVariable (m_tag v) (m_unit s) (m_name v) (m_object s))
  /\ (exists p, slice_index v dim i = inr p /\ setSlice false v p dim i = inr v).
Proof.
  intros Hwf Hs Hi. split.
  - intros Hwfs Hk Hu Hds.
    destruct (setSlice_copy v s dim i n) as (out & Hset & Hwfo & Ht & Hu' & Hn & Hko & Hdo & Hel);
      try done.
    { intros l. by rewrite Hds. }
    destruct (slice_index_is_index out dim i n) as (p & Hp & Hwfp & Htp & Hup & Hnp & Hkp & Hdp & Help);
      try done.
    { by rewrite Hdo. }
    exists out, p. split; [done|]. split; [done|].
    apply variable_ext; simpl; try congruence.
    { exact Hwfs. }
    { rewrite Hdp, Hdo. symmetry. exact Hds. }
    intros c Hc. rewrite (Help c Hc).
    change (var_element (mkVariable (m_tag v) (m_unit s) (m_name v) (m_object s)) c)
      with (var_element s c).
    assert (in_box (var_dimensions v) (update c dim i)) as Hbox.
    { rewrite Hdp, Hdo in Hc. apply Forall_forall. intros [l m] Hin. cbn [fst snd].
      destruct (decide (l = dim)) as [->|Hne].
      - rewrite update_eq. apply (elem_of_size _ _ _ (proj1 (wf_variable_dims _ Hwf))) in Hin.
        rewrite Hs in Hin. by injection Hin as <-.
      - rewrite update_ne by done.
        apply (proj1 (Forall_forall _ _) Hc (l, m)). by apply elem_of_erased. }
    rewrite (Hel _ Hbox), update_eq, decide_True by done.
    apply var_element_ext. intros l Hl. apply update_ne. intros ->.
    rewrite Hds in Hl. by apply not_elem_of_labels_erased in Hl.
  - destruct (slice_index_is_index v dim i n) as (p & Hp & Hwfp & Htp & Hup & Hnp & Hkp & Hdp & Help);
      try done.
    exists p. split; [done|].
    destruct (setSlice_copy v p dim i n) as (out & Hset & Hwfo & Ht & Hu' & Hn & Hko & Hdo & Hel);
      try done.
    { intros l. by rewrite Hdp. }
    rewrite Hset. f_equal. apply variable_ext; try done.
    intros c Hc. rewrite Hdo in Hc. rewrite (Hel c Hc).
    destruct (decide (c dim = i)) as [<-|Hne]; [|done].
    rewrite Help.
    + apply var_element_ext. intros l _. apply update_same.
    + rewrite Hdp. by apply in_box_erased.
Qed.

Lemma setSlice_slice_round_trip_witness :
  wf_variable sample_ab
  /\ Dimensions.size (var_dimensions sample_ab) Dim.Y = inr 2 /\ 0 <= 0 < 2
  /\ exists p, slice_index sample_ab Dim.Y 0 = inr p
       /\ setSlice false sample_ab p Dim.Y 0 = inr sample_ab.
Proof.
  assert (wf_variable sample_ab) as Hwf by solve_wf.
  split; [exact Hwf|]. split; [reflexivity|]. split; [lia|].
  apply (proj2 (setSlice_slice_round_trip sample_ab sample_a Dim.Y 0 2 Hwf eq_refl
                  (conj (Z.le_refl 0) Z.lt_0_2))).
Defined.

(** ** Element-wise arithmetic with broadcasting *)

Section ApplyElementwise.
Context {T : Type} (this other : VariableConceptT T).

Let D := dimensions this.
Let O := dimensions other.

Hypothesis Hthis : wf_model this.
Hypothesis Hother : wf_model other.
Hypothesis Hcontains : Dimensions.contains_dims D O = true.

(** All paths of [apply] hand the same two ranges to the helper. *)
Lemma apply_elementwise_unfold helper :
  apply helper this other
  = helper this other (VariableView.offsets 0 D D) (VariableView.offsets 0 D O).
Proof.
  destruct Hthis as (Hv & HD & Hlen). destruct Hother as (Hv' & HO & Hlen').
  fold D in HD, Hlen. fold O in HO, Hlen'.
  unfold apply. fold D O. rewrite Hcontains.
  unfold isContiguous. rewrite Hv, Hv'. cbn [andb].
  assert (getSpan this = inr (VariableView.offsets 0 D D)) as ->.
  { unfold getSpan, getSpan_const, size. rewrite Hv. rewrite offsets_full by done.
    by rewrite Hlen. }
  assert (getView_const other D = inr (VariableView.offsets 0 D O)) as ->.
  { unfold getView_const, VariableView.makeVariableView. rewrite Hv'. fold O.
    by rewrite contains_dims_fits by (done || apply HD). }
  cbn [bind].
  destruct (Dimensions.isContiguousIn D O) eqn:Hcont; [|done].
  assert (D = O) as Heq by (apply contains_contiguous_eq; (done || apply HD || apply HO)).
  unfold getSpan_const, size. rewrite Hv'. cbn [bind].
  cbn [bind ret]. rewrite Hlen', <- Heq. by rewrite offsets_full.
Qed.

(** The pair of positions that reaches the cell [c]. *)
Lemma elementwise_pairs c :
  in_box D c ->
  filter (fun pq : Z * Z => Z.to_nat pq.1 = Z.to_nat (flat D c))
         (zip (VariableView.offsets 0 D D) (VariableView.offsets 0 D O))
  = [(flat D c, flat O c)].
Proof.
  intros Hc. destruct Hthis as (_ & HD & _). destruct Hother as (_ & HO & _).
  fold D in HD. fold O in HO.
  assert (forall c', flat D (restrict (Dimensions.labels D) c') = flat D c') as HDc.
  { intros c'. apply flat_ext. intros l Hl. unfold restrict. by rewrite decide_True. }
  assert (forall c', flat O (restrict (Dimensions.labels D) c') = flat O c') as HOc.
  { intros c'. apply flat_ext. intros l Hl. unfold restrict.
    rewrite decide_True; [done|]. by apply (contains_dims_labels D O). }
  apply Permutation_singleton_r, NoDup_Permutation.
  - apply NoDup_filter, NoDup_zip_l. rewrite offsets_full by done. apply NoDup_seqZ.
  - apply NoDup_singleton.
  - intros [p q]. rewrite list_elem_of_filter, list_elem_of_singleton. simpl.
    rewrite (elem_of_zip_offsets D D O 0 0 p q (proj1 HD) (proj1 HD) (proj1 HO)).
    split.
    + intros (Hp & c' & Hc' & -> & ->). rewrite !Z.add_0_l, HDc, HOc in *.
      pose proof (flat_bounds D c Hc). pose proof (flat_bounds D c' Hc').
      assert (flat D c' = flat D c) as Hflat by lia.
      pose proof (flat_inj D c' c Hc' Hc Hflat) as Hagree.
      f_equal; [done|]. apply flat_ext. intros l Hl. apply Hagree.
      by apply (contains_dims_labels D O).
    + intros [= -> ->]. split; [done|]. exists c. by rewrite !Z.add_0_l, HDc, HOc.
Qed.

(** [this op= other] between two owning models, where every label of
    [other] is a label of [this] with the same extent: every cell of
    [this] is combined with the cell of [other] at the same position. *)
Lemma apply_elementwise (op : T -> T -> T) :
  exists model,
    apply (ArithmeticHelper_apply op) this other = inr (with_model this model)
    /\ length model = length (m_model this)
    /\ forall c, in_box D c ->
         exists x y,
           m_model this !! Z.to_nat (flat D c) = Some x
           /\ m_model other !! Z.to_nat (flat O c) = Some y
           /\ model !! Z.to_nat (flat D c) = Some (op x y).
Proof.
  rewrite apply_elementwise_unfold.
  pose proof Hthis as (Hv & HD & Hlen). pose proof Hother as (Hv' & HO & Hlen').
  fold D in HD, Hlen. fold O in HO, Hlen'.
  destruct (std_transform_spec op (m_model other) (VariableView.offsets 0 D D)
              (VariableView.offsets 0 D O) (m_model this))
    as (model & Ht & Hl & Hel).
  - apply length_zip_offsets.
  - intros p Hp. rewrite offsets_full in Hp by done. apply elem_of_seqZ in Hp. lia.
  - intros q (c & Hc & ->)%elem_of_offsets; [|apply HD|apply HO].
    rewrite Z.add_0_l, Hlen'. apply flat_bounds.
    apply (contains_dims_in_box D O _ Hcontains).
    eapply in_box_ext; [|exact Hc]. intros l Hl. unfold restrict. by rewrite decide_True.
  - exists model. split; [unfold ArithmeticHelper_apply; by rewrite Ht|].
    split; [done|]. intros c Hc.
    pose proof (flat_bounds D c Hc) as Hb.
    pose proof (flat_bounds O c (contains_dims_in_box D O c Hcontains Hc)) as Hb'.
    destruct (lookup_lt_is_Some_2 (m_model this) (Z.to_nat (flat D c))) as [x Hx]; [lia|].
    destruct (lookup_lt_is_Some_2 (m_model other) (Z.to_nat (flat O c))) as [y Hy]; [lia|].
    exists x, y. split; [done|]. split; [done|].
    rewrite (Hel _ x Hx). f_equal. unfold contributions.
    rewrite (omap_filter (fun pq : Z * Z => Z.to_nat pq.1 = Z.to_nat (flat D c))
               (fun pq : Z * Z => m_model other !! Z.to_nat pq.2)).
    rewrite (elementwise_pairs c Hc). simpl. by rewrite Hy.
Qed.

End ApplyElementwise.

Lemma Concept_apply_elementwise (op : Op) (this other : VariableConcept) :
  wf_concept this -> wf_concept other -> dtype this = dtype other ->
  dtype this <> dtype_string ->
  Dimensions.contains_dims (Concept.dimensions this) (Concept.dimensions other) = true ->
  exists r,
    Concept.apply op this other = inr r
    /\ wf_concept r /\ dtype r = dtype this
    /\ Concept.dimensions r = Concept.dimensions this
    /\ forall c, in_box (Concept.dimensions this) c ->
         concept_element r c
         = Element_op op (concept_element this c) (concept_element other c).
Proof.
  destruct this as [a|a|a], other as [o|o|o]; simpl; intros Ha Ho Hk Hns Hc;
    try discriminate; try done;
    destruct (apply_elementwise a o Ha Ho Hc (Op_fun op)) as (model & Happly & Hlen & Hel);
    (eexists; split; [rewrite Happly; reflexivity|]);
    (split; [by apply wf_with_model|]); (split; [done|]); (split; [done|]);
    intros c Hc'; destruct (Hel c Hc') as (x & y & Hx & Hy & Hm);
    simpl; unfold element; simpl; by rewrite Hx, Hy, Hm.
Qed.

Lemma Concept_apply_kind_mismatch (op : Op) (this other : VariableConcept) :
  dtype this <> dtype other ->
  Concept.apply op this other
  = inl (runtime_error "Cannot apply arithmetic operation to Variables: Underlying data types do not match.").
Proof. by destruct this, other. Qed.

Lemma apply_data_elementwise (op : Op) (a b : variable) :
  wf_variable a -> wf_variable b -> dtype (m_object a) = dtype (m_object b) ->
  dtype (m_object a) <> dtype_string ->
  Dimensions.contains_dims (var_dimensions a) (var_dimensions b) = true ->
  exists r, apply_data op a b = (r, None)
    /\ is_elementwise op r a b /\ m_unit r = m_unit a
    /\ dtype (m_object r) = dtype (m_object a).
Proof.
  intros Ha Hb Hk Hns Hc.
  destruct (Concept_apply_elementwise op (m_object a) (m_object b))
    as (r & Happly & Hwf & Hkr & Hdr & Hel); try done.
  unfold apply_data. simpl. rewrite Happly. eexists. split; [reflexivity|].
  unfold is_elementwise, wf_variable, var_dimensions, var_element. simpl. done.
Qed.

(** X5: [a += b] and [a -= b] for two numeric Variables of the same
    element type and unit, where every label of [b] is a label of [a] with
    the same extent (in any order; [a] may have more labels) and [a] does
    not hold event lists or tables: the operation returns, [a] keeps its
    tag, unit, name and dimensions, and its element at every position is
    combined with the element of [b] at that position in the arithmetic of
    the element type ([double], or [int64] with wrap-around), [b] being
    repeated along the labels it lacks.  [a + b] and [a - b] return this
    Variable. *)
Theorem plus_minus_elementwise (a b : variable) :
  wf_variable a -> wf_variable b -> dtype (m_object a) = dtype (m_object b) ->
  dtype (m_object a) <> dtype_string ->
  m_unit a = m_unit b ->
  Dimensions.contains_dims (var_dimensions a) (var_dimensions b) = true ->
  m_tag a <> Tag.Data_Events -> m_tag a <> Tag.Data_Table ->
  (exists r, plus_equals a b = Some (r, None) /\ Variable_plus a b = Some (inr r)
     /\ is_elementwise std_plus r a b /\ m_unit r = m_unit a)
  /\ (exists r, minus_equals a b = (r, None) /\ Variable_minus a b = inr r
        /\ is_elementwise std_minus r a b /\ m_unit r = m_unit a).
Proof.
  intros Ha Hb Hk Hns Hu Hc He Ht. split.
  - destruct (apply_data_elementwise std_plus a b) as (r & Hr & Hel & Hur & _); try done.
    assert (plus_equals a b = Some (r, None)) as Hplus.
    { unfold plus_equals, valueTypeIs. simpl.
      rewrite bool_decide_eq_true_2 by done.
      rewrite !bool_decide_eq_false_2 by done. cbn [negb andb]. by rewrite Hc, Hr. }
    exists r. unfold Variable_plus. by rewrite Hplus.
  - destruct (apply_data_elementwise std_minus a b) as (r & Hr & Hel & Hur & _); try done.
    assert (minus_equals a b = (r, None)) as Hminus.
    { unfold minus_equals, valueTypeIs. simpl.
      rewrite bool_decide_eq_true_2 by done. cbn [negb]. rewrite Hc.
      by rewrite bool_decide_eq_false_2 by done. }
    exists r. unfold Variable_minus. by rewrite Hminus.
Qed.

Lemma plus_minus_elementwise_witness :
  wf_variable sample_ab /\ wf_variable sample_a
  /\ Dimensions.contains_dims (var_dimensions sample_ab) (var_dimensions sample_a) = true
  /\ exists r, Variable_plus sample_ab sample_a = Some (inr r)
       /\ is_elementwise std_plus r sample_ab sample_a.
Proof.
  assert (wf_variable sample_ab) as Ha by solve_wf.
  assert (wf_variable sample_a) as Hb by solve_wf.
  split; [exact Ha|]. split; [exact Hb|]. split; [reflexivity|].
  destruct (proj1 (plus_minus_elementwise sample_ab sample_a Ha Hb eq_refl
                     ltac:(discriminate) eq_refl eq_refl
                     ltac:(discriminate) ltac:(discriminate)))
    as (r & _ & Hr & Hel & _).
  exists r. split; [exact Hr | exact Hel].
Defined.

(** [a *= b] position by position. *)
Lemma times_elementwise_aux (a b : variable) :
  wf_variable a -> wf_variable b -> dtype (m_object a) = dtype (m_object b) ->
  dtype (m_object a) <> dtype_string ->
  Dimensions.contains_dims (var_dimensions a) (var_dimensions b) = true ->
  m_tag a <> Tag.Data_Events ->
  exists r, times_equals a b = (r, None) /\ Variable_times a b = inr r
    /\ is_elementwise std_multiplies r a b
    /\ m_unit r = Unit.mul (m_unit a) (m_unit b).
Proof.
  intros Ha Hb Hk Hns Hc He.
  destruct (apply_data_elementwise std_multiplies
              (setUnit a (Unit.mul (m_unit a) (m_unit b))) b)
    as (r & Hr & Hel & Hur & _); try done.
  assert (times_equals a b = (r, None)) as Htimes.
  { unfold times_equals, valueTypeIs. simpl. rewrite Hc. cbn [negb].
    by rewrite bool_decide_eq_false_2 by done. }
  exists r. unfold Variable_times. rewrite Htimes. done.
Qed.


(** X6: [a *= b] for two numeric Variables of the same element type,
    where every label of [b] is a label of [a] with the same extent and
    [a] does not hold event lists: the operation returns, the unit of [a]
    becomes the product of the two units, [a] keeps its tag, name and
    dimensions, and its element at every position is multiplied by the
    element of [b] at that position in the arithmetic of the element type
    ([double], or [int64] with wrap-around).  [a * b] returns this
    Variable. *)
Theorem times_elementwise (a b : variable) :
  wf_variable a -> wf_variable b -> dtype (m_object a) = dtype (m_object b) ->
  dtype (m_object a) <> dtype_string ->
  Dimensions.contains_dims (var_dimensions a) (var_dimensions b) = true ->
  m_tag a <> Tag.Data_Events ->
  exists r, times_equals a b = (r, None) /\ Variable_times a b = inr r
    /\ is_elementwise std_multiplies r a b
    /\ m_unit r = Unit.mul (m_unit a) (m_unit b).
Proof. apply times_elementwise_aux. Qed.

Lemma times_elementwise_witness :
  wf_variable sample_ab /\ wf_variable sample_a
  /\ Dimensions.contains_dims (var_dimensions sample_ab) (var_dimensions sample_a) = true
  /\ exists r, Variable_times sample_ab sample_a = inr r
       /\ m_unit r = Unit.mul Unit.m Unit.m.
Proof.
  assert (wf_variable sample_ab) as Ha by solve_wf.
  assert (wf_variable sample_a) as Hb by solve_wf.
  split; [exact Ha|]. split; [exact Hb|]. split; [reflexivity|].
  destruct (times_elementwise sample_ab sample_a Ha Hb eq_refl
              ltac:(discriminate) eq_refl ltac:(discriminate))
    as (r & _ & Hr & _ & Hu).
  exists r. split; [exact Hr | exact Hu].
Defined.

(** ** [mean] *)

Lemma Unit_mul_dimensionless (u : Unit.t) : Unit.mul u Unit.dimensionless = u.
Proof. destruct u. unfold Unit.mul. simpl. f_equal; lia. Qed.

(** X7: [mean(var, dim)] for a dimension [dim] of [var] with the extent
    [n].  For a Variable of element type [double] it returns a Variable
    with the tag, unit and name of [var] and its dimensions without [dim],
    in which every element is the sum of the elements of [var] along
    [dim], added to zero in the order of the index, times the [double]
    [1.0 / n]; sum, quotient and product are those of [double] and are
    rounded.  For a Variable of element type [int64] it ends with the
    exception for mismatching element types, since the scale is a Variable
    of element type [double]. *)
Theorem mean_spec (var : variable) (dim : Dim.t) (n : Z) :
  wf_variable var -> Dimensions.size (var_dimensions var) dim = inr n ->
  m_tag var <> Tag.Data_Events ->
  let E := erased (var_dimensions var) dim in
  (dtype (m_object var) = dtype_double ->
   exists r,
     mean var dim = inr r
     /\ wf_variable r /\ var_dimensions r = E
     /\ m_tag r = m_tag var /\ m_unit r = m_unit var /\ m_name r = m_name var
     /\ forall e, in_box E e ->
          var_element r e
          = Element_op std_multiplies
              (sum_over dtype_double (fun k => var_element var (update e dim k)) n)
              (Some (Element_double (PrimFloat.div 1 (double_of_index n)))))
  /\ (dtype (m_object var) = dtype_int64 ->
      mean var dim
      = inl (runtime_error "Cannot apply arithmetic operation to Variables: Underlying data types do not match.")).
Proof.
  intros Hwf Hs Htag. cbv zeta.
  set (scale := mkVariable Tag.Data_Value Unit.dimensionless ""
                  (Concept_double
                     (mkConcept [] [PrimFloat.div 1 (double_of_index n)] None))).
  assert (wf_variable scale) as Hscale.
  { split; [done|]. split; [apply wf_dims_nil | done]. }
  split; intros Hk.
  - destruct (sum_elements var dim n)
      as (_ & s & _ & _ & Hsum & Hwfs & _ & Hds & Hus & Hts & Hns & Hks & Hel & _);
      [done | congruence | done |].
    destruct (times_elementwise_aux s scale) as (r & _ & Hr & (Hwfr & Htr & Hnr & Hdr & Helr) & Hur);
      try done; try congruence.
    { rewrite Hks, Hk. done. }
    exists r. unfold mean. rewrite Hsum, Hs. cbn [bind]. fold scale.
    split; [by rewrite Hr|]. split; [done|]. split; [congruence|].
    split; [congruence|]. split; [by rewrite Hur, Unit_mul_dimensionless|].
    split; [congruence|].
    intros e He. rewrite Helr by (by rewrite Hds). rewrite Hel by done.
    by rewrite Hk.
  - destruct (sum_elements var dim n)
      as (_ & s & _ & _ & Hsum & Hwfs & _ & Hds & Hus & Hts & Hns & Hks & Hel & _);
      [done | congruence | done |].
    unfold mean. rewrite Hsum, Hs. cbn [bind]. fold scale.
    unfold Variable_times, times_equals, valueTypeIs. simpl.
    rewrite bool_decide_eq_false_2 by congruence.
    unfold apply_data. simpl. rewrite Concept_apply_kind_mismatch; [done|].
    rewrite Hks, Hk. done.
Qed.

(** The mean of [[1, 2, 4]] is [7 * (1 / 3)] in [double]. *)
Lemma mean_spec_witness :
  wf_variable sample_grid
  /\ Dimensions.size (var_dimensions sample_grid) Dim.X = inr 2
  /\ (exists r, mean sample_grid Dim.X = inr r
        /\ var_dimensions r = [(Dim.Y, 2)])
  /\ (exists r, mean sample_124 Dim.X = inr r
        /\ values_double r = [0x1.2aaaaaaaaaaaap+1]%float
        /\ values_double r <> [0x1.2aaaaaaaaaaabp+1]%float).
Proof.
  assert (wf_variable sample_grid) as Hwf by solve_wf.
  split; [exact Hwf|]. split; [reflexivity|]. split.
  - destruct (proj1 (mean_spec sample_grid Dim.X 2 Hwf eq_refl
                       ltac:(discriminate)) eq_refl)
      as (r & Hr & _ & Hd & _).
    exists r. split; [exact Hr | exact Hd].
  - eexists. split; [reflexivity|]. split; [reflexivity | discriminate].
Defined.

(** ** [filter] *)

(** The loop that copies the rows [indices] of [var] to the positions
    [i], [i + 1], ... of a buffer with the extent [m] along [dim]. *)
Lemma copy_rows_spec (var : variable) (dim : Dim.t) (n m : Z) :
  wf_variable var -> Dimensions.size (var_dimensions var) dim = inr n ->
  forall indices i permuted,
    wf_concept permuted -> dtype permuted = dtype (m_object var) ->
    Concept.dimensions permuted = resized (var_dimensions var) dim m ->
    0 <= i -> i + Z.of_nat (length indices) <= m ->
    Forall (fun index => 0 <= index < n) indices ->
    exists r, permute_for var dim i indices permuted = inr r
      /\ wf_concept r /\ dtype r = dtype (m_object var)
      /\ Concept.dimensions r = resized (var_dimensions var) dim m
      /\ forall c, in_box (resized (var_dimensions var) dim m) c ->
           concept_element r c
           = match (if decide (i <= c dim) then indices !! Z.to_nat (c dim - i) else None) with
             | Some index => var_element var (update c dim index)
             | None => concept_element permuted c
             end.
Proof.
  intros Hwf Hs. pose proof (size_contains _ _ _ Hs) as Hc.
  induction indices as [|index indices IH];
    intros i permuted Hwfp Hk Hd Hi Hlen Hrange.
  - exists permuted. repeat split; try done. intros c _. by case_decide.
  - apply Forall_cons in Hrange as [Hindex Hrange]. rewrite length_cons in Hlen.
    destruct (Concept_copy_spec permuted (m_object var) dim i index (index + 1) m)
      as (p' & Hcopy & Hwfp' & Hkp' & Hdp' & Hel); try done; try lia.
    { by rewrite Hd, size_resized, decide_True, Hc. }
    { intros l Hne. rewrite Hd. fold (var_dimensions var).
      by rewrite size_resized, decide_False. }
    { fold (var_dimensions var). rewrite Hs. lia. }
    destruct (IH (i + 1) p') as (r & Hr & Hwfr & Hkr & Hdr & Helr);
      try done; try lia; try congruence.
    exists r. split; [simpl; by rewrite Hcopy|]. repeat split; try done.
    intros c Hcb. rewrite (Helr c Hcb). rewrite Hd in Hel.
    destruct (decide (i + 1 <= c dim)) as [Hgt|Hle].
    + rewrite decide_True by lia.
      replace (Z.to_nat (c dim - i)) with (S (Z.to_nat (c dim - (i + 1)))) by lia.
      simpl. destruct (indices !! Z.to_nat (c dim - (i + 1))); [done|].
      rewrite (Hel c Hcb). by rewrite decide_False by lia.
    + rewrite (Hel c Hcb). destruct (decide (i <= c dim)) as [Hge|Hlt].
      * rewrite decide_True by lia. replace (c dim - i) with 0 by lia. simpl.
        apply var_element_ext. intros l _. unfold update.
        destruct (decide (l = dim)); [lia | done].
      * by rewrite decide_False by lia.
Qed.

(** The loop of [filter] copies the rows whose mask entry is not 0. *)
Lemma filter_for_kept (var : variable) (dim : Dim.t) (mask : list Z) :
  forall iIn iOut out,
    filter_for var dim mask iIn iOut out
    = permute_for var dim iOut (kept_from iIn mask) out.
Proof.
  induction mask as [|m mask IH]; intros iIn iOut out; [done|]. simpl.
  destruct (decide (m = 0)) as [->|Hne].
  - simpl. apply IH.
  - rewrite (proj2 (Z.eqb_neq m 0)) by done. simpl.
    destruct (Concept.copy out (m_object var) dim iOut iIn (iIn + 1)); [done|].
    cbn [bind]. apply IH.
Qed.

Lemma length_kept_from (i : Z) (mask : list Z) :
  (length (kept_from i mask) + count_occ Z.eq_dec mask 0%Z = length mask)%nat.
Proof.
  revert i. induction mask as [|m mask IH]; intros i; [done|]. simpl.
  destruct (Z.eq_dec m 0) as [->|Hne].
  - rewrite decide_True by done. specialize (IH (i + 1)). lia.
  - rewrite decide_False by done. simpl. specialize (IH (i + 1)). lia.
Qed.

Lemma kept_from_range (i : Z) (mask : list Z) :
  Forall (fun k => i <= k < i + Z.of_nat (length mask)) (kept_from i mask).
Proof.
  revert i. induction mask as [|m mask IH]; intros i; [constructor|]. simpl.
  assert (Forall (fun k => i <= k < i + Z.of_nat (S (length mask)))
            (kept_from (i + 1) mask)) as Hrest.
  { eapply Forall_impl; [apply IH|]. simpl. intros k Hk. lia. }
  case_decide; [done|]. constructor; [lia | done].
Qed.

(** Without an entry 0 every index is kept. *)
Lemma kept_from_all (i : Z) (mask : list Z) :
  count_occ Z.eq_dec mask 0 = 0%nat ->
  kept_from i mask = seqZ i (Z.of_nat (length mask)).
Proof.
  revert i. induction mask as [|m mask IH]; intros i Hcount; [done|]. simpl in *.
  destruct (Z.eq_dec m 0) as [->|Hne]; [done|]. rewrite decide_False by done.
  rewrite IH by done.
  replace (Z.of_nat (S (length mask))) with (Z.succ (Z.of_nat (length mask))) by lia.
  rewrite (seqZ_cons i) by lia. f_equal. f_equal; lia.
Qed.

(** X8: [filter(var, mask)] for a mask along one dimension [dim] with as
    many entries as the extent of [var] along [dim]: the result has the
    tag, unit and name of [var], the number of entries of the mask that
    are not 0 as its extent along [dim], and, at the position [j] along
    [dim], the elements of [var] at the index of the [j]-th such entry;
    the rows that are kept stay in their order.  A mask with another
    number of dimensions than one ends with an exception. *)
Theorem filter_spec (var : variable) (mask : MaskVariable) (dim : Dim.t) (n : Z) :
  wf_variable var ->
  (Dimensions.count (mask_dimensions mask) <> 1 ->
   Variable_filter var mask
   = inl (runtime_error "Cannot filter variable: The filter must by 1-dimensional."))
  /\ (mask_dimensions mask = [(dim, n)] ->
      Dimensions.size (var_dimensions var) dim = inr n ->
      Z.of_nat (length (mask_values mask)) = n ->
      let rows := kept (mask_values mask) in
      exists out,
        Variable_filter var mask = inr out
        /\ wf_variable out
        /\ m_tag out = m_tag var /\ m_unit out = m_unit var /\ m_name out = m_name var
        /\ var_dimensions out
           = resized (var_dimensions var) dim (Z.of_nat (length rows))
        /\ forall c k, in_box (var_dimensions out) c ->
             rows !! Z.to_nat (c dim) = Some k ->
             var_element out c = var_element var (update c dim k)).
Proof.
  intros Hwf. split.
  - intros Hcount. unfold Variable_filter.
    by rewrite (proj2 (Z.eqb_neq _ 1)) by done.
  - intros Hmd Hs Hlen. cbv zeta.
    pose proof (wf_variable_dims _ Hwf) as Hd.
    pose proof (size_contains _ _ _ Hs) as Hc.
    pose proof (length_kept_from 0 (mask_values mask)) as Hkept.
    fold (kept (mask_values mask)) in Hkept.
    unfold Variable_filter. rewrite Hmd. simpl.
    change (Dimensions.label [(dim, n)] 0) with dim.
    destruct (Z.eqb_spec (Z.of_nat (count_occ Z.eq_dec (mask_values mask) 0)) 0)
      as [Hzero|Hremoved].
    + exists var.
      assert (kept (mask_values mask) = seqZ 0 n) as Hall.
      { unfold kept. rewrite kept_from_all by lia. by rewrite Hlen. }
      rewrite Hall, length_seqZ, Z2Nat.id by lia.
      rewrite resized_id by (done || apply Hd).
      repeat split; try done.
      intros c k Hcb Hk. apply lookup_seqZ in Hk as [-> _].
      apply var_element_ext. intros l _. unfold update.
      pose proof (in_box_size _ _ _ _ Hcb Hs).
      destruct (decide (l = dim)) as [->|]; [lia | done].
    + rewrite Hs. cbn [bind].
      replace (n - Z.of_nat (count_occ Z.eq_dec (mask_values mask) 0))
        with (Z.of_nat (length (kept (mask_values mask)))) by lia.
      set (m := Z.of_nat (length (kept (mask_values mask)))).
      rewrite resized_resize; [|apply Hd | done | lia]. cbn [bind].
      assert (wf_dims (resized (var_dimensions var) dim m)) as HD'
        by (apply wf_resized; [done | lia]).
      destruct (setDimensions_spec var _ Hwf HD' (perm_resized _ _ _ (proj1 Hd)))
        as (out & Hset & Hwfo & Hdo & Hko & Hto & Huo & Hno & _).
      rewrite Hset. cbn [bind]. rewrite filter_for_kept.
      fold (kept (mask_values mask)).
      destruct (copy_rows_spec var dim n m Hwf Hs (kept (mask_values mask)) 0 (m_object out))
        as (r & Hr & Hwfr & Hkr & Hdr & Helr); try done; try lia.
      { eapply Forall_impl; [apply (kept_from_range 0)|]. simpl. intros k Hk. lia. }
      rewrite Hr. cbn [bind]. eexists. split; [reflexivity|].
      unfold wf_variable, var_dimensions, var_element. simpl.
      split; [done|]. split; [done|]. split; [done|]. split; [done|].
      split; [done|].
      intros c k Hcb Hk. rewrite Hdr in Hcb. rewrite (Helr c Hcb).
      assert (0 <= c dim).
      { pose proof (in_box_size _ c dim m Hcb) as H.
        rewrite size_resized, decide_True, Hc in H by done. by apply H. }
      rewrite decide_True by lia. rewrite Z.sub_0_r, Hk. done.
Qed.

Lemma filter_spec_witness :
  wf_variable sample_row
  /\ Dimensions.size (var_dimensions sample_row) Dim.X = inr 4
  /\ exists out, Variable_filter sample_row (mkMask [(Dim.X, 4)] [1; 0; 0; 1]) = inr out
       /\ var_dimensions out = [(Dim.X, 2)].
Proof.
  assert (wf_variable sample_row) as Hwf by solve_wf.
  split; [exact Hwf|]. split; [reflexivity|].
  destruct (proj2 (filter_spec sample_row (mkMask [(Dim.X, 4)] [1; 0; 0; 1]) Dim.X 4 Hwf)
              eq_refl eq_refl eq_refl)
    as (out & Hout & _ & _ & _ & _ & Hd & _).
  exists out. split; [exact Hout | exact Hd].
Defined.

(** ** How [slice], [split], [concatenate] and [permute] compose *)

Lemma in_box_sizes (d : Dimensions.t) (x : coord) :
  NoDup (Dimensions.labels d) ->
  in_box d x <-> forall l m, Dimensions.size d l = inr m -> 0 <= x l < m.
Proof.
  intros Hnd. unfold in_box. rewrite Forall_forall. split.
  - intros H l m Hs. apply size_elem_of in Hs. apply (H (l, m) Hs).
  - intros H [l m] Hin. apply (H l m). by apply elem_of_size.
Qed.

Lemma is_slice_of_slice (p q v : variable) (dim : Dim.t) (a b c d n : Z) :
  wf_variable v -> Dimensions.size (var_dimensions v) dim = inr n ->
  0 <= a -> 0 <= c -> c <= d -> d <= b - a ->
  is_slice p v dim a b -> is_slice q p dim c d -> is_slice q v dim (a + c) (a + d).
Proof.
  intros Hwf Hs Ha Hc Hcd Hd (Hwp & Htp & Hup & Hnp & Hkp & Hdp & Hep)
    (Hwq & Htq & Huq & Hnq & Hkq & Hdq & Heq).
  pose proof (size_contains _ _ _ Hs) as HcD.
  assert (var_dimensions q = resized (var_dimensions v) dim (a + d - (a + c))) as Hdq'.
  { rewrite Hdq, Hdp, resized_resized. f_equal. lia. }
  repeat split; try congruence.
  intros x Hx. rewrite (Heq x Hx). rewrite Hep.
  - apply var_element_ext. intros l _. unfold update.
    destruct (decide (l = dim)) as [->|]; [|done]. rewrite decide_True by done. lia.
  - rewrite Hdq' in Hx. rewrite Hdp. apply in_box_resized. intros l m Hlm.
    pose proof (proj1 (in_box_resized _ _ _ _) Hx _ _ Hlm) as Hbox. unfold update.
    destruct (decide (l = dim)) as [->|]; [lia | done].
Qed.

(** X9: for [0 <= a <= b <= n] and [0 <= c <= d <= b - a], where [n] is
    the extent of [v] along [dim], the range [[c, d)] of the range
    [[a, b)] of [v] is the range [[a + c, a + d)] of [v]: both calls of
    [slice] return, and they return the same Variable. *)
Theorem slice_of_slice (v : variable) (dim : Dim.t) (a b c d n : Z) :
  wf_variable v -> Dimensions.size (var_dimensions v) dim = inr n ->
  0 <= a -> a <= b -> b <= n -> 0 <= c -> c <= d -> d <= b - a ->
  exists p q,
    slice v dim a b = inr p /\ slice p dim c d = inr q
    /\ slice v dim (a + c) (a + d) = inr q.
Proof.
  intros Hwf Hs Ha Hab Hbn Hc Hcd Hd.
  pose proof (size_contains _ _ _ Hs) as HcD.
  destruct (slice_spec v dim a b n) as (p & Hp & Hisp); try done.
  pose proof Hisp as (Hwp & _ & _ & _ & _ & Hdp & _).
  destruct (slice_spec p dim c d (b - a)) as (q & Hq & Hisq); try done.
  { by rewrite Hdp, size_resized, decide_True, HcD. }
  destruct (slice_spec v dim (a + c) (a + d) n) as (q' & Hq' & Hisq'); try done; try lia.
  exists p, q. split; [done|]. split; [done|]. rewrite Hq'. f_equal.
  apply (is_slice_unique q' q v dim (a + c) (a + d)); [done|].
  by apply (is_slice_of_slice p q v dim a b c d n).
Qed.

Lemma slice_of_slice_witness :
  wf_variable sample_row
  /\ Dimensions.size (var_dimensions sample_row) Dim.X = inr 4
  /\ exists p q,
       slice sample_row Dim.X 1 4 = inr p /\ slice p Dim.X 1 2 = inr q
       /\ slice sample_row Dim.X 2 3 = inr q.
Proof.
  assert (wf_variable sample_row) as Hwf by solve_wf.
  split; [exact Hwf|]. split; [reflexivity|].
  apply (slice_of_slice sample_row Dim.X 1 4 1 2 4 Hwf eq_refl); lia.
Defined.

(** X10: two neighbouring ranges [[a, b)] and [[b, c)] of [v] along [dim]
    concatenate along [dim] to the range [[a, c)] of [v]. *)
Theorem concatenate_adjacent_slices (v : variable) (dim : Dim.t) (a b c n : Z) :
  wf_variable v -> Dimensions.size (var_dimensions v) dim = inr n ->
  0 <= a -> a <= b -> b <= c -> c <= n ->
  exists p q r,
    slice v dim a b = inr p /\ slice v dim b c = inr q
    /\ concatenate p q dim = inr r /\ slice v dim a c = inr r.
Proof.
  intros Hwf Hs Ha Hab Hbc Hcn.
  destruct (slice_spec v dim a b n) as (p & Hp & Hisp); try done; try lia.
  destruct (slice_spec v dim b c n) as (q & Hq & Hisq); try done; try lia.
  destruct (slice_spec v dim a c n) as (r' & Hr' & Hisr'); try done; try lia.
  destruct (concatenate_slices v dim a b c n p q) as (r & Hr & Hisr); try done.
  exists p, q, r. repeat split; try done. rewrite Hr'. f_equal.
  by apply (is_slice_unique r' r v dim a c).
Qed.

Lemma concatenate_adjacent_slices_witness :
  wf_variable sample_row
  /\ Dimensions.size (var_dimensions sample_row) Dim.X = inr 4
  /\ exists p q r,
       slice sample_row Dim.X 0 1 = inr p /\ slice sample_row Dim.X 1 3 = inr q
       /\ concatenate p q Dim.X = inr r /\ slice sample_row Dim.X 0 3 = inr r.
Proof.
  assert (wf_variable sample_row) as Hwf by solve_wf.
  split; [exact Hwf|]. split; [reflexivity|].
  apply (concatenate_adjacent_slices sample_row Dim.X 0 1 3 4 Hwf eq_refl); lia.
Defined.

Lemma concat_dims_concat_dims (d : Dimensions.t) (dim : Dim.t) (t t' : Z) :
  concat_dims (concat_dims d dim t) dim t' = concat_dims d dim t'.
Proof.
  unfold concat_dims at 2 3. destruct (Dimensions.contains d dim) eqn:Hc.
  - unfold concat_dims. by rewrite contains_resized, Hc, resized_resized.
  - unfold concat_dims.
    assert (Dimensions.contains (d ++ [(dim, t)]) dim = true) as ->.
    { apply contains_elem_of. unfold Dimensions.labels. rewrite fmap_app.
      apply elem_of_app. right. simpl. left. }
    unfold resized. rewrite fmap_app. simpl. rewrite decide_True by done. f_equal.
    apply contains_false in Hc. unfold Dimensions.labels in Hc.
    induction d as [|[l m] d IH]; [done|]. simpl in *.
    apply not_elem_of_cons in Hc as [Hne Hc].
    rewrite decide_False by done. f_equal. by apply IH.
Qed.

Lemma extent_concatenation (out a1 a2 : variable) (dim : Dim.t) :
  is_concatenation out a1 a2 dim -> extent out dim = extent a1 dim + extent a2 dim.
Proof.
  intros (_ & _ & _ & _ & _ & Hd & _). unfold extent at 1.
  by rewrite Hd, size_concat_dims, decide_True.
Qed.

Lemma extent_nonneg (v : variable) (dim : Dim.t) : wf_variable v -> 0 <= extent v dim.
Proof. intros Hwf. apply dims_extent_nonneg. by apply wf_variable_dims. Qed.

(** X11: [concatenate] is associative: for three Variables with the same
    tag, element type, unit and name and the same extents on every axis
    other than [dim], concatenating [a] with [b] and the result with [c]
    returns the same Variable as concatenating [a] with the concatenation
    of [b] and [c]. *)
Theorem concatenate_assoc (a b c : variable) (dim : Dim.t) :
  wf_variable a -> wf_variable b -> wf_variable c ->
  concatenable a b dim -> concatenable b c dim ->
  exists ab bc r,
    concatenate a b dim = inr ab /\ concatenate b c dim = inr bc
    /\ concatenate ab c dim = inr r /\ concatenate a bc dim = inr r.
Proof.
  intros Ha Hb Hc Hab Hbc.
  destruct (concatenate_success a b dim Ha Hb Hab) as (ab & Heab & Hcab).
  destruct (concatenate_success b c dim Hb Hc Hbc) as (bc & Hebc & Hcbc).
  pose proof (extent_concatenation _ _ _ _ Hcab) as Hxab.
  pose proof (extent_concatenation _ _ _ _ Hcbc) as Hxbc.
  pose proof (extent_nonneg a dim Ha) as Hna. pose proof (extent_nonneg b dim Hb) as Hnb.
  pose proof (extent_nonneg c dim Hc) as Hnc.
  destruct Hab as (Ht1 & Hk1 & Hu1 & Hn1 & Hs1).
  destruct Hbc as (Ht2 & Hk2 & Hu2 & Hn2 & Hs2).
  pose proof Hcab as (Hwab & Htab & Huab & Hnab & Hkab & Hdab & Helab).
  pose proof Hcbc as (Hwbc & Htbc & Hubc & Hnbc & Hkbc & Hdbc & Helbc).
  destruct (concatenate_success ab c dim Hwab Hc) as (r1 & Her1 & Hcr1).
  { repeat split; try congruence. intros l Hne.
    rewrite Hdab, size_concat_dims, decide_False by done. rewrite Hs1 by done. by apply Hs2. }
  destruct (concatenate_success a bc dim Ha Hwbc) as (r2 & Her2 & Hcr2).
  { repeat split; try congruence. intros l Hne.
    rewrite Hdbc, size_concat_dims, decide_False by done. by apply Hs1. }
  exists ab, bc, r1. repeat split; try done. rewrite Her2. f_equal.
  destruct Hcr1 as (Hwr1 & Htr1 & Hur1 & Hnr1 & Hkr1 & Hdr1 & Helr1).
  destruct Hcr2 as (Hwr2 & Htr2 & Hur2 & Hnr2 & Hkr2 & Hdr2 & Helr2).
  rewrite Hxab in *. rewrite Hxbc in *.
  assert (var_dimensions r1
          = concat_dims (var_dimensions a) dim (extent a dim + extent b dim + extent c dim))
    as Hdr1' by (by rewrite Hdr1, Hdab, concat_dims_concat_dims).
  assert (var_dimensions r2 = var_dimensions r1) as Hdims.
  { rewrite Hdr2, Hdr1'. f_equal. lia. }
  apply variable_ext; try congruence.
  intros x Hx. rewrite (Helr2 x Hx). rewrite Hdims in Hx. rewrite (Helr1 x Hx).
  rewrite Hdr1' in Hx.
  pose proof (wf_variable_dims _ Ha) as Hda.
  assert (NoDup (Dimensions.labels
                   (concat_dims (var_dimensions a) dim
                      (extent a dim + extent b dim + extent c dim)))) as Hnd.
  { apply wf_concat_dims; [done | lia]. }
  pose proof (proj1 (in_box_sizes _ x Hnd) Hx) as Hbox.
  assert (0 <= x dim < extent a dim + extent b dim + extent c dim) as Hxd.
  { apply Hbox. by rewrite size_concat_dims, decide_True. }
  assert (forall l m, l <> dim -> Dimensions.size (var_dimensions a) l = inr m ->
                      0 <= x l < m) as Hother.
  { intros l m Hne Hs. apply Hbox. by rewrite size_concat_dims, decide_False. }
  destruct (decide (x dim < extent a dim)) as [Hlt|Hge].
  - rewrite decide_True by lia. rewrite Helab; [by rewrite decide_True|].
    rewrite Hdab. apply in_box_sizes; [apply wf_concat_dims; [done | lia]|].
    intros l m. rewrite size_concat_dims. destruct (decide (l = dim)) as [->|Hne].
    + intros [= <-]. lia.
    + by apply Hother.
  - assert (in_box (var_dimensions bc) (update x dim (x dim - extent a dim))) as Hbc'.
    { rewrite Hdbc. apply in_box_sizes.
      { apply wf_concat_dims; [by apply wf_variable_dims | lia]. }
      intros l m. rewrite size_concat_dims. destruct (decide (l = dim)) as [->|Hne].
      - intros [= <-]. rewrite update_eq. lia.
      - rewrite update_ne by done. rewrite <- Hs1 by done. by apply Hother. }
    rewrite (Helbc _ Hbc'). rewrite update_eq.
    destruct (decide (x dim < extent a dim + extent b dim)) as [Hlt'|Hge'].
    + rewrite decide_True by lia. rewrite Helab.
      * by rewrite decide_False.
      * rewrite Hdab. apply in_box_sizes; [apply wf_concat_dims; [done | lia]|].
        intros l m. rewrite size_concat_dims. destruct (decide (l = dim)) as [->|Hne].
        -- intros [= <-]. lia.
        -- by apply Hother.
    + rewrite decide_False by lia. apply var_element_ext. intros l _. unfold update.
      destruct (decide (l = dim)) as [->|]; [lia | done].
Qed.

Lemma concatenate_assoc_witness :
  wf_variable sample_a /\ wf_variable sample_b
  /\ concatenable sample_a sample_b Dim.X /\ concatenable sample_b sample_a Dim.X
  /\ exists ab bc r,
       concatenate sample_a sample_b Dim.X = inr ab
       /\ concatenate sample_b sample_a Dim.X = inr bc
       /\ concatenate ab sample_a Dim.X = inr r
       /\ concatenate sample_a bc Dim.X = inr r.
Proof.
  assert (wf_variable sample_a) as Ha by solve_wf.
  assert (wf_variable sample_b) as Hb by solve_wf.
  assert (concatenable sample_a sample_b Dim.X) as Hab.
  { by repeat split. }
  assert (concatenable sample_b sample_a Dim.X) as Hba.
  { by repeat split. }
  split; [exact Ha|]. split; [exact Hb|]. split; [exact Hab|]. split; [exact Hba|].
  exact (concatenate_assoc sample_a sample_b sample_a Dim.X Ha Hb Ha Hab Hba).
Defined.

(** X12: splitting a concatenation gives the operands back: for [a] and
    [b] with the dimension [dim], the same labels in the same order, the
    same tag, element type, unit and name and the same extents on every
    other axis, [split(concatenate(a, b, dim), dim, [n_a])] returns
    [[a, b]], where [n_a] is the extent of [a] along [dim]. *)
Theorem split_concatenate (a b : variable) (dim : Dim.t) (n_a n_b : Z) :
  wf_variable a -> wf_variable b -> concatenable a b dim ->
  Dimensions.size (var_dimensions a) dim = inr n_a ->
  Dimensions.size (var_dimensions b) dim = inr n_b ->
  Dimensions.labels (var_dimensions a) = Dimensions.labels (var_dimensions b) ->
  exists r, concatenate a b dim = inr r /\ split r dim [n_a] = inr [a; b].
Proof.
  intros Ha Hb Hab Hsa Hsb Hlab.
  destruct (concatenate_success a b dim Ha Hb Hab) as (r & Her & Hcr).
  exists r. split; [done|].
  pose proof (wf_variable_dims _ Ha) as Hda. pose proof (wf_variable_dims _ Hb) as Hdb.
  pose proof (size_nonneg _ _ _ Hda Hsa) as Hna.
  pose proof (size_nonneg _ _ _ Hdb Hsb) as Hnb.
  pose proof (size_contains _ _ _ Hsa) as Hca.
  destruct Hab as (Ht & Hk & Hu & Hn & Hs).
  destruct Hcr as (Hwr & Htr & Hur & Hnr & Hkr & Hdr & Helr).
  unfold extent in Hdr, Helr. rewrite Hsa, Hsb in Hdr. rewrite Hsa in Helr.
  unfold concat_dims in Hdr. rewrite Hca in Hdr.
  assert (Dimensions.size (var_dimensions r) dim = inr (n_a + n_b)) as Hsr.
  { by rewrite Hdr, size_resized, decide_True, Hca. }
  destruct (slice_spec r dim 0 n_a (n_a + n_b)) as (p & Hp & Hisp); try done; try lia.
  destruct (slice_spec r dim n_a (n_a + n_b) (n_a + n_b)) as (q & Hq & Hisq);
    try done; try lia.
  assert (p = a) as ->.
  { destruct Hisp as (Hwp & Htp & Hup & Hnp & Hkp & Hdp & Hep).
    assert (var_dimensions p = var_dimensions a) as Hdpa.
    { rewrite Hdp, Hdr, resized_resized, Z.sub_0_r.
      apply resized_id; [apply Hda | done]. }
    apply variable_ext; try congruence.
    intros x Hx. rewrite (Hep x Hx). rewrite Helr.
    - rewrite update_eq. rewrite Hdpa in Hx.
      pose proof (in_box_size _ _ _ _ Hx Hsa). rewrite decide_True by lia.
      apply var_element_ext. intros l _. unfold update.
      destruct (decide (l = dim)) as [->|]; [lia | done].
    - rewrite Hdr. rewrite Hdpa in Hx. apply in_box_resized. intros l m Hlm.
      pose proof (proj1 (Forall_forall _ _) Hx _ Hlm) as Hl. cbn [fst snd] in Hl.
      unfold update. destruct (decide (l = dim)) as [->|]; [|done].
      pose proof (in_box_size _ _ _ _ Hx Hsa). lia. }
  assert (q = b) as ->.
  { destruct Hisq as (Hwq & Htq & Huq & Hnq & Hkq & Hdq & Heq).
    assert (var_dimensions q = var_dimensions b) as Hdqb.
    { rewrite Hdq, Hdr, resized_resized.
      replace (n_a + n_b - n_a) with n_b by lia.
      apply dims_ext.
      - by rewrite labels_resized.
      - rewrite labels_resized. apply Hda.
      - intros l. rewrite size_resized, Hca. destruct (decide (l = dim)) as [->|Hne].
        + by rewrite Hsb.
        + by apply Hs. }
    apply variable_ext; try congruence.
    intros x Hx. rewrite (Heq x Hx). rewrite Hdqb in Hx.
    pose proof (in_box_size _ _ _ _ Hx Hsb) as Hxd.
    rewrite Helr.
    - rewrite update_eq. rewrite decide_False by lia.
      apply var_element_ext. intros l _. unfold update.
      destruct (decide (l = dim)) as [->|]; [lia | done].
    - rewrite Hdr. apply in_box_sizes; [rewrite labels_resized; apply Hda|].
      intros l m. rewrite size_resized, Hca. unfold update.
      destruct (decide (l = dim)) as [->|Hne].
      + intros [= <-]. lia.
      + rewrite Hs by done. intros Hlm. by apply (in_box_size _ _ _ _ Hx Hlm). }
  unfold split. rewrite Hp. cbn [bind]. simpl. rewrite Hsr. cbn [bind].
  by rewrite Hq.
Qed.

Lemma split_concatenate_witness :
  wf_variable sample_a /\ wf_variable sample_b /\ concatenable sample_a sample_b Dim.X
  /\ exists r, concatenate sample_a sample_b Dim.X = inr r
       /\ split r Dim.X [3] = inr [sample_a; sample_b].
Proof.
  assert (wf_variable sample_a) as Ha by solve_wf.
  assert (wf_variable sample_b) as Hb by solve_wf.
  assert (concatenable sample_a sample_b Dim.X) as Hab.
  { by repeat split. }
  split; [exact Ha|]. split; [exact Hb|]. split; [exact Hab|].
  exact (split_concatenate sample_a sample_b Dim.X 3 3 Ha Hb Hab eq_refl eq_refl eq_refl).
Defined.

(** ** Composition of permutations *)

(** [permute] with as many indices as the extent of [dim]. *)
Lemma permute_full (v : variable) (dim : Dim.t) (indices : list Z) (n : Z) :
  wf_variable v -> Dimensions.size (var_dimensions v) dim = inr n ->
  Z.of_nat (length indices) = n ->
  Forall (fun index => 0 <= index < n) indices ->
  exists p,
    permute v dim indices = inr p
    /\ wf_variable p
    /\ m_tag p = m_tag v /\ m_unit p = m_unit v /\ m_name p = m_name v
    /\ dtype (m_object p) = dtype (m_object v)
    /\ var_dimensions p = var_dimensions v
    /\ forall c, in_box (var_dimensions v) c ->
         exists index, indices !! Z.to_nat (c dim) = Some index
           /\ 0 <= index < n
           /\ var_element p c = var_element v (update c dim index).
Proof.
  intros Hwf Hs Hlen Hrange.
  destruct (permute_for_spec v dim n Hwf Hs indices 0 (m_object v))
    as (r & Hr & Hwfr & Hkr & Hdr & Hel); try done; try lia.
  unfold permute. rewrite Hr. cbn [bind]. eexists. split; [reflexivity|].
  unfold wf_variable, var_dimensions, var_element. simpl.
  split; [done|]. split; [done|]. split; [done|]. split; [done|].
  split; [done|]. split; [done|].
  intros c Hc. pose proof (in_box_size _ _ _ _ Hc Hs) as Hcd.
  destruct (lookup_lt_is_Some_2 indices (Z.to_nat (c dim))) as [index Hi]; [lia|].
  exists index. split; [done|].
  split; [by apply (proj1 (Forall_lookup _ _) Hrange _ _ Hi)|].
  fold (var_dimensions v) in Hel. rewrite (Hel c Hc).
  rewrite decide_True by lia. rewrite Z.sub_0_r, Hi. done.
Qed.

(** X13: permuting twice is permuting once by the composed indices: for
    two index lists [first] and [second] with as many indices as the
    extent [n] of [v] along [dim], all within [[0, n)],
    [permute(permute(v, dim, first), dim, second)] returns the same
    Variable as [permute(v, dim, composed)], where [composed[i]] is
    [first[second[i]]]; and [permute] with the indices [0, ..., n - 1]
    returns [v]. *)
Theorem permute_compose (v : variable) (dim : Dim.t) (first second : list Z) (n : Z) :
  wf_variable v -> Dimensions.size (var_dimensions v) dim = inr n ->
  (Z.of_nat (length first) = n -> Z.of_nat (length second) = n ->
   Forall (fun index => 0 <= index < n) first ->
   Forall (fun index => 0 <= index < n) second ->
   exists p q,
     permute v dim first = inr p /\ permute p dim second = inr q
     /\ permute v dim (compose_indices first second) = inr q)
  /\ permute v dim (seqZ 0 n) = inr v.
Proof.
  intros Hwf Hs. pose proof (wf_variable_dims _ Hwf) as Hd.
  pose proof (size_nonneg _ _ _ Hd Hs) as Hn. split.
  - intros Hl1 Hl2 Hr1 Hr2.
    destruct (permute_full v dim first n) as (p & Hp & Hwp & Htp & Hup & Hnp & Hkp & Hdp & Hep);
      try done.
    destruct (permute_full p dim second n)
      as (q & Hq & Hwq & Htq & Huq & Hnq & Hkq & Hdq & Heq); try done.
    { by rewrite Hdp. }
    assert (Forall (fun index => 0 <= index < n) (compose_indices first second)) as Hr3.
    { unfold compose_indices. apply Forall_fmap. eapply Forall_impl; [exact Hr2|].
      simpl. intros t Ht.
      destruct (lookup_lt_is_Some_2 first (Z.to_nat t)) as [index Hi]; [lia|].
      rewrite Hi. simpl. by apply (proj1 (Forall_lookup _ _) Hr1 _ _ Hi). }
    destruct (permute_full v dim (compose_indices first second) n)
      as (r & Hr & Hwr & Htr & Hur & Hnr & Hkr & Hdr & Her); try done.
    { unfold compose_indices. by rewrite length_fmap. }
    exists p, q. split; [done|]. split; [done|]. rewrite Hr. f_equal.
    apply variable_ext; try congruence.
    intros c Hc. rewrite Hdr in Hc.
    destruct (Her c Hc) as (k & Hk & _ & ->).
    assert (in_box (var_dimensions p) c) as Hcp by (by rewrite Hdp).
    destruct (Heq c Hcp) as (t & Ht & Htr' & ->).
    assert (in_box (var_dimensions v) (update c dim t)) as Hct.
    { apply in_box_sizes; [apply Hd|]. intros l m Hlm. unfold update.
      destruct (decide (l = dim)) as [->|Hne].
      - rewrite Hs in Hlm. by injection Hlm as <-.
      - by apply (in_box_size _ _ _ _ Hc Hlm). }
    destruct (Hep _ Hct) as (k' & Hk' & _ & ->). rewrite update_eq in Hk'.
    unfold compose_indices in Hk. rewrite list_lookup_fmap, Ht in Hk. simpl in Hk.
    rewrite Hk' in Hk. simpl in Hk. injection Hk as <-.
    apply var_element_ext. intros l _. unfold update.
    by destruct (decide (l = dim)).
  - destruct (permute_full v dim (seqZ 0 n) n)
      as (p & Hp & Hwp & Htp & Hup & Hnp & Hkp & Hdp & Hep); try done.
    { rewrite length_seqZ. lia. }
    { apply Forall_forall. intros k Hk. apply elem_of_seqZ in Hk. lia. }
    rewrite Hp. f_equal. apply variable_ext; try done.
    intros c Hc. rewrite Hdp in Hc. destruct (Hep c Hc) as (k & Hk & _ & ->).
    apply lookup_seqZ in Hk as [-> _].
    pose proof (in_box_size _ _ _ _ Hc Hs).
    apply var_element_ext. intros l _. unfold update.
    destruct (decide (l = dim)) as [->|]; [lia | done].
Qed.

Lemma permute_compose_witness :
  wf_variable sample_row
  /\ Dimensions.size (var_dimensions sample_row) Dim.X = inr 4
  /\ exists p q,
       permute sample_row Dim.X [1; 2; 3; 0] = inr p
       /\ permute p Dim.X [3; 2; 1; 0] = inr q
       /\ permute sample_row Dim.X [0; 3; 2; 1] = inr q.
Proof.
  assert (wf_variable sample_row) as Hwf by solve_wf.
  split; [exact Hwf|]. split; [reflexivity|].
  apply (proj1 (permute_compose sample_row Dim.X [1; 2; 3; 0] [3; 2; 1; 0] 4 Hwf eq_refl));
    try reflexivity; repeat (constructor; [lia|]); constructor.
Defined.

(** * Views *)

(** ** The cells of a concept *)

Lemma flat_add (d : Dimensions.t) (a b : coord) :
  flat d (fun l => a l + b l) = flat d a + flat d b.
Proof. induction d as [|[l n] d IH]; simpl; [done|]. rewrite IH. lia. Qed.

Lemma NoDup_indices (shape : list Z) : NoDup (VariableView.indices shape).
Proof.
  induction shape as [|n shape IH]; simpl; [apply NoDup_singleton|].
  apply NoDup_bind; [| |done].
  - intros o o' idx _ _ (i & -> & _)%list_elem_of_fmap (i' & [= _ ->] & _)%list_elem_of_fmap.
    done.
  - intros o _. apply NoDup_fmap_2; [|apply NoDup_seqZ]. by intros i i' [= ->].
Qed.

Section Cells.
Context {T : Type}.
Implicit Types (c : VariableConceptT T) (shift x : coord).

Lemma cell_shifted c shift x :
  wf_cells c shift ->
  cell c x = flat (layout c) (shifted shift (Dimensions.labels (dimensions c)) x).
Proof.
  intros (_ & _ & _ & Hdata & _). unfold cell, shifted. by rewrite flat_add, Hdata.
Qed.

Lemma cell_bounds c shift x :
  wf_cells c shift -> in_box (dimensions c) x ->
  0 <= cell c x < Z.of_nat (length (m_model c)).
Proof.
  intros Hc Hx. rewrite (cell_shifted c shift x Hc).
  destruct Hc as (_ & _ & -> & _ & _ & _ & Hbox). by apply flat_bounds, Hbox.
Qed.

Lemma cell_inj c shift x x' :
  wf_cells c shift -> in_box (dimensions c) x -> in_box (dimensions c) x' ->
  cell c x = cell c x' ->
  forall l, l ∈ Dimensions.labels (dimensions c) -> x l = x' l.
Proof.
  intros Hc Hx Hx' Heq l Hl. rewrite !(cell_shifted c shift) in Heq by done.
  destruct Hc as (_ & _ & _ & _ & Hsub & _ & Hbox).
  pose proof (flat_inj _ _ _ (Hbox x Hx) (Hbox x' Hx') Heq l (Hsub l Hl)) as H.
  unfold shifted, restrict in H. rewrite !decide_True in H by done. lia.
Qed.

Lemma cell_ext c x x' :
  (forall l, l ∈ Dimensions.labels (dimensions c) -> x l = x' l) -> cell c x = cell c x'.
Proof.
  intros H. unfold cell. f_equal. apply flat_ext. intros l _. unfold restrict.
  case_decide; [by apply H | done].
Qed.

(** An owning model is its own buffer. *)
Lemma wf_cells_owning c : wf_model c -> wf_cells c (fun _ => 0).
Proof.
  intros (Hv & Hwf & Hlen). unfold wf_cells, layout, data. rewrite Hv.
  split; [done|]. split; [done|]. split; [done|]. split.
  { clear. induction (dimensions c) as [|[l n] d IH]; simpl; [done|]. rewrite <- IH. lia. }
  split; [done|]. split; [apply fits_refl, Hwf|].
  intros x Hx. eapply in_box_ext; [|exact Hx].
  intros l Hl. unfold shifted, restrict. by rewrite decide_True.
Qed.

Lemma cell_owning c x : m_view c = None -> cell c x = flat (dimensions c) x.
Proof.
  intros Hv. unfold cell, layout, data. rewrite Hv. rewrite Z.add_0_l.
  apply flat_ext. intros l Hl. unfold restrict. by rewrite decide_True.
Qed.

(** The positions that the view of a concept on its own dimensions
    visits are its cells, each once. *)
Lemma elem_of_offsets_cells c shift p :
  wf_cells c shift ->
  p ∈ VariableView.offsets (data c) (dimensions c) (layout c)
  <-> exists x, in_box (dimensions c) x /\ p = cell c x.
Proof. intros (HD & HP & _). apply elem_of_offsets; [apply HD | apply HP]. Qed.

Lemma NoDup_offsets_cells c shift :
  wf_cells c shift ->
  NoDup (VariableView.offsets (data c) (dimensions c) (layout c)).
Proof.
  intros Hc. pose proof Hc as (HD & HP & _).
  unfold VariableView.offsets. apply NoDup_fmap_2_strong; [|apply NoDup_indices].
  intros idx idx' Hidx Hidx' Heq.
  destruct (indices_in_box _ idx (proj1 HD) Hidx) as [Hb Hi].
  destruct (indices_in_box _ idx' (proj1 HD) Hidx') as [Hb' Hi'].
  rewrite <- Hi, <- Hi' in Heq |- *.
  rewrite !dot_strides_flat in Heq by (apply HD || apply HP).
  apply list_fmap_ext. intros k l Hl. apply (cell_inj c shift); try done.
  by eapply list_elem_of_lookup_2.
Qed.

(** The pair of positions that two views over the dimensions of [c]
    visit at the cell of [x]. *)
Lemma cells_pairs c shift (O : Dimensions.t) (b : Z) x :
  wf_cells c shift -> NoDup (Dimensions.labels O) -> in_box (dimensions c) x ->
  filter (fun pq : Z * Z => Z.to_nat pq.1 = Z.to_nat (cell c x))
         (zip (VariableView.offsets (data c) (dimensions c) (layout c))
              (VariableView.offsets b (dimensions c) O))
  = [(cell c x, b + flat O (restrict (Dimensions.labels (dimensions c)) x))].
Proof.
  intros Hc HO Hx. pose proof Hc as (HD & HP & _).
  apply Permutation_singleton_r, NoDup_Permutation.
  - apply NoDup_filter, NoDup_zip_l. by eapply NoDup_offsets_cells.
  - apply NoDup_singleton.
  - intros [p q]. rewrite list_elem_of_filter, list_elem_of_singleton. simpl.
    rewrite (elem_of_zip_offsets _ _ _ _ _ p q (proj1 HD) (proj1 HP) HO).
    fold (cell c). split.
    + intros (Hp & x' & Hx' & -> & ->). fold (cell c x') in *.
      pose proof (cell_bounds c shift x Hc Hx). pose proof (cell_bounds c shift x' Hc Hx').
      assert (cell c x' = cell c x) as Hcell by lia.
      pose proof (cell_inj c shift x' x Hc Hx' Hx Hcell) as Hagree.
      f_equal; [done|]. f_equal. apply flat_ext. intros l _. unfold restrict.
      case_decide; [by apply Hagree | done].
    + intros [= -> ->]. split; [done|]. by exists x.
Qed.

End Cells.

(** ** Assignment of a whole concept: [copy(other, Dim::Invalid, 0, 0, 1)] *)

Section CopyWhole.
Context {T : Type} (this other : VariableConceptT T) (st so : coord).

Let D := dimensions this.

Hypothesis Hthis : wf_cells this st.
Hypothesis Hother : wf_cells other so.
Hypothesis Hdims : dimensions other = D.
Hypothesis Hmut : isConstView this = false.
Hypothesis Hinvalid : Dimensions.contains D Dim.Invalid = false.

Lemma copy_whole_unfold :
  copy this other Dim.Invalid 0 0 1
  = (model <- std_copy (m_model other)
                (VariableView.offsets (data other) D (layout other))
                (VariableView.offsets (data this) D (layout this)) (m_model this) ;;
     ret (with_model this model)).
Proof.
  destruct Hthis as (HD & HP & Hlen & _ & _ & Hfit & _).
  destruct Hother as (HD' & HP' & Hlen' & _ & _ & Hfit' & _).
  fold D in HD, Hfit. rewrite Hdims in HD', Hfit'.
  assert (match m_view other with
          | Some v =>
              if negb (0 =? 0) || negb (bool_decide (Dim.Invalid = Dim.Invalid))
              then m_offset v + 0 * Dimensions.offset (parentDimensions v) Dim.Invalid
              else m_offset v
          | None =>
              if Dimensions.contains (dimensions other) Dim.Invalid
              then 0 * Dimensions.offset (dimensions other) Dim.Invalid
              else 0 * Dimensions.volume (dimensions other)
          end = data other) as Hbase.
  { unfold data. destruct (m_view other) as [v|].
    - by rewrite bool_decide_eq_true_2 by done.
    - destruct (Dimensions.contains (dimensions other) Dim.Invalid); lia. }
  change 1 with (0 + 1) at 1.
  rewrite copy_absent_unfold; try done.
  - fold D. by rewrite Hbase.
  - intros Hv. unfold layout in Hlen. by rewrite Hv in Hlen.
  - fold D. rewrite Hbase, Hdims. intros Hc. apply andb_true_iff in Hc as [Hc _].
    unfold getSpan_range_const, requireContiguous, makeSpan.
    unfold isContiguous, layout, size, data in *.
    rewrite ?Hdims, ?Hinvalid in *. change (0 + 1 =? 1) with true.
    cbn [negb andb orb Z.eqb].
    destruct (m_view other) as [v|] eqn:Hv.
    + rewrite Hc. cbn [bind]. by rewrite offsets_contiguous.
    + rewrite Hlen'. by rewrite offsets_full.
Qed.

(** Every cell of [this] receives the element of the cell of [other] at
    the same position; the rest of the buffer of [this] is kept. *)
Lemma copy_whole :
  exists model,
    copy this other Dim.Invalid 0 0 1 = inr (with_model this model)
    /\ length model = length (m_model this)
    /\ (forall x, in_box D x ->
          model !! Z.to_nat (cell this x) = m_model other !! Z.to_nat (cell other x))
    /\ (forall p : nat, (forall x, in_box D x -> Z.to_nat (cell this x) <> p) ->
          model !! p = m_model this !! p).
Proof.
  rewrite copy_whole_unfold.
  pose proof Hthis as (HD & HP & _). pose proof Hother as (HD' & HP' & _).
  fold D in HD. rewrite Hdims in HD'.
  destruct (std_copy_spec (m_model other)
              (VariableView.offsets (data other) D (layout other))
              (VariableView.offsets (data this) D (layout this)) (m_model this))
    as (model & Hcopy & Hlength & Hset & Hkeep).
  - apply length_zip_offsets.
  - intros s Hs. rewrite <- Hdims in Hs.
    apply (elem_of_offsets_cells other so) in Hs as (x & Hx & ->); [|done].
    by apply (cell_bounds other so).
  - intros t Ht. apply (elem_of_offsets_cells this st) in Ht as (x & Hx & ->); [|done].
    by apply (cell_bounds this st).
  - intros s s' t (x & Hx & -> & Ht)%elem_of_zip_offsets
                  (x' & Hx' & -> & Ht')%elem_of_zip_offsets;
      try (apply HD || apply HP || apply HP').
    assert (cell this x = cell this x') as Hcell by (unfold cell; fold D; congruence).
    pose proof (cell_inj this st x x' Hthis Hx Hx' Hcell) as Hagree.
    f_equal. apply flat_ext. intros l _. unfold restrict.
    case_decide; [by apply Hagree | done].
  - exists model. split; [by rewrite Hcopy|]. split; [done|]. split.
    + intros x Hx. apply Hset.
      apply elem_of_zip_offsets; try (apply HD || apply HP || apply HP').
      exists x. split; [done|]. unfold cell. by rewrite Hdims.
    + intros p Hp. apply Hkeep. intros t Ht.
      apply (elem_of_offsets_cells this st) in Ht as (x & Hx & ->); [|done].
      by apply Hp.
Qed.

End CopyWhole.

(** ** The views that [operator()] makes *)

Lemma flat_zero (d : Dimensions.t) : flat d (fun _ => 0) = 0.
Proof. induction d as [|[l n] d IH]; simpl; [done|]. rewrite IH. lia. Qed.

Lemma flat_at (d : Dimensions.t) (dim : Dim.t) (b : Z) :
  NoDup (Dimensions.labels d) -> Dimensions.contains d dim = true ->
  flat d (update (fun _ => 0) dim b) = b * Dimensions.offset d dim.
Proof. intros Hnd Hc. rewrite flat_update, flat_zero, Hc by done. lia. Qed.

Section MakeView.
Context {T : Type} (c : VariableConceptT T) (dim : Dim.t) (b n : Z) (const : bool).

Let D := dimensions c.

Hypothesis Hc : wf_model c.
Hypothesis Hsize : Dimensions.size D dim = inr n.

(** The view on the range [[b, e)] along [dim]. *)
Lemma makeView_range e :
  0 <= b -> b <= e -> e <= n ->
  exists view,
    makeView_slice c dim b e const = inr view
    /\ dimensions view = resized D dim (e - b)
    /\ m_model view = m_model c
    /\ layout view = D
    /\ isConstView view = const
    /\ wf_cells view (update (fun _ => 0) dim b)
    /\ forall x, in_box (resized D dim (e - b)) x ->
         cell view x = flat D (update x dim (x dim + b)).
Proof.
  intros Hb Hbe Hen. destruct Hc as (Hv & Hwf & Hlen). fold D in Hwf, Hlen.
  pose proof (size_contains _ _ _ Hsize) as Hcd.
  set (view := mkConcept (resized D dim (e - b)) (m_model c)
                 (Some (mkViewInfo D (b * Dimensions.offset D dim) const))).
  assert (forall x, in_box (resized D dim (e - b)) x ->
            forall l, l ∈ Dimensions.labels D ->
              shifted (update (fun _ => 0) dim b)
                (Dimensions.labels (resized D dim (e - b))) x l
              = update x dim (x dim + b) l) as Hshift.
  { intros x Hx l Hl. unfold shifted, restrict, update.
    rewrite labels_resized. rewrite (decide_True _ _ Hl).
    destruct (decide (l = dim)) as [->|]; lia. }
  assert (forall x, in_box (resized D dim (e - b)) x ->
            in_box D (update x dim (x dim + b))) as Hbox.
  { intros x Hx. apply Forall_forall. intros [l m] Hlm. cbn [fst snd].
    pose proof (proj1 (in_box_resized _ _ _ _) Hx _ _ Hlm) as Hl. unfold update.
    destruct (decide (l = dim)) as [->|]; [|done].
    apply (elem_of_size _ _ _ (proj1 Hwf)) in Hlm. rewrite Hsize in Hlm.
    injection Hlm as <-. lia. }
  assert (wf_cells view (update (fun _ => 0) dim b)) as Hcells.
  { unfold wf_cells, layout, data. simpl.
    split; [apply wf_resized; [done | lia]|]. split; [done|]. split; [done|].
    split; [by rewrite flat_at by (done || apply Hwf)|].
    split; [intros l; by rewrite labels_resized|].
    split; [apply (fits_resized D dim (e - b) n); [apply Hwf | done | lia]|].
    intros x Hx. eapply in_box_ext; [|exact (Hbox x Hx)].
    intros l Hl. symmetry. by apply Hshift. }
  exists view. split.
  - unfold makeView_slice. destruct (Z.eqb_spec e (-1)) as [|_]; [lia|]. fold D.
    rewrite resized_resize by (done || apply Hwf || lia). cbn [bind].
    unfold getView_at_const, VariableView.makeVariableView. rewrite Hv. fold D.
    rewrite (fits_resized D dim (e - b) n) by (done || apply Hwf || lia).
    cbn [bind]. rewrite Hcd. unfold isConstView. rewrite Hv. by rewrite orb_false_r.
  - split; [done|]. split; [done|]. split; [done|]. split; [done|]. split; [done|].
    intros x Hx. rewrite (cell_shifted view _ x Hcells).
    apply flat_ext. intros l Hl. by apply Hshift.
Qed.

(** The view on the index [b] along [dim], without [dim]. *)
Lemma makeView_index :
  0 <= b < n ->
  exists view,
    makeView_slice c dim b (-1) const = inr view
    /\ dimensions view = erased D dim
    /\ m_model view = m_model c
    /\ layout view = D
    /\ isConstView view = const
    /\ wf_cells view (update (fun _ => 0) dim b)
    /\ forall x, in_box (erased D dim) x -> cell view x = flat D (update x dim b).
Proof.
  intros Hb. destruct Hc as (Hv & Hwf & Hlen). fold D in Hwf, Hlen.
  pose proof (size_contains _ _ _ Hsize) as Hcd.
  set (view := mkConcept (erased D dim) (m_model c)
                 (Some (mkViewInfo D (b * Dimensions.offset D dim) const))).
  assert (forall x l, l ∈ Dimensions.labels D ->
            shifted (update (fun _ => 0) dim b) (Dimensions.labels (erased D dim)) x l
            = update x dim b l) as Hshift.
  { intros x l Hl. unfold shifted, restrict, update.
    destruct (decide (l = dim)) as [->|Hne].
    - rewrite (decide_False _ _ (not_elem_of_labels_erased D dim)). lia.
    - assert (l ∈ Dimensions.labels (erased D dim)) as Hle
        by (by apply elem_of_labels_erased).
      rewrite (decide_True _ _ Hle). lia. }
  assert (forall x, in_box (erased D dim) x -> in_box D (update x dim b)) as Hbox.
  { intros x Hx. apply Forall_forall. intros [l m] Hlm. cbn [fst snd]. unfold update.
    destruct (decide (l = dim)) as [->|Hne].
    - apply (elem_of_size _ _ _ (proj1 Hwf)) in Hlm. rewrite Hsize in Hlm.
      by injection Hlm as <-.
    - apply (proj1 (Forall_forall _ _) Hx (l, m)). by apply elem_of_erased. }
  assert (wf_cells view (update (fun _ => 0) dim b)) as Hcells.
  { unfold wf_cells, layout, data. simpl.
    split; [by apply wf_erased|]. split; [done|]. split; [done|].
    split; [by rewrite flat_at by (done || apply Hwf)|].
    split; [intros l Hl; by apply elem_of_labels_erased in Hl as [Hl _]|].
    split; [apply fits_erased_parent, Hwf|].
    intros x Hx. eapply in_box_ext; [|exact (Hbox x Hx)].
    intros l Hl. symmetry. by apply Hshift. }
  exists view. split.
  - unfold makeView_slice. change (-1 =? -1) with true. cbv iota. fold D.
    rewrite erased_erase by (done || apply Hwf). cbn [bind].
    unfold getView_at_const, VariableView.makeVariableView. rewrite Hv. fold D.
    rewrite fits_erased_parent by apply Hwf.
    cbn [bind]. rewrite Hcd. unfold isConstView. rewrite Hv. by rewrite orb_false_r.
  - split; [done|]. split; [done|]. split; [done|]. split; [done|]. split; [done|].
    intros x Hx. rewrite (cell_shifted view _ x Hcells).
    apply flat_ext. intros l Hl. by apply Hshift.
Qed.

End MakeView.

(** ** Views on type-erased storage *)

Lemma Concept_makeView_range (parent : VariableConcept) (dim : Dim.t) (b e n : Z)
    (const : bool) :
  wf_concept parent -> Dimensions.size (Concept.dimensions parent) dim = inr n ->
  0 <= b -> b <= e -> e <= n ->
  exists view,
    ConceptView.makeView parent dim b e const = inr view
    /\ is_range_view view parent dim b e const.
Proof.
  intros Hwf Hs Hb Hbe Hen.
  destruct parent as [c|c|c]; simpl in *;
    destruct (makeView_range c dim b n const Hwf Hs e Hb Hbe Hen)
      as (view & Hview & Hd & Hm & Hl & Hconst & Hcells & Hcell);
    (eexists; split; [rewrite Hview; reflexivity|]);
    unfold is_range_view; simpl;
    (split; [done|]); (split; [done|]);
    (split; [unfold isView, isConstView in *; unfold makeView_slice in Hview;
             apply bind_inr in Hview as (? & _ & Hview);
             apply bind_inr in Hview as (? & _ & Hview);
             destruct (m_view c); injection Hview as <-; done|]);
    (split; [done|]); (split; [done|]); (split; [intros p; by rewrite Hm|]);
    intros x Hx; apply Hcell; by rewrite <- Hd.
Qed.

Lemma Concept_makeView_index (parent : VariableConcept) (dim : Dim.t) (b n : Z)
    (const : bool) :
  wf_concept parent -> Dimensions.size (Concept.dimensions parent) dim = inr n ->
  0 <= b < n ->
  exists view,
    ConceptView.makeView parent dim b (-1) const = inr view
    /\ is_index_view view parent dim b const.
Proof.
  intros Hwf Hs Hb.
  destruct parent as [c|c|c]; simpl in *;
    destruct (makeView_index c dim b n const Hwf Hs Hb)
      as (view & Hview & Hd & Hm & Hl & Hconst & Hcells & Hcell);
    (eexists; split; [rewrite Hview; reflexivity|]);
    unfold is_index_view; simpl;
    (split; [done|]); (split; [done|]);
    (split; [unfold isView, isConstView in *; unfold makeView_slice in Hview;
             apply bind_inr in Hview as (? & _ & Hview);
             apply bind_inr in Hview as (? & _ & Hview);
             destruct (m_view c); injection Hview as <-; done|]);
    (split; [done|]); (split; [done|]); (split; [intros p; by rewrite Hm|]);
    intros x Hx; apply Hcell; by rewrite <- Hd.
Qed.

Lemma concept_cells_owning (c : VariableConcept) :
  wf_concept c -> concept_cells c (fun _ => 0).
Proof. destruct c; simpl; apply wf_cells_owning. Qed.

Lemma cell_element_owning (c : VariableConcept) (x : coord) :
  wf_concept c -> cell_element c x = concept_element c x.
Proof.
  destruct c as [c|c|c]; simpl; intros (Hv & _); unfold cell_element, element; simpl;
    by rewrite (cell_owning c x Hv).
Qed.

Lemma concept_cell_owning (c : VariableConcept) (x : coord) :
  wf_concept c -> concept_cell c x = flat (Concept.dimensions c) x.
Proof. destruct c as [c|c|c]; simpl; intros (Hv & _); by apply cell_owning. Qed.

Lemma wf_cells_with_model {T} (c : VariableConceptT T) (shift : coord) (model : list T) :
  wf_cells c shift -> length model = length (m_model c) ->
  wf_cells (with_model c model) shift.
Proof.
  intros (H1 & H2 & H3 & H4 & H5 & H6 & H7) Hlen.
  unfold wf_cells, layout, data in *. simpl. by rewrite Hlen.
Qed.

(** Assignment of a whole concept on type-erased storage. *)
Lemma Concept_copy_whole (this other : VariableConcept) (st so : coord) :
  concept_cells this st -> concept_cells other so -> dtype this = dtype other ->
  Concept.dimensions other = Concept.dimensions this ->
  concept_isConstView this = false ->
  Dimensions.contains (Concept.dimensions this) Dim.Invalid = false ->
  exists r,
    Concept.copy this other Dim.Invalid 0 0 1 = inr r
    /\ concept_cells r st /\ dtype r = dtype this
    /\ Concept.dimensions r = Concept.dimensions this
    /\ Concept.isView r = Concept.isView this
    /\ (forall x, concept_cell r x = concept_cell this x)
    /\ (forall p, is_Some (concept_buffer r p) <-> is_Some (concept_buffer this p))
    /\ (forall x, in_box (Concept.dimensions this) x ->
          cell_element r x = cell_element other x)
    /\ (forall p : nat,
          (forall x, in_box (Concept.dimensions this) x ->
                     Z.to_nat (concept_cell this x) <> p) ->
          concept_buffer r p = concept_buffer this p).
Proof.
  destruct this as [a|a|a], other as [o|o|o]; simpl; intros Ha Ho Hk Hd Hmut Hinv;
    try discriminate;
    destruct (copy_whole a o st so Ha Ho Hd Hmut Hinv) as (model & Hc & Hlen & Hel & Hframe);
    (eexists; split; [rewrite Hc; reflexivity|]);
    (split; [by apply wf_cells_with_model|]);
    (split; [done|]); (split; [done|]); (split; [done|]); (split; [done|]);
    (split; [intros p; simpl; rewrite !fmap_is_Some, !lookup_lt_is_Some; lia|]);
    (split; [ intros x Hx; unfold cell_element; simpl;
              change (cell (with_model a model) x) with (cell a x);
              by rewrite (Hel x Hx)
            | intros p Hp; simpl; by rewrite (Hframe p Hp) ]).
Qed.

Lemma concept_element_buffer (c : VariableConcept) (x : coord) :
  concept_element c x = concept_buffer c (Z.to_nat (flat (Concept.dimensions c) x)).
Proof. by destruct c. Qed.

Lemma concept_isConstView_owning (c : VariableConcept) :
  wf_concept c -> concept_isConstView c = false /\ Concept.isView c = false.
Proof.
  destruct c as [c|c|c]; simpl; intros (Hv & _); unfold isConstView, isView;
    by rewrite Hv.
Qed.

(** A concept that is not a view and whose cells lie in its buffer is a
    well-formed owning model. *)
Lemma concept_cells_wf (c : VariableConcept) (shift : coord) :
  concept_cells c shift -> Concept.isView c = false -> wf_concept c.
Proof.
  destruct c as [c|c|c]; simpl; unfold isView, wf_cells, wf_model, layout;
    intros (H1 & H2 & H3 & _) Hv; destruct (m_view c); done.
Qed.

Lemma length_same_domain {A B} (f : A -> B) (l k : list A) :
  (forall p, is_Some (f <$> l !! p) <-> is_Some (f <$> k !! p)) -> length l = length k.
Proof.
  intros H. apply Nat.le_antisymm; apply Nat.nlt_ge; intros Hlt.
  - specialize (H (length k)). rewrite !fmap_is_Some, !lookup_lt_is_Some in H. lia.
  - specialize (H (length l)). rewrite !fmap_is_Some, !lookup_lt_is_Some in H. lia.
Qed.

(** The buffer of a Variable after a write through one of its views. *)
Lemma write_back_spec (parent r : VariableConcept) :
  wf_concept parent -> dtype r = dtype parent ->
  (forall p, is_Some (concept_buffer r p) <-> is_Some (concept_buffer parent p)) ->
  wf_concept (ConceptView.write_back parent r)
  /\ dtype (ConceptView.write_back parent r) = dtype parent
  /\ Concept.dimensions (ConceptView.write_back parent r) = Concept.dimensions parent
  /\ forall p, concept_buffer (ConceptView.write_back parent r) p = concept_buffer r p.
Proof.
  destruct parent as [c|c|c], r as [r|r|r]; simpl; intros (Hv & Hwf & Hlen) Hk Hdom;
    try discriminate;
    (split; [|done]); unfold wf_model; simpl;
    (split; [done|]); (split; [done|]); rewrite <- Hlen; f_equal;
    by eapply length_same_domain.
Qed.

(** ** Variables made from views, and assignment through a view *)

Lemma is_index_unique (p q v : variable) (dim : Dim.t) (i : Z) :
  is_index p v dim i -> is_index q v dim i -> p = q.
Proof.
  intros (Hwp & Htp & Hup & Hnp & Hkp & Hdp & Hep) (Hwq & Htq & Huq & Hnq & Hkq & Hdq & Heq).
  apply variable_ext; try congruence.
  intros c Hc. rewrite Hep by done. rewrite Heq; [done|]. by rewrite Hdq, <- Hdp.
Qed.

Lemma variable_eta (v : variable) :
  mkVariable (m_tag v) (m_unit v) (m_name v) (m_object v) = v.
Proof. by destruct v. Qed.

(** The Variable made from a view whose cells are those of [v] moved by
    [move]. *)
Lemma Variable_from_view (v : variable) (view : VariableConcept) (shift : coord)
    (move : coord -> coord) :
  wf_variable v -> Dimensions.contains (Concept.dimensions view) Dim.Invalid = false ->
  wf_dims (Concept.dimensions view) -> dtype view = dtype (m_object v) ->
  (Concept.dimensions view ≡ₚ var_dimensions v ->
   Concept.dimensions view = var_dimensions v) ->
  concept_cells view shift ->
  (forall p, concept_buffer view p = concept_buffer (m_object v) p) ->
  (forall x, in_box (Concept.dimensions view) x ->
     concept_cell view x = flat (var_dimensions v) (move x)) ->
  exists p,
    Variable_from_slice (mkSlice v view) = inr p
    /\ wf_variable p
    /\ m_tag p = m_tag v /\ m_unit p = m_unit v /\ m_name p = m_name v
    /\ dtype (m_object p) = dtype (m_object v)
    /\ var_dimensions p = Concept.dimensions view
    /\ forall x, in_box (Concept.dimensions view) x ->
         var_element p x = var_element v (move x).
Proof.
  intros Hwf Hinv Hwfd Hk Hsame Hcells Hbuf Hcell.
  unfold Variable_from_slice, Variable_assign. simpl. rewrite variable_eta.
  destruct (setDimensions_spec v _ Hwf Hwfd Hsame)
    as (v0 & Hset & Hwf0 & Hd0 & Hk0 & Ht0 & Hu0 & Hn0 & _).
  rewrite Hset. cbn [bind].
  destruct (concept_isConstView_owning _ Hwf0) as [Hconst Hview0].
  destruct (Concept_copy_whole (m_object v0) view (fun _ => 0) shift)
    as (r & Hcopy & Hcr & Hkr & Hdr & Hvr & Hcellr & _ & Hel & _); try done.
  { by apply concept_cells_owning. }
  { congruence. }
  { fold (var_dimensions v0). by rewrite Hd0. }
  rewrite Hcopy. cbn [bind]. eexists. split; [reflexivity|].
  assert (wf_concept r) as Hwfr by (apply (concept_cells_wf r _ Hcr); congruence).
  unfold wf_variable, var_dimensions, var_element. simpl.
  split; [done|]. split; [done|]. split; [done|]. split; [done|].
  split; [congruence|]. split; [by rewrite Hdr|].
  intros x Hx. rewrite <- cell_element_owning by done.
  rewrite Hel by (fold (var_dimensions v0); by rewrite Hd0).
  unfold cell_element. rewrite (Hcell x Hx), Hbuf.
  by rewrite concept_element_buffer.
Qed.

(** X16: a Variable made from a view holds what [slice] copies: for the
    view [v(dim, b, e)] on a range [0 <= b <= e <= n] of the extent [n] of
    [v] along [dim], [Variable(view)] returns the Variable that
    [slice(v, dim, b, e)] returns; and for the view [v(dim, b)] on one
    index [0 <= b < n], which drops the dimension, the Variable that
    [slice(v, dim, b)] returns. *)
Theorem Variable_from_slice_spec (v : variable) (dim : Dim.t) (b n : Z) (const : bool) :
  wf_variable v -> Dimensions.contains (var_dimensions v) Dim.Invalid = false ->
  Dimensions.size (var_dimensions v) dim = inr n ->
  (forall e, 0 <= b -> b <= e -> e <= n ->
     exists s p,
       Variable_call const v dim b e = inr s
       /\ Variable_from_slice s = inr p /\ slice v dim b e = inr p)
  /\ (0 <= b < n ->
      exists s p,
        Variable_call const v dim b (-1) = inr s
        /\ Variable_from_slice s = inr p /\ slice_index v dim b = inr p).
Proof.
  intros Hwf Hinv Hs. pose proof (wf_variable_dims _ Hwf) as Hd. split.
  - intros e Hb Hbe Hen.
    destruct (Concept_makeView_range (m_object v) dim b e n const Hwf Hs Hb Hbe Hen)
      as (view & Hview & Hdv & Hkv & _ & _ & Hcells & Hbuf & Hcell).
    fold (var_dimensions v) in Hdv.
    destruct (Variable_from_view v view (update (fun _ => 0) dim b)
                (fun x => update x dim (x dim + b)))
      as (p & Hp & Hwfp & Htp & Hup & Hnp & Hkp & Hdp & Hep); try done.
    { by rewrite Hdv, contains_resized. }
    { rewrite Hdv. apply wf_resized; [done | lia]. }
    { rewrite Hdv. apply perm_resized, Hd. }
    destruct (slice_spec v dim b e n) as (p' & Hp' & Hisp'); try done.
    exists (mkSlice v view), p. unfold Variable_call. rewrite Hview.
    split; [done|]. split; [done|]. rewrite Hp'. f_equal.
    apply (is_slice_unique p' p v dim b e); [done|].
    unfold is_slice. rewrite Hdp, <- Hdv. by repeat split.
  - intros Hb.
    destruct (Concept_makeView_index (m_object v) dim b n const Hwf Hs Hb)
      as (view & Hview & Hdv & Hkv & _ & _ & Hcells & Hbuf & Hcell).
    fold (var_dimensions v) in Hdv.
    destruct (Variable_from_view v view (update (fun _ => 0) dim b)
                (fun x => update x dim b))
      as (p & Hp & Hwfp & Htp & Hup & Hnp & Hkp & Hdp & Hep); try done.
    { rewrite Hdv, contains_erased, Hinv. done. }
    { rewrite Hdv. by apply wf_erased. }
    { rewrite Hdv. apply perm_erased_eq. by eapply size_contains. }
    destruct (slice_index_is_index v dim b n) as (p' & Hp' & Hisp'); try done.
    exists (mkSlice v view), p. unfold Variable_call. rewrite Hview.
    split; [done|]. split; [done|]. rewrite Hp'. f_equal.
    apply (is_index_unique p' p v dim b); [done|].
    unfold is_index. rewrite Hdp, <- Hdv. by repeat split.
Qed.

Lemma Variable_from_slice_spec_witness :
  wf_variable sample_row
  /\ Dimensions.size (var_dimensions sample_row) Dim.X = inr 4
  /\ exists s p,
       Variable_call true sample_row Dim.X 1 3 = inr s
       /\ Variable_from_slice s = inr p /\ slice sample_row Dim.X 1 3 = inr p.
Proof.
  assert (wf_variable sample_row) as Hwf by solve_wf.
  split; [exact Hwf|]. split; [reflexivity|].
  apply (proj1 (Variable_from_slice_spec sample_row Dim.X 1 4 true Hwf eq_refl eq_refl));
    lia.
Defined.

(** ** Writing through the view on a range *)

Section RangePositions.
Context (D : Dimensions.t) (dim : Dim.t) (b e n : Z).
Hypothesis HD : wf_dims D.
Hypothesis Hsize : Dimensions.size D dim = inr n.
Hypothesis Hb : 0 <= b.
Hypothesis Hbe : b <= e.
Hypothesis Hen : e <= n.

Lemma range_box_up x0 :
  in_box (resized D dim (e - b)) x0 -> in_box D (update x0 dim (x0 dim + b)).
Proof.
  intros Hx. apply Forall_forall. intros [l m] Hlm. cbn [fst snd].
  pose proof (proj1 (in_box_resized _ _ _ _) Hx _ _ Hlm) as Hl. unfold update.
  destruct (decide (l = dim)) as [->|]; [|done].
  apply (elem_of_size _ _ _ (proj1 HD)) in Hlm. rewrite Hsize in Hlm.
  injection Hlm as <-. lia.
Qed.

Lemma range_box_down x :
  in_box D x -> b <= x dim < e -> in_box (resized D dim (e - b)) (update x dim (x dim - b)).
Proof.
  intros Hx Hr. apply in_box_resized. intros l m Hlm.
  pose proof (proj1 (Forall_forall _ _) Hx _ Hlm) as Hl. cbn [fst snd] in Hl.
  unfold update. destruct (decide (l = dim)) as [->|]; [lia | done].
Qed.

Lemma range_up_down x l :
  update (update x dim (x dim - b)) dim (update x dim (x dim - b) dim + b) l = x l.
Proof.
  unfold update. destruct (decide (l = dim)) as [->|]; [|done].
  rewrite decide_True by done. lia.
Qed.

End RangePositions.

(** The Variable [v] after a write through the view [view] on the range
    [[b, e)] that left the concept [r]. *)
Lemma write_through_range_view (v : variable) (view r : VariableConcept)
    (dim : Dim.t) (b e n : Z) (const : bool) (g : coord -> option Element) :
  wf_variable v -> Dimensions.size (var_dimensions v) dim = inr n ->
  0 <= b -> b <= e -> e <= n ->
  is_range_view view (m_object v) dim b e const ->
  dtype r = dtype view ->
  (forall x, concept_cell r x = concept_cell view x) ->
  (forall p, is_Some (concept_buffer r p) <-> is_Some (concept_buffer view p)) ->
  (forall x, in_box (Concept.dimensions view) x -> cell_element r x = g x) ->
  (forall p : nat,
     (forall x, in_box (Concept.dimensions view) x ->
                Z.to_nat (concept_cell view x) <> p) ->
     concept_buffer r p = concept_buffer view p) ->
  is_range_update (with_object v (ConceptView.write_back (m_object v) r)) v dim b e g.
Proof.
  intros Hwf Hs Hb Hbe Hen (Hdv & Hkv & _ & _ & Hcells & Hbuf & Hcell) Hkr Hcellr Hdom Hel
    Hframe.
  pose proof (wf_variable_dims _ Hwf) as Hd. fold (var_dimensions v) in Hdv, Hcell.
  destruct (write_back_spec (m_object v) r Hwf) as (Hwf' & Hk' & Hd' & Hbuf').
  { congruence. }
  { intros p. by rewrite Hdom, Hbuf. }
  unfold is_range_update, wf_variable, var_dimensions, var_element. simpl.
  split; [done|]. split; [done|]. split; [done|]. split; [done|].
  split; [done|]. split; [done|].
  intros x Hx. rewrite concept_element_buffer, Hd', Hbuf'.
  fold (var_dimensions v) in Hx |- *.
  destruct (decide (b <= x dim < e)) as [Hin|Hout].
  - assert (in_box (Concept.dimensions view) (update x dim (x dim - b))) as Hx0
      by (rewrite Hdv; by apply range_box_down).
    rewrite <- (Hel _ Hx0). unfold cell_element.
    rewrite Hcellr, (Hcell _ Hx0). do 2 f_equal.
    apply flat_ext. intros l _. symmetry. apply range_up_down.
  - rewrite Hframe; [by rewrite Hbuf, <- concept_element_buffer|].
    intros x0 Hx0 Heq. rewrite (Hcell x0 Hx0) in Heq. rewrite Hdv in Hx0.
    assert (in_box (var_dimensions v) (update x0 dim (x0 dim + b))) as Hup
      by (eapply range_box_up; eauto).
    pose proof (flat_bounds _ _ Hup). pose proof (flat_bounds _ _ Hx).
    assert (flat (var_dimensions v) (update x0 dim (x0 dim + b))
            = flat (var_dimensions v) x) as Hflat by lia.
    pose proof (flat_inj _ _ _ Hup Hx Hflat dim) as Hdim.
    rewrite update_eq in Hdim.
    pose proof (proj1 (in_box_resized _ _ _ _) Hx0 _ _ (size_elem_of _ _ _ Hs)) as Hr.
    rewrite decide_True in Hr by done.
    rewrite <- Hdim in Hout; [lia|]. apply contains_elem_of. by eapply size_contains.
Qed.

(** X17: [v(dim, b, e).assign(other)] for the mutable view on a range
    [0 <= b <= e <= n] of the extent [n] of [v] along [dim] and a Variable
    [other] with the element type and the dimensions of the view: the
    call ends with an exception when the tags or the units differ;
    otherwise it returns, [v] keeps its tag, unit, name and dimensions, its
    elements in the range become those of [other], and all others are
    kept; the name of [other] is not assigned. *)
Theorem VariableSlice_assign_spec (v other : variable) (dim : Dim.t) (b e n : Z) :
  wf_variable v -> wf_variable other ->
  Dimensions.contains (var_dimensions v) Dim.Invalid = false ->
  Dimensions.size (var_dimensions v) dim = inr n ->
  0 <= b -> b <= e -> e <= n ->
  dtype (m_object other) = dtype (m_object v) ->
  var_dimensions other = resized (var_dimensions v) dim (e - b) ->
  exists s,
    Variable_call false v dim b e = inr s
    /\ (m_tag v <> m_tag other ->
        VariableSlice_assign s other
        = inl (runtime_error "Cannot assign to slice: Type mismatch."))
    /\ (m_tag v = m_tag other -> m_unit v <> m_unit other ->
        VariableSlice_assign s other
        = inl (runtime_error "Cannot assign to slice: Unit mismatch."))
    /\ (m_tag v = m_tag other -> m_unit v = m_unit other ->
        exists s',
          VariableSlice_assign s other = inr s'
          /\ is_range_update (m_variable s') v dim b e (var_element other)).
Proof.
  intros Hwf Hwfo Hinv Hs Hb Hbe Hen Hk Hdo.
  destruct (Concept_makeView_range (m_object v) dim b e n false Hwf Hs Hb Hbe Hen)
    as (view & Hview & Hrange).
  pose proof Hrange as (Hdv & Hkv & _ & Hconst & Hcells & Hbuf & Hcell).
  fold (var_dimensions v) in Hdv.
  exists (mkSlice v view). unfold Variable_call. rewrite Hview.
  split; [done|]. unfold VariableSlice_assign. simpl.
  split; [intros Ht; by rewrite bool_decide_eq_false_2|].
  split.
  { intros Ht Hu. rewrite bool_decide_eq_true_2 by done.
    by rewrite bool_decide_eq_false_2. }
  intros Ht Hu. rewrite !bool_decide_eq_true_2 by done. cbn [negb].
  fold (var_dimensions other). rewrite eqb_eq by congruence. cbn [negb].
  destruct (Concept_copy_whole view (m_object other) (update (fun _ => 0) dim b)
              (fun _ => 0))
    as (r & Hcopy & Hcr & Hkr & Hdr & Hvr & Hcellr & Hdom & Hel & Hframe); try done.
  { by apply concept_cells_owning. }
  { congruence. }
  { fold (var_dimensions other). congruence. }
  { by rewrite Hdv, contains_resized. }
  rewrite Hcopy. cbn [bind]. eexists. split; [reflexivity|]. simpl.
  apply (write_through_range_view v view r dim b e n false); try done.
  intros x Hx. rewrite (Hel x Hx). by apply cell_element_owning.
Qed.

Lemma VariableSlice_assign_spec_witness :
  wf_variable sample_row /\ wf_variable sample_a
  /\ Dimensions.size (var_dimensions sample_row) Dim.X = inr 4
  /\ var_dimensions sample_a = resized (var_dimensions sample_row) Dim.X (4 - 1)
  /\ exists s s',
       Variable_call false sample_row Dim.X 1 4 = inr s
       /\ VariableSlice_assign s sample_a = inr s'
       /\ is_range_update (m_variable s') sample_row Dim.X 1 4 (var_element sample_a).
Proof.
  assert (wf_variable sample_row) as Hwf by solve_wf.
  assert (wf_variable sample_a) as Hwfo by solve_wf.
  split; [exact Hwf|]. split; [exact Hwfo|]. split; [reflexivity|]. split; [reflexivity|].
  destruct (VariableSlice_assign_spec sample_row sample_a Dim.X 1 4 4 Hwf Hwfo
              eq_refl eq_refl Z.le_0_1 ltac:(lia) (Z.le_refl 4) eq_refl eq_refl)
    as (s & Hs & _ & _ & Hassign).
  destruct (Hassign eq_refl eq_refl) as (s' & Hs' & Hupdate).
  exists s, s'. split; [exact Hs|]. split; [exact Hs' | exact Hupdate].
Defined.

(** ** Arithmetic on the cells of a view *)

Section ApplyCells.
Context {T : Type} (this other : VariableConceptT T) (st : coord).

Let D := dimensions this.
Let O := dimensions other.

Hypothesis Hthis : wf_cells this st.
Hypothesis Hother : wf_model other.
Hypothesis Hmut : isConstView this = false.
Hypothesis Hcontains : Dimensions.contains_dims D O = true.

(** All paths of [apply] hand the same two ranges to the helper. *)
Lemma apply_cells_unfold helper :
  apply helper this other
  = helper this other (VariableView.offsets (data this) D (layout this))
      (VariableView.offsets 0 D O).
Proof.
  destruct Hthis as (HD & HP & Hlen & _ & _ & Hfit & _).
  destruct Hother as (Hv' & HO & Hlen'). fold D in HD, Hfit. fold O in HO, Hlen'.
  unfold apply. fold D O. rewrite Hcontains.
  assert (getView_const other D = inr (VariableView.offsets 0 D O)) as Hview.
  { unfold getView_const, VariableView.makeVariableView. rewrite Hv'. fold O.
    by rewrite contains_dims_fits by (done || apply HD). }
  assert (isContiguous other && Dimensions.isContiguousIn D O = true ->
          getSpan_const other = inr (VariableView.offsets 0 D O)) as Hspan.
  { intros [_ Hcont]%andb_true_iff.
    assert (D = O) as Heq by (apply contains_contiguous_eq; (done || apply HD || apply HO)).
    unfold getSpan_const, size. rewrite Hv', Hlen', <- Heq. by rewrite offsets_full. }
  assert (isContiguous this = true ->
          getSpan this = inr (VariableView.offsets (data this) D (layout this))) as Hspan'.
  { intros Hc. unfold getSpan, getSpan_const, requireMutable, requireContiguous.
    rewrite Hmut, Hc. unfold size, data, layout in *. unfold isContiguous in Hc.
    destruct (m_view this) as [v|] eqn:Hv; cbn [bind]; fold D.
    - by rewrite offsets_contiguous.
    - rewrite Hlen. by rewrite offsets_full. }
  assert (isContiguous this = false ->
          getView this D = inr (VariableView.offsets (data this) D (layout this))) as Hview'.
  { intros Hc. unfold getView, getView_const, requireMutable. rewrite Hmut.
    unfold data, layout, isContiguous in *.
    destruct (m_view this) as [v|] eqn:Hv; [|discriminate]. cbn [bind].
    unfold VariableView.makeVariableView. by rewrite Hfit. }
  destruct (isContiguous this) eqn:Hc; cbn [andb].
  - rewrite Hspan' by done. cbn [bind].
    destruct (isContiguous other && Dimensions.isContiguousIn D O) eqn:Hco.
    + by rewrite Hspan.
    + by rewrite Hview.
  - rewrite Hview' by done. cbn [bind].
    destruct (isContiguous other && Dimensions.isContiguousIn D O) eqn:Hco.
    + by rewrite Hspan.
    + by rewrite Hview.
Qed.

(** [this op= other] where [this] may be a mutable view and [other] owns
    its data: every cell of [this] is combined with the cell of [other]
    at the same position; the rest of the buffer of [this] is kept. *)
Lemma apply_cells (op : T -> T -> T) :
  exists model,
    apply (ArithmeticHelper_apply op) this other = inr (with_model this model)
    /\ length model = length (m_model this)
    /\ (forall x, in_box D x ->
          exists a b,
            m_model this !! Z.to_nat (cell this x) = Some a
            /\ m_model other !! Z.to_nat (flat O x) = Some b
            /\ model !! Z.to_nat (cell this x) = Some (op a b))
    /\ (forall p : nat, (forall x, in_box D x -> Z.to_nat (cell this x) <> p) ->
          model !! p = m_model this !! p).
Proof.
  rewrite apply_cells_unfold.
  pose proof Hthis as (HD & HP & _). pose proof Hother as (Hv' & HO & Hlen').
  fold D in HD. fold O in HO, Hlen'.
  assert (forall x, flat O (restrict (Dimensions.labels D) x) = flat O x) as HOx.
  { intros x. apply flat_ext. intros l Hl. unfold restrict.
    rewrite decide_True; [done|]. by apply (contains_dims_labels D O). }
  destruct (std_transform_spec op (m_model other)
              (VariableView.offsets (data this) D (layout this))
              (VariableView.offsets 0 D O) (m_model this))
    as (model & Ht & Hl & Hel).
  - apply length_zip_offsets.
  - intros p Hp. apply (elem_of_offsets_cells this st) in Hp as (x & Hx & ->); [|done].
    by apply (cell_bounds this st).
  - intros q (x & Hx & ->)%elem_of_offsets; [|apply HD|apply HO].
    rewrite Z.add_0_l, Hlen', HOx. apply flat_bounds.
    by apply (contains_dims_in_box D O _ Hcontains).
  - exists model. split; [unfold ArithmeticHelper_apply; by rewrite Ht|].
    split; [done|]. split.
    + intros x Hx.
      pose proof (cell_bounds this st x Hthis Hx) as Hb.
      pose proof (flat_bounds O x (contains_dims_in_box D O x Hcontains Hx)) as Hb'.
      destruct (lookup_lt_is_Some_2 (m_model this) (Z.to_nat (cell this x))) as [a Ha];
        [lia|].
      destruct (lookup_lt_is_Some_2 (m_model other) (Z.to_nat (flat O x))) as [b Hb''];
        [lia|].
      exists a, b. split; [done|]. split; [done|].
      rewrite (Hel _ a Ha). f_equal. unfold contributions.
      rewrite (omap_filter (fun pq : Z * Z => Z.to_nat pq.1 = Z.to_nat (cell this x))
                 (fun pq : Z * Z => m_model other !! Z.to_nat pq.2)).
      pose proof (cells_pairs this st O 0 x Hthis (proj1 HO) Hx) as Hpairs.
      fold D in Hpairs. rewrite Hpairs. simpl.
      by rewrite Z.add_0_l, HOx, Hb''.
    + intros p Hp. destruct (m_model this !! p) as [a|] eqn:Ha.
      * rewrite (Hel _ a Ha). f_equal. unfold contributions.
        rewrite (omap_filter (fun pq : Z * Z => Z.to_nat pq.1 = p)
                   (fun pq : Z * Z => m_model other !! Z.to_nat pq.2)).
        assert (filter (fun pq : Z * Z => Z.to_nat pq.1 = p)
                  (zip (VariableView.offsets (data this) D (layout this))
                     (VariableView.offsets 0 D O)) = []) as ->; [|done].
        apply elem_of_nil_inv. intros [p' q'] [Hp' Hin]%list_elem_of_filter.
        simpl in Hp'.
        apply (elem_of_zip_offsets _ _ _ _ _ p' q' (proj1 HD) (proj1 HP) (proj1 HO))
          in Hin as (x & Hx & -> & _).
        by apply (Hp x Hx).
      * apply lookup_ge_None in Ha. apply lookup_ge_None. lia.
Qed.

End ApplyCells.

Lemma Concept_apply_cells (op : Op) (this other : VariableConcept) (st : coord) :
  concept_cells this st -> wf_concept other -> dtype this = dtype other ->
  dtype this <> dtype_string ->
  concept_isConstView this = false ->
  Dimensions.contains_dims (Concept.dimensions this) (Concept.dimensions other) = true ->
  exists r,
    Concept.apply op this other = inr r
    /\ concept_cells r st /\ dtype r = dtype this
    /\ Concept.dimensions r = Concept.dimensions this
    /\ Concept.isView r = Concept.isView this
    /\ (forall x, concept_cell r x = concept_cell this x)
    /\ (forall p, is_Some (concept_buffer r p) <-> is_Some (concept_buffer this p))
    /\ (forall x, in_box (Concept.dimensions this) x ->
          cell_element r x
          = Element_op op (cell_element this x) (concept_element other x))
    /\ (forall p : nat,
          (forall x, in_box (Concept.dimensions this) x ->
                     Z.to_nat (concept_cell this x) <> p) ->
          concept_buffer r p = concept_buffer this p).
Proof.
  destruct this as [a|a|a], other as [o|o|o]; simpl; intros Ha Ho Hk Hns Hmut Hc;
    try discriminate; try done;
    destruct (apply_cells a o st Ha Ho Hmut Hc (Op_fun op))
      as (model & Happly & Hlen & Hel & Hframe);
    (eexists; split; [rewrite Happly; reflexivity|]);
    (split; [by apply wf_cells_with_model|]);
    (split; [done|]); (split; [done|]); (split; [done|]); (split; [done|]);
    (split; [intros p; simpl; rewrite !fmap_is_Some, !lookup_lt_is_Some; lia|]);
    (split; [ intros x Hx; unfold cell_element; simpl;
              change (cell (with_model a model) x) with (cell a x);
              destruct (Hel x Hx) as (u & w & Hu & Hw & Hm);
              unfold element; simpl; by rewrite Hu, Hw, Hm
            | intros p Hp; simpl; by rewrite (Hframe p Hp) ]).
Qed.

(** ** In-place arithmetic through the view on a range *)

Lemma apply_data_range (op : Op) (v other : variable) (view : VariableConcept)
    (dim : Dim.t) (b e n : Z) :
  wf_variable v -> wf_variable other ->
  Dimensions.size (var_dimensions v) dim = inr n ->
  0 <= b -> b <= e -> e <= n ->
  dtype (m_object v) = dtype (m_object other) ->
  dtype (m_object v) <> dtype_string ->
  Dimensions.contains_dims (resized (var_dimensions v) dim (e - b))
    (var_dimensions other) = true ->
  is_range_view view (m_object v) dim b e false ->
  exists s', apply_data op (mkSlice v view) other = (s', None)
    /\ is_range_elementwise op (m_variable s') v other dim b e
    /\ m_unit (m_variable s') = m_unit v.
Proof.
  intros Hwf Hwfo Hs Hb Hbe Hen Hk Hns Hc Hrange.
  pose proof Hrange as (Hdv & Hkv & _ & Hconst & Hcells & Hbuf & Hcell).
  fold (var_dimensions v) in Hdv, Hcell.
  destruct (Concept_apply_cells op view (m_object other) (update (fun _ => 0) dim b))
    as (r & Happly & Hcr & Hkr & Hdr & Hvr & Hcellr & Hdom & Hel & Hframe); try done.
  { congruence. }
  { congruence. }
  { fold (var_dimensions other). by rewrite Hdv. }
  unfold apply_data. simpl. rewrite Happly. eexists. split; [reflexivity|]. simpl.
  destruct (write_through_range_view v view r dim b e n false
              (fun x0 => Element_op op (var_element v (update x0 dim (x0 dim + b)))
                           (var_element other x0)))
    as (Hwf' & Ht' & Hu' & Hn' & Hk' & Hd' & Hel'); try done.
  { intros x Hx. rewrite (Hel x Hx). f_equal. unfold cell_element.
    rewrite (Hcell x Hx), Hbuf. unfold var_element.
    by rewrite concept_element_buffer. }
  split; [|done]. unfold is_range_elementwise.
  split; [done|]. split; [done|]. split; [done|]. split; [done|]. split; [done|].
  intros x Hx. rewrite (Hel' x Hx). case_decide; [|done]. f_equal.
  unfold var_element. rewrite !concept_element_buffer. do 2 f_equal.
  apply flat_ext. intros l _. apply range_up_down.
Qed.

Lemma resized_eqb (D : Dimensions.t) (dim : Dim.t) (n m : Z) :
  wf_dims D -> Dimensions.size D dim = inr n ->
  Dimensions.eqb (resized D dim m) D = bool_decide (m = n).
Proof.
  intros HD Hs. rewrite eqb_resized by apply HD. destruct (decide (m = n)) as [->|Hne].
  - rewrite (resized_id D dim n) by (done || apply HD).
    by rewrite !bool_decide_eq_true_2.
  - rewrite !bool_decide_eq_false_2; [done | done|].
    intros Heq.
    assert (Dimensions.size (resized D dim m) dim = inr m) as Hm.
    { rewrite size_resized, decide_True by done.
      by erewrite size_contains by done. }
    rewrite Heq in Hm. congruence.
Qed.

(** X18: [v(dim, b, e) += other] and [v(dim, b, e) -= other] for the
    mutable view on a range [0 <= b <= e <= n] of the extent [n] of [v]
    along [dim] and a numeric Variable [other] of the same element type
    and unit, where every label of [other] is a label of the view with the
    same extent and [v] does not hold event lists or tables: the
    operation returns and changes [v] itself; [v] keeps its tag, unit, name
    and dimensions, its elements in the range are combined with the
    elements of [other] in the arithmetic of the element type ([double],
    or [int64] with wrap-around), and all its other elements are kept. *)
Theorem slice_plus_minus (v other : variable) (dim : Dim.t) (b e n : Z) :
  wf_variable v -> wf_variable other ->
  Dimensions.size (var_dimensions v) dim = inr n ->
  0 <= b -> b <= e -> e <= n ->
  dtype (m_object v) = dtype (m_object other) ->
  dtype (m_object v) <> dtype_string ->
  m_unit v = m_unit other ->
  Dimensions.contains_dims (resized (var_dimensions v) dim (e - b))
    (var_dimensions other) = true ->
  m_tag v <> Tag.Data_Events -> m_tag v <> Tag.Data_Table ->
  exists s,
    Variable_call false v dim b e = inr s
    /\ (exists s', plus_equals s other = Some (s', None)
          /\ is_range_elementwise std_plus (m_variable s') v other dim b e
          /\ m_unit (m_variable s') = m_unit v)
    /\ (exists s', minus_equals s other = (s', None)
          /\ is_range_elementwise std_minus (m_variable s') v other dim b e
          /\ m_unit (m_variable s') = m_unit v).
Proof.
  intros Hwf Hwfo Hs Hb Hbe Hen Hk Hns Hu Hc He Ht.
  destruct (Concept_makeView_range (m_object v) dim b e n false Hwf Hs Hb Hbe Hen)
    as (view & Hview & Hrange).
  pose proof Hrange as (Hdv & _). fold (var_dimensions v) in Hdv.
  exists (mkSlice v view). unfold Variable_call. rewrite Hview.
  split; [done|]. split.
  - destruct (apply_data_range std_plus v other view dim b e n) as (s' & Hs' & H');
      try done.
    exists s'. split; [|done]. unfold plus_equals, valueTypeIs. simpl.
    rewrite bool_decide_eq_true_2 by done.
    rewrite !bool_decide_eq_false_2 by done. cbn [negb andb].
    fold (var_dimensions other). by rewrite Hdv, Hc, Hs'.
  - destruct (apply_data_range std_minus v other view dim b e n) as (s' & Hs' & H');
      try done.
    exists s'. split; [|done]. unfold minus_equals, valueTypeIs. simpl.
    rewrite bool_decide_eq_true_2 by done. cbn [negb].
    fold (var_dimensions other). rewrite Hdv, Hc.
    by rewrite bool_decide_eq_false_2 by done.
Qed.

Lemma slice_plus_minus_witness :
  wf_variable sample_row /\ wf_variable sample_a
  /\ Dimensions.size (var_dimensions sample_row) Dim.X = inr 4
  /\ Dimensions.contains_dims (resized (var_dimensions sample_row) Dim.X (4 - 1))
       (var_dimensions sample_a) = true
  /\ exists s s',
       Variable_call false sample_row Dim.X 1 4 = inr s
       /\ plus_equals s sample_a = Some (s', None)
       /\ is_range_elementwise std_plus (m_variable s') sample_row sample_a Dim.X 1 4.
Proof.
  assert (wf_variable sample_row) as Hwf by solve_wf.
  assert (wf_variable sample_a) as Hwfo by solve_wf.
  split; [exact Hwf|]. split; [exact Hwfo|]. split; [reflexivity|]. split; [reflexivity|].
  destruct (slice_plus_minus sample_row sample_a Dim.X 1 4 4 Hwf Hwfo
              eq_refl Z.le_0_1 ltac:(lia) (Z.le_refl 4) eq_refl ltac:(discriminate)
              eq_refl eq_refl ltac:(discriminate) ltac:(discriminate))
    as (s & Hs & (s' & Hs' & Hel & _) & _).
  exists s, s'. split; [exact Hs|]. split; [exact Hs' | exact Hel].
Defined.

(** X19: [v(dim, b, e) *= other] for the mutable view on a range
    [0 <= b <= e <= n] of the extent [n] of [v] along [dim] and a numeric
    Variable [other] of the same element type, where every label of
    [other] is a label of the view with the same extent and [v] does not
    hold event lists.  When the range is not the whole extent and the
    product of the units differs from the unit of [v], the call ends with
    the [runtime_error] of [VariableSlice::setUnit] (its message ends with
    a line break) and [v] is unchanged.  Otherwise it returns and changes
    [v] itself: the unit of [v] becomes the product of the units, its
    elements in the range are multiplied by the elements of [other] in the
    arithmetic of the element type ([double], or [int64] with
    wrap-around), and all its other elements are kept. *)
Theorem slice_times (v other : variable) (dim : Dim.t) (b e n : Z) :
  wf_variable v -> wf_variable other ->
  Dimensions.size (var_dimensions v) dim = inr n ->
  0 <= b -> b <= e -> e <= n ->
  dtype (m_object v) = dtype (m_object other) ->
  dtype (m_object v) <> dtype_string ->
  Dimensions.contains_dims (resized (var_dimensions v) dim (e - b))
    (var_dimensions other) = true ->
  m_tag v <> Tag.Data_Events ->
  exists s,
    Variable_call false v dim b e = inr s /\ m_variable s = v
    /\ (e - b <> n -> Unit.mul (m_unit v) (m_unit other) <> m_unit v ->
        times_equals s other
        = (s, Some (runtime_error
                      (String.append
                         "Partial view on data of variable cannot be used to change the unit."
                         (String (Ascii.ascii_of_nat 10) EmptyString)))))
    /\ (e - b = n \/ Unit.mul (m_unit v) (m_unit other) = m_unit v ->
        exists s', times_equals s other = (s', None)
          /\ is_range_elementwise std_multiplies (m_variable s') v other dim b e
          /\ m_unit (m_variable s') = Unit.mul (m_unit v) (m_unit other)).
Proof.
  intros Hwf Hwfo Hs Hb Hbe Hen Hk Hns Hc He.
  destruct (Concept_makeView_range (m_object v) dim b e n false Hwf Hs Hb Hbe Hen)
    as (view & Hview & Hrange).
  pose proof Hrange as (Hdv & _). fold (var_dimensions v) in Hdv.
  pose proof (resized_eqb (var_dimensions v) dim n (e - b) (wf_variable_dims _ Hwf) Hs)
    as Heqb.
  exists (mkSlice v view). unfold Variable_call. rewrite Hview.
  split; [done|]. split; [done|].
  unfold times_equals, valueTypeIs. simpl. fold (var_dimensions other).
  rewrite Hdv, Hc. cbn [negb]. rewrite bool_decide_eq_false_2 by done.
  unfold VariableSlice_setUnit. simpl. rewrite Hdv, Heqb. split.
  - intros Hne Hu. by rewrite !bool_decide_eq_false_2 by done.
  - intros Hok.
    assert (negb (bool_decide (m_unit v = Unit.mul (m_unit v) (m_unit other)))
            && negb (bool_decide (e - b = n)) = false) as ->.
    { destruct Hok as [Hn|Hu].
      - rewrite (bool_decide_eq_true_2 _ Hn). apply andb_false_r.
      - by rewrite bool_decide_eq_true_2. }
    cbn [ret].
    destruct (apply_data_range std_multiplies
                (setUnit v (Unit.mul (m_unit v) (m_unit other))) other view dim b e n)
      as (s' & Hs' & H' & Hu'); try done.
    exists s'. split; [exact Hs'|]. split; [exact H' | exact Hu'].
Qed.

Lemma slice_times_witness :
  wf_variable sample_row /\ wf_variable sample_a
  /\ Dimensions.size (var_dimensions sample_row) Dim.X = inr 4
  /\ Dimensions.contains_dims (resized (var_dimensions sample_row) Dim.X (4 - 1))
       (var_dimensions sample_a) = true
  /\ exists s,
       Variable_call false sample_row Dim.X 1 4 = inr s
       /\ times_equals s sample_a
          = (s, Some (runtime_error
                        (String.append
                           "Partial view on data of variable cannot be used to change the unit."
                           (String (Ascii.ascii_of_nat 10) EmptyString)))).
Proof.
  assert (wf_variable sample_row) as Hwf by solve_wf.
  assert (wf_variable sample_a) as Hwfo by solve_wf.
  split; [exact Hwf|]. split; [exact Hwfo|]. split; [reflexivity|]. split; [reflexivity|].
  destruct (slice_times sample_row sample_a Dim.X 1 4 4 Hwf Hwfo
              eq_refl Z.le_0_1 ltac:(lia) (Z.le_refl 4) eq_refl ltac:(discriminate)
              eq_refl ltac:(discriminate))
    as (s & Hs & _ & Herr & _).
  exists s. split; [exact Hs|]. apply Herr; [lia | discriminate].
Defined.

(** ** Comparison of a view *)

Section EqualCells.
Context {T : Type} (eqb : T -> T -> bool) (a b : VariableConceptT T) (st : coord).

Let D := dimensions a.
Let O := dimensions b.

Hypothesis Ha : wf_cells a st.
Hypothesis Hb : wf_model b.
Hypothesis Hdims : D ≡ₚ O.

(** [==] between a concept that may be a view and an owning model of the
    same dimensions in any order compares cell by cell. *)
Lemma equals_cells :
  exists r, equals_concept eqb a b = inr r
    /\ (r = true <->
        forall x, in_box D x ->
          exists u w, m_model a !! Z.to_nat (cell a x) = Some u
                      /\ element b x = Some w /\ eqb u w = true).
Proof.
  pose proof Ha as (HD & HP & Hlen & _ & _ & Hfit & _).
  pose proof Hb as (Hvb & HO & Hlb). fold D in HD, Hfit. fold O in HO, Hlb.
  assert (equals_concept eqb a b
          = std_equal eqb (m_model a) (m_model b)
              (VariableView.offsets (data a) D (layout a))
              (VariableView.offsets 0 D O)) as ->.
  { unfold equals_concept. fold D O. rewrite (proj2 (eqb_perm _ _) Hdims). cbn [negb].
    assert (exists cond,
      isContiguous b && Dimensions.isContiguousIn D O = cond
      /\ (if cond then getSpan_const b else getView_const b D)
         = inr (VariableView.offsets 0 D O)) as (cond & -> & Hside).
    { destruct (Dimensions.isContiguousIn D O) eqn:Hcont.
      - exists true. split; [unfold isContiguous; by rewrite Hvb|].
        rewrite <- (perm_contiguous_eq D O (proj1 HD) Hdims Hcont) in Hlb |- *.
        unfold getSpan_const, size. rewrite Hvb, Hlb. by rewrite offsets_full.
      - exists false. split; [apply andb_false_r|].
        unfold getView_const, VariableView.makeVariableView. rewrite Hvb. fold O.
        by rewrite contains_dims_fits by (apply HD || by apply perm_contains_dims). }
    assert ((if isContiguous a then getSpan_const a else getView_const a D)
            = inr (VariableView.offsets (data a) D (layout a))) as Hleft.
    { unfold isContiguous, getSpan_const, getView_const, requireContiguous, isContiguous,
        size, data, layout in *.
      destruct (m_view a) as [v|] eqn:Hv; fold D.
      - destruct (Dimensions.isContiguousIn D (parentDimensions v)) eqn:Hc.
        + rewrite (offsets_contiguous D (parentDimensions v)) by done. reflexivity.
        + unfold VariableView.makeVariableView. rewrite Hfit. reflexivity.
      - rewrite Hlen, offsets_full by done. reflexivity. }
    destruct (isContiguous a), cond; rewrite Hleft, Hside; reflexivity. }
  destruct (std_equal_spec eqb (m_model a) (m_model b)
              (VariableView.offsets (data a) D (layout a))
              (VariableView.offsets 0 D O))
    as (r & Hr & Hiff).
  - apply length_zip_offsets.
  - intros p (x & Hx & ->)%(elem_of_offsets_cells a st); [|done].
    by apply (cell_bounds a st).
  - intros q Hq. apply elem_of_offsets in Hq as (c & Hc & ->); [|apply HD|apply HO].
    rewrite Hlb, Z.add_0_l, (perm_flat_restrict _ _ c Hdims). apply flat_bounds.
    by apply (perm_in_box _ _ c Hdims).
  - exists r. split; [done|]. rewrite Hiff.
    unfold element. fold O. split.
    + intros Hall x Hx. apply Hall.
      apply (elem_of_zip_offsets _ _ _ _ _ _ _ (proj1 HD) (proj1 HP) (proj1 HO)).
      exists x. split; [done|]. split; [done|].
      by rewrite Z.add_0_l, (perm_flat_restrict _ _ x Hdims).
    + intros Hall p q Hin.
      apply (elem_of_zip_offsets _ _ _ _ _ _ _ (proj1 HD) (proj1 HP) (proj1 HO)) in Hin
        as (x & Hx & -> & ->).
      rewrite Z.add_0_l, (perm_flat_restrict _ _ x Hdims). by apply Hall.
Qed.

End EqualCells.

Lemma Concept_equals_cells (this other : VariableConcept) (st : coord) :
  concept_cells this st -> wf_concept other ->
  Concept.dimensions this ≡ₚ Concept.dimensions other ->
  (dtype this <> dtype other -> Concept.equals this other = inl bad_cast)
  /\ (dtype this = dtype other ->
      exists r, Concept.equals this other = inr r
        /\ (r = true <->
            forall x, in_box (Concept.dimensions this) x -> cells_agree this other x)).
Proof.
  unfold Concept.equals, cells_agree, cell_element.
  intros Hc Hwf Hd. rewrite (proj2 (eqb_perm _ _) Hd). cbn [negb].
  destruct this as [x|x|x], other as [y|y|y]; simpl in *;
    (split; [try done|]); intros Hk; try discriminate.
  - destruct (equals_cells PrimFloat.eqb x y st Hc Hwf Hd) as (r & Hr & Hiff).
    exists r. split; [done|]. rewrite Hiff. split.
    + intros Hall c Hc'. destruct (Hall c Hc') as (u & w & -> & -> & Huw). done.
    + intros Hall c Hc'. specialize (Hall c Hc').
      destruct (m_model x !! _), (element y c); simpl in Hall; try done. eauto.
  - destruct (equals_cells Z.eqb x y st Hc Hwf Hd) as (r & Hr & Hiff).
    exists r. split; [done|]. rewrite Hiff. split.
    + intros Hall c Hc'. destruct (Hall c Hc') as (u & w & -> & -> & Huw). done.
    + intros Hall c Hc'. specialize (Hall c Hc').
      destruct (m_model x !! _), (element y c); simpl in Hall; try done. eauto.
  - destruct (equals_cells String.eqb x y st Hc Hwf Hd) as (r & Hr & Hiff).
    exists r. split; [done|]. rewrite Hiff. split.
    + intros Hall c Hc'. destruct (Hall c Hc') as (u & w & -> & -> & Huw). done.
    + intros Hall c Hc'. specialize (Hall c Hc').
      destruct (m_model x !! _), (element y c); simpl in Hall; try done. eauto.
Qed.

(** Two concepts with the same cells compare alike with a third. *)
Lemma Concept_equals_same_cells (this this' other : VariableConcept) (st st' : coord) :
  concept_cells this st -> concept_cells this' st' -> wf_concept other ->
  Concept.dimensions this' = Concept.dimensions this ->
  dtype this' = dtype this ->
  (forall x, in_box (Concept.dimensions this) x ->
     cell_element this' x = cell_element this x) ->
  Concept.dimensions this ≡ₚ Concept.dimensions other ->
  Concept.equals this other = Concept.equals this' other.
Proof.
  intros Hc Hc' Hwf Hd Hk Hel Hdo.
  destruct (Concept_equals_cells this other st Hc Hwf Hdo) as [Hbad Hgood].
  destruct (Concept_equals_cells this' other st' Hc' Hwf) as [Hbad' Hgood'];
    [by rewrite Hd|].
  assert (dtype this = dtype other \/ dtype this <> dtype other) as [Heq|Hne]
    by (destruct (dtype this), (dtype other); (by left) || (by right)).
  - destruct (Hgood Heq) as (r & -> & Hiff).
    assert (dtype this' = dtype other) as Heq' by congruence.
    destruct (Hgood' Heq') as (r' & -> & Hiff'). f_equal.
    assert (r = true <-> r' = true) as Hrr.
    { rewrite Hiff, Hiff', Hd. unfold cells_agree.
      split; intros Hall x Hx; specialize (Hall x Hx);
        [rewrite (Hel x Hx) | rewrite <- (Hel x Hx)]; done. }
    destruct r, r'; try done; [symmetry|]; by apply Hrr.
  - rewrite Hbad by done. rewrite Hbad'; [done | congruence].
Qed.

(** X20: comparing the view [v(dim, b, e)] on a range
    [0 <= b <= e <= n] of the extent [n] of [v] along [dim] with a
    Variable [other] gives what the deep comparison of the copy
    [slice(v, dim, b, e)] with [other] gives, whether the view is const or
    not. *)
Theorem view_equals_as_copy (v other : variable) (dim : Dim.t) (b e n : Z)
    (const : bool) :
  wf_variable v -> wf_variable other ->
  Dimensions.size (var_dimensions v) dim = inr n ->
  0 <= b -> b <= e -> e <= n ->
  exists s p,
    Variable_call const v dim b e = inr s
    /\ slice v dim b e = inr p
    /\ equals (m_name v) (m_name other) s other = Variable_equals false p other.
Proof.
  intros Hwf Hwfo Hs Hb Hbe Hen.
  destruct (Concept_makeView_range (m_object v) dim b e n const Hwf Hs Hb Hbe Hen)
    as (view & Hview & Hrange).
  pose proof Hrange as (Hdv & Hkv & _ & _ & Hcells & Hbuf & Hcell).
  fold (var_dimensions v) in Hdv, Hcell.
  destruct (slice_spec v dim b e n Hwf Hs Hb Hbe Hen)
    as (p & Hp & Hwfp & Htp & Hup & Hnp & Hkp & Hdp & Help).
  exists (mkSlice v view), p. unfold Variable_call. rewrite Hview.
  split; [done|]. split; [done|].
  unfold equals, Variable_equals. simpl. rewrite Hnp, Hup, Htp.
  fold (var_dimensions other). rewrite Hdv, Hdp.
  destruct (negb (bool_decide (m_name v = m_name other))); [done|].
  destruct (negb (bool_decide (m_unit v = m_unit other))); [done|].
  destruct (negb (bool_decide (m_tag v = m_tag other))); [done|].
  destruct (Dimensions.eqb (resized (var_dimensions v) dim (e - b)) (var_dimensions other))
    eqn:Hdo; [|done].
  apply eqb_perm in Hdo. cbn [negb].
  apply (Concept_equals_same_cells view (m_object p) (m_object other)
           (update (fun _ => 0) dim b) (fun _ => 0)); try done.
  - by apply concept_cells_owning.
  - fold (var_dimensions p). congruence.
  - congruence.
  - intros x Hx. rewrite cell_element_owning by done.
    fold (var_element p x). rewrite Help by (rewrite Hdp, <- Hdv; done).
    unfold cell_element. rewrite (Hcell x Hx), Hbuf. unfold var_element.
    by rewrite concept_element_buffer.
  - fold (var_dimensions other). congruence.
Qed.

Lemma view_equals_as_copy_witness :
  wf_variable sample_row /\ wf_variable sample_a
  /\ Dimensions.size (var_dimensions sample_row) Dim.X = inr 4
  /\ exists s p,
       Variable_call true sample_row Dim.X 1 4 = inr s
       /\ slice sample_row Dim.X 1 4 = inr p
       /\ equals (m_name sample_row) (m_name sample_a) s sample_a
          = Variable_equals false p sample_a.
Proof.
  assert (wf_variable sample_row) as Hwf by solve_wf.
  assert (wf_variable sample_a) as Hwfo by solve_wf.
  split; [exact Hwf|]. split; [exact Hwfo|]. split; [reflexivity|].
  exact (view_equals_as_copy sample_row sample_a Dim.X 1 4 4 true Hwf Hwfo
           eq_refl Z.le_0_1 ltac:(lia) (Z.le_refl 4)).
Defined.
